(** * Amarantine: a shallow embedding of [include/amaranth/amaranth.h]

    The development follows the header top to bottom: result and instruction
    records, character classes, the lexer, the recursive-descent parser, the
    bytecode compiler, the backtracking VM and the [Regex] facade.  Theorems
    about the engine come after the definitions.

    Conventions.
    - [size_t] and [uint32_t] values are [Z], with wrap-around written out
      ([u32], [u64]); [std::string::npos] is [2^64 - 1].
    - [std::string] is [list ascii]; [char] is taken to be signed 8 bit, as
      on x86-64 ([schar] gives the value used in comparisons and integer
      promotions, [code] the [uint8_t] cast).
    - Code that may throw, or that may loop for ever, lives in the [result]
      monad: [Ok], [Throw] (a C++ exception) or [OutOfFuel] (the step budget
      given to the model was not enough). *)

From Stdlib Require Import ZArith List Ascii String Bool Lia.
Import ListNotations.

Open Scope Z_scope.

(* ------------------------------------------------------------------------ *)
(** ** Machine integers, characters, strings *)

Definition u32 (x : Z) : Z := x mod 2 ^ 32.
Definition u64 (x : Z) : Z := x mod 2 ^ 64.
Definition u8 (x : Z) : Z := x mod 2 ^ 8.

Definition UINT32_MAX : Z := 2 ^ 32 - 1.
Definition npos : Z := 2 ^ 64 - 1.

(** [static_cast<uint8_t>(c)] *)
Definition code (c : ascii) : Z := Z.of_N (N_of_ascii c).

(** the value of a (signed) [char] in comparisons and arithmetic *)
Definition schar (c : ascii) : Z :=
  if code c <? 128 then code c else code c - 256.

Definition cstring := list ascii.

Definition str (s : string) : cstring := list_ascii_of_string s.

Definition size (s : cstring) : Z := Z.of_nat (List.length s).

(** [1ULL << n], for a shift count below 64 *)
Definition bit (n : Z) : Z := Z.shiftl 1 n.

(* ------------------------------------------------------------------------ *)
(** ** Exceptions and the result monad *)

(** The exceptions the header can raise: its own [RegexError], and
    [std::out_of_range] from [std::string::substr] and
    [std::string::replace]. *)
Inductive exception : Type :=
| RegexError (msg : string) (position : Z)
| out_of_range.

Inductive result (A : Type) : Type :=
| Ok (a : A)
| Throw (e : exception)
| OutOfFuel.

Arguments Ok {A} a.
Arguments Throw {A} e.
Arguments OutOfFuel {A}.

Definition bind {A B} (m : result A) (k : A -> result B) : result B :=
  match m with
  | Ok a => k a
  | Throw e => Throw e
  | OutOfFuel => OutOfFuel
  end.

Notation "x <- m ;; k" := (bind m (fun x => k))
  (at level 61, m at next level, right associativity).
Notation "' p <- m ;; k" := (bind m (fun p => k))
  (at level 61, p pattern, m at next level, right associativity).

(* ------------------------------------------------------------------------ *)
(** ** Result structure *)

Record Match := mkMatch {
  m_start : Z;
  m_end : Z;
  captured : cstring
}.

Record MatchResult := mkMatchResult {
  matched : bool;
  position : Z;
  matched_text : cstring;
  captures : list Match
}.

(** A default-constructed [MatchResult].  The source leaves [matched] and
    [position] uninitialised; the only place that reads [matched] of such an
    object ([VM::search]) multiplies it, in effect, by the length of the empty
    [matched_text]. *)
Definition MatchResult_default : MatchResult :=
  mkMatchResult false 0 [] [].

(** [MatchResult::length()] *)
Definition mr_length (r : MatchResult) : Z := size (matched_text r).

(** [MatchResult::group(idx)] *)
Definition mr_group (r : MatchResult) (idx : Z) : cstring :=
  if idx =? 0 then matched_text r
  else if (0 <? idx) && (idx <=? Z.of_nat (List.length (captures r))) then
    match nth_error (captures r) (Z.to_nat (idx - 1)) with
    | Some m => captured m
    | None => []
    end
  else [].

(** [MatchResult::group_start(idx)] *)
Definition mr_group_start (r : MatchResult) (idx : Z) : Z :=
  if idx =? 0 then position r
  else if (0 <? idx) && (idx <=? Z.of_nat (List.length (captures r))) then
    match nth_error (captures r) (Z.to_nat (idx - 1)) with
    | Some m => m_start m
    | None => npos
    end
  else npos.

(** [MatchResult::group_end(idx)] *)
Definition mr_group_end (r : MatchResult) (idx : Z) : Z :=
  if idx =? 0 then u64 (position r + mr_length r)
  else if (0 <? idx) && (idx <=? Z.of_nat (List.length (captures r))) then
    match nth_error (captures r) (Z.to_nat (idx - 1)) with
    | Some m => m_end m
    | None => npos
    end
  else npos.

(** [Match::operator bool()] *)
Definition Match_bool (m : Match) : bool := negb (m_start m =? npos).

(* ------------------------------------------------------------------------ *)
(** ** Instruction set *)

Inductive Opcode : Type :=
| CHAR | ANY | RANGE | CLASS | NOT_CLASS | CLASS_PRED | JUMP | SPLIT | SAVE
| MATCH | ANCHOR_START | ANCHOR_END | BACKREF.

(** The C++ record has a union after [operand].  Each opcode reads only the
    member its factory wrote, so the members are separate fields here;
    [charset] and [class_type] share the storage of [charset_low] and are
    read through it. *)
Record Instruction := mkInstruction {
  opcode : Opcode;
  operand : Z;
  ch : ascii;
  lo : ascii;
  hi : ascii;
  charset_low : Z;
  charset_high : Z
}.

Definition Instruction_default : Instruction :=
  mkInstruction CHAR 0 zero zero zero 0 0.

Definition set_opcode (i : Instruction) (o : Opcode) : Instruction :=
  mkInstruction o (operand i) (ch i) (lo i) (hi i) (charset_low i) (charset_high i).
Definition set_operand (i : Instruction) (x : Z) : Instruction :=
  mkInstruction (opcode i) x (ch i) (lo i) (hi i) (charset_low i) (charset_high i).
Definition set_ch (i : Instruction) (c : ascii) : Instruction :=
  mkInstruction (opcode i) (operand i) c (lo i) (hi i) (charset_low i) (charset_high i).
Definition set_charset (i : Instruction) (x : Z) : Instruction :=
  mkInstruction (opcode i) (operand i) (ch i) (lo i) (hi i) x (charset_high i).
Definition set_charset_high (i : Instruction) (x : Z) : Instruction :=
  mkInstruction (opcode i) (operand i) (ch i) (lo i) (hi i) (charset_low i) x.

Module Inst.
Definition Char (c : ascii) : Instruction :=
  set_operand (set_ch (set_opcode Instruction_default CHAR) c) 1.
Definition Any : Instruction :=
  set_operand (set_opcode Instruction_default ANY) 1.
Definition Jump (target : Z) : Instruction :=
  set_operand (set_opcode Instruction_default JUMP) target.
Definition Split (target1 target2 : Z) : Instruction :=
  set_charset (set_operand (set_opcode Instruction_default SPLIT) target1) target2.
Definition Save (group : Z) : Instruction :=
  set_operand (set_opcode Instruction_default SAVE) group.
Definition Match : Instruction :=
  set_opcode Instruction_default MATCH.
Definition AnchorStart : Instruction :=
  set_operand (set_opcode Instruction_default ANCHOR_START) 0.
Definition AnchorEnd : Instruction :=
  set_operand (set_opcode Instruction_default ANCHOR_END) 0.
Definition Class (classbits_low : Z) : Instruction :=
  set_operand
    (set_charset_high (set_charset (set_opcode Instruction_default CLASS) classbits_low) 0) 1.
Definition ClassExt (classbits_low classbits_high : Z) : Instruction :=
  set_operand
    (set_charset_high (set_charset (set_opcode Instruction_default CLASS) classbits_low)
       classbits_high) 1.
Definition NotClass (classbits_low : Z) : Instruction :=
  set_operand
    (set_charset_high (set_charset (set_opcode Instruction_default NOT_CLASS) classbits_low) 0)
    1.
Definition NotClassExt (classbits_low classbits_high : Z) : Instruction :=
  set_operand
    (set_charset_high (set_charset (set_opcode Instruction_default NOT_CLASS) classbits_low)
       classbits_high) 1.
(** [class_type] is an [int] converted to [uint64_t] *)
Definition ClassPred (class_type : Z) : Instruction :=
  set_operand (set_charset (set_opcode Instruction_default CLASS_PRED) (u64 class_type)) 1.
(** [next] defaults to 0, and no caller passes another value *)
Definition Backref (group : Z) : Instruction :=
  set_operand (set_opcode Instruction_default BACKREF) (u32 (Z.lor group (Z.shiftl 0 16))).
End Inst.

Definition CLASS_DIGIT : Z := 0.
Definition CLASS_WORD : Z := 1.
Definition CLASS_SPACE : Z := 2.

(* ------------------------------------------------------------------------ *)
(** ** Character classes *)

Module CharClass.
Local Open Scope char_scope.
Local Open Scope Z_scope.

Definition DIGIT_MASK : Z :=
  Z.lor (bit (code "0")) (Z.lor (bit (code "1")) (Z.lor (bit (code "2"))
 (Z.lor (bit (code "3")) (Z.lor (bit (code "4")) (Z.lor (bit (code "5"))
 (Z.lor (bit (code "6")) (Z.lor (bit (code "7")) (Z.lor (bit (code "8"))
        (bit (code "9")))))))))).

(** space (32), tab (9), form feed (12), CR (13), LF (10), VT (11) *)
Definition SPACE_MASK : Z :=
  Z.lor (bit 32) (Z.lor (bit 9) (Z.lor (bit 12) (Z.lor (bit 13)
 (Z.lor (bit 10) (bit 11))))).

Definition isDigit (c : ascii) : bool :=
  (schar "0" <=? schar c) && (schar c <=? schar "9").
Definition isUpper (c : ascii) : bool :=
  (schar "A" <=? schar c) && (schar c <=? schar "Z").
Definition isLower (c : ascii) : bool :=
  (schar "a" <=? schar c) && (schar c <=? schar "z").
Definition isAlpha (c : ascii) : bool := isUpper c || isLower c.
Definition isWord (c : ascii) : bool :=
  isAlpha c || isDigit c || (schar c =? schar "_").
Definition isSpace (c : ascii) : bool :=
  (schar c =? 32) || (schar c =? 9) || (schar c =? 10) || (schar c =? 13)
  || (schar c =? 12) || (schar c =? 11).
Definition isWordChar (c : ascii) : bool :=
  isAlpha c || isDigit c || (schar c =? schar "_").

Definition inClassExt (low high : Z) (c : ascii) : bool :=
  let uc := code c in
  if uc <? 64 then negb (Z.land low (bit uc) =? 0)
  else if uc <? 128 then negb (Z.land high (bit (uc - 64)) =? 0)
  else false.

Definition inUint64T (mask : Z) (c : ascii) : bool :=
  let uc := code c in
  if uc <? 64 then negb (Z.land mask (bit uc) =? 0) else false.

Definition classMatches (mask : Z) (c : ascii) (classType : Z) : bool :=
  let uc := code c in
  if uc <? 64 then negb (Z.land mask (bit uc) =? 0)
  else if classType =? CLASS_DIGIT then isDigit c
  else if classType =? CLASS_WORD then isWordChar c
  else if classType =? CLASS_SPACE then isSpace c
  else false.
End CharClass.

(* ------------------------------------------------------------------------ *)
(** ** Lexer *)

(** the enumerators of [TokenType], with a prefix that keeps them apart from
    the opcodes of the same name *)
Inductive TokenType : Type :=
| T_UNKNOWN | T_LITERAL | T_DOT | T_LPAREN | T_RPAREN | T_LBRACE | T_RBRACE
| T_LBRACKET | T_RBRACKET | T_PIPE | T_STAR | T_PLUS | T_QUESTION | T_CARET
| T_DOLLAR | T_ESCAPE | T_BACKREF | T_RANGE | T_COMMA.

Definition TokenType_eqb (a b : TokenType) : bool :=
  match a, b with
  | T_UNKNOWN, T_UNKNOWN | T_LITERAL, T_LITERAL | T_DOT, T_DOT
  | T_LPAREN, T_LPAREN | T_RPAREN, T_RPAREN | T_LBRACE, T_LBRACE
  | T_RBRACE, T_RBRACE | T_LBRACKET, T_LBRACKET | T_RBRACKET, T_RBRACKET
  | T_PIPE, T_PIPE | T_STAR, T_STAR | T_PLUS, T_PLUS
  | T_QUESTION, T_QUESTION | T_CARET, T_CARET | T_DOLLAR, T_DOLLAR
  | T_ESCAPE, T_ESCAPE | T_BACKREF, T_BACKREF | T_RANGE, T_RANGE
  | T_COMMA, T_COMMA => true
  | _, _ => false
  end.

Record Token := mkToken {
  type : TokenType;
  value : ascii;
  tok_position : Z
}.

(** [Token(TokenType::UNKNOWN)]: value 0, position 0 *)
Definition Token_unknown : Token := mkToken T_UNKNOWN zero 0.

Module Lexer.
Local Open Scope char_scope.
Local Open Scope Z_scope.

(** The lexer never looks behind [pos_]; its state is the unread suffix of
    [pattern_] together with [pos_].  [nextToken] returns the token and the
    new state. *)
Fixpoint nextToken (rest : cstring) (pos_ : Z) : result (Token * (cstring * Z)) :=
  match rest with
  | [] => Ok (mkToken T_UNKNOWN zero pos_, ([], pos_))
  | c :: rest' =>
      let position := pos_ in
      let pos_ := pos_ + 1 in
      match c with
      | "." => Ok (mkToken T_DOT c position, (rest', pos_))
      | "(" => Ok (mkToken T_LPAREN c position, (rest', pos_))
      | ")" => Ok (mkToken T_RPAREN c position, (rest', pos_))
      | "{" => Ok (mkToken T_LBRACE c position, (rest', pos_))
      | "}" => Ok (mkToken T_RBRACE c position, (rest', pos_))
      | "[" => Ok (mkToken T_LBRACKET c position, (rest', pos_))
      | "]" => Ok (mkToken T_RBRACKET c position, (rest', pos_))
      | "|" => Ok (mkToken T_PIPE c position, (rest', pos_))
      | "*" => Ok (mkToken T_STAR c position, (rest', pos_))
      | "+" => Ok (mkToken T_PLUS c position, (rest', pos_))
      | "?" => Ok (mkToken T_QUESTION c position, (rest', pos_))
      | "^" => Ok (mkToken T_CARET c position, (rest', pos_))
      | "$" => Ok (mkToken T_DOLLAR c position, (rest', pos_))
      | "-" => Ok (mkToken T_RANGE c position, (rest', pos_))
      | "," => Ok (mkToken T_COMMA c position, (rest', pos_))
      | "\" =>
          match rest' with
          | esc :: rest'' => Ok (mkToken T_ESCAPE esc position, (rest'', pos_ + 1))
          | [] => Throw (RegexError "Incomplete escape sequence" position)
          end
      | _ =>
          if Ascii.eqb c " " || Ascii.eqb c "009"
          then nextToken rest' pos_
          else Ok (mkToken T_LITERAL c position, (rest', pos_))
      end
  end.

(** [while (pos_ < pattern_.length()) tokens.push_back(nextToken())].
    Every call of [nextToken] on a non-empty suffix consumes a byte, so the
    loop runs at most [pattern_.length()] times; [fuel] is that bound
    ([LexerFacts.tokenize_total] shows it is never exhausted). *)
Fixpoint tokenizeLoop (fuel : nat) (rest : cstring) (pos_ : Z) : result (list Token) :=
  match rest with
  | [] => Ok []
  | _ :: _ =>
      match fuel with
      | O => OutOfFuel
      | S fuel' =>
          '(tok, (rest', pos') ) <- nextToken rest pos_ ;;
          tokens <- tokenizeLoop fuel' rest' pos' ;;
          Ok (tok :: tokens)
      end
  end.

Definition tokenize (pattern_ : cstring) : result (list Token) :=
  tokenizeLoop (List.length pattern_) pattern_ 0.
End Lexer.

(* ------------------------------------------------------------------------ *)
(** ** AST nodes *)

(** One constructor per [ASTNode::Type], carrying the fields of the C++ node
    that the factories and the parser set for that type.  [Concat] and
    [Alternate] always get exactly two children, [Repeat] and [Group] one.
    [class_type] is [-1] when the class is given by its bit masks. *)
Inductive ASTNode : Type :=
| Literal (ch : ascii)
| Concat (left right : ASTNode)
| Alternate (left right : ASTNode)
| Repeat (child : ASTNode) (minRepeat maxRepeat : Z) (greedy : bool)
| Dot
| Class (classbits classbits_high : Z) (class_type : Z)
| NotClass (classbits classbits_high : Z) (class_type : Z)
| AnchorStart
| AnchorEnd
| Group (child : ASTNode) (groupIndex : Z)
| Backref (groupIndex : Z).

(* ------------------------------------------------------------------------ *)
(** ** Parser *)

Module Parser.
Local Open Scope char_scope.
Local Open Scope Z_scope.

(** The parser only moves forward over [tokens_]: its state is the suffix
    [tokens_[pos_..]] and the capture counter. *)
Record state := mkState {
  rest : list Token;
  currentCapture_ : Z
}.

Definition peek (st : state) : Token :=
  match rest st with
  | t :: _ => t
  | [] => Token_unknown
  end.

Definition consume (st : state) : Token * state :=
  match rest st with
  | t :: r => (t, mkState r (currentCapture_ st))
  | [] => (Token_unknown, st)
  end.

(** [match(type)]; [++pos_] past the end is written as in [consume] *)
Definition match_ (ty : TokenType) (st : state) : bool * state :=
  if TokenType_eqb (type (peek st)) ty
  then (true, mkState (tl (rest st)) (currentCapture_ st))
  else (false, st).

Definition peek_is (ty : TokenType) (c : ascii) (st : state) : bool :=
  TokenType_eqb (type (peek st)) ty && Ascii.eqb (value (peek st)) c.

Definition isQuantifierStart (st : state) : bool :=
  match type (peek st) with
  | T_LITERAL | T_RANGE | T_DOT | T_LPAREN | T_LBRACKET | T_ESCAPE
  | T_CARET | T_DOLLAR => true
  | _ => false
  end.

(** [::isdigit] on a token value *)
Definition isdigit (c : ascii) : bool :=
  (48 <=? schar c) && (schar c <=? 57).

(** The loop of [parseNumber] consumes one token per round. *)
Fixpoint parseNumberLoop (toks : list Token) (result : Z) : Z * list Token :=
  match toks with
  | t :: r =>
      if TokenType_eqb (type t) T_LITERAL && isdigit (value t)
      then parseNumberLoop r (u32 (result * 10 + (schar (value t) - 48)))
      else (result, toks)
  | [] => (result, [])
  end.

Definition parseNumber (st : state) : Z * state :=
  let '(n, r) := parseNumberLoop (rest st) 0 in
  (n, mkState r (currentCapture_ st)).

Definition parseHexDigit (c : ascii) : Z :=
  if (schar "0" <=? schar c) && (schar c <=? schar "9") then u8 (schar c - schar "0")
  else if (schar "a" <=? schar c) && (schar c <=? schar "f") then u8 (schar c - schar "a" + 10)
  else if (schar "A" <=? schar c) && (schar c <=? schar "F") then u8 (schar c - schar "A" + 10)
  else 0.

Definition parseEscape (escTok : Token) : ASTNode :=
  let esc := value escTok in
  match esc with
  | "d" => Class 0 0 CLASS_DIGIT
  | "D" => NotClass 0 0 CLASS_DIGIT
  | "w" => Class 0 0 CLASS_WORD
  | "W" => NotClass 0 0 CLASS_WORD
  | "s" => Class 0 0 CLASS_SPACE
  | "S" => NotClass 0 0 CLASS_SPACE
  | "b" | "B" => Literal "b"
  | "t" => Literal "009"
  | "r" => Literal "013"
  | "n" => Literal "010"
  | "f" => Literal "012"
  | "v" => Literal "011"
  | _ => Literal esc
  end.

(** [if (uc < 64) low |= 1ULL << uc; else if (uc < 128) high |= 1ULL << (uc - 64);] *)
Definition addByte (uc : Z) (masks : Z * Z) : Z * Z :=
  let '(low_mask, high_mask) := masks in
  if uc <? 64 then (Z.lor low_mask (bit uc), high_mask)
  else if uc <? 128 then (low_mask, Z.lor high_mask (bit (uc - 64)))
  else (low_mask, high_mask).

(** [for (int i = c; i <= end_char; ++i)] of the range item, [n] rounds
    starting at [i] *)
Fixpoint addRange (n : nat) (i : Z) (masks : Z * Z) : Z * Z :=
  match n with
  | O => masks
  | S n' => addRange n' (i + 1) (addByte (u8 i) masks)
  end.

(** the [\xHH] loop: at most two [LITERAL] tokens *)
Fixpoint hexDigits (n : nat) (st : state) (value_ : Z) : Z * state :=
  match n with
  | O => (value_, st)
  | S n' =>
      if TokenType_eqb (type (peek st)) T_LITERAL then
        let '(t, st) := consume st in
        hexDigits n' st (u8 (value_ * 16 + parseHexDigit (value t)))
      else (value_, st)
  end.

(** The bits an escape item of a bracket expression contributes:
    [(bits, bits_high)] and the state after it. *)
Definition classEscape (esc : ascii) (st : state) : (Z * Z) * state :=
  match esc with
  | "d" => ((CharClass.DIGIT_MASK, 0), st)
  | "D" => ((CharClass.DIGIT_MASK, 0), st)
  | "w" => ((0, 0), st)
  | "W" => ((0, 0), st)
  | "s" => ((CharClass.SPACE_MASK, 0), st)
  | "S" => ((CharClass.SPACE_MASK, 0), st)
  | "t" => ((bit 9, 0), st)
  | "r" => ((bit 13, 0), st)
  | "n" => ((bit 10, 0), st)
  | "f" => ((bit 12, 0), st)
  | "v" => ((bit 11, 0), st)
  | "a" => ((bit 7, 0), st)
  | "e" => ((bit 27, 0), st)
  | "x" =>
      let '(value_, st) := hexDigits 2 st 0 in
      (addByte value_ (0, 0), st)
  | _ => (addByte (code esc) (0, 0), st)
  end.

(** One round of the item loop of [parseCharacterClass]. *)
Definition classItem (negated : bool) (st : state) (masks : Z * Z) : state * (Z * Z) :=
  let '(low_mask, high_mask) := masks in
  if TokenType_eqb (type (peek st)) T_ESCAPE then
    let '(t, st) := consume st in
    let '((bits, bits_high), st) := classEscape (value t) st in
    if negated
    then (st, (Z.lor low_mask bits, Z.lor high_mask bits_high))
    else (st, (Z.lor low_mask bits, Z.lor high_mask bits_high))
  else
    let '(t, st) := consume st in
    let c := value t in
    if TokenType_eqb (type (peek st)) T_RANGE then
      let '(_, st) := consume st in
      let '(t', st) := consume st in
      let end_char := value t' in
      (st, addRange (Z.to_nat (schar end_char - schar c + 1)) (schar c) masks)
    else (st, addByte (code c) masks).

(** [while (peek().type != RBRACKET && peek().type != UNKNOWN)]: every
    round consumes a token, [fuel] bounds the rounds. *)
Fixpoint classLoop (fuel : nat) (negated : bool) (st : state) (masks : Z * Z)
  : result (state * (Z * Z)) :=
  if TokenType_eqb (type (peek st)) T_RBRACKET
     || TokenType_eqb (type (peek st)) T_UNKNOWN
  then Ok (st, masks)
  else
    match fuel with
    | O => OutOfFuel
    | S fuel' =>
        let '(st, masks) := classItem negated st masks in
        classLoop fuel' negated st masks
    end.

Definition parseCharacterClass (st : state) : result (ASTNode * state) :=
  let '(negated, st) :=
    if TokenType_eqb (type (peek st)) T_CARET
    then (true, snd (consume st))
    else (false, st) in
  '(st, (low_mask, high_mask)) <- classLoop (List.length (rest st)) negated st (0, 0) ;;
  Ok (if negated then NotClass low_mask high_mask (-1)
      else Class low_mask high_mask (-1), st).

(** [uint32_t] to [int], as in the call [ASTNode::Backref(group)] *)
Definition to_int (x : Z) : Z := if x <? 2 ^ 31 then x else x - 2 ^ 32.

Definition closeGroup (msg : string) (t : Token) (r : ASTNode * state)
  : result (ASTNode * state) :=
  let '(node, st) := r in
  let '(ok, st) := match_ T_RPAREN st in
  if negb ok then Throw (RegexError msg (tok_position t))
  else Ok (node, st).

(** The mutually recursive functions of the descent.  Each call spends one
    unit of [fuel]; [while] loops are the [..Loop] functions. *)
Fixpoint parseAlternation (fuel : nat) (st : state) : result (ASTNode * state) :=
  match fuel with
  | O => OutOfFuel
  | S fuel =>
      '(lhs, st) <- parseConcatenation fuel st ;;
      parseAlternationLoop fuel lhs st
  end
with parseAlternationLoop (fuel : nat) (lhs : ASTNode) (st : state)
  : result (ASTNode * state) :=
  match fuel with
  | O => OutOfFuel
  | S fuel =>
      let '(more, st) := match_ T_PIPE st in
      if more then
        '(rhs, st) <- parseConcatenation fuel st ;;
        parseAlternationLoop fuel (Alternate lhs rhs) st
      else Ok (lhs, st)
  end
with parseConcatenation (fuel : nat) (st : state) : result (ASTNode * state) :=
  match fuel with
  | O => OutOfFuel
  | S fuel =>
      '(lhs, st) <- parseQuantifier fuel st ;;
      parseConcatenationLoop fuel lhs st
  end
with parseConcatenationLoop (fuel : nat) (lhs : ASTNode) (st : state)
  : result (ASTNode * state) :=
  match fuel with
  | O => OutOfFuel
  | S fuel =>
      if isQuantifierStart st then
        '(rhs, st) <- parseQuantifier fuel st ;;
        parseConcatenationLoop fuel (Concat lhs rhs) st
      else Ok (lhs, st)
  end
with parseQuantifier (fuel : nat) (st : state) : result (ASTNode * state) :=
  match fuel with
  | O => OutOfFuel
  | S fuel =>
      '(atom, st) <- parseAtom fuel st ;;
      let t := peek st in
      let greedy := true in
      match type t with
      | T_STAR => Ok (Repeat atom 0 UINT32_MAX greedy, snd (consume st))
      | T_PLUS => Ok (Repeat atom 1 UINT32_MAX greedy, snd (consume st))
      | T_QUESTION => Ok (Repeat atom 0 1 greedy, snd (consume st))
      | T_LBRACE =>
          let st := snd (consume st) in
          let '(min, st) := parseNumber st in
          let max := min in
          let '(comma, st) := match_ T_COMMA st in
          let '(max, st) := if comma then parseNumber st else (max, st) in
          let '(closed, st) := match_ T_RBRACE st in
          if negb closed
          then Throw (RegexError "Expected '}' after quantifier" (tok_position t))
          else Ok (Repeat atom min max greedy, st)
      | _ => Ok (atom, st)
      end
  end
with parseAtom (fuel : nat) (st : state) : result (ASTNode * state) :=
  match fuel with
  | O => OutOfFuel
  | S fuel =>
      let '(t, st) := consume st in
      match type t with
      | T_LITERAL => Ok (Literal (value t), st)
      | T_RANGE => Ok (Literal "-", st)
      | T_COMMA => Ok (Literal ",", st)
      | T_DOT => Ok (Dot, st)
      | T_LPAREN =>
          if peek_is T_LITERAL "?" st then
            let st := snd (consume st) in
            if peek_is T_LITERAL ":" st then
              let st := snd (consume st) in
              r <- parseAlternation fuel st ;;
              closeGroup "Expected ')' to close non-capturing group" t r
            else Throw (RegexError "Invalid group modifier" (tok_position t))
          else if peek_is T_LITERAL "=" st then
            let st := snd (consume st) in
            r <- parseAlternation fuel st ;;
            closeGroup "Expected ')' to close lookahead" t r
          else if peek_is T_LITERAL "!" st then
            let st := snd (consume st) in
            r <- parseAlternation fuel st ;;
            closeGroup "Expected ')' to close lookahead" t r
          else
            let st := mkState (rest st) (currentCapture_ st + 1) in
            r <- parseAlternation fuel st ;;
            '(node, st) <- closeGroup "Expected ')' to close group" t r ;;
            Ok (Group node (currentCapture_ st), st)
      | T_LBRACKET =>
          '(classNode, st) <- parseCharacterClass st ;;
          let '(closed, st) := match_ T_RBRACKET st in
          if negb closed
          then Throw (RegexError "Expected ']' to close character class" (tok_position t))
          else Ok (classNode, st)
      | T_ESCAPE => Ok (parseEscape t, st)
      | T_BACKREF =>
          let '(group, st) := parseNumber st in
          Ok (Backref (to_int group), st)
      | T_CARET => Ok (AnchorStart, st)
      | T_DOLLAR => Ok (AnchorEnd, st)
      | _ => Throw (RegexError "Unexpected token" (tok_position t))
      end
  end.

(** Fuel for a whole pattern: the descent is at most four calls deep per
    token ([ParserTotal.parse_total]). *)
Definition parseFuel (tokens_ : list Token) : nat := 4 * List.length tokens_ + 4.

(** [parse()], returning the tree together with [numCaptures()] *)
Definition parse (tokens_ : list Token) : result (ASTNode * Z) :=
  let st := mkState tokens_ 0 in
  '(result, st) <- parseAlternation (parseFuel tokens_) st ;;
  match rest st with
  | t :: _ => Throw (RegexError "Unexpected tokens at end of pattern" (tok_position t))
  | [] => Ok (result, currentCapture_ st)
  end.
End Parser.

(* ------------------------------------------------------------------------ *)
(** ** Compiler *)

(** [v[n] = f(v[n])] on a vector.  An index past the end is undefined
    behaviour in C++; the model leaves the list as it is. *)
Fixpoint update {A} (n : nat) (f : A -> A) (l : list A) : list A :=
  match l, n with
  | [], _ => []
  | x :: l', O => f x :: l'
  | x :: l', S n' => x :: update n' f l'
  end.

Module Compiler.
Definition emit (inst : Instruction) (instructions_ : list Instruction) :=
  instructions_ ++ [inst].

(** [uint32_t pos = instructions_.size()] *)
Definition here (instructions_ : list Instruction) : Z :=
  u32 (Z.of_nat (List.length instructions_)).

Definition patchOperand (pos target : Z) (instructions_ : list Instruction) :=
  update (Z.to_nat pos) (fun i => set_operand i target) instructions_.

Definition patchCharset (pos target : Z) (instructions_ : list Instruction) :=
  update (Z.to_nat pos) (fun i => set_charset i target) instructions_.

(** [compileNode], threading [instructions_]. *)
Fixpoint compileNode (node : ASTNode) (instructions_ : list Instruction)
  : list Instruction :=
  match node with
  | Literal c => emit (Inst.Char c) instructions_
  | Dot => emit Inst.Any instructions_
  | Class classbits classbits_high class_type =>
      if 0 <=? class_type then emit (Inst.ClassPred class_type) instructions_
      else if negb (classbits_high =? 0)
      then emit (Inst.ClassExt classbits classbits_high) instructions_
      else emit (Inst.Class classbits) instructions_
  | NotClass classbits classbits_high class_type =>
      if 0 <=? class_type
      then emit (Inst.ClassPred (Z.lor class_type 16)) instructions_
      else if negb (classbits_high =? 0)
      then emit (Inst.NotClassExt classbits classbits_high) instructions_
      else emit (Inst.NotClass classbits) instructions_
  | AnchorStart => emit Inst.AnchorStart instructions_
  | AnchorEnd => emit Inst.AnchorEnd instructions_
  | Concat l r => compileNode r (compileNode l instructions_)
  | Alternate l r =>
      let splitPos := here instructions_ in
      let instructions_ := emit (Inst.Split 0 0) instructions_ in
      let instructions_ := compileNode l instructions_ in
      let jumpPos := here instructions_ in
      let instructions_ := emit (Inst.Jump 0) instructions_ in
      let instructions_ := patchOperand splitPos (u32 (splitPos + 1)) instructions_ in
      let instructions_ := patchCharset splitPos (u32 (jumpPos + 1)) instructions_ in
      let instructions_ := compileNode r instructions_ in
      patchOperand jumpPos (here instructions_) instructions_
  | Repeat child min max _ =>
      if max =? UINT32_MAX then
        if min =? 0 then
          (* star: SPLIT(body, after) body JUMP(SPLIT) *)
          let splitPos := here instructions_ in
          let instructions_ := emit (Inst.Split 0 0) instructions_ in
          let bodyStart := u32 (splitPos + 1) in
          let instructions_ := compileNode child instructions_ in
          let jumpPos := here instructions_ in
          let instructions_ := emit (Inst.Jump 0) instructions_ in
          let instructions_ := patchOperand splitPos bodyStart instructions_ in
          let instructions_ := patchCharset splitPos (u32 (jumpPos + 1)) instructions_ in
          patchOperand jumpPos splitPos instructions_
        else
          (* plus: body SPLIT(body, after) body JUMP(SPLIT) *)
          let instructions_ := compileNode child instructions_ in
          let splitPos := here instructions_ in
          let instructions_ := emit (Inst.Split 0 0) instructions_ in
          let repeatStart := u32 (splitPos + 1) in
          let instructions_ := compileNode child instructions_ in
          let jumpPos := here instructions_ in
          let instructions_ := emit (Inst.Jump 0) instructions_ in
          let instructions_ := patchOperand splitPos repeatStart instructions_ in
          let instructions_ := patchCharset splitPos (u32 (jumpPos + 1)) instructions_ in
          patchOperand jumpPos splitPos instructions_
      else if (max =? 1) && (min =? 0) then
        (* question mark: SPLIT(body, after) body *)
        let splitPos := here instructions_ in
        let instructions_ := emit (Inst.Split 0 0) instructions_ in
        let bodyStart := u32 (splitPos + 1) in
        let instructions_ := compileNode child instructions_ in
        let instructions_ := patchOperand splitPos bodyStart instructions_ in
        patchCharset splitPos (here instructions_) instructions_
      else if max =? 1 then
        compileNode child instructions_
      else
        (* for (uint32_t i = 0; i < min; ++i) compileNode(child) *)
        Nat.iter (Z.to_nat min) (compileNode child) instructions_
  | Group child groupIndex =>
      let groupIdx := u32 groupIndex in
      let instructions_ := emit (Inst.Save (u32 (groupIdx * 2))) instructions_ in
      let instructions_ := compileNode child instructions_ in
      emit (Inst.Save (u32 (groupIdx * 2 + 1))) instructions_
  | Backref groupIndex => emit (Inst.Backref (u32 groupIndex)) instructions_
  end.

(** [numCaptures] only sets [captureCount_], which nothing reads. *)
Definition compile (root : ASTNode) (numCaptures : Z) : list Instruction :=
  emit Inst.Match (compileNode root []).
End Compiler.

(* ------------------------------------------------------------------------ *)
(** ** Virtual machine *)

(** [std::string::substr(pos, n)] *)
Definition substr (s : cstring) (pos n : Z) : result cstring :=
  if size s <? pos then Throw out_of_range
  else Ok (firstn (Z.to_nat (Z.min n (size s - pos))) (skipn (Z.to_nat pos) s)).

(** [std::string::replace(pos, len, repl)] *)
Definition string_replace (s : cstring) (pos len : Z) (repl : cstring) : result cstring :=
  if size s <? pos then Throw out_of_range
  else
    let len := Z.min len (size s - pos) in
    Ok (firstn (Z.to_nat pos) s ++ repl ++ skipn (Z.to_nat (pos + len)) s).

Module VM.
Record BacktrackPoint := mkBacktrackPoint {
  bp_pc : Z;
  bp_textPos : Z;
  savedCaptures : list Z
}.

(** The locals of [executeAt] together with the members it mutates.  The
    top of [backtrackStack_] is the head of the list.  [hasCapture_] is
    written and never read, and left out.  [textPos] is only ever
    incremented.  [advance] writes the increment without wrap-around: it is
    [++textPos] on every state with [textPos < 2^64 - 1].  [step64],
    [run64] and [executeAt64] at the end of this module take the increment
    modulo [2^64]; the statements about start offsets beyond the text are
    made of them. *)
Record state := mkState {
  pc : Z;
  textPos : Z;
  captures_ : list Z;
  backtrackStack_ : list BacktrackPoint
}.

(** [captures_[i]], [captures_[i] = v] *)
Definition cap (captures_ : list Z) (i : nat) : Z := nth i captures_ npos.
Definition setcap (captures_ : list Z) (i : nat) (v : Z) : list Z :=
  update i (fun _ => v) captures_.

(** [text[textPos]] for [textPos < textLen] *)
Definition at_ (text : cstring) (textPos : Z) : ascii :=
  nth (Z.to_nat textPos) text zero.

(** What one round of the dispatch [switch] does. *)
Inductive step_result : Type :=
| Next (st : state)              (* [break]: go round the inner loop *)
| Fail                           (* [goto fail] *)
| Accept (captures_ : list Z).   (* [matched = true] *)

Definition advance (st : state) : step_result :=
  Next (mkState (pc st + 1) (textPos st + 1) (captures_ st) (backtrackStack_ st)).

Definition step (text : cstring) (inst : Instruction) (st : state) : step_result :=
  let textLen := size text in
  let textPos := textPos st in
  match opcode inst with
  | CHAR =>
      if (textPos <? textLen) && Ascii.eqb (at_ text textPos) (ch inst)
      then advance st else Fail
  | ANY =>
      if textPos <? textLen then advance st else Fail
  | RANGE =>
      if (textPos <? textLen) && (schar (lo inst) <=? schar (at_ text textPos))
         && (schar (at_ text textPos) <=? schar (hi inst))
      then advance st else Fail
  | CLASS =>
      if (textPos <? textLen)
         && CharClass.inClassExt (charset_low inst) (charset_high inst) (at_ text textPos)
      then advance st else Fail
  | NOT_CLASS =>
      if (textPos <? textLen)
         && negb (CharClass.inClassExt (charset_low inst) (charset_high inst)
                    (at_ text textPos))
      then advance st else Fail
  | CLASS_PRED =>
      let class_type := charset_low inst in
      let negated := negb (Z.land class_type 16 =? 0) in
      let base_type := Z.land class_type 15 in
      let c := if textPos <? textLen then at_ text textPos else zero in
      let pred_matched :=
        if base_type =? CLASS_DIGIT then (textPos <? textLen) && CharClass.isDigit c
        else if base_type =? CLASS_WORD then (textPos <? textLen) && CharClass.isWordChar c
        else if base_type =? CLASS_SPACE then (textPos <? textLen) && CharClass.isSpace c
        else false in
      let pred_matched := if negated then negb pred_matched else pred_matched in
      if pred_matched then advance st else Fail
  | JUMP =>
      Next (mkState (operand inst) textPos (captures_ st) (backtrackStack_ st))
  | SPLIT =>
      let bp := mkBacktrackPoint (u32 (charset_low inst)) textPos (captures_ st) in
      Next (mkState (operand inst) textPos (captures_ st) (bp :: backtrackStack_ st))
  | SAVE =>
      let group := Z.land (operand inst) 65535 in
      let next := Z.shiftr (operand inst) 16 in
      Next (mkState (if 0 <? next then next else pc st + 1) textPos
              (setcap (captures_ st) (Z.to_nat group) textPos) (backtrackStack_ st))
  | MATCH => Accept (setcap (captures_ st) 1 textPos)
  | ANCHOR_START =>
      if textPos =? 0
      then Next (mkState (pc st + 1) textPos (captures_ st) (backtrackStack_ st))
      else Fail
  | ANCHOR_END =>
      if textPos =? textLen
      then Next (mkState (pc st + 1) textPos (captures_ st) (backtrackStack_ st))
      else Fail
  | BACKREF => Fail
  end.

(** [instructions_[pc]] when [pc < instructions_.size()] *)
Definition fetch (instructions_ : list Instruction) (pc : Z) : option Instruction :=
  if pc <? 0 then None else nth_error instructions_ (Z.to_nat pc).

(** ** [buildResult] *)

Definition valid_span (captures_ : list Z) (i : nat) : bool :=
  negb (cap captures_ (i * 2) =? npos) && negb (cap captures_ (i * 2 + 1) =? npos).

(** the test of the inner loop of [buildResult], at [j], for group [i] *)
Definition covers (captures_ : list Z) (is_contained : list bool) (i j : nat) : bool :=
  if (i =? j)%nat || nth j is_contained false then false
  else if negb (valid_span captures_ j) then false
  else
    let i_start := cap captures_ (i * 2) in
    let i_end := cap captures_ (i * 2 + 1) in
    let j_start := cap captures_ (j * 2) in
    let j_end := cap captures_ (j * 2 + 1) in
    (j_start <=? i_start) && (i_end <=? j_end)
    && ((j_start <? i_start) || (i_end <? j_end)).

(** the groups [1 .. captureCount_ - 1], in loop order *)
Definition groups (captureCount_ : nat) : list nat := seq 1 (captureCount_ - 1).

(** the outer loop: [is_contained[i] = true] as soon as some [j] covers [i] *)
Definition markContained (captures_ : list Z) (captureCount_ : nat) : list bool :=
  fold_left
    (fun is_contained i =>
       if valid_span captures_ i
       then if existsb (covers captures_ is_contained i) (groups captureCount_)
            then update i (fun _ => true) is_contained
            else is_contained
       else is_contained)
    (groups captureCount_) (List.repeat false captureCount_).

Definition reportGroup (text : cstring) (captures_ : list Z) (i : nat) : result Match :=
  let start := cap captures_ (i * 2) in
  let end_ := cap captures_ (i * 2 + 1) in
  if negb (start =? npos) && negb (end_ =? npos) && (start <? end_)
  then sub <- substr text start (u64 (end_ - start)) ;; Ok (mkMatch start end_ sub)
  else Ok (mkMatch npos npos []).

Fixpoint reportGroups (text : cstring) (captures_ : list Z) (is_contained : list bool)
  (gs : list nat) : result (list Match) :=
  match gs with
  | [] => Ok []
  | i :: gs' =>
      if negb (nth i is_contained false) then
        m <- reportGroup text captures_ i ;;
        ms <- reportGroups text captures_ is_contained gs' ;;
        Ok (m :: ms)
      else reportGroups text captures_ is_contained gs'
  end.

Definition buildResult (captureCount_ : nat) (text : cstring) (captures_ : list Z)
  : result MatchResult :=
  let position := cap captures_ 0 in
  let length := u64 (cap captures_ 1 - cap captures_ 0) in
  matched_text <- substr text (cap captures_ 0) length ;;
  let is_contained := markContained captures_ captureCount_ in
  caps <- reportGroups text captures_ is_contained (groups captureCount_) ;;
  Ok (mkMatchResult true position matched_text caps).

(** ** [executeAt]

    The two nested loops of the source, one instruction or one backtrack
    per unit of [fuel].  Running off the end of the program leaves the
    inner loop with [matched] false and falls into [fail:]. *)
Definition backtrack (st : state) : option state :=
  match backtrackStack_ st with
  | [] => None
  | bp :: stack => Some (mkState (bp_pc bp) (bp_textPos bp) (savedCaptures bp) stack)
  end.

Fixpoint run (fuel : nat) (instructions_ : list Instruction) (captureCount_ : nat)
  (text : cstring) (st : state) : result (option MatchResult) :=
  match fuel with
  | O => OutOfFuel
  | S fuel =>
      let r := match fetch instructions_ (pc st) with
               | Some inst => step text inst st
               | None => Fail
               end in
      match r with
      | Next st' => run fuel instructions_ captureCount_ text st'
      | Accept captures_ =>
          result <- buildResult captureCount_ text captures_ ;; Ok (Some result)
      | Fail =>
          match backtrack st with
          | None => Ok None
          | Some st' => run fuel instructions_ captureCount_ text st'
          end
      end
  end.

Definition initial (captureCount_ : nat) (pos : Z) : state :=
  mkState 0 pos (setcap (List.repeat npos (captureCount_ * 2)) 0 pos) [].

(** [Ok None] is [return false]; [Ok (Some r)] is [return true] with
    [result = r]. *)
Definition executeAt (fuel : nat) (instructions_ : list Instruction) (captureCount_ : nat)
  (text : cstring) (pos : Z) : result (option MatchResult) :=
  run fuel instructions_ captureCount_ text (initial captureCount_ pos).

(** ** [search]

    [rounds] bounds the [for] loop, which moves [pos] up by one in every
    round that does not return. *)
Fixpoint searchLoop (rounds : nat) (fuel : nat) (instructions_ : list Instruction)
  (captureCount_ : nat) (text : cstring) (pos prevMatchLen : Z)
  : result (option MatchResult) :=
  let textLen := size text in
  if pos <=? textLen then
    match rounds with
    | O => OutOfFuel
    | S rounds =>
        r <- executeAt fuel instructions_ captureCount_ text pos ;;
        match r with
        | Some tempResult =>
            let matchLen := mr_length tempResult in
            if (matchLen =? 0) && (matchLen =? prevMatchLen) && (pos <? textLen) then
              let pos := pos + 1 in
              let prevMatchLen :=
                if (pos <? textLen) && matched tempResult
                then mr_length tempResult else 0 in
              searchLoop rounds fuel instructions_ captureCount_ text pos prevMatchLen
            else Ok (Some tempResult)
        | None =>
            let tempResult := MatchResult_default in
            let pos := pos + 1 in
            let prevMatchLen :=
              if (pos <? textLen) && matched tempResult
              then mr_length tempResult else 0 in
            searchLoop rounds fuel instructions_ captureCount_ text pos prevMatchLen
        end
    end
  else Ok None.

Definition search (fuel : nat) (instructions_ : list Instruction) (captureCount_ : nat)
  (text : cstring) (start : Z) : result (option MatchResult) :=
  searchLoop (Z.to_nat (size text + 1 - start)) fuel instructions_ captureCount_
    text start 0.

(** ** The text position as a [size_t]

    A start offset is whatever [size_t] the caller passes, and [++textPos]
    takes [2^64 - 1] to 0.  [step64], [run64] and [executeAt64] are
    [step], [run] and [executeAt] with that increment.  On a state with
    [textPos < 2^64 - 1] the two take the same step. *)
Definition advance64 (st : state) : step_result :=
  Next (mkState (pc st + 1) (u64 (textPos st + 1)) (captures_ st) (backtrackStack_ st)).

Definition step64 (text : cstring) (inst : Instruction) (st : state) : step_result :=
  let textLen := size text in
  let textPos := textPos st in
  match opcode inst with
  | CHAR =>
      if (textPos <? textLen) && Ascii.eqb (at_ text textPos) (ch inst)
      then advance64 st else Fail
  | ANY =>
      if textPos <? textLen then advance64 st else Fail
  | RANGE =>
      if (textPos <? textLen) && (schar (lo inst) <=? schar (at_ text textPos))
         && (schar (at_ text textPos) <=? schar (hi inst))
      then advance64 st else Fail
  | CLASS =>
      if (textPos <? textLen)
         && CharClass.inClassExt (charset_low inst) (charset_high inst) (at_ text textPos)
      then advance64 st else Fail
  | NOT_CLASS =>
      if (textPos <? textLen)
         && negb (CharClass.inClassExt (charset_low inst) (charset_high inst)
                    (at_ text textPos))
      then advance64 st else Fail
  | CLASS_PRED =>
      let class_type := charset_low inst in
      let negated := negb (Z.land class_type 16 =? 0) in
      let base_type := Z.land class_type 15 in
      let c := if textPos <? textLen then at_ text textPos else zero in
      let pred_matched :=
        if base_type =? CLASS_DIGIT then (textPos <? textLen) && CharClass.isDigit c
        else if base_type =? CLASS_WORD then (textPos <? textLen) && CharClass.isWordChar c
        else if base_type =? CLASS_SPACE then (textPos <? textLen) && CharClass.isSpace c
        else false in
      let pred_matched := if negated then negb pred_matched else pred_matched in
      if pred_matched then advance64 st else Fail
  | JUMP =>
      Next (mkState (operand inst) textPos (captures_ st) (backtrackStack_ st))
  | SPLIT =>
      let bp := mkBacktrackPoint (u32 (charset_low inst)) textPos (captures_ st) in
      Next (mkState (operand inst) textPos (captures_ st) (bp :: backtrackStack_ st))
  | SAVE =>
      let group := Z.land (operand inst) 65535 in
      let next := Z.shiftr (operand inst) 16 in
      Next (mkState (if 0 <? next then next else pc st + 1) textPos
              (setcap (captures_ st) (Z.to_nat group) textPos) (backtrackStack_ st))
  | MATCH => Accept (setcap (captures_ st) 1 textPos)
  | ANCHOR_START =>
      if textPos =? 0
      then Next (mkState (pc st + 1) textPos (captures_ st) (backtrackStack_ st))
      else Fail
  | ANCHOR_END =>
      if textPos =? textLen
      then Next (mkState (pc st + 1) textPos (captures_ st) (backtrackStack_ st))
      else Fail
  | BACKREF => Fail
  end.

Fixpoint run64 (fuel : nat) (instructions_ : list Instruction) (captureCount_ : nat)
  (text : cstring) (st : state) : result (option MatchResult) :=
  match fuel with
  | O => OutOfFuel
  | S fuel =>
      let r := match fetch instructions_ (pc st) with
               | Some inst => step64 text inst st
               | None => Fail
               end in
      match r with
      | Next st' => run64 fuel instructions_ captureCount_ text st'
      | Accept captures_ =>
          result <- buildResult captureCount_ text captures_ ;; Ok (Some result)
      | Fail =>
          match backtrack st with
          | None => Ok None
          | Some st' => run64 fuel instructions_ captureCount_ text st'
          end
      end
  end.

Definition executeAt64 (fuel : nat) (instructions_ : list Instruction)
  (captureCount_ : nat) (text : cstring) (pos : Z) : result (option MatchResult) :=
  run64 fuel instructions_ captureCount_ text (initial captureCount_ pos).
End VM.

(* ------------------------------------------------------------------------ *)
(** ** The [Regex] class *)

(** [flags_] is stored and never read; [engine_] is the VM over
    [instructions_] with [numCaptures_ + 1] capture pairs. *)
Record Regex := mkRegex {
  pattern_ : cstring;
  instructions_ : list Instruction;
  compiled_ : bool;
  numCaptures_ : Z
}.

(** The constructor, through the private [Regex::compile()]; this is also
    the factory [amaranth::compile(pattern)]. *)
Definition compile (pattern : cstring) : result Regex :=
  tokens <- Lexer.tokenize pattern ;;
  '(ast, numCaptures) <- Parser.parse tokens ;;
  Ok (mkRegex pattern (Compiler.compile ast numCaptures) true numCaptures).

Module RegexM.
Local Open Scope char_scope.
Local Open Scope Z_scope.

(** the [captureCount] handed to the [VM] constructor *)
Definition captureCount (re : Regex) : nat := Z.to_nat (numCaptures_ re + 1).

Definition executeAt (fuel : nat) (re : Regex) (text : cstring) (pos : Z) :=
  VM.executeAt fuel (instructions_ re) (captureCount re) text pos.

(** [match(text, result, start)] *)
Definition match_ (fuel : nat) (re : Regex) (text : cstring) (start : Z)
  : result (option MatchResult) :=
  if negb (compiled_ re) then Ok None
  else executeAt fuel re text start.

(** [match(text, result, start)] for any [size_t] [start]: [match_] over
    [VM.executeAt64] *)
Definition match64 (fuel : nat) (re : Regex) (text : cstring) (start : Z)
  : result (option MatchResult) :=
  if negb (compiled_ re) then Ok None
  else VM.executeAt64 fuel (instructions_ re) (captureCount re) text start.

(** [search(text, result, start)] *)
Definition search (fuel : nat) (re : Regex) (text : cstring) (start : Z)
  : result (option MatchResult) :=
  if negb (compiled_ re) then Ok None
  else VM.search fuel (instructions_ re) (captureCount re) text start.

(** The [while (pos <= textLen)] loop of [searchAll]; every round moves
    [pos] up, [rounds] bounds their number. *)
Fixpoint searchAllLoop (rounds : nat) (fuel : nat) (re : Regex) (text : cstring)
  (pos prevMatchLen : Z) : result (list MatchResult) :=
  let textLen := size text in
  if pos <=? textLen then
    match rounds with
    | O => OutOfFuel
    | S rounds =>
        r <- executeAt fuel re text pos ;;
        match r with
        | Some result =>
            let matchLen := mr_length result in
            if (matchLen =? 0) && (matchLen =? prevMatchLen) && (pos <? textLen) then
              searchAllLoop rounds fuel re text (pos + 1) prevMatchLen
            else
              let pos := position result
                         + (if 0 <? mr_length result then mr_length result else 1) in
              results <- searchAllLoop rounds fuel re text pos matchLen ;;
              Ok (result :: results)
        | None => searchAllLoop rounds fuel re text (pos + 1) 0
        end
    end
  else Ok [].

Definition searchAll (fuel : nat) (re : Regex) (text : cstring)
  : result (list MatchResult) :=
  if negb (compiled_ re) then Ok []
  else searchAllLoop (Z.to_nat (size text + 1)) fuel re text 0 0.

Definition isdigit (c : ascii) : bool := (48 <=? schar c) && (schar c <=? 57).

(** [expandReplacement]: the index loop reads one byte, or two after a
    backslash or a dollar that is not the last byte. *)
Fixpoint expandReplacement (repl : cstring) (m : MatchResult) : cstring :=
  match repl with
  | [] => []
  | c :: rest =>
      match rest with
      | next :: rest' =>
          if Ascii.eqb c "\" then
            (if isdigit next then mr_group m (schar next - schar "0")
             else match next with
                  | "n" => ["010"]
                  | "r" => ["013"]
                  | "t" => ["009"]
                  | _ => [next]
                  end) ++ expandReplacement rest' m
          else if Ascii.eqb c "$" then
            (if isdigit next then mr_group m (schar next - schar "0")
             else ["$"; next]) ++ expandReplacement rest' m
          else c :: expandReplacement rest m
      | [] => [c]
      end
  end.

(** The [while (pos < result.length())] loop of [replace].  Every round
    shortens the unread part of [result], [rounds] bounds their number. *)
Fixpoint replaceLoop (rounds : nat) (fuel : nat) (re : Regex) (replacement : cstring)
  (result_ : cstring) (pos : Z) : result cstring :=
  if pos <? size result_ then
    match rounds with
    | O => OutOfFuel
    | S rounds =>
        r <- search fuel re result_ pos ;;
        match r with
        | Some m =>
            let repl := expandReplacement replacement m in
            result_ <- string_replace result_ (position m) (mr_length m) repl ;;
            replaceLoop rounds fuel re replacement result_ (position m + size repl)
        | None => Ok result_
        end
    end
  else Ok result_.

Definition replace (fuel : nat) (re : Regex) (text replacement : cstring) (all : bool)
  : result cstring :=
  if negb (compiled_ re) then Ok text
  else if all then replaceLoop (List.length text) fuel re replacement text 0
  else
    r <- search fuel re text 0 ;;
    match r with
    | Some m =>
        let repl := expandReplacement replacement m in
        string_replace text (position m) (mr_length m) repl
    | None => Ok text
    end.

(** [match(text)], which drops the result *)
Definition match_text (fuel : nat) (re : Regex) (text : cstring) : result bool :=
  if negb (compiled_ re) then Ok false
  else
    r <- executeAt fuel re text 0 ;;
    Ok (match r with Some _ => true | None => false end).
End RegexM.

(** The free functions of the namespace: each builds a [Regex] from the
    pattern and calls one member. *)
Module amaranth.
Definition matches (fuel : nat) (text pattern : cstring) : result bool :=
  regex <- compile pattern ;;
  RegexM.match_text fuel regex text.

Definition search (fuel : nat) (text pattern : cstring) : result (list MatchResult) :=
  regex <- compile pattern ;;
  RegexM.searchAll fuel regex text.

Definition replace (fuel : nat) (text pattern replacement : cstring) (all : bool)
  : result cstring :=
  regex <- compile pattern ;;
  RegexM.replace fuel regex text replacement all.
End amaranth.

Local Open Scope char_scope.
Local Open Scope Z_scope.

(* ======================================================================== *)
(** * Vocabulary of the statements *)

(** [s] ends in a backslash *)
Definition ends_in_backslash (s : cstring) : bool :=
  match rev s with
  | c :: _ => Ascii.eqb c "\"
  | [] => false
  end.

(** [child] written [n + 1] times in a row, as a left-leaning CONCAT chain *)
Fixpoint times (child : ASTNode) (n : nat) : ASTNode :=
  match n with
  | O => child
  | S n' => Concat (times child n') child
  end.

(** The instruction at [pc] fails in state [st]: the [switch] of [executeAt]
    takes [goto fail], or the inner loop ends because [pc] is past the end
    of the program. *)
Definition fails (instructions_ : list Instruction) (text : cstring) (st : VM.state)
  : Prop :=
  match VM.fetch instructions_ (VM.pc st) with
  | Some inst => VM.step text inst st = VM.Fail
  | None => True
  end.

(** Containment of spans as in the comment of [buildResult]: [i] lies in
    [j] and the two are not equal. *)
Definition strictly_contained (i j : Match) : Prop :=
  m_start j <= m_start i /\ m_end i <= m_end j
  /\ (m_start j < m_start i \/ m_end i < m_end j).

(** [search] goes past offset [q]: [executeAt] found nothing there, or found
    an empty match before the end of the text. *)
Definition passed_over (fuel : nat) (re : Regex) (text : cstring) (q : Z) : Prop :=
  RegexM.executeAt fuel re text q = Ok None
  \/ exists r, RegexM.executeAt fuel re text q = Ok (Some r)
               /\ mr_length r = 0 /\ q < size text.

(** [pattern[p]], when [p] is an offset into [pattern] *)
Definition byte_at (s : cstring) (p : Z) : option ascii :=
  if p <? 0 then None else nth_error s (Z.to_nat p).

(** What a token says about the pattern it was read from. *)
Definition token_source (pattern : cstring) (t : Token) : Prop :=
  match type t with
  | T_UNKNOWN => value t = zero /\ tok_position t = size pattern
  | T_ESCAPE =>
      byte_at pattern (tok_position t) = Some "\"
      /\ byte_at pattern (tok_position t + 1) = Some (value t)
  | T_BACKREF => False
  | _ => byte_at pattern (tok_position t) = Some (value t)
  end.

(** Every [Group] node of the tree has an index between 1 and [n], and the
    tree has no [Backref] node. *)
Fixpoint well_numbered (n : Z) (node : ASTNode) : Prop :=
  match node with
  | Concat l r | Alternate l r => well_numbered n l /\ well_numbered n r
  | Repeat child _ _ _ => well_numbered n child
  | Group child groupIndex => 1 <= groupIndex <= n /\ well_numbered n child
  | Backref _ => False
  | _ => True
  end.

(** What the operands of an instruction at home in a block may be: jump and
    split targets between [lo] and [hi], capture slots from 2 to [2 n + 1];
    the block has no [MATCH], [BACKREF] or [RANGE]. *)
Definition targets_in (lo hi n : Z) (inst : Instruction) : Prop :=
  match opcode inst with
  | JUMP => lo <= operand inst <= hi
  | SPLIT => lo <= operand inst <= hi /\ lo <= charset_low inst <= hi
  | SAVE => 2 <= operand inst <= 2 * n + 1
  | MATCH | BACKREF | RANGE => False
  | _ => True
  end.

(** [text.substr(from, to - from)] *)
Definition slice (text : cstring) (from to_ : Z) : cstring :=
  firstn (Z.to_nat (Z.min (to_ - from) (size text - from))) (skipn (Z.to_nat from) text).

(** An entry of [MatchResult::captures] for a match from [start] to [e]:
    the unset entry, or a span that is not empty, lies between [start] and
    [e], and carries the text it spans. *)
Definition capture_within (text : cstring) (start e : Z) (c : Match) : Prop :=
  c = mkMatch npos npos []
  \/ (start <= m_start c /\ m_start c < m_end c /\ m_end c <= e
      /\ m_start c <= size text
      /\ captured c = slice text (m_start c) (m_end c)).

(** the number of [Group] nodes of a tree *)
Fixpoint count_groups (node : ASTNode) : Z :=
  match node with
  | Concat l r | Alternate l r => count_groups l + count_groups r
  | Repeat child _ _ _ => count_groups child
  | Group child _ => 1 + count_groups child
  | _ => 0
  end.

(** The indices of the groups of a tree parsed with the capture counter at
    [base]: a group takes the value the counter has at its closing
    parenthesis, which is [base] plus the number of groups opened up to
    there, itself included. *)
Fixpoint numbered_from (base : Z) (node : ASTNode) : Prop :=
  match node with
  | Concat l r | Alternate l r =>
      numbered_from base l /\ numbered_from (base + count_groups l) r
  | Repeat child _ _ _ => numbered_from base child
  | Group child groupIndex =>
      numbered_from (base + 1) child /\ groupIndex = base + 1 + count_groups child
  | _ => True
  end.

(** a [LITERAL] token holding a decimal digit *)
Definition digit_token (t : Token) : Prop :=
  type t = T_LITERAL /\ Parser.isdigit (value t) = true.

(** the number [parseNumber] reads from a run of digit tokens *)
Definition number (ds : list Token) : Z :=
  fold_left (fun result t => u32 (result * 10 + (schar (value t) - 48))) ds 0.

(** a byte the lexer reads as a [LITERAL]: no metacharacter, no blank *)
Definition literal_byte (c : ascii) : bool :=
  negb (existsb (Ascii.eqb c) (str ".(){}[]|*+?^$-,\ ") || Ascii.eqb c "009").

(** [l] begins with the bytes of [p] *)
Fixpoint starts_with (p l : cstring) : bool :=
  match p, l with
  | [], _ => true
  | c :: p', d :: l' => Ascii.eqb d c && starts_with p' l'
  | _ :: _, [] => false
  end.

(** the number of bytes [c] that [l] begins with *)
Fixpoint leading (c : ascii) (l : cstring) : nat :=
  match l with
  | d :: l' => if Ascii.eqb d c then S (leading c l') else O
  | [] => O
  end.

(** an [ESCAPE] token for [\D], [\W] or [\S] *)
Definition negated_class_escape (t : Token) : bool :=
  TokenType_eqb (type t) T_ESCAPE
  && (Ascii.eqb (value t) "D" || Ascii.eqb (value t) "W" || Ascii.eqb (value t) "S").

(** [\D], [\W], [\S] rewritten to [\d], [\w], [\s]; every other token as it
    is *)
Definition lower_escape (t : Token) : Token :=
  if negated_class_escape t
  then mkToken T_ESCAPE
         (if Ascii.eqb (value t) "D" then "d"
          else if Ascii.eqb (value t) "W" then "w" else "s")
         (tok_position t)
  else t.

(** No [\D], [\W] or [\S] of the list comes third in a run "token that is
    no escape, dash, token": the place where the item loop of a bracket
    expression reads whatever token it finds as the end of a range. *)
Fixpoint no_escape_range_end (ts : list Token) : bool :=
  match ts with
  | [] => true
  | t :: r =>
      match r with
      | d :: e :: _ =>
          negb (negb (TokenType_eqb (type t) T_ESCAPE)
                && TokenType_eqb (type d) T_RANGE && negated_class_escape e)
      | _ => true
      end && no_escape_range_end r
  end.

(** a token that does not end the item loop of a bracket expression *)
Definition inner_token (t : Token) : Prop :=
  type t <> T_RBRACKET /\ type t <> T_UNKNOWN.

(** The instruction of a negated class escape outside brackets ([\D], [\W],
    [\S]): a [CLASS_PRED] whose [class_type] has bit [0x10] set. *)
Definition negated_pred (inst : Instruction) : bool :=
  match opcode inst with
  | CLASS_PRED => negb (Z.land (charset_low inst) 16 =? 0)
  | _ => false
  end.

(** A tree without the node of a negated class escape: a [NotClass] carries
    bit masks only, and a [Class] bit masks or one of the three class
    types. *)
Fixpoint plain_classes (node : ASTNode) : Prop :=
  match node with
  | Concat l r | Alternate l r => plain_classes l /\ plain_classes r
  | Repeat child _ _ _ | Group child _ => plain_classes child
  | Class _ _ class_type => -1 <= class_type <= 2
  | NotClass _ _ class_type => class_type = -1
  | _ => True
  end.

(** Every match attempt of [re] at an offset of its text comes to an end:
    given enough steps, [executeAt] returns or throws. *)
Definition attempts_end (re : Regex) : Prop :=
  forall (text : cstring) (p : Z),
    0 <= p <= size text ->
    exists fuel, RegexM.executeAt fuel re text p <> OutOfFuel.

(** [f] has come to an end with [fuel0] steps, and more steps give the same
    result. *)
Definition settles {A} (f : nat -> result A) (fuel0 : nat) : Prop :=
  f fuel0 <> OutOfFuel /\ forall fuel, (fuel0 <= fuel)%nat -> f fuel = f fuel0.

(* ======================================================================== *)
(** * Properties *)

(** ** Generic facts *)

Lemma size_nonneg (s : cstring) : 0 <= size s.
Proof. unfold size; lia. Qed.

Lemma size_app (s t : cstring) : size (s ++ t) = size s + size t.
Proof. unfold size; rewrite length_app; lia. Qed.

Lemma size_cons (c : ascii) (s : cstring) : size (c :: s) = size s + 1.
Proof. unfold size; simpl List.length; lia. Qed.

Lemma size_repeat (c : ascii) (n : nat) : size (List.repeat c n) = Z.of_nat n.
Proof. unfold size; now rewrite repeat_length. Qed.

(** ** The lexer *)

Module LexerFacts.
Import Lexer.

(** How [nextToken] treats its first byte: an escape, pattern white
    space, or a one-byte token. *)
Inductive first_byte (c : ascii) : Prop :=
| fb_escape : c = "\" -> first_byte c
| fb_blank :
    c <> "\" ->
    (forall rest pos, nextToken (c :: rest) pos = nextToken rest (pos + 1)) ->
    first_byte c
| fb_single (ty : TokenType) :
    c <> "\" ->
    (forall rest pos,
        nextToken (c :: rest) pos = Ok (mkToken ty c pos, (rest, pos + 1))) ->
    first_byte c.

Lemma first_byte_cases (c : ascii) : first_byte c.
Proof.
  destruct c as [[] [] [] [] [] [] [] []];
    first
      [ apply fb_escape; reflexivity
      | apply fb_blank; [ discriminate | intros; reflexivity ]
      | eapply fb_single; [ discriminate | intros; reflexivity ] ].
Qed.

Lemma nextToken_escape (c : ascii) (rest : cstring) (pos : Z) :
  nextToken ("\" :: c :: rest) pos = Ok (mkToken T_ESCAPE c pos, (rest, pos + 2)).
Proof. simpl. now replace (pos + 1 + 1) with (pos + 2) by lia. Qed.

Lemma nextToken_dangling (pos : Z) :
  nextToken ["\"] pos = Throw (RegexError "Incomplete escape sequence" pos).
Proof. reflexivity. Qed.

(** [nextToken] consumes at least one byte of a non-empty suffix, and
    [pos_] counts the bytes consumed. *)
Lemma nextToken_consumes (rest : cstring) :
  forall pos tok rest' pos',
    rest <> [] ->
    nextToken rest pos = Ok (tok, (rest', pos')) ->
    (List.length rest' < List.length rest)%nat /\ pos' + size rest' = pos + size rest.
Proof.
  induction rest as [|c rest IH]; intros pos tok rest' pos' Hne H; [congruence|].
  destruct (first_byte_cases c) as [-> | Hc Hb | ty Hc Hs].
  - destruct rest as [|e rest]; [discriminate|].
    rewrite nextToken_escape in H. inversion H; subst.
    unfold size; simpl List.length; split; lia.
  - rewrite Hb in H. destruct rest as [|d rest].
    + simpl in H. inversion H; subst. unfold size; simpl List.length; split; lia.
    + apply IH in H; [|discriminate].
      unfold size in *; simpl List.length in *; split; lia.
  - rewrite Hs in H. inversion H; subst.
    unfold size; simpl List.length; split; lia.
Qed.

(** The lexer is total: the loop bound of [tokenize] is never reached. *)
Lemma tokenizeLoop_total (fuel : nat) :
  forall rest pos,
    (List.length rest <= fuel)%nat ->
    tokenizeLoop fuel rest pos <> OutOfFuel.
Proof.
  induction fuel as [|fuel IH]; intros rest pos Hlen.
  - destruct rest; simpl in *; [discriminate | lia].
  - destruct rest as [|c rest]; [discriminate|].
    cbn [tokenizeLoop].
    destruct (nextToken (c :: rest) pos) as [[tok [rest' pos']]| |] eqn:E.
    + apply nextToken_consumes in E; [|discriminate].
      cbn [bind]. specialize (IH rest' pos').
      destruct (tokenizeLoop fuel rest' pos'); cbn; try discriminate.
      apply IH. simpl in *. lia.
    + discriminate.
    + exfalso. clear -E. revert pos E.
      induction (c :: rest) as [|d l IHl]; intros pos E; [discriminate|].
      destruct (first_byte_cases d) as [-> | Hc Hb | ty Hc Hs].
      * destruct l; discriminate.
      * rewrite Hb in E. eauto.
      * rewrite Hs in E. discriminate.
Qed.

Lemma tokenize_total (pattern : cstring) : tokenize pattern <> OutOfFuel.
Proof. apply tokenizeLoop_total. lia. Qed.

(** the lexer has one error *)
Lemma nextToken_throws (rest : cstring) :
  forall pos e,
    nextToken rest pos = Throw e ->
    exists p, e = RegexError "Incomplete escape sequence" p.
Proof.
  induction rest as [|c rest IH]; intros pos e H; [discriminate|].
  destruct (first_byte_cases c) as [-> | Hc Hb | ty Hc Hs].
  - destruct rest as [|d rest]; [|discriminate]. inversion H. eauto.
  - rewrite Hb in H. eauto.
  - rewrite Hs in H. discriminate.
Qed.

Lemma tokenizeLoop_throws (fuel : nat) :
  forall rest pos e,
    tokenizeLoop fuel rest pos = Throw e ->
    exists p, e = RegexError "Incomplete escape sequence" p.
Proof.
  induction fuel as [|fuel IH]; intros rest pos e H.
  - destruct rest; discriminate.
  - destruct rest as [|c rest]; [discriminate|]. cbn [tokenizeLoop] in H.
    destruct (nextToken (c :: rest) pos) as [[tok [rest' pos']]|e'|] eqn:E;
      cbn [bind] in H; try discriminate.
    + destruct (tokenizeLoop fuel rest' pos') eqn:E'; cbn [bind] in H; try discriminate.
      inversion H; subst. eauto.
    + inversion H; subst. eapply nextToken_throws; eauto.
Qed.

(** ** Dangling backslash *)

(** [dangling rest]: reading [rest] token by token, the lexer arrives at a
    final backslash with nothing behind it. *)
Fixpoint dangling (rest : cstring) : bool :=
  match rest with
  | [] => false
  | c :: r =>
      if Ascii.eqb c "\"
      then match r with
           | [] => true
           | _ :: r' => dangling r'
           end
      else dangling r
  end.

Lemma dangling_other (c : ascii) (r : cstring) :
  c <> "\" -> dangling (c :: r) = dangling r.
Proof.
  intros Hc. cbn [dangling]. destruct (Ascii.eqb_spec c "\"); congruence.
Qed.

Lemma nextToken_on_dangling (rest : cstring) :
  forall pos,
    dangling rest = true ->
    nextToken rest pos = Throw (RegexError "Incomplete escape sequence" (pos + size rest - 1))
    \/ exists tok rest' pos',
        nextToken rest pos = Ok (tok, (rest', pos'))
        /\ dangling rest' = true
        /\ (List.length rest' < List.length rest)%nat
        /\ pos' + size rest' = pos + size rest.
Proof.
  induction rest as [|c rest IH]; intros pos Hd; [discriminate|].
  destruct (first_byte_cases c) as [-> | Hc Hb | ty Hc Hs].
  - destruct rest as [|e rest].
    + left. cbn. do 2 f_equal. unfold size; simpl; lia.
    + right. exists (mkToken T_ESCAPE e pos), rest, (pos + 2).
      rewrite nextToken_escape. cbn in Hd.
      unfold size; simpl List.length. repeat split; auto; lia.
  - rewrite dangling_other in Hd by assumption.
    rewrite Hb. destruct (IH (pos + 1) Hd) as [E | (tok & rest' & pos' & E & Hd' & Hl & Hp)].
    + left. rewrite E. do 2 f_equal. unfold size; simpl List.length; lia.
    + right. exists tok, rest', pos'. rewrite E.
      unfold size in *; simpl List.length. repeat split; auto; lia.
  - rewrite dangling_other in Hd by assumption.
    right. exists (mkToken ty c pos), rest, (pos + 1). rewrite Hs.
    unfold size; simpl List.length. repeat split; auto; lia.
Qed.

Lemma tokenizeLoop_dangling (fuel : nat) :
  forall rest pos,
    dangling rest = true ->
    (List.length rest <= fuel)%nat ->
    tokenizeLoop fuel rest pos
    = Throw (RegexError "Incomplete escape sequence" (pos + size rest - 1)).
Proof.
  induction fuel as [|fuel IH]; intros rest pos Hd Hlen.
  - destruct rest; [discriminate | simpl in Hlen; lia].
  - destruct rest as [|c rest]; [discriminate|].
    cbn [tokenizeLoop].
    destruct (nextToken_on_dangling (c :: rest) pos Hd)
      as [E | (tok & rest' & pos' & E & Hd' & Hl & Hp)]; rewrite E; cbn [bind].
    + reflexivity.
    + rewrite IH by (simpl in *; auto; lia). cbn [bind].
      do 2 f_equal. lia.
Qed.

Lemma dangling_backslashes (k : nat) : dangling (List.repeat "\" (S (2 * k))) = true.
Proof.
  induction k as [|k IH]; [reflexivity|].
  replace (S (2 * S k)) with (S (S (S (2 * k)))) by lia.
  exact IH.
Qed.

Lemma ends_in_backslash_cons (c d : ascii) (s : cstring) :
  ends_in_backslash (c :: d :: s) = ends_in_backslash (d :: s).
Proof.
  unfold ends_in_backslash. simpl rev.
  destruct (rev s ++ [d]) eqn:E.
  - destruct (rev s); discriminate.
  - reflexivity.
Qed.

Lemma dangling_trailing (bs : cstring) (pre : cstring) :
  dangling bs = true ->
  (ends_in_backslash pre = false -> dangling (pre ++ bs) = true)
  /\ forall c, ends_in_backslash (c :: pre) = false -> dangling ((c :: pre) ++ bs) = true.
Proof.
  intros Hbs. induction pre as [|d pre [IH1 IH2]].
  - split; [auto|]. intros c Hc. cbn in Hc. cbn [app dangling].
    rewrite Hc. exact Hbs.
  - split; [apply IH2|]. intros c Hc.
    rewrite ends_in_backslash_cons in Hc.
    cbn [app dangling]. destruct (Ascii.eqb c "\").
    + apply IH1. destruct pre as [|e pre]; [reflexivity|].
      now rewrite ends_in_backslash_cons in Hc.
    + apply (IH2 d Hc).
Qed.
End LexerFacts.

(** C9. A pattern that ends in a dangling backslash (after a prefix that
    does not itself end in a backslash, an odd run of backslashes closes the
    pattern, so the last one escapes nothing) does not compile: the lexer
    throws "Incomplete escape sequence", and the error's position is the
    offset of that last backslash.  Anywhere else, a backslash read by
    [nextToken] takes the following byte with it and yields an ESCAPE token
    that carries that byte and the offset of the backslash. *)
Theorem dangling_backslash_incomplete_escape :
  (forall (pre : cstring) (n : nat),
      ends_in_backslash pre = false ->
      Nat.odd n = true ->
      compile (pre ++ List.repeat "\" n)
      = Throw (RegexError "Incomplete escape sequence" (size (pre ++ List.repeat "\" n) - 1)))
  /\ (forall (c : ascii) (rest : cstring) (pos : Z),
         Lexer.nextToken ("\" :: c :: rest) pos
         = Ok (mkToken T_ESCAPE c pos, (rest, pos + 2))).
Proof.
  split; [|apply LexerFacts.nextToken_escape].
  intros pre n Hpre Hn.
  assert (Hd : LexerFacts.dangling (pre ++ List.repeat "\" n) = true).
  { apply LexerFacts.dangling_trailing; auto.
    apply Nat.odd_spec in Hn. destruct Hn as [k ->].
    replace (2 * k + 1)%nat with (S (2 * k)) by lia.
    apply LexerFacts.dangling_backslashes. }
  unfold compile, Lexer.tokenize.
  rewrite LexerFacts.tokenizeLoop_dangling by auto.
  reflexivity.
Qed.

Lemma dangling_backslash_incomplete_escape_witness :
  compile (str "a\d\") = Throw (RegexError "Incomplete escape sequence" 3).
Proof.
  exact (proj1 dangling_backslash_incomplete_escape (str "a\d") 1%nat eq_refl eq_refl).
Defined.

(** ** The parser: the capture counter never goes down *)

Lemma bind_Ok {A B} (m : result A) (k : A -> result B) (b : B) :
  bind m k = Ok b -> exists a, m = Ok a /\ k a = Ok b.
Proof. destruct m; cbn; try discriminate. eauto. Qed.

Module ParserFacts.
Import Parser.

Lemma consume_capture (st : state) :
  currentCapture_ (snd (consume st)) = currentCapture_ st.
Proof. unfold consume. now destruct (rest st). Qed.

Lemma match_capture (ty : TokenType) (st : state) :
  currentCapture_ (snd (match_ ty st)) = currentCapture_ st.
Proof. unfold match_. now destruct (TokenType_eqb _ _). Qed.

Lemma parseNumber_capture (st : state) :
  currentCapture_ (snd (parseNumber st)) = currentCapture_ st.
Proof. unfold parseNumber. now destruct (parseNumberLoop _ _). Qed.

Lemma hexDigits_capture (n : nat) :
  forall st v, currentCapture_ (snd (hexDigits n st v)) = currentCapture_ st.
Proof.
  induction n as [|n IH]; intros st v; cbn [hexDigits]; [reflexivity|].
  destruct (TokenType_eqb _ _); [|reflexivity].
  pose proof (consume_capture st) as Hc. destruct (consume st) as [t st1].
  rewrite IH. exact Hc.
Qed.

Lemma classEscape_capture (esc : ascii) (st : state) :
  currentCapture_ (snd (classEscape esc st)) = currentCapture_ st.
Proof.
  assert (Hx : currentCapture_ (snd (let '(value_, st0) := hexDigits 2 st 0 in
                                     (addByte value_ (0, 0), st0)))
               = currentCapture_ st).
  { pose proof (hexDigits_capture 2 st 0) as H. now destruct (hexDigits 2 st 0). }
  destruct esc as [[] [] [] [] [] [] [] []]; first [reflexivity | exact Hx].
Qed.

Lemma classItem_capture (negated : bool) (st : state) (masks : Z * Z) :
  currentCapture_ (fst (classItem negated st masks)) = currentCapture_ st.
Proof.
  unfold classItem. destruct masks as [low high].
  destruct (TokenType_eqb (type (peek st)) T_ESCAPE).
  - pose proof (consume_capture st) as Hc. destruct (consume st) as [t st1].
    pose proof (classEscape_capture (value t) st1) as He.
    destruct (classEscape (value t) st1) as [[bits bits_high] st2].
    cbn [snd] in *. destruct negated; cbn [fst]; congruence.
  - pose proof (consume_capture st) as Hc. destruct (consume st) as [t st1].
    cbn [snd] in Hc.
    destruct (TokenType_eqb (type (peek st1)) T_RANGE); [|exact Hc].
    pose proof (consume_capture st1) as Hc1. destruct (consume st1) as [t1 st2].
    pose proof (consume_capture st2) as Hc2. destruct (consume st2) as [t2 st3].
    cbn [fst snd] in *. congruence.
Qed.

Lemma classLoop_capture (fuel : nat) (negated : bool) :
  forall st masks st' masks',
    classLoop fuel negated st masks = Ok (st', masks') ->
    currentCapture_ st' = currentCapture_ st.
Proof.
  induction fuel as [|fuel IH]; intros st masks st' masks' H; cbn [classLoop] in H;
    destruct (TokenType_eqb _ _ || TokenType_eqb _ _);
    try discriminate; try (inversion H; reflexivity).
  pose proof (classItem_capture negated st masks) as Hi.
  destruct (classItem negated st masks) as [st1 masks1].
  apply IH in H. cbn [fst] in Hi. congruence.
Qed.

Lemma parseCharacterClass_capture (st : state) (node : ASTNode) (st' : state) :
  parseCharacterClass st = Ok (node, st') -> currentCapture_ st' = currentCapture_ st.
Proof.
  unfold parseCharacterClass.
  pose proof (consume_capture st) as Hc.
  destruct (TokenType_eqb (type (peek st)) T_CARET);
    intros H; apply bind_Ok in H; destruct H as ([st1 [low high]] & Hl & H);
    apply classLoop_capture in Hl; inversion H; subst; congruence.
Qed.

Lemma closeGroup_capture (msg : string) (t : Token) (r : ASTNode * state)
  (node : ASTNode) (st' : state) :
  closeGroup msg t r = Ok (node, st') -> currentCapture_ st' = currentCapture_ (snd r).
Proof.
  unfold closeGroup. destruct r as [n st].
  pose proof (match_capture T_RPAREN st) as Hm.
  destruct (match_ T_RPAREN st) as [ok st1]. destruct ok; cbn [negb]; [|discriminate].
  intros H; inversion H; subst. exact Hm.
Qed.

(** The statement for all six functions of the descent at once. *)
Definition monotone (f : state -> result (ASTNode * state)) : Prop :=
  forall st node st',
    f st = Ok (node, st') -> currentCapture_ st <= currentCapture_ st'.

Lemma descent_monotone (fuel : nat) :
  monotone (parseAlternation fuel)
  /\ (forall lhs, monotone (parseAlternationLoop fuel lhs))
  /\ monotone (parseConcatenation fuel)
  /\ (forall lhs, monotone (parseConcatenationLoop fuel lhs))
  /\ monotone (parseQuantifier fuel)
  /\ monotone (parseAtom fuel).
Proof.
  induction fuel as [|fuel (IHa & IHal & IHc & IHcl & IHq & IHt)].
  { repeat split; repeat intro; discriminate. }
  assert (Hgroup : forall msg t st node st',
             (r <- parseAlternation fuel st ;; closeGroup msg t r) = Ok (node, st') ->
             currentCapture_ st <= currentCapture_ st').
  { intros msg t st node st' H. apply bind_Ok in H. destruct H as ([n st1] & Ha & Hc).
    apply IHa in Ha. apply closeGroup_capture in Hc. cbn [snd] in Hc. lia. }
  split; [|split; [|split; [|split; [|split]]]].
  - intros st node st' H. cbn [parseAlternation] in H.
    apply bind_Ok in H. destruct H as ([lhs st1] & H1 & H2).
    apply IHc in H1. apply IHal in H2. lia.
  - intros lhs st node st' H. cbn [parseAlternationLoop] in H.
    pose proof (match_capture T_PIPE st) as Hm.
    destruct (match_ T_PIPE st) as [more st1]. cbn [snd] in Hm. destruct more.
    + apply bind_Ok in H. destruct H as ([rhs st2] & H1 & H2).
      apply IHc in H1. apply IHal in H2. lia.
    + inversion H; subst. lia.
  - intros st node st' H. cbn [parseConcatenation] in H.
    apply bind_Ok in H. destruct H as ([lhs st1] & H1 & H2).
    apply IHq in H1. apply IHcl in H2. lia.
  - intros lhs st node st' H. cbn [parseConcatenationLoop] in H.
    destruct (isQuantifierStart st).
    + apply bind_Ok in H. destruct H as ([rhs st2] & H1 & H2).
      apply IHq in H1. apply IHcl in H2. lia.
    + inversion H; subst. lia.
  - intros st node st' H. cbn [parseQuantifier] in H.
    apply bind_Ok in H. destruct H as ([atom st1] & H1 & H2).
    apply IHt in H1. cbv zeta in H2.
    pose proof (consume_capture st1) as Hc.
    destruct (type (peek st1)); try (inversion H2; subst; lia).
    pose proof (parseNumber_capture (snd (consume st1))) as Hn.
    destruct (parseNumber (snd (consume st1))) as [min st2]. cbn [snd] in Hn.
    pose proof (match_capture T_COMMA st2) as Hm.
    destruct (match_ T_COMMA st2) as [comma st3]. cbn [snd] in Hm.
    assert (Hmax : currentCapture_ (snd (if comma then parseNumber st3 else (min, st3)))
                   = currentCapture_ st3)
      by (destruct comma; [apply parseNumber_capture | reflexivity]).
    destruct (if comma then parseNumber st3 else (min, st3)) as [max st4]. cbn [snd] in Hmax.
    pose proof (match_capture T_RBRACE st4) as Hr.
    destruct (match_ T_RBRACE st4) as [closed st5]. cbn [snd] in Hr.
    destruct closed; cbn [negb] in H2; [|discriminate].
    inversion H2; subst. lia.
  - intros st node st' H. cbn [parseAtom] in H.
    pose proof (consume_capture st) as Hc.
    destruct (consume st) as [t st1]. cbn [snd] in Hc.
    destruct (type t); try discriminate; try (inversion H; subst; lia).
    + (* LPAREN *)
      pose proof (consume_capture st1) as Hc1.
      destruct (peek_is T_LITERAL "?" st1).
      { pose proof (consume_capture (snd (consume st1))) as Hc2.
        destruct (peek_is T_LITERAL ":" (snd (consume st1))); [|discriminate].
        apply Hgroup in H. lia. }
      destruct (peek_is T_LITERAL "=" st1); [apply Hgroup in H; lia|].
      destruct (peek_is T_LITERAL "!" st1); [apply Hgroup in H; lia|].
      apply bind_Ok in H. destruct H as ([n st2] & Ha & H).
      apply bind_Ok in H. destruct H as ([n3 st3] & Hg & H).
      apply IHa in Ha. apply closeGroup_capture in Hg. cbn [snd currentCapture_] in *.
      inversion H; subst. lia.
    + (* LBRACKET *)
      apply bind_Ok in H. destruct H as ([cn st2] & Hp & H).
      apply parseCharacterClass_capture in Hp.
      pose proof (match_capture T_RBRACKET st2) as Hm.
      destruct (match_ T_RBRACKET st2) as [closed st3]. cbn [snd] in Hm.
      destruct closed; cbn [negb] in H; [|discriminate].
      inversion H; subst. lia.
    + (* BACKREF *)
      pose proof (parseNumber_capture st1) as Hn.
      destruct (parseNumber st1) as [g st2]. cbn [snd] in Hn.
      inversion H; subst. lia.
Qed.

Lemma parse_numCaptures (tokens_ : list Token) (ast : ASTNode) (n : Z) :
  parse tokens_ = Ok (ast, n) -> 0 <= n.
Proof.
  unfold parse. intros H. apply bind_Ok in H. destruct H as ([node st] & Ha & H).
  apply (proj1 (descent_monotone _)) in Ha. cbn [currentCapture_] in Ha.
  destruct (rest st); [|discriminate]. inversion H; subst. exact Ha.
Qed.
End ParserFacts.

(** ** The parser is total: its fuel is never spent *)

Lemma bind_total {A B} (m : result A) (k : A -> result B) :
  m <> OutOfFuel ->
  (forall a, m = Ok a -> k a <> OutOfFuel) ->
  bind m k <> OutOfFuel.
Proof. destruct m; cbn; auto; discriminate. Qed.

Module ParserTotal.
Import Parser.

Definition len (st : state) : nat := List.length (rest st).

Lemma consume_len (st : state) : len (snd (consume st)) = Nat.pred (len st).
Proof.
  unfold consume, len. destruct (rest st) eqn:E; cbn [snd rest]; [now rewrite E | reflexivity].
Qed.

Lemma match_len (ty : TokenType) (st : state) :
  (len (snd (match_ ty st)) <= len st)%nat.
Proof.
  unfold match_, len. destruct (TokenType_eqb _ _); cbn [snd rest]; [|lia].
  destruct (rest st); cbn; lia.
Qed.

Lemma parseNumberLoop_len (toks : list Token) :
  forall n, (List.length (snd (parseNumberLoop toks n)) <= List.length toks)%nat.
Proof.
  induction toks as [|t r IH]; intros n; cbn [parseNumberLoop]; [cbn; lia|].
  destruct (TokenType_eqb _ _ && isdigit _); [|cbn; lia].
  specialize (IH (u32 (n * 10 + (schar (value t) - 48)))). cbn [List.length]. lia.
Qed.

Lemma parseNumber_len (st : state) : (len (snd (parseNumber st)) <= len st)%nat.
Proof.
  unfold parseNumber, len. pose proof (parseNumberLoop_len (rest st) 0) as H.
  destruct (parseNumberLoop (rest st) 0). exact H.
Qed.

Lemma hexDigits_len (n : nat) :
  forall st v, (len (snd (hexDigits n st v)) <= len st)%nat.
Proof.
  induction n as [|n IH]; intros st v; cbn [hexDigits]; [cbn; lia|].
  destruct (TokenType_eqb _ _); [|cbn; lia].
  pose proof (consume_len st) as Hc. destruct (consume st) as [t st1]. cbn [snd] in Hc.
  specialize (IH st1 (u8 (v * 16 + parseHexDigit (value t)))). lia.
Qed.

Lemma classEscape_len (esc : ascii) (st : state) :
  (len (snd (classEscape esc st)) <= len st)%nat.
Proof.
  assert (Hx : (len (snd (let '(value_, st0) := hexDigits 2 st 0%Z in
                          (addByte value_ (0%Z, 0%Z), st0))) <= len st)%nat).
  { pose proof (hexDigits_len 2 st 0) as H. now destruct (hexDigits 2 st 0). }
  destruct esc as [[] [] [] [] [] [] [] []]; first [exact Hx | cbn; lia].
Qed.

(** a round of the item loop takes at least one token *)
Lemma classItem_len (negated : bool) (st : state) (masks : Z * Z) :
  rest st <> [] ->
  (len (fst (classItem negated st masks)) < len st)%nat.
Proof.
  intros Hne.
  assert (H0 : (0 < len st)%nat) by (unfold len; destruct (rest st); [congruence | cbn; lia]).
  unfold classItem. destruct masks as [low high].
  pose proof (consume_len st) as Hc. destruct (consume st) as [t st1]. cbn [snd] in Hc.
  destruct (TokenType_eqb (type (peek st)) T_ESCAPE).
  - pose proof (classEscape_len (value t) st1) as He.
    destruct (classEscape (value t) st1) as [[bits bits_high] st2].
    cbn [snd] in He. destruct negated; cbn [fst]; lia.
  - destruct (TokenType_eqb (type (peek st1)) T_RANGE); [|cbn [fst]; lia].
    pose proof (consume_len st1) as Hc1. destruct (consume st1) as [t1 st2].
    pose proof (consume_len st2) as Hc2. destruct (consume st2) as [t2 st3].
    cbn [fst snd] in *. lia.
Qed.

Lemma peek_empty (st : state) : rest st = [] -> type (peek st) = T_UNKNOWN.
Proof. unfold peek. now intros ->. Qed.

Lemma classLoop_len (fuel : nat) (negated : bool) :
  forall st masks,
    (len st <= fuel)%nat ->
    exists st' masks',
      classLoop fuel negated st masks = Ok (st', masks') /\ (len st' <= len st)%nat.
Proof.
  induction fuel as [|fuel IH]; intros st masks Hf; cbn [classLoop];
    destruct (TokenType_eqb (type (peek st)) T_RBRACKET
              || TokenType_eqb (type (peek st)) T_UNKNOWN) eqn:Hstop;
    try (exists st, masks; split; [reflexivity | lia]).
  - exfalso. unfold len in Hf. destruct (rest st) eqn:Hr; [|cbn in Hf; lia].
    rewrite (peek_empty st Hr) in Hstop. discriminate Hstop.
  - assert (Hne : rest st <> []).
    { intros Hr. rewrite (peek_empty st Hr) in Hstop. discriminate Hstop. }
    pose proof (classItem_len negated st masks Hne) as Hi.
    destruct (classItem negated st masks) as [st1 masks1]. cbn [fst] in Hi.
    destruct (IH st1 masks1 ltac:(lia)) as (st' & masks' & E & Hl).
    exists st', masks'. split; [exact E | lia].
Qed.

Lemma parseCharacterClass_len (st : state) :
  exists node st',
    parseCharacterClass st = Ok (node, st') /\ (len st' <= len st)%nat.
Proof.
  unfold parseCharacterClass.
  pose proof (consume_len st) as Hc.
  destruct (TokenType_eqb (type (peek st)) T_CARET).
  - destruct (classLoop_len (List.length (rest (snd (consume st)))) true
                (snd (consume st)) (0, 0) ltac:(unfold len; lia))
      as (st' & [low high] & E & Hl).
    rewrite E. cbn [bind]. eexists _, st'. split; [reflexivity | lia].
  - destruct (classLoop_len (List.length (rest st)) false st (0, 0) ltac:(unfold len; lia))
      as (st' & [low high] & E & Hl).
    rewrite E. cbn [bind]. eexists _, st'. split; [reflexivity | lia].
Qed.

Lemma closeGroup_len (msg : string) (t : Token) (r : ASTNode * state) :
  closeGroup msg t r <> OutOfFuel
  /\ forall node st', closeGroup msg t r = Ok (node, st') -> (len st' <= len (snd r))%nat.
Proof.
  unfold closeGroup. destruct r as [n st].
  pose proof (match_len T_RPAREN st) as Hm.
  destruct (match_ T_RPAREN st) as [ok st1]. cbn [snd] in *.
  destruct ok; cbn [negb]; split; try discriminate.
  intros node st' H. inversion H; subst. exact Hm.
Qed.

(** a non-empty token list loses a token to [consume] *)
Lemma consume_some (st : state) (t : Token) (st1 : state) :
  consume st = (t, st1) -> type t <> T_UNKNOWN -> (len st1 < len st)%nat.
Proof.
  unfold consume, len. destruct (rest st) as [|t0 r]; intros H Ht; inversion H; subst.
  - exfalso. apply Ht. reflexivity.
  - cbn. lia.
Qed.

Definition shrinks (f : state -> result (ASTNode * state)) : Prop :=
  forall st node st', f st = Ok (node, st') -> (len st' < len st)%nat.

Definition keeps (f : state -> result (ASTNode * state)) : Prop :=
  forall st node st', f st = Ok (node, st') -> (len st' <= len st)%nat.

Lemma descent_consumes (fuel : nat) :
  shrinks (parseAlternation fuel)
  /\ (forall lhs, keeps (parseAlternationLoop fuel lhs))
  /\ shrinks (parseConcatenation fuel)
  /\ (forall lhs, keeps (parseConcatenationLoop fuel lhs))
  /\ shrinks (parseQuantifier fuel)
  /\ shrinks (parseAtom fuel).
Proof.
  induction fuel as [|fuel (IHa & IHal & IHc & IHcl & IHq & IHt)].
  { repeat split; repeat intro; discriminate. }
  assert (Hgroup : forall msg t st node st',
             (r <- parseAlternation fuel st ;; closeGroup msg t r) = Ok (node, st') ->
             (len st' < len st)%nat).
  { intros msg t st node st' H. apply bind_Ok in H. destruct H as ([n st1] & Ha & Hc).
    apply IHa in Ha. apply (proj2 (closeGroup_len _ _ _)) in Hc. cbn [snd] in Hc. lia. }
  split; [|split; [|split; [|split; [|split]]]].
  - intros st node st' H. cbn [parseAlternation] in H.
    apply bind_Ok in H. destruct H as ([lhs st1] & H1 & H2).
    apply IHc in H1. apply IHal in H2. lia.
  - intros lhs st node st' H. cbn [parseAlternationLoop] in H.
    pose proof (match_len T_PIPE st) as Hm.
    destruct (match_ T_PIPE st) as [more st1]. cbn [snd] in Hm. destruct more.
    + apply bind_Ok in H. destruct H as ([rhs st2] & H1 & H2).
      apply IHc in H1. apply IHal in H2. lia.
    + inversion H; subst. lia.
  - intros st node st' H. cbn [parseConcatenation] in H.
    apply bind_Ok in H. destruct H as ([lhs st1] & H1 & H2).
    apply IHq in H1. apply IHcl in H2. lia.
  - intros lhs st node st' H. cbn [parseConcatenationLoop] in H.
    destruct (isQuantifierStart st).
    + apply bind_Ok in H. destruct H as ([rhs st2] & H1 & H2).
      apply IHq in H1. apply IHcl in H2. lia.
    + inversion H; subst. lia.
  - intros st node st' H. cbn [parseQuantifier] in H.
    apply bind_Ok in H. destruct H as ([atom st1] & H1 & H2).
    apply IHt in H1. cbv zeta in H2.
    pose proof (consume_len st1) as Hc.
    destruct (type (peek st1)); try (inversion H2; subst; lia).
    pose proof (parseNumber_len (snd (consume st1))) as Hn.
    destruct (parseNumber (snd (consume st1))) as [min st2]. cbn [snd] in Hn.
    pose proof (match_len T_COMMA st2) as Hm.
    destruct (match_ T_COMMA st2) as [comma st3]. cbn [snd] in Hm.
    assert (Hmax : (len (snd (if comma then parseNumber st3 else (min, st3))) <= len st3)%nat)
      by (destruct comma; [apply parseNumber_len | cbn; lia]).
    destruct (if comma then parseNumber st3 else (min, st3)) as [max st4]. cbn [snd] in Hmax.
    pose proof (match_len T_RBRACE st4) as Hr.
    destruct (match_ T_RBRACE st4) as [closed st5]. cbn [snd] in Hr.
    destruct closed; cbn [negb] in H2; [|discriminate].
    inversion H2; subst. lia.
  - intros st node st' H. cbn [parseAtom] in H.
    destruct (consume st) as [t st1] eqn:Hc.
    pose proof (consume_some st t st1 Hc) as Hlt.
    destruct (type t) eqn:Ht; try discriminate;
      try (specialize (Hlt ltac:(discriminate)); inversion H; subst; lia);
      specialize (Hlt ltac:(discriminate)).
    + (* LPAREN *)
      pose proof (consume_len st1) as Hc1.
      destruct (peek_is T_LITERAL "?" st1).
      { pose proof (consume_len (snd (consume st1))) as Hc2.
        destruct (peek_is T_LITERAL ":" (snd (consume st1))); [|discriminate].
        apply Hgroup in H. lia. }
      destruct (peek_is T_LITERAL "=" st1); [apply Hgroup in H; lia|].
      destruct (peek_is T_LITERAL "!" st1); [apply Hgroup in H; lia|].
      apply bind_Ok in H. destruct H as ([n st2] & Ha & H).
      apply bind_Ok in H. destruct H as ([n3 st3] & Hg & H).
      apply IHa in Ha. apply (proj2 (closeGroup_len _ _ _)) in Hg.
      unfold len in *. cbn [snd rest] in *. inversion H; subst. lia.
    + (* LBRACKET *)
      apply bind_Ok in H. destruct H as ([cn st2] & Hp & H).
      destruct (parseCharacterClass_len st1) as (cn' & st2' & E & Hl).
      rewrite E in Hp. inversion Hp; subst.
      pose proof (match_len T_RBRACKET st2) as Hm.
      destruct (match_ T_RBRACKET st2) as [closed st3]. cbn [snd] in Hm.
      destruct closed; cbn [negb] in H; [|discriminate].
      inversion H; subst. lia.
    + (* BACKREF *)
      pose proof (parseNumber_len st1) as Hn.
      destruct (parseNumber st1) as [g st2]. cbn [snd] in Hn.
      inversion H; subst. lia.
Qed.

Lemma match_true_len (ty : TokenType) (st : state) (st1 : state) :
  match_ ty st = (true, st1) -> ty <> T_UNKNOWN -> (len st1 < len st)%nat.
Proof.
  unfold match_, peek, len. destruct (rest st) as [|t r]; cbn [type Token_unknown].
  - destruct ty; cbn; intros H; try discriminate H. intros Hne. exfalso. now apply Hne.
  - destruct (TokenType_eqb (type t) ty); intros H; inversion H; subst. intros _. cbn. lia.
Qed.

(** [total c f]: [f] does not run out of fuel on a state with [n] tokens
    left when given [4 n + c] units *)
Definition total (c : nat) (fuel : nat) (f : state -> result (ASTNode * state)) : Prop :=
  forall st, (4 * len st + c <= fuel)%nat -> f st <> OutOfFuel.

Lemma descent_total (fuel : nat) :
  total 4 fuel (parseAlternation fuel)
  /\ (forall lhs, total 1 fuel (parseAlternationLoop fuel lhs))
  /\ total 3 fuel (parseConcatenation fuel)
  /\ (forall lhs, total 3 fuel (parseConcatenationLoop fuel lhs))
  /\ total 2 fuel (parseQuantifier fuel)
  /\ total 1 fuel (parseAtom fuel).
Proof.
  induction fuel as [|fuel (IHa & IHal & IHc & IHcl & IHq & IHt)].
  { repeat split; repeat intro; lia. }
  destruct (descent_consumes fuel) as (Ca & Cal & Cc & Ccl & Cq & Ct).
  assert (Hgroup : forall msg t st,
             (4 * len st + 4 <= fuel)%nat ->
             (r <- parseAlternation fuel st ;; closeGroup msg t r) <> OutOfFuel).
  { intros msg t st Hf. apply bind_total; [now apply IHa|].
    intros r _. apply closeGroup_len. }
  split; [|split; [|split; [|split; [|split]]]].
  - intros st Hf. cbn [parseAlternation]. apply bind_total; [apply IHc; lia|].
    intros [lhs st1] H1. apply Cc in H1. apply IHal. lia.
  - intros lhs st Hf. cbn [parseAlternationLoop].
    destruct (match_ T_PIPE st) as [more st1] eqn:Hm. destruct more; [|discriminate].
    apply match_true_len in Hm; [|discriminate].
    apply bind_total; [apply IHc; lia|].
    intros [rhs st2] H1. apply Cc in H1. apply IHal. lia.
  - intros st Hf. cbn [parseConcatenation]. apply bind_total; [apply IHq; lia|].
    intros [lhs st1] H1. apply Cq in H1. apply IHcl. lia.
  - intros lhs st Hf. cbn [parseConcatenationLoop].
    destruct (isQuantifierStart st); [|discriminate].
    apply bind_total; [apply IHq; lia|].
    intros [rhs st1] H1. apply Cq in H1. apply IHcl. lia.
  - intros st Hf. cbn [parseQuantifier]. apply bind_total; [apply IHt; lia|].
    intros [atom st1] _. cbv zeta.
    destruct (type (peek st1)); try discriminate.
    destruct (parseNumber (snd (consume st1))) as [min st2].
    destruct (match_ T_COMMA st2) as [comma st3].
    destruct (if comma then parseNumber st3 else (min, st3)) as [max st4].
    destruct (match_ T_RBRACE st4) as [closed st5].
    destruct closed; discriminate.
  - intros st Hf. cbn [parseAtom].
    destruct (consume st) as [t st1] eqn:Hc.
    pose proof (consume_some st t st1 Hc) as Hlt.
    destruct (type t) eqn:Ht; try discriminate; specialize (Hlt ltac:(discriminate)).
    + (* LPAREN *)
      pose proof (consume_len st1) as Hc1.
      destruct (peek_is T_LITERAL "?" st1).
      { pose proof (consume_len (snd (consume st1))) as Hc2.
        destruct (peek_is T_LITERAL ":" (snd (consume st1))); [|discriminate].
        apply Hgroup. lia. }
      destruct (peek_is T_LITERAL "=" st1); [apply Hgroup; lia|].
      destruct (peek_is T_LITERAL "!" st1); [apply Hgroup; lia|].
      apply bind_total; [apply IHa; unfold len in *; cbn [rest]; lia|].
      intros r _. apply bind_total; [apply closeGroup_len|].
      intros [node st2] _. discriminate.
    + (* LBRACKET *)
      destruct (parseCharacterClass_len st1) as (cn & st2 & E & _).
      rewrite E. cbn [bind].
      destruct (match_ T_RBRACKET st2) as [closed st3]. destruct closed; discriminate.
    + (* BACKREF *)
      destruct (parseNumber st1) as [g st2]. discriminate.
Qed.

Lemma parse_total (tokens_ : list Token) : parse tokens_ <> OutOfFuel.
Proof.
  unfold parse. apply bind_total.
  - apply (proj1 (descent_total _)). unfold parseFuel, len. cbn [rest]. lia.
  - intros [node st] _. destruct (rest st); discriminate.
Qed.
End ParserTotal.

(** ** What [compile] returns *)

Lemma compile_compiled (pattern : cstring) (re : Regex) :
  compile pattern = Ok re -> compiled_ re = true.
Proof.
  unfold compile. destruct (Lexer.tokenize pattern); cbn [bind]; try discriminate.
  destruct (Parser.parse a) as [[ast n]| |]; cbn [bind]; try discriminate.
  intros H; inversion H; reflexivity.
Qed.

Lemma compile_captureCount (pattern : cstring) (re : Regex) :
  compile pattern = Ok re -> (1 <= RegexM.captureCount re)%nat.
Proof.
  unfold compile. intros H.
  apply bind_Ok in H. destruct H as (tokens & _ & H).
  apply bind_Ok in H. destruct H as ([ast n] & Hp & H).
  apply ParserFacts.parse_numCaptures in Hp.
  inversion H; subst. unfold RegexM.captureCount. cbn [numCaptures_]. lia.
Qed.

(** [compile] returns for every pattern: the fuel of the lexer and of the
    parser is never spent. *)
Lemma compile_total (pattern : cstring) : compile pattern <> OutOfFuel.
Proof.
  unfold compile. apply bind_total; [apply LexerFacts.tokenize_total|].
  intros tokens _. apply bind_total; [apply ParserTotal.parse_total|].
  intros [ast n] _. discriminate.
Qed.

(** ** Group modifiers *)

Lemma parseAtom_lparen_question (fuel : nat) (p q : Z) (rest : list Token) (cap : Z) :
  Parser.parseAtom (5 + fuel)
    (Parser.mkState (mkToken T_LPAREN "(" p :: mkToken T_QUESTION "?" q :: rest) cap)
  = Throw (RegexError "Unexpected token" q).
Proof. reflexivity. Qed.

(** C1 (the code does not do this).  The lexer turns every '?' into a
    QUESTION token, so the three modifier tests of [parseAtom], which look
    for a LITERAL '?', '=' or '!' right after the parenthesis, never see the
    '?' of a lookaround or non-capturing group.  An LPAREN followed by
    QUESTION is parsed as a capturing group whose first atom is the QUESTION
    token, and that is rejected.  No pattern that begins with an opening
    parenthesis and a question mark compiles: the lexer throws its
    incomplete-escape error, or the parser throws "Unexpected token" at
    offset 1; so do the lookahead patterns below. *)
Theorem lookaround_group_is_rejected :
  (forall (X : cstring),
      compile ("(" :: "?" :: X) = Throw (RegexError "Unexpected token" 1)
      \/ exists p, compile ("(" :: "?" :: X)
                   = Throw (RegexError "Incomplete escape sequence" p))
  /\ compile (str "(?=a)") = Throw (RegexError "Unexpected token" 1)
  /\ compile (str "(?!a)") = Throw (RegexError "Unexpected token" 1)
  /\ compile (str "(?:a)") = Throw (RegexError "Unexpected token" 1)
  /\ compile (str "x(?=a)") = Throw (RegexError "Unexpected token" 2).
Proof.
  split; [|repeat split; reflexivity].
  intros X. unfold compile, Lexer.tokenize.
  cbn [List.length Lexer.tokenizeLoop Lexer.nextToken bind].
  change (0 + 1) with 1. change (1 + 1) with 2.
  pose proof (LexerFacts.tokenizeLoop_total (List.length X) X 2 (le_n _)) as Htot.
  destruct (Lexer.tokenizeLoop (List.length X) X 2) as [toks|e|] eqn:E;
    [| |contradiction]; cbn [bind].
  - left. unfold Parser.parse, Parser.parseFuel. cbn [List.length].
    replace (4 * S (S (List.length toks)) + 4)%nat
      with (S (S (S (5 + (4 * List.length toks + 4)))))%nat by lia.
    cbn [Parser.parseAlternation Parser.parseConcatenation Parser.parseQuantifier].
    rewrite parseAtom_lparen_question. reflexivity.
  - right. apply LexerFacts.tokenizeLoop_throws in E. destruct E as [p ->]. eauto.
Qed.

(** What the three tests of [parseAtom] do accept: "(=X)" and "(!X)" are
    parsed as X, without a group and without touching the capture counter. *)
Lemma bare_modifier_is_transparent (fuel : nat) (p q : Z) (rest : list Token) (cap : Z)
  (c : ascii) :
  c = "=" \/ c = "!" ->
  Parser.parseAtom (S fuel)
    (Parser.mkState (mkToken T_LPAREN "(" p :: mkToken T_LITERAL c q :: rest) cap)
  = (r <- Parser.parseAlternation fuel (Parser.mkState rest cap) ;;
     Parser.closeGroup "Expected ')' to close lookahead" (mkToken T_LPAREN "(" p) r).
Proof. intros [-> | ->]; reflexivity. Qed.

(** ** Escapes inside brackets *)

(** As items of their own [\D], [\W] and [\S] give the programs of [\d],
    [\w] and [\s]. *)
Example bracket_negated_escape_programs :
  (re <- compile (str "[\D]") ;; Ok (instructions_ re))
  = (re <- compile (str "[\d]") ;; Ok (instructions_ re))
  /\ (re <- compile (str "[^\W_]") ;; Ok (instructions_ re))
     = (re <- compile (str "[^\w_]") ;; Ok (instructions_ re))
  /\ (re <- compile (str "[a\S]") ;; Ok (instructions_ re))
     = (re <- compile (str "[a\s]") ;; Ok (instructions_ re)).
Proof. repeat split; reflexivity. Qed.

(** ** Bounded repetition *)

Lemma compile_times (child : ASTNode) (n : nat) (instrs : list Instruction) :
  Compiler.compileNode (times child n) instrs
  = Nat.iter (S n) (Compiler.compileNode child) instrs.
Proof.
  revert instrs; induction n as [|n IH]; intros instrs; [reflexivity|].
  cbn [times Compiler.compileNode]. rewrite IH. reflexivity.
Qed.

(** C4, as the code has it.  A REPEAT node with a finite bound, [min = max]
    or [min < max] with [max] not [UINT32_MAX], other than the pair (0, 1),
    which is the '?' form, compiles to the child fragment emitted [min]
    times in a row and nothing else: no SPLIT, no optional tail.  For
    [min >= 1] this is the very code of the child written [min] times in
    sequence. *)
Theorem finite_repeat_emits_min_copies :
  forall (child : ASTNode) (min max : Z) (greedy : bool) (instrs : list Instruction),
    0 <= min ->
    min <= max ->
    max <> UINT32_MAX ->
    ~ (min = 0 /\ max = 1) ->
    Compiler.compileNode (Repeat child min max greedy) instrs
    = Nat.iter (Z.to_nat min) (Compiler.compileNode child) instrs
    /\ (1 <= min ->
        Compiler.compileNode (Repeat child min max greedy) instrs
        = Compiler.compileNode (times child (Z.to_nat min - 1)) instrs).
Proof.
  intros child min max greedy instrs Hmin Hle Hmax H01.
  assert (E : Compiler.compileNode (Repeat child min max greedy) instrs
              = Nat.iter (Z.to_nat min) (Compiler.compileNode child) instrs).
  { cbn [Compiler.compileNode].
    destruct (Z.eqb_spec max UINT32_MAX) as [|_]; [contradiction|].
    destruct (Z.eqb_spec max 1) as [->|H1]; cbn [andb].
    - destruct (Z.eqb_spec min 0) as [->|H0]; [exfalso; auto|].
      replace min with 1 by lia. reflexivity.
    - reflexivity. }
  split; [exact E|].
  intros H1. rewrite E, compile_times.
  f_equal. lia.
Qed.

Lemma finite_repeat_emits_min_copies_witness :
  Compiler.compileNode (Repeat (Literal "a") 2 3 true) []
  = [Inst.Char "a"; Inst.Char "a"].
Proof.
  refine (proj1 (finite_repeat_emits_min_copies (Literal "a") 2 3 true [] _ _ _ _)).
  - lia.
  - lia.
  - discriminate.
  - intros [H _]; discriminate H.
Defined.

(** "a{2,3}" takes two bytes of "aaaa" and no third. *)
Example finite_repeat_stops_at_min :
  exists re,
    compile (str "a{2,3}") = Ok re
    /\ instructions_ re = [Inst.Char "a"; Inst.Char "a"; Inst.Match]
    /\ RegexM.match_ 10 re (str "aaaa") 0 = Ok (Some (mkMatchResult true 0 (str "aa") [])).
Proof. eexists. repeat split; reflexivity. Qed.

(** The pair (0, 1), written "a{0,1}", is a finite bound with [max > min],
    yet the compiler emits a SPLIT and the child as an optional tail, not the
    child zero times; the program then matches one repetition, which is above
    [min]. *)
Lemma finite_repeat_0_1_has_optional_tail :
  0 <= 0 /\ 0 < 1 /\ 1 <> UINT32_MAX
  /\ Compiler.compileNode (Repeat (Literal "a") 0 1 true) []
     = [Inst.Split 1 2; Inst.Char "a"]
  /\ Compiler.compileNode (Repeat (Literal "a") 0 1 true) []
     <> Nat.iter (Z.to_nat 0) (Compiler.compileNode (Literal "a")) []
  /\ exists re,
      compile (str "a{0,1}") = Ok re
      /\ RegexM.match_ 10 re (str "aa") 0 = Ok (Some (mkMatchResult true 0 ["a"] [])).
Proof.
  repeat split; try lia; try discriminate.
  eexists; split; reflexivity.
Qed.

(** ** Unfolding the VM loop *)

Module VMFacts.
Import VM.

Section Run.
Variables (instructions_ : list Instruction) (captureCount_ : nat) (text : cstring).

Lemma run_next (fuel : nat) (st st' : state) (inst : Instruction) :
  fetch instructions_ (pc st) = Some inst ->
  step text inst st = Next st' ->
  run (S fuel) instructions_ captureCount_ text st
  = run fuel instructions_ captureCount_ text st'.
Proof. intros Hf Hs. cbn [run]. now rewrite Hf, Hs. Qed.

Lemma run_accept (fuel : nat) (st : state) (inst : Instruction) (caps : list Z) :
  fetch instructions_ (pc st) = Some inst ->
  step text inst st = Accept caps ->
  run (S fuel) instructions_ captureCount_ text st
  = (result <- buildResult captureCount_ text caps ;; Ok (Some result)).
Proof. intros Hf Hs. cbn [run]. now rewrite Hf, Hs. Qed.

Lemma run_fail (fuel : nat) (st : state) :
  fails instructions_ text st ->
  run (S fuel) instructions_ captureCount_ text st
  = match backtrack st with
    | None => Ok None
    | Some st' => run fuel instructions_ captureCount_ text st'
    end.
Proof.
  unfold fails. intros H. cbn [run].
  destruct (fetch instructions_ (pc st)); [now rewrite H | reflexivity].
Qed.

Lemma step_backref (inst : Instruction) (st : state) :
  opcode inst = BACKREF -> step text inst st = Fail.
Proof. intros H. unfold step. now rewrite H. Qed.

Lemma step_accept_is_match (inst : Instruction) (st : state) (caps : list Z) :
  step text inst st = Accept caps ->
  opcode inst = MATCH /\ caps = setcap (captures_ st) 1 (textPos st).
Proof.
  unfold step, advance. destruct (opcode inst); intros H;
    repeat match type of H with
           | (if ?c then _ else _) = _ => destruct c
           end; try discriminate H.
  inversion H. auto.
Qed.

(** However long it runs, the VM ends in one of three ways: it is still
    running when the fuel is spent, it reports no match, or it has executed a
    MATCH and hands the captures to [buildResult]. *)
Lemma run_outcomes (fuel : nat) :
  forall st,
    run fuel instructions_ captureCount_ text st = OutOfFuel
    \/ run fuel instructions_ captureCount_ text st = Ok None
    \/ exists st' inst,
        opcode inst = MATCH
        /\ step text inst st' = Accept (setcap (captures_ st') 1 (textPos st'))
        /\ run fuel instructions_ captureCount_ text st
           = (result <- buildResult captureCount_ text
                          (setcap (captures_ st') 1 (textPos st')) ;;
              Ok (Some result)).
Proof.
  induction fuel as [|fuel IH]; intros st; [left; reflexivity|].
  cbn [run].
  destruct (fetch instructions_ (pc st)) as [inst|] eqn:Hf.
  - destruct (step text inst st) as [st'| |caps] eqn:Hs.
    + apply IH.
    + destruct (backtrack st); [apply IH | right; left; reflexivity].
    + right; right. exists st, inst.
      destruct (step_accept_is_match _ _ _ Hs) as [Hop ->]. auto.
  - destruct (backtrack st); [apply IH | right; left; reflexivity].
Qed.
End Run.

(** ** Where a match lies

    From the start offset on, [textPos] only grows along a path, and a slot
    of the capture vector holds either its initial value or a [textPos]. *)

Lemma nth_update {A} (f : A -> A) (d : A) (l : list A) :
  forall i j,
    nth j (update i f l) d
    = if (i =? j)%nat && (i <? List.length l)%nat then f (nth j l d) else nth j l d.
Proof.
  induction l as [|x l IH]; intros i j.
  - replace (i <? List.length (@nil A))%nat with false by (now destruct i).
    rewrite andb_false_r. now destruct i.
  - destruct i as [|i], j as [|j]; cbn [update nth List.length]; auto.
Qed.

Lemma length_update {A} (f : A -> A) (l : list A) :
  forall i, List.length (update i f l) = List.length l.
Proof.
  induction l as [|x l IH]; intros [|i]; cbn [update List.length]; auto.
Qed.


Lemma cap_setcap (caps : list Z) (i j : nat) (v : Z) :
  cap (setcap caps i v) j
  = if (i =? j)%nat && (i <? List.length caps)%nat then v else cap caps j.
Proof. unfold cap, setcap. apply nth_update. Qed.

Section Position.
Variables (instructions_ : list Instruction) (captureCount_ : nat) (text : cstring).
Variable pos : Z.

Definition frame_ok (tp : Z) (caps : list Z) : Prop :=
  pos <= tp /\ pos <= cap caps 0.

Definition state_ok (st : state) : Prop :=
  frame_ok (textPos st) (captures_ st)
  /\ Forall (fun bp => frame_ok (bp_textPos bp) (savedCaptures bp)) (backtrackStack_ st).

Lemma frame_ok_setcap (tp : Z) (caps : list Z) (i : nat) :
  frame_ok tp caps -> frame_ok tp (setcap caps i tp).
Proof.
  intros [H1 H2]. split; [assumption|].
  rewrite cap_setcap. destruct ((i =? 0)%nat && (i <? List.length caps)%nat); assumption.
Qed.

Lemma frame_ok_advance (tp : Z) (caps : list Z) :
  frame_ok tp caps -> frame_ok (tp + 1) caps.
Proof. intros [H1 H2]. split; [lia | assumption]. Qed.

Lemma step_state_ok (inst : Instruction) (st st' : state) :
  state_ok st -> step text inst st = Next st' -> state_ok st'.
Proof.
  intros [Hf Hs] H. unfold step, advance in H.
  destruct (opcode inst);
    repeat match type of H with
           | (if ?c then _ else _) = _ => destruct c
           end; try discriminate H; inversion H; subst st'; clear H;
    split; cbn [textPos captures_ backtrackStack_];
    auto using frame_ok_advance, frame_ok_setcap.
Qed.

Lemma backtrack_state_ok (st st' : state) :
  state_ok st -> backtrack st = Some st' -> state_ok st'.
Proof.
  intros [Hf Hs] H. unfold backtrack in H.
  destruct (backtrackStack_ st) as [|bp stack]; [discriminate|].
  inversion H; subst st'. inversion Hs; subst. split; assumption.
Qed.

Lemma initial_state_ok : (1 <= captureCount_)%nat -> state_ok (initial captureCount_ pos).
Proof.
  intros Hc. split; [|constructor]. split; cbn [initial textPos captures_]; [lia|].
  rewrite cap_setcap, repeat_length.
  replace (0 <? captureCount_ * 2)%nat with true by (symmetry; apply Nat.ltb_lt; lia).
  cbn. lia.
Qed.

(** What [buildResult] returns, when it returns. *)
Lemma buildResult_shape (caps : list Z) (r : MatchResult) :
  buildResult captureCount_ text caps = Ok r ->
  matched r = true
  /\ position r = cap caps 0
  /\ cap caps 0 <= size text
  /\ matched_text r
     = firstn (Z.to_nat (Z.min (u64 (cap caps 1 - cap caps 0)) (size text - cap caps 0)))
         (skipn (Z.to_nat (cap caps 0)) text).
Proof.
  unfold buildResult, substr at 1.
  destruct (size text <? cap caps 0) eqn:E; [discriminate|].
  cbn [bind].
  destruct (reportGroups _ _ _ _); cbn [bind]; try discriminate.
  intros H; inversion H; subst r; cbn.
  apply Z.ltb_ge in E. auto.
Qed.

Definition lies_in_text (r : MatchResult) : Prop :=
  matched r = true
  /\ pos <= position r <= size text
  /\ exists n, 0 <= n <= size text - position r
       /\ matched_text r = firstn (Z.to_nat n) (skipn (Z.to_nat (position r)) text).

Lemma run_position (fuel : nat) :
  forall st r,
    state_ok st ->
    run fuel instructions_ captureCount_ text st = Ok (Some r) ->
    lies_in_text r.
Proof.
  induction fuel as [|fuel IH]; intros st r Hok H; [discriminate|].
  cbn [run] in H.
  assert (Hbt : match backtrack st with
                | Some st' => run fuel instructions_ captureCount_ text st'
                | None => Ok None
                end = Ok (Some r) -> lies_in_text r).
  { destruct (backtrack st) as [st'|] eqn:Hb; [|discriminate].
    apply IH. eapply backtrack_state_ok; eauto. }
  destruct (fetch instructions_ (pc st)) as [inst|]; [|auto].
  destruct (step text inst st) as [st'| |caps] eqn:Hs; [| auto |].
  - eapply IH; [|exact H]. eapply step_state_ok; eauto.
  - destruct (step_accept_is_match _ _ _ _ Hs) as [_ ->].
    destruct (buildResult captureCount_ text _) as [r'| |] eqn:Hb; try discriminate.
    cbn [bind] in H. inversion H; subst r'; clear H.
    apply buildResult_shape in Hb. destruct Hb as (Hm & Hp & Hle & Ht).
    rewrite cap_setcap in Hp, Hle. cbn [Nat.eqb andb] in Hp, Hle.
    destruct Hok as [[_ Hcap] _].
    unfold lies_in_text. rewrite Hp. repeat split; auto; try lia.
    eexists. split; [|rewrite Ht, (cap_setcap _ 1 0); cbn [Nat.eqb andb]; reflexivity].
    pose proof (Z.mod_pos_bound (cap (setcap (captures_ st) 1 (textPos st)) 1
                                 - cap (captures_ st) 0) (2 ^ 64) ltac:(lia)).
    unfold u64. lia.
Qed.

Lemma executeAt_position (fuel : nat) (r : MatchResult) :
  (1 <= captureCount_)%nat ->
  executeAt fuel instructions_ captureCount_ text pos = Ok (Some r) ->
  lies_in_text r.
Proof.
  intros Hc H. eapply run_position; [|exact H]. now apply initial_state_ok.
Qed.
End Position.
End VMFacts.

(** ** Escapes outside brackets *)

Lemma firstn_1_skipn {A} (d : A) (n : nat) (l : list A) :
  (n < List.length l)%nat -> firstn 1 (skipn n l) = [nth n l d].
Proof.
  revert l; induction n as [|n IH]; intros [|x l] H; simpl in *; try lia; auto.
  apply IH. lia.
Qed.

(** C10. Outside a bracket expression the escapes [\b] and [\B] are both
    parsed as the literal byte 'b': [parseAtom] returns [Literal "b"] for
    either token, the compiler turns that into a single CHAR 'b', and so the
    pattern [\B] (like [\b]) matches exactly when the byte at the start
    position is 'b', consuming it. *)
Theorem escape_b_is_literal_b :
  (forall (fuel : nat) (p : Z) (rest : list Token) (cap : Z),
      Parser.parseAtom (S fuel) (Parser.mkState (mkToken T_ESCAPE "b" p :: rest) cap)
      = Ok (Literal "b", Parser.mkState rest cap)
      /\ Parser.parseAtom (S fuel) (Parser.mkState (mkToken T_ESCAPE "B" p :: rest) cap)
         = Ok (Literal "b", Parser.mkState rest cap))
  /\ (forall instrs, Compiler.compileNode (Literal "b") instrs = instrs ++ [Inst.Char "b"])
  /\ compile (str "\b") = Ok (mkRegex (str "\b") [Inst.Char "b"; Inst.Match] true 0)
  /\ compile (str "\B") = Ok (mkRegex (str "\B") [Inst.Char "b"; Inst.Match] true 0)
  /\ (forall (re : Regex) (fuel : nat) (text : cstring) (pos : Z),
         compile (str "\B") = Ok re ->
         0 <= pos ->
         RegexM.match_ (S (S fuel)) re text pos
         = if (pos <? size text) && Ascii.eqb (VM.at_ text pos) "b"
           then Ok (Some (mkMatchResult true pos ["b"] []))
           else Ok None).
Proof.
  split; [|split; [|split; [|split]]]; try reflexivity.
  - intros; split; reflexivity.
  - intros re fuel text pos Hre Hpos.
    assert (E : compile (str "\B") = Ok (mkRegex (str "\B") [Inst.Char "b"; Inst.Match] true 0))
      by reflexivity.
    rewrite E in Hre. inversion Hre; subst re; clear Hre E.
    cbv [RegexM.match_ RegexM.executeAt RegexM.captureCount compiled_ instructions_
           numCaptures_ negb VM.executeAt].
    change (Z.to_nat (0 + 1)) with 1%nat.
    destruct ((pos <? size text) && Ascii.eqb (VM.at_ text pos) "b") eqn:Hc.
    + rewrite (VMFacts.run_next _ _ _ _ _
                 (VM.mkState 1 (pos + 1) [pos; npos] []) (Inst.Char "b")); [|reflexivity|].
      2:{ unfold VM.step. cbn [opcode Inst.Char set_operand set_ch set_opcode
                                 Instruction_default ch VM.textPos VM.initial].
          rewrite Hc. reflexivity. }
      rewrite (VMFacts.run_accept _ _ _ _ _ Inst.Match [pos; pos + 1]) by reflexivity.
      apply andb_true_iff in Hc. destruct Hc as [Hlt Hb].
      apply Z.ltb_lt in Hlt. apply Ascii.eqb_eq in Hb.
      unfold VM.buildResult, VM.cap.
      cbn [nth VM.groups Nat.sub seq VM.markContained fold_left VM.reportGroups].
      unfold substr.
      replace (size text <? pos) with false by (symmetry; apply Z.ltb_ge; lia).
      replace (pos + 1 - pos) with 1 by lia. change (u64 1) with 1.
      replace (Z.min 1 (size text - pos)) with 1 by lia.
      change (Z.to_nat 1) with 1%nat.
      rewrite (firstn_1_skipn zero) by (unfold size in Hlt; lia).
      cbn [bind]. unfold VM.at_ in Hb. rewrite Hb. reflexivity.
    + rewrite VMFacts.run_fail; [reflexivity|].
      unfold fails. cbn [VM.fetch VM.initial VM.pc Z.ltb Z.compare Z.to_nat nth_error].
      unfold VM.step. cbn [opcode Inst.Char set_operand set_ch set_opcode
                             Instruction_default ch VM.textPos VM.initial].
      rewrite Hc. reflexivity.
Qed.

Lemma escape_b_is_literal_b_witness :
  exists re,
    compile (str "\B") = Ok re
    /\ RegexM.match_ 2 re (str "ab") 1 = Ok (Some (mkMatchResult true 1 ["b"] [])).
Proof.
  eexists; split; [reflexivity|].
  apply (proj2 (proj2 (proj2 (proj2 escape_b_is_literal_b))) _ 0%nat (str "ab") 1 eq_refl).
  lia.
Defined.

(** ** Failure in the VM *)

(** A program that starts with BACKREF matches nothing, and a BACKREF in
    the preferred branch of a SPLIT hands over to the other branch. *)
Example backref_program_no_match (fuel : nat) (k : Z) (text : cstring) (pos : Z) :
  VM.executeAt (S fuel) [Inst.Backref k; Inst.Match] 1 text pos = Ok None.
Proof.
  unfold VM.executeAt. rewrite VMFacts.run_fail; [reflexivity|].
  unfold fails. reflexivity.
Qed.

Example backref_backtracks :
  VM.executeAt 10 [Inst.Split 1 2; Inst.Backref 1; Inst.Char "a"; Inst.Match] 1 (str "a") 0
  = Ok (Some (mkMatchResult true 0 ["a"] [])).
Proof. reflexivity. Qed.

(** ** The containment filter of [buildResult] *)

Module CaptureFilter.
Import VM.

Section Filter.
Variables (text : cstring) (captures_ : list Z) (captureCount_ : nat).

Definition strict (i j : nat) : bool :=
  (cap captures_ (j * 2) <=? cap captures_ (i * 2))
  && (cap captures_ (i * 2 + 1) <=? cap captures_ (j * 2 + 1))
  && ((cap captures_ (j * 2) <? cap captures_ (i * 2))
      || (cap captures_ (i * 2 + 1) <? cap captures_ (j * 2 + 1))).

Definition mark (is_contained : list bool) (i : nat) : list bool :=
  if valid_span captures_ i
  then if existsb (covers captures_ is_contained i) (groups captureCount_)
       then update i (fun _ => true) is_contained
       else is_contained
  else is_contained.

Lemma markContained_fold :
  markContained captures_ captureCount_
  = fold_left mark (groups captureCount_) (List.repeat false captureCount_).
Proof. reflexivity. Qed.

Lemma length_mark (m : list bool) (i : nat) : List.length (mark m i) = List.length m.
Proof.
  unfold mark. destruct (valid_span captures_ i); [|reflexivity].
  destruct (existsb _ _); [apply VMFacts.length_update | reflexivity].
Qed.

(** a mark, once set, stays *)
Lemma mark_monotone (m : list bool) (i j : nat) :
  nth j (mark m i) false = false -> nth j m false = false.
Proof.
  unfold mark. destruct (valid_span captures_ i); [|auto].
  destruct (existsb _ _); [|auto].
  rewrite VMFacts.nth_update. destruct ((i =? j)%nat && (i <? List.length m)%nat); auto.
  discriminate.
Qed.

Lemma fold_mark_monotone (l : list nat) :
  forall m j, nth j (fold_left mark l m) false = false -> nth j m false = false.
Proof.
  induction l as [|i l IH]; intros m j H; [exact H|].
  cbn [fold_left] in H. apply IH in H. now apply mark_monotone in H.
Qed.

Lemma covers_unmarked (m : list bool) (i j : nat) :
  i <> j -> nth j m false = false -> valid_span captures_ j = true ->
  covers captures_ m i j = strict i j.
Proof.
  intros Hij Hm Hv. unfold covers, strict.
  replace (i =? j)%nat with false by (symmetry; now apply Nat.eqb_neq).
  rewrite Hm, Hv. reflexivity.
Qed.

Lemma fold_mark_sound (l : list nat) :
  forall m,
    (forall i, In i l -> (i < List.length m)%nat) ->
    forall i j,
      In i l -> In j (groups captureCount_) -> i <> j ->
      nth i (fold_left mark l m) false = false ->
      nth j (fold_left mark l m) false = false ->
      valid_span captures_ i = true -> valid_span captures_ j = true ->
      strict i j = false.
Proof.
  induction l as [|i0 l IH]; intros m Hlen i j Hi Hj Hij Hmi Hmj Hvi Hvj; [destruct Hi|].
  cbn [fold_left] in Hmi, Hmj.
  destruct Hi as [<- | Hi].
  - apply fold_mark_monotone in Hmi, Hmj.
    apply mark_monotone in Hmj.
    unfold mark in Hmi. rewrite Hvi in Hmi.
    destruct (existsb (covers captures_ m i0) (groups captureCount_)) eqn:Hex.
    + rewrite VMFacts.nth_update in Hmi. rewrite Nat.eqb_refl in Hmi.
      replace (i0 <? List.length m)%nat with true in Hmi
        by (symmetry; apply Nat.ltb_lt, Hlen; now left).
      discriminate.
    + rewrite <- (covers_unmarked m i0 j) by assumption.
      destruct (covers captures_ m i0 j) eqn:Hc; [|reflexivity].
      assert (existsb (covers captures_ m i0) (groups captureCount_) = true)
        by (apply existsb_exists; eauto).
      congruence.
  - apply (IH (mark m i0)); auto.
    intros k Hk. rewrite length_mark. apply Hlen. now right.
Qed.

Lemma markContained_sound (i j : nat) :
  In i (groups captureCount_) -> In j (groups captureCount_) -> i <> j ->
  nth i (markContained captures_ captureCount_) false = false ->
  nth j (markContained captures_ captureCount_) false = false ->
  valid_span captures_ i = true -> valid_span captures_ j = true ->
  strict i j = false.
Proof.
  rewrite markContained_fold. apply fold_mark_sound.
  intros k Hk. rewrite repeat_length. unfold groups in Hk. apply in_seq in Hk. lia.
Qed.

(** the span an unmarked group is reported with *)
Definition span (i : nat) : Z * Z :=
  let start := cap captures_ (i * 2) in
  let end_ := cap captures_ (i * 2 + 1) in
  if negb (start =? npos) && negb (end_ =? npos) && (start <? end_)
  then (start, end_)
  else (npos, npos).

Lemma reportGroup_span (i : nat) (m : Match) :
  reportGroup text captures_ i = Ok m -> (m_start m, m_end m) = span i.
Proof.
  unfold reportGroup, span. cbv zeta.
  destruct (negb (cap captures_ (i * 2) =? npos)
            && negb (cap captures_ (i * 2 + 1) =? npos)
            && (cap captures_ (i * 2) <? cap captures_ (i * 2 + 1))).
  - destruct (substr _ _ _); cbn [bind]; try discriminate.
    intros H; inversion H; reflexivity.
  - intros H; inversion H; reflexivity.
Qed.

Lemma reportGroups_spans (marks : list bool) (gs : list nat) :
  forall ms,
    reportGroups text captures_ marks gs = Ok ms ->
    map (fun m => (m_start m, m_end m)) ms
    = map span (filter (fun i => negb (nth i marks false)) gs).
Proof.
  induction gs as [|i gs IH]; intros ms H; cbn [reportGroups filter] in *.
  - inversion H; reflexivity.
  - destruct (negb (nth i marks false)).
    + destruct (reportGroup text captures_ i) as [m| |] eqn:Hm; try discriminate.
      cbn [bind] in H.
      destruct (reportGroups text captures_ marks gs) as [ms'| |]; try discriminate.
      cbn [bind] in H. inversion H; subst ms.
      cbn [map]. rewrite (IH ms' eq_refl), (reportGroup_span _ _ Hm). reflexivity.
    + auto.
Qed.
End Filter.
End CaptureFilter.

Lemma cap_le_npos (captures_ : list Z) (i : nat) :
  Forall (fun v => 0 <= v <= npos) captures_ -> VM.cap captures_ i <= npos.
Proof.
  intros H. unfold VM.cap.
  destruct (Nat.lt_ge_cases i (List.length captures_)) as [Hi|Hi].
  - rewrite Forall_forall in H. apply (H (nth i captures_ npos)). now apply nth_In.
  - rewrite nth_overflow by assumption. lia.
Qed.

(** what the filter of [buildResult] achieves, for a capture vector of
    [size_t] values *)
Lemma buildResult_filter :
  forall (captureCount_ : nat) (text : cstring) (captures_ : list Z) (r : MatchResult)
         (a b : nat) (ca cb : Match),
    Forall (fun v => 0 <= v <= npos) captures_ ->
    VM.buildResult captureCount_ text captures_ = Ok r ->
    a <> b ->
    nth_error (captures r) a = Some ca ->
    nth_error (captures r) b = Some cb ->
    ~ strictly_contained ca cb.
Proof.
  intros cc text caps r a b ca cb Hrange Hb Hab Ha Hcb.
  unfold VM.buildResult in Hb.
  destruct (substr text (VM.cap caps 0) _) as [mt| |]; try discriminate.
  cbn [bind] in Hb.
  destruct (VM.reportGroups text caps (VM.markContained caps cc) (VM.groups cc))
    as [ms| |] eqn:Hms; try discriminate.
  cbn [bind] in Hb. inversion Hb; subst r; clear Hb. cbn [captures] in Ha, Hcb.
  apply CaptureFilter.reportGroups_spans in Hms.
  set (F := filter (fun i => negb (nth i (VM.markContained caps cc) false)) (VM.groups cc))
    in Hms.
  assert (Hsel : forall k c, nth_error ms k = Some c ->
                   exists i, nth_error F k = Some i
                             /\ CaptureFilter.span caps i = (m_start c, m_end c)).
  { intros k c Hk.
    apply (map_nth_error (fun m => (m_start m, m_end m))) in Hk.
    rewrite Hms, nth_error_map in Hk.
    destruct (nth_error F k) as [i|]; [|discriminate].
    exists i. split; [reflexivity|]. now inversion Hk. }
  destruct (Hsel a ca Ha) as (ia & Hia & Hsa).
  destruct (Hsel b cb Hcb) as (ib & Hib & Hsb).
  assert (Hnd : NoDup F) by (apply NoDup_filter, seq_NoDup).
  assert (Hne : ia <> ib).
  { intros ->. apply Hab. apply (proj1 (NoDup_nth_error F) Hnd).
    - apply nth_error_Some. congruence.
    - congruence. }
  assert (Hin : forall i, In i F ->
                  In i (VM.groups cc) /\ nth i (VM.markContained caps cc) false = false).
  { intros i Hi. apply filter_In in Hi. destruct Hi as [Hg Hm].
    split; [assumption|]. now apply negb_true_iff in Hm. }
  destruct (Hin ia (nth_error_In _ _ Hia)) as [Hga Hma].
  destruct (Hin ib (nth_error_In _ _ Hib)) as [Hgb Hmb].
  pose proof (CaptureFilter.markContained_sound caps cc ia ib Hga Hgb Hne Hma Hmb) as Hsound.
  pose proof (cap_le_npos caps (ia * 2) Hrange).
  pose proof (cap_le_npos caps (ia * 2 + 1) Hrange).
  pose proof (cap_le_npos caps (ib * 2) Hrange).
  pose proof (cap_le_npos caps (ib * 2 + 1) Hrange).
  unfold strictly_contained. intros (Hc1 & Hc2 & Hc3).
  unfold CaptureFilter.span in Hsa, Hsb. cbv zeta in Hsa, Hsb.
  unfold VM.valid_span, CaptureFilter.strict in Hsound.
  destruct (Z.eqb_spec (VM.cap caps (ia * 2)) npos);
    destruct (Z.eqb_spec (VM.cap caps (ia * 2 + 1)) npos);
    destruct (Z.ltb_spec (VM.cap caps (ia * 2)) (VM.cap caps (ia * 2 + 1)));
    destruct (Z.eqb_spec (VM.cap caps (ib * 2)) npos);
    destruct (Z.eqb_spec (VM.cap caps (ib * 2 + 1)) npos);
    destruct (Z.ltb_spec (VM.cap caps (ib * 2)) (VM.cap caps (ib * 2 + 1)));
    cbn [negb andb] in Hsa, Hsb, Hsound;
    inversion Hsa; inversion Hsb; lia.
Qed.


(** ** The capture vector holds [size_t] values

    A run of [fuel] steps from offset [pos] writes offsets of at most
    [pos + fuel] into the vector. *)

Module RangeFacts.
Import VM.

Definition size_t (v : Z) : Prop := 0 <= v <= npos.

Definition frame_in_range (fuel : nat) (tp : Z) (caps : list Z) : Prop :=
  0 <= tp /\ tp + Z.of_nat fuel <= npos /\ Forall size_t caps.

Definition state_in_range (fuel : nat) (st : state) : Prop :=
  frame_in_range fuel (textPos st) (captures_ st)
  /\ Forall (fun bp => frame_in_range fuel (bp_textPos bp) (savedCaptures bp))
       (backtrackStack_ st).

Lemma Forall_update {A} (P : A -> Prop) (v : A) (l : list A) :
  forall i, Forall P l -> P v -> Forall P (update i (fun _ => v) l).
Proof.
  induction l as [|x l IH]; intros [|i] Hl Hv; cbn [update]; auto;
    inversion Hl; subst; constructor; auto.
Qed.

Lemma frame_in_range_less (fuel : nat) (tp : Z) (caps : list Z) :
  frame_in_range (S fuel) tp caps -> frame_in_range fuel tp caps.
Proof. intros (H1 & H2 & H3). repeat split; auto; lia. Qed.

Lemma frame_in_range_advance (fuel : nat) (tp : Z) (caps : list Z) :
  frame_in_range (S fuel) tp caps -> frame_in_range fuel (tp + 1) caps.
Proof. intros (H1 & H2 & H3). repeat split; auto; lia. Qed.

Lemma frame_in_range_setcap (fuel : nat) (tp : Z) (caps : list Z) (i : nat) :
  frame_in_range (S fuel) tp caps -> frame_in_range fuel tp (setcap caps i tp).
Proof.
  intros (H1 & H2 & H3). repeat split; auto; try lia.
  apply Forall_update; [assumption|]. unfold size_t. lia.
Qed.

Lemma stack_in_range_less (fuel : nat) (stack : list BacktrackPoint) :
  Forall (fun bp => frame_in_range (S fuel) (bp_textPos bp) (savedCaptures bp)) stack ->
  Forall (fun bp => frame_in_range fuel (bp_textPos bp) (savedCaptures bp)) stack.
Proof.
  intros H. eapply Forall_impl; [|exact H]. intros bp. apply frame_in_range_less.
Qed.

Section Range.
Variables (instructions_ : list Instruction) (captureCount_ : nat) (text : cstring).

Lemma step_in_range (fuel : nat) (inst : Instruction) (st st' : state) :
  state_in_range (S fuel) st -> step text inst st = Next st' -> state_in_range fuel st'.
Proof.
  intros [Hf Hs] H. unfold step, advance in H.
  pose proof (stack_in_range_less _ _ Hs) as Hs'.
  pose proof (frame_in_range_less _ _ _ Hf) as Hf'.
  destruct (opcode inst);
    repeat match type of H with
           | (if ?c then _ else _) = _ => destruct c
           end; try discriminate H; inversion H; subst st'; clear H;
    split; cbn [textPos captures_ backtrackStack_];
    auto using frame_in_range_advance, frame_in_range_setcap.
Qed.

Lemma backtrack_in_range (fuel : nat) (st st' : state) :
  state_in_range (S fuel) st -> backtrack st = Some st' -> state_in_range fuel st'.
Proof.
  intros [Hf Hs] H. unfold backtrack in H.
  destruct (backtrackStack_ st) as [|bp stack]; [discriminate|].
  inversion H; subst st'. apply stack_in_range_less in Hs. inversion Hs; subst.
  split; assumption.
Qed.

Lemma run_in_range (fuel : nat) :
  forall st r,
    state_in_range fuel st ->
    run fuel instructions_ captureCount_ text st = Ok (Some r) ->
    exists caps, Forall size_t caps /\ buildResult captureCount_ text caps = Ok r.
Proof.
  induction fuel as [|fuel IH]; intros st r Hok H; [discriminate|].
  cbn [run] in H.
  assert (Hbt : match backtrack st with
                | Some st' => run fuel instructions_ captureCount_ text st'
                | None => Ok None
                end = Ok (Some r) ->
                exists caps, Forall size_t caps
                             /\ buildResult captureCount_ text caps = Ok r).
  { destruct (backtrack st) as [st'|] eqn:Hb; [|discriminate].
    apply IH. eapply backtrack_in_range; eauto. }
  destruct (fetch instructions_ (pc st)) as [inst|]; [|auto].
  destruct (step text inst st) as [st'| |caps] eqn:Hs; [| auto |].
  - eapply IH; [|exact H]. eapply step_in_range; eauto.
  - destruct (VMFacts.step_accept_is_match _ _ _ _ Hs) as [_ ->].
    destruct (buildResult captureCount_ text _) as [r'| |] eqn:Hb; try discriminate.
    cbn [bind] in H. inversion H; subst r'; clear H.
    eexists. split; [|exact Hb].
    destruct Hok as [(H1 & H2 & H3) _].
    apply Forall_update; [assumption|]. unfold size_t. lia.
Qed.

Lemma executeAt_in_range (fuel : nat) (pos : Z) (r : MatchResult) :
  0 <= pos ->
  pos + Z.of_nat fuel <= npos ->
  executeAt fuel instructions_ captureCount_ text pos = Ok (Some r) ->
  exists caps, Forall size_t caps /\ buildResult captureCount_ text caps = Ok r.
Proof.
  intros Hpos Hfuel. apply run_in_range.
  split; [|constructor]. cbn [initial textPos captures_]. repeat split; auto.
  apply Forall_update; [|unfold size_t; lia].
  apply Forall_forall. intros v Hv. apply repeat_spec in Hv. subst v.
  unfold size_t, npos. lia.
Qed.
End Range.
End RangeFacts.

(** C7. In the [captures] list reported for a successful match, no entry
    has a span strictly contained in the span of another entry: for entries
    [ci], [cj] at different places of the list it is not the case that
    [cj.start <= ci.start], [ci.end <= cj.end] and one of the two is strict.
    This holds for [buildResult] on every capture vector of [size_t] values,
    and so for every result of [executeAt] (whose offsets stay below
    [2^64]). *)
Theorem reported_captures_not_contained :
  (forall (captureCount_ : nat) (text : cstring) (captures_ : list Z) (r : MatchResult)
          (a b : nat) (ca cb : Match),
      Forall (fun v => 0 <= v <= npos) captures_ ->
      VM.buildResult captureCount_ text captures_ = Ok r ->
      a <> b ->
      nth_error (captures r) a = Some ca ->
      nth_error (captures r) b = Some cb ->
      ~ strictly_contained ca cb)
  /\ (forall (instructions_ : list Instruction) (captureCount_ : nat) (text : cstring)
             (fuel : nat) (pos : Z) (r : MatchResult) (a b : nat) (ca cb : Match),
         0 <= pos ->
         pos + Z.of_nat fuel <= npos ->
         VM.executeAt fuel instructions_ captureCount_ text pos = Ok (Some r) ->
         a <> b ->
         nth_error (captures r) a = Some ca ->
         nth_error (captures r) b = Some cb ->
         ~ strictly_contained ca cb).
Proof.
  split.
  - apply buildResult_filter.
  - intros instructions_ captureCount_ text fuel pos r a b ca cb Hpos Hfuel He.
    destruct (RangeFacts.executeAt_in_range _ _ _ _ _ _ Hpos Hfuel He) as (caps & Hr & Hb).
    eapply buildResult_filter; eauto.
Qed.

Lemma reported_captures_not_contained_witness :
  ~ strictly_contained (mkMatch 0 1 ["a"]) (mkMatch 1 3 ["b"; "c"])
  /\ ~ strictly_contained (mkMatch 0 1 ["a"]) (mkMatch 1 2 ["b"]).
Proof.
  split.
  - refine (proj1 reported_captures_not_contained 3%nat (str "abc") [0; 3; 0; 1; 1; 3]
              (mkMatchResult true 0 (str "abc") [mkMatch 0 1 ["a"]; mkMatch 1 3 ["b"; "c"]])
              0%nat 1%nat _ _ _ _ _ _ _).
    + repeat constructor; unfold npos; lia.
    + reflexivity.
    + discriminate.
    + reflexivity.
    + reflexivity.
  - refine (proj2 reported_captures_not_contained
              [Inst.Save 2; Inst.Char "a"; Inst.Save 3; Inst.Save 4; Inst.Char "b";
               Inst.Save 5; Inst.Match] 3%nat (str "ab") 20%nat 0
              (mkMatchResult true 0 (str "ab") [mkMatch 0 1 ["a"]; mkMatch 1 2 ["b"]])
              0%nat 1%nat _ _ _ _ _ _ _ _).
    + lia.
    + unfold npos. lia.
    + reflexivity.
    + discriminate.
    + reflexivity.
    + reflexivity.
Defined.

(** ** [search] *)

Module SearchFacts.
Section Search.
Variables (fuel : nat) (instructions_ : list Instruction) (captureCount_ : nat).
Variable text : cstring.

Let exec (p : Z) := VM.executeAt fuel instructions_ captureCount_ text p.

(** the rounds of the loop that do not return: no match at [p], or an empty
    match before the end of the text *)
Definition goes_on (o : option MatchResult) (p : Z) : bool :=
  match o with
  | None => true
  | Some r => (mr_length r =? 0) && (p <? size text)
  end.

(** [prevMatchLen] is 0 whenever the loop is entered: it is only ever set to
    the length of an empty match, or to 0. *)
Lemma searchLoop_round (rounds : nat) (pos : Z) :
  VM.searchLoop (S rounds) fuel instructions_ captureCount_ text pos 0
  = if pos <=? size text then
      o <- exec pos ;;
      if goes_on o pos
      then VM.searchLoop rounds fuel instructions_ captureCount_ text (pos + 1) 0
      else Ok o
    else Ok None.
Proof.
  cbn [VM.searchLoop]. destruct (pos <=? size text); [|reflexivity].
  subst exec; cbv beta.
  destruct (VM.executeAt fuel instructions_ captureCount_ text pos) as [[r|]| |];
    cbn [bind goes_on]; try reflexivity.
  - destruct (Z.eqb_spec (mr_length r) 0) as [E|E]; cbn [andb]; [|reflexivity].
    destruct (pos <? size text); [|reflexivity].
    rewrite E. now destruct ((pos + 1 <? size text) && matched r).
  - now destruct ((pos + 1 <? size text) && matched MatchResult_default).
Qed.

Definition skipped (q : Z) : Prop :=
  exists o, exec q = Ok o /\ goes_on o q = true.

Definition first_hit (start : Z) (r : MatchResult) : Prop :=
  exists p, start <= p <= size text
            /\ exec p = Ok (Some r)
            /\ goes_on (Some r) p = false
            /\ forall q, start <= q < p -> skipped q.

Lemma searchLoop_spec (rounds : nat) :
  forall pos,
    (Z.to_nat (size text + 1 - pos) <= rounds)%nat ->
    (forall r,
        VM.searchLoop rounds fuel instructions_ captureCount_ text pos 0 = Ok (Some r)
        <-> first_hit pos r)
    /\ (VM.searchLoop rounds fuel instructions_ captureCount_ text pos 0 = Ok None
        <-> forall q, pos <= q <= size text -> skipped q).
Proof.
  assert (Hend : forall rounds pos, size text < pos ->
            VM.searchLoop rounds fuel instructions_ captureCount_ text pos 0 = Ok None).
  { intros n pos H. destruct n; cbn [VM.searchLoop];
      (replace (pos <=? size text) with false by (symmetry; apply Z.leb_gt; lia));
      reflexivity. }
  induction rounds as [|rounds IH]; intros pos Hr.
  - rewrite Hend by lia. split.
    + intros r. split; [discriminate|]. intros (p & Hp & _). lia.
    + split; [|reflexivity]. intros _ q Hq. lia.
  - destruct (Z.lt_ge_cases (size text) pos) as [Hgt|Hle].
    { rewrite Hend by lia. split.
      + intros r. split; [discriminate|]. intros (p & Hp & _). lia.
      + split; [|reflexivity]. intros _ q Hq. lia. }
    rewrite searchLoop_round.
    replace (pos <=? size text) with true by (symmetry; apply Z.leb_le; lia).
    destruct (IH (pos + 1) ltac:(lia)) as [IHs IHn].
    destruct (exec pos) as [o| |] eqn:Ho; cbn [bind].
    + destruct (goes_on o pos) eqn:Hg.
      * split.
        -- intros r. rewrite IHs. split.
           ++ intros (p & Hp & He & Hgp & Hq). exists p. repeat split; auto; try lia.
              intros q Hqr. destruct (Z.eq_dec q pos) as [->|Hne].
              ** exists o. auto.
              ** apply Hq. lia.
           ++ intros (p & Hp & He & Hgp & Hq). exists p.
              assert (p <> pos) by (intros ->; rewrite Ho in He; inversion He; congruence).
              repeat split; auto; try lia. intros q Hqr. apply Hq. lia.
        -- rewrite IHn. split.
           ++ intros H q Hq. destruct (Z.eq_dec q pos) as [->|Hne].
              ** exists o. auto.
              ** apply H. lia.
           ++ intros H q Hq. apply H. lia.
      * destruct o as [r0|]; [|discriminate]. split.
        -- intros r. split.
           ++ intros H. inversion H; subst r0. exists pos. repeat split; auto; try lia.
           ++ intros (p & Hp & He & Hgp & Hq).
              destruct (Z.eq_dec p pos) as [->|Hne]; [congruence|].
              destruct (Hq pos ltac:(lia)) as (o & Ho' & Hg').
              rewrite Ho in Ho'. inversion Ho'; subst o. congruence.
        -- split; [discriminate|]. intros H.
           destruct (H pos ltac:(lia)) as (o & Ho' & Hg').
           rewrite Ho in Ho'. inversion Ho'; subst o. congruence.
    + split.
      * intros r. split; [discriminate|]. intros (p & Hp & He & Hgp & Hq).
        destruct (Z.eq_dec p pos) as [->|Hne]; [congruence|].
        destruct (Hq pos ltac:(lia)) as (o & Ho' & _). congruence.
      * split; [discriminate|]. intros H.
        destruct (H pos ltac:(lia)) as (o & Ho' & _). congruence.
    + split.
      * intros r. split; [discriminate|]. intros (p & Hp & He & Hgp & Hq).
        destruct (Z.eq_dec p pos) as [->|Hne]; [congruence|].
        destruct (Hq pos ltac:(lia)) as (o & Ho' & _). congruence.
      * split; [discriminate|]. intros H.
        destruct (H pos ltac:(lia)) as (o & Ho' & _). congruence.
Qed.

Lemma search_spec (start : Z) :
  (forall r,
      VM.search fuel instructions_ captureCount_ text start = Ok (Some r)
      <-> first_hit start r)
  /\ (VM.search fuel instructions_ captureCount_ text start = Ok None
      <-> forall q, start <= q <= size text -> skipped q).
Proof. unfold VM.search. apply searchLoop_spec. lia. Qed.
End Search.
End SearchFacts.

(** ** The loop bounds of the model are never what stops it

    [search], [searchAll] and [replace] are modelled with a bound on the
    rounds of their loops.  When one of them ends in [OutOfFuel], it is a
    call of [executeAt] that did, not the bound. *)

Module LoopBounds.
Section Bounds.
Variables (fuel : nat) (re : Regex).
Hypothesis captureCount_pos : (1 <= RegexM.captureCount re)%nat.

Lemma searchLoop_fuel (text : cstring) (rounds : nat) :
  forall pos prevMatchLen,
    (Z.to_nat (size text + 1 - pos) <= rounds)%nat ->
    VM.searchLoop rounds fuel (instructions_ re) (RegexM.captureCount re) text pos
      prevMatchLen = OutOfFuel ->
    exists p, RegexM.executeAt fuel re text p = OutOfFuel.
Proof.
  induction rounds as [|rounds IH]; intros pos prev Hr H; cbn [VM.searchLoop] in H;
    destruct (Z.leb_spec pos (size text)) as [Hle|Hgt]; try discriminate; [lia|].
  fold (RegexM.executeAt fuel re text pos) in H.
  destruct (RegexM.executeAt fuel re text pos) as [[r|]| |] eqn:E; cbn [bind] in H;
    try discriminate; [| |eauto].
  - destruct ((mr_length r =? 0) && (mr_length r =? prev) && (pos <? size text));
      [|discriminate].
    apply IH in H; [assumption | lia].
  - apply IH in H; [assumption | lia].
Qed.

Lemma search_fuel (text : cstring) (start : Z) :
  RegexM.search fuel re text start = OutOfFuel ->
  exists p, RegexM.executeAt fuel re text p = OutOfFuel.
Proof.
  unfold RegexM.search, VM.search. destruct (negb (compiled_ re)); [discriminate|].
  apply searchLoop_fuel. lia.
Qed.

Lemma searchAllLoop_fuel (text : cstring) (rounds : nat) :
  forall pos prevMatchLen,
    0 <= pos ->
    (Z.to_nat (size text + 1 - pos) <= rounds)%nat ->
    RegexM.searchAllLoop rounds fuel re text pos prevMatchLen = OutOfFuel ->
    exists p, RegexM.executeAt fuel re text p = OutOfFuel.
Proof.
  induction rounds as [|rounds IH]; intros pos prev Hpos Hr H;
    cbn [RegexM.searchAllLoop] in H;
    destruct (Z.leb_spec pos (size text)) as [Hle|Hgt]; try discriminate; [lia|].
  destruct (RegexM.executeAt fuel re text pos) as [[r|]| |] eqn:E; cbn [bind] in H;
    try discriminate; [| |eauto].
  - destruct ((mr_length r =? 0) && (mr_length r =? prev) && (pos <? size text)).
    + apply IH in H; [assumption | lia | lia].
    + destruct (VMFacts.executeAt_position _ _ _ _ _ _ captureCount_pos E) as (_ & Hp & _).
      pose proof (size_nonneg (matched_text r)) as Hsz. unfold mr_length in *.
      destruct (RegexM.searchAllLoop rounds fuel re text _ _) eqn:E'; cbn [bind] in H;
        try discriminate.
      apply IH in E'; [assumption | |];
        destruct (Z.ltb_spec 0 (size (matched_text r))); lia.
  - apply IH in H; [assumption | lia | lia].
Qed.

Lemma searchAll_fuel (text : cstring) :
  RegexM.searchAll fuel re text = OutOfFuel ->
  exists p, RegexM.executeAt fuel re text p = OutOfFuel.
Proof.
  unfold RegexM.searchAll. destruct (negb (compiled_ re)); [discriminate|].
  apply searchAllLoop_fuel; lia.
Qed.

(** what a hit of [search] looks like *)
Lemma search_hit (text : cstring) (pos : Z) (m : MatchResult) :
  0 <= pos ->
  RegexM.search fuel re text pos = Ok (Some m) ->
  exists n,
    pos <= position m <= size text
    /\ 0 <= n <= size text - position m
    /\ matched_text m = firstn (Z.to_nat n) (skipn (Z.to_nat (position m)) text)
    /\ (0 < n \/ position m = size text).
Proof.
  intros Hpos. unfold RegexM.search. destruct (negb (compiled_ re)); [discriminate|].
  intros Ho.
  pose proof (proj1 (proj1 (SearchFacts.search_spec fuel (instructions_ re)
                              (RegexM.captureCount re) text pos) m) Ho)
    as (p & Hp & He & Hg & _).
  destruct (VMFacts.executeAt_position _ _ _ _ _ _ captureCount_pos He)
    as (_ & Hpm & n & Hn & Ht).
  exists n. repeat split; try lia; [exact Ht|].
  assert (Hsz : mr_length m = n).
  { unfold mr_length. rewrite Ht. unfold size in *. rewrite length_firstn, length_skipn. lia. }
  cbn [SearchFacts.goes_on] in Hg. rewrite Hsz in Hg.
  apply andb_false_iff in Hg.
  destruct Hg as [Hg|Hg]; [apply Z.eqb_neq in Hg | apply Z.ltb_ge in Hg]; lia.
Qed.

Lemma replaceLoop_fuel (replacement : cstring) (rounds : nat) :
  forall result_ pos,
    0 <= pos ->
    (Z.to_nat (size result_ - pos) <= rounds)%nat ->
    RegexM.replaceLoop rounds fuel re replacement result_ pos = OutOfFuel ->
    exists text p, RegexM.executeAt fuel re text p = OutOfFuel.
Proof.
  induction rounds as [|rounds IH]; intros result_ pos Hpos Hr H;
    cbn [RegexM.replaceLoop] in H;
    destruct (Z.ltb_spec pos (size result_)) as [Hlt|Hge]; try discriminate; [lia|].
  destruct (RegexM.search fuel re result_ pos) as [[m|]| |] eqn:E; cbn [bind] in H;
    try discriminate.
  - destruct (search_hit _ _ _ Hpos E) as (n & Hp & Hn & Ht & Hprog).
    assert (Hsz : mr_length m = n).
    { unfold mr_length. rewrite Ht. unfold size in *.
      rewrite length_firstn, length_skipn. lia. }
    unfold string_replace in H.
    replace (size result_ <? position m) with false in H
      by (symmetry; apply Z.ltb_ge; lia).
    cbn [bind] in H. apply IH in H; [assumption | |].
    + pose proof (size_nonneg (RegexM.expandReplacement replacement m)). lia.
    + rewrite Hsz. replace (Z.min n (size result_ - position m)) with n by lia.
      rewrite !size_app.
      assert (size (firstn (Z.to_nat (position m)) result_) = position m)
        by (unfold size in *; rewrite length_firstn; lia).
      assert (size (skipn (Z.to_nat (position m + n)) result_)
              = size result_ - position m - n)
        by (unfold size in *; rewrite length_skipn; lia).
      lia.
  - destruct (search_fuel _ _ E) as (p & Hp'). eauto.
Qed.

Lemma replace_fuel (text replacement : cstring) (all : bool) :
  RegexM.replace fuel re text replacement all = OutOfFuel ->
  exists text' p, RegexM.executeAt fuel re text' p = OutOfFuel.
Proof.
  unfold RegexM.replace. destruct (negb (compiled_ re)); [discriminate|].
  destruct all.
  - apply replaceLoop_fuel; unfold size; lia.
  - destruct (RegexM.search fuel re text 0) as [[m|]| |] eqn:E; cbn [bind];
      try discriminate.
    + unfold string_replace. destruct (size text <? position m); discriminate.
    + intros _. destruct (search_fuel _ _ E) as (p & Hp). eauto.
Qed.
End Bounds.
End LoopBounds.

(** ** What [search] returns *)

Lemma passed_over_skipped (fuel : nat) (re : Regex) (text : cstring) (q : Z) :
  passed_over fuel re text q
  <-> SearchFacts.skipped fuel (instructions_ re) (RegexM.captureCount re) text q.
Proof.
  unfold passed_over, SearchFacts.skipped, RegexM.executeAt. split.
  - intros [H | (r & H & Hl & Hq)].
    + exists None. auto.
    + exists (Some r). split; [assumption|]. cbn [SearchFacts.goes_on].
      rewrite Hl. cbn. apply Z.ltb_lt. assumption.
  - intros ([r|] & H & Hg); [right | left; assumption].
    cbn [SearchFacts.goes_on] in Hg. apply andb_true_iff in Hg. destruct Hg as [Hl Hq].
    exists r. repeat split; [assumption | now apply Z.eqb_eq | now apply Z.ltb_lt].
Qed.

(** C2, as the code has it.  [search(text, start)] calls [executeAt] at
    the offsets [start], [start + 1], ... up to the length of the text, and
    goes past an offset when [executeAt] fails there or succeeds with an
    empty match before the end of the text.  It returns the result of the
    first offset it does not go past (a non-empty match, or any match at the
    end of the text), and returns false exactly when it goes past every
    offset from [start] to the length. *)
Theorem search_returns_first_kept_hit :
  forall (pattern : cstring) (re : Regex) (fuel : nat) (text : cstring) (start : Z),
    compile pattern = Ok re ->
    (forall r,
        RegexM.search fuel re text start = Ok (Some r)
        <-> exists p,
            start <= p <= size text
            /\ RegexM.executeAt fuel re text p = Ok (Some r)
            /\ (0 < mr_length r \/ p = size text)
            /\ forall q, start <= q < p -> passed_over fuel re text q)
    /\ (RegexM.search fuel re text start = Ok None
        <-> forall q, start <= q <= size text -> passed_over fuel re text q).
Proof.
  intros pattern re fuel text start Hre.
  unfold RegexM.search. rewrite (compile_compiled _ _ Hre). cbn [negb].
  destruct (SearchFacts.search_spec fuel (instructions_ re) (RegexM.captureCount re)
              text start) as [Hs Hn].
  split.
  - intros r. rewrite Hs. unfold SearchFacts.first_hit.
    split; intros (p & Hp & He & Hg & Hq); exists p; repeat split; try tauto; try lia.
    + cbn [SearchFacts.goes_on] in Hg. pose proof (size_nonneg (matched_text r)).
      unfold mr_length in *. apply andb_false_iff in Hg.
      destruct Hg as [Hg|Hg]; [apply Z.eqb_neq in Hg | apply Z.ltb_ge in Hg]; lia.
    + intros q Hqr. apply passed_over_skipped. auto.
    + cbn [SearchFacts.goes_on]. apply andb_false_iff.
      destruct Hg as [Hg|Hg]; [left; apply Z.eqb_neq | right; apply Z.ltb_ge]; lia.
    + intros q Hqr. apply passed_over_skipped. auto.
  - rewrite Hn. split; intros H q Hq; apply passed_over_skipped; auto.
Qed.

Lemma search_returns_first_kept_hit_witness :
  exists re,
    compile (str "a*") = Ok re
    /\ exists p,
        0 <= p <= size (str "baa")
        /\ RegexM.executeAt 20 re (str "baa") p
           = Ok (Some (mkMatchResult true 1 (str "aa") []))
        /\ (0 < mr_length (mkMatchResult true 1 (str "aa") []) \/ p = size (str "baa"))
        /\ forall q, 0 <= q < p -> passed_over 20 re (str "baa") q.
Proof.
  eexists. split; [reflexivity|].
  apply (proj1 (proj1 (search_returns_first_kept_hit (str "a*") _ 20 (str "baa") 0 eq_refl)
                  (mkMatchResult true 1 (str "aa") []))).
  reflexivity.
Defined.

(** Two inputs on which [search] is not the first offset at which
    [executeAt] succeeds.  The pattern "^" matches (emptily) at offset 0 of
    "b", yet [search] returns false; "a*" matches (emptily) at offset 0 of
    "baa", yet [search] returns the match at offset 1. *)
Lemma search_passes_over_empty_matches :
  (exists re,
      compile (str "^") = Ok re
      /\ RegexM.executeAt 10 re (str "b") 0 = Ok (Some (mkMatchResult true 0 [] []))
      /\ RegexM.search 10 re (str "b") 0 = Ok None)
  /\ (exists re,
         compile (str "a*") = Ok re
         /\ RegexM.executeAt 20 re (str "baa") 0 = Ok (Some (mkMatchResult true 0 [] []))
         /\ RegexM.search 20 re (str "baa") 0
            = Ok (Some (mkMatchResult true 1 (str "aa") []))).
Proof.
  split; eexists; repeat split; reflexivity.
Qed.

(** ** A pattern on which the VM does not halt *)

Module Divergence.
Import VM.

(** the program of the pattern that stars a group holding [a*] *)
Definition nested_star : list Instruction :=
  [Inst.Split 1 7; Inst.Save 2; Inst.Split 3 5; Inst.Char "a"; Inst.Jump 2;
   Inst.Save 3; Inst.Jump 0; Inst.Match].

Lemma compile_nested_star :
  compile (str "(a*)*") = Ok (mkRegex (str "(a*)*") nested_star true 1).
Proof. reflexivity. Qed.

(** The states the VM goes through on the text "b" from offset 0: it never
    leaves offset 0, and at the CHAR the frame on top of the stack leads to
    the second SAVE. *)
Inductive looping : state -> Prop :=
| loop_0 caps stack : looping (mkState 0 0 caps stack)
| loop_1 caps stack : looping (mkState 1 0 caps stack)
| loop_2 caps stack : looping (mkState 2 0 caps stack)
| loop_3 caps caps' stack :
    looping (mkState 3 0 caps (mkBacktrackPoint 5 0 caps' :: stack))
| loop_5 caps stack : looping (mkState 5 0 caps stack)
| loop_6 caps stack : looping (mkState 6 0 caps stack).

Lemma looping_step (st : state) :
  looping st ->
  exists st',
    looping st'
    /\ forall fuel captureCount_,
        run (S fuel) nested_star captureCount_ (str "b") st
        = run fuel nested_star captureCount_ (str "b") st'.
Proof.
  intros H. destruct H.
  - exists (mkState 1 0 caps (mkBacktrackPoint 7 0 caps :: stack)).
    split; [constructor | reflexivity].
  - exists (mkState 2 0 (setcap caps 2 0) stack). split; [constructor | reflexivity].
  - exists (mkState 3 0 caps (mkBacktrackPoint 5 0 caps :: stack)).
    split; [constructor | reflexivity].
  - exists (mkState 5 0 caps' stack). split; [constructor | reflexivity].
  - exists (mkState 6 0 (setcap caps 3 0) stack). split; [constructor | reflexivity].
  - exists (mkState 0 0 caps stack). split; [constructor | reflexivity].
Qed.

Lemma looping_forever (fuel : nat) (captureCount_ : nat) :
  forall st, looping st -> run fuel nested_star captureCount_ (str "b") st = OutOfFuel.
Proof.
  induction fuel as [|fuel IH]; intros st H; [reflexivity|].
  destruct (looping_step st H) as (st' & H' & E). rewrite E. auto.
Qed.

Lemma executeAt_nested_star (fuel : nat) (captureCount_ : nat) :
  executeAt fuel nested_star captureCount_ (str "b") 0 = OutOfFuel.
Proof. apply looping_forever. constructor. Qed.
End Divergence.

(** ** [searchAll] *)

Module SearchAllFacts.
Section SearchAll.
Variables (fuel : nat) (re : Regex) (text : cstring).

(** the matches lie one behind the other: each starts at or after [from],
    and the next one at or after its start plus [max(length, 1)] *)
Fixpoint spaced (from : Z) (results : list MatchResult) : Prop :=
  match results with
  | [] => True
  | r :: rest =>
      from <= position r <= size text
      /\ spaced (position r + Z.max (mr_length r) 1) rest
  end.

Lemma spaced_weaken (results : list MatchResult) (from from' : Z) :
  from' <= from -> spaced from results -> spaced from' results.
Proof.
  destruct results as [|r rest]; cbn [spaced]; [auto|].
  intros Hle [H1 H2]. split; [lia | assumption].
Qed.

Lemma spaced_lower (results : list MatchResult) :
  forall from r, spaced from results -> In r results -> from <= position r <= size text.
Proof.
  induction results as [|r0 rest IH]; intros from r Hs Hin; [destruct Hin|].
  cbn [spaced] in Hs. destruct Hs as [H1 H2]. destruct Hin as [<- | Hin]; [assumption|].
  specialize (IH _ _ H2 Hin). lia.
Qed.

Lemma spaced_pairs (results : list MatchResult) :
  forall from i j ri rj,
    spaced from results ->
    (i < j)%nat ->
    nth_error results i = Some ri ->
    nth_error results j = Some rj ->
    position ri + Z.max (mr_length ri) 1 <= position rj.
Proof.
  induction results as [|r0 rest IH]; intros from i j ri rj Hs Hij Hi Hj.
  - destruct i; discriminate.
  - cbn [spaced] in Hs. destruct Hs as [H1 H2].
    destruct j as [|j]; [lia|]. cbn [nth_error] in Hj.
    destruct i as [|i]; cbn [nth_error] in Hi.
    + inversion Hi; subst r0.
      apply (spaced_lower rest _ rj H2). eapply nth_error_In; eauto.
    + apply (IH _ i j ri rj H2); [lia | assumption | assumption].
Qed.

(** a round that reports a match moves [pos] to the start of the match plus
    [max(length, 1)] *)
Lemma searchAllLoop_advance (rounds : nat) (pos prevMatchLen : Z) (r : MatchResult) :
  pos <= size text ->
  RegexM.executeAt fuel re text pos = Ok (Some r) ->
  mr_length r <> 0 \/ prevMatchLen <> 0 \/ pos = size text ->
  RegexM.searchAllLoop (S rounds) fuel re text pos prevMatchLen
  = (results <- RegexM.searchAllLoop rounds fuel re text
                  (position r + Z.max (mr_length r) 1) (mr_length r) ;;
     Ok (r :: results)).
Proof.
  intros Hle He Hkeep. cbn [RegexM.searchAllLoop].
  replace (pos <=? size text) with true by (symmetry; apply Z.leb_le; lia).
  rewrite He. cbn [bind].
  replace ((mr_length r =? 0) && (mr_length r =? prevMatchLen) && (pos <? size text))
    with false.
  2:{ symmetry. apply andb_false_iff.
      destruct (Z.eqb_spec (mr_length r) 0) as [E|E]; [|left; reflexivity].
      rewrite E. cbn [andb].
      destruct Hkeep as [H|[H|H]]; [contradiction | |].
      - left. apply Z.eqb_neq. lia.
      - right. apply Z.ltb_ge. lia. }
  pose proof (size_nonneg (matched_text r)). unfold mr_length in *.
  replace (if 0 <? size (matched_text r) then size (matched_text r) else 1)
    with (Z.max (size (matched_text r)) 1)
    by (destruct (Z.ltb_spec 0 (size (matched_text r))); lia).
  reflexivity.
Qed.

Hypothesis captureCount_pos : (1 <= RegexM.captureCount re)%nat.
Hypothesis halts :
  forall p, 0 <= p <= size text -> exists o, RegexM.executeAt fuel re text p = Ok o.

Lemma searchAllLoop_spaced (rounds : nat) :
  forall pos prevMatchLen,
    0 <= pos ->
    (Z.to_nat (size text + 1 - pos) <= rounds)%nat ->
    exists results,
      RegexM.searchAllLoop rounds fuel re text pos prevMatchLen = Ok results
      /\ spaced pos results.
Proof.
  induction rounds as [|rounds IH]; intros pos prev Hpos Hr.
  - exists []. split; [|exact I]. cbn [RegexM.searchAllLoop].
    replace (pos <=? size text) with false by (symmetry; apply Z.leb_gt; lia).
    reflexivity.
  - destruct (Z.lt_ge_cases (size text) pos) as [Hgt|Hle].
    { exists []. split; [|exact I]. cbn [RegexM.searchAllLoop].
      replace (pos <=? size text) with false by (symmetry; apply Z.leb_gt; lia).
      reflexivity. }
    destruct (halts pos ltac:(lia)) as ([r|] & He).
    + destruct ((mr_length r =? 0) && (mr_length r =? prev) && (pos <? size text)) eqn:Hskip.
      * destruct (IH (pos + 1) prev ltac:(lia) ltac:(lia)) as (results & E & Hs).
        exists results. split; [|apply (spaced_weaken results (pos + 1)); [lia | assumption]].
        cbn [RegexM.searchAllLoop].
        replace (pos <=? size text) with true by (symmetry; apply Z.leb_le; lia).
        rewrite He. cbn [bind]. rewrite Hskip. exact E.
      * destruct (VMFacts.executeAt_position _ _ _ _ _ _ captureCount_pos He)
          as (_ & Hp & _).
        destruct (IH (position r + Z.max (mr_length r) 1) (mr_length r)
                    ltac:(lia) ltac:(lia)) as (results & E & Hs).
        exists (r :: results). split; [|cbn [spaced]; split; [lia | assumption]].
        rewrite searchAllLoop_advance with (r := r); auto.
        -- rewrite E. reflexivity.
        -- apply andb_false_iff in Hskip. destruct Hskip as [Hskip|Hskip].
           ++ apply andb_false_iff in Hskip. destruct Hskip as [Hskip|Hskip].
              ** left. now apply Z.eqb_neq.
              ** apply Z.eqb_neq in Hskip.
                 destruct (Z.eq_dec (mr_length r) 0); [right; left; lia | left; assumption].
           ++ apply Z.ltb_ge in Hskip. right; right. lia.
    + destruct (IH (pos + 1) 0 ltac:(lia) ltac:(lia)) as (results & E & Hs).
      exists results. split; [|apply (spaced_weaken results (pos + 1)); [lia | assumption]].
      cbn [RegexM.searchAllLoop].
      replace (pos <=? size text) with true by (symmetry; apply Z.leb_le; lia).
      rewrite He. cbn [bind]. exact E.
Qed.
End SearchAll.
End SearchAllFacts.

(** C5, as the code has it.  Whenever [executeAt] returns at every offset
    of the text (it need not: the VM can run for ever), [searchAll]
    terminates, and its matches lie in the text one behind the other: a
    later match starts at or after an earlier one's start plus
    [max(length, 1)], so starts strictly increase, matches do not overlap and
    an empty match costs one byte of progress.  This is how the loop moves:
    after it has reported a match at [p] of length [l] it continues at
    [p + max(l, 1)]. *)
Theorem searchAll_terminates_and_advances :
  forall (pattern : cstring) (re : Regex) (fuel : nat) (text : cstring),
    compile pattern = Ok re ->
    (forall p, 0 <= p <= size text -> exists o, RegexM.executeAt fuel re text p = Ok o) ->
    (exists results,
        RegexM.searchAll fuel re text = Ok results
        /\ (forall r, In r results -> 0 <= position r <= size text)
        /\ (forall i j ri rj,
               (i < j)%nat ->
               nth_error results i = Some ri ->
               nth_error results j = Some rj ->
               position ri + Z.max (mr_length ri) 1 <= position rj))
    /\ (forall rounds pos prevMatchLen r,
           pos <= size text ->
           RegexM.executeAt fuel re text pos = Ok (Some r) ->
           mr_length r <> 0 \/ prevMatchLen <> 0 \/ pos = size text ->
           RegexM.searchAllLoop (S rounds) fuel re text pos prevMatchLen
           = (results <- RegexM.searchAllLoop rounds fuel re text
                           (position r + Z.max (mr_length r) 1) (mr_length r) ;;
              Ok (r :: results))).
Proof.
  intros pattern re fuel text Hre Hhalts. split.
  - destruct (SearchAllFacts.searchAllLoop_spaced fuel re text
                (compile_captureCount _ _ Hre) Hhalts
                (Z.to_nat (size text + 1)) 0 0 ltac:(lia) ltac:(lia))
      as (results & E & Hs).
    exists results. unfold RegexM.searchAll.
    rewrite (compile_compiled _ _ Hre). cbn [negb]. split; [exact E|]. split.
    + intros r Hin. eapply SearchAllFacts.spaced_lower; eauto.
    + intros i j ri rj. eapply SearchAllFacts.spaced_pairs; eauto.
  - intros rounds pos prev r. apply SearchAllFacts.searchAllLoop_advance.
Qed.

Lemma searchAll_terminates_and_advances_witness :
  exists re,
    compile (str "\d+") = Ok re
    /\ exists results,
        RegexM.searchAll 50 re (str "a1b22") = Ok results
        /\ (forall r, In r results -> 0 <= position r <= size (str "a1b22"))
        /\ (forall i j ri rj,
               (i < j)%nat ->
               nth_error results i = Some ri ->
               nth_error results j = Some rj ->
               position ri + Z.max (mr_length ri) 1 <= position rj).
Proof.
  eexists. split; [reflexivity|].
  refine (proj1 (searchAll_terminates_and_advances (str "\d+") _ 50 (str "a1b22") eq_refl _)).
  intros p Hp. change (size (str "a1b22")) with 5 in Hp.
  assert (Hc : p = 0 \/ p = 1 \/ p = 2 \/ p = 3 \/ p = 4 \/ p = 5) by lia.
  destruct Hc as [-> | [-> | [-> | [-> | [-> | ->]]]]]; eexists; reflexivity.
Defined.

(** On the pattern that stars a group holding [a*], and the text "b", the
    VM never returns from offset 0, whatever the fuel: [searchAll] does not
    terminate. *)
Lemma searchAll_does_not_terminate :
  exists re,
    compile (str "(a*)*") = Ok re
    /\ forall fuel, RegexM.searchAll fuel re (str "b") = OutOfFuel.
Proof.
  eexists. split; [apply Divergence.compile_nested_star|].
  intros fuel. unfold RegexM.searchAll. cbn [compiled_ negb].
  change (Z.to_nat (size (str "b") + 1)) with 2%nat.
  cbn [RegexM.searchAllLoop]. change (0 <=? size (str "b")) with true. cbv iota.
  unfold RegexM.executeAt. cbn [instructions_].
  rewrite Divergence.executeAt_nested_star. reflexivity.
Qed.

(** ** [replace] *)

Module ReplaceFacts.

Lemma expand_dollar_0 (m : MatchResult) :
  RegexM.expandReplacement (str "$0") m = matched_text m.
Proof.
  cbn. unfold mr_group. cbn. apply app_nil_r.
Qed.

(** putting a piece of the text back where it was taken from *)
Lemma string_replace_same (text : cstring) (pos n : Z) :
  0 <= pos <= size text ->
  0 <= n <= size text - pos ->
  let piece := firstn (Z.to_nat n) (skipn (Z.to_nat pos) text) in
  size piece = n /\ string_replace text pos (size piece) piece = Ok text.
Proof.
  intros Hpos Hn piece.
  assert (Hsz : size piece = n).
  { unfold piece, size in *. rewrite length_firstn, length_skipn. lia. }
  split; [exact Hsz|].
  unfold string_replace.
  replace (size text <? pos) with false by (symmetry; apply Z.ltb_ge; lia).
  rewrite Hsz. replace (Z.min n (size text - pos)) with n by lia.
  replace (Z.to_nat (pos + n)) with (Z.to_nat n + Z.to_nat pos)%nat by lia.
  rewrite <- skipn_skipn. unfold piece.
  rewrite firstn_skipn, firstn_skipn. reflexivity.
Qed.

Section Replace.
Variables (fuel : nat) (re : Regex) (text : cstring).
Hypothesis compiled : compiled_ re = true.
Hypothesis captureCount_pos : (1 <= RegexM.captureCount re)%nat.
Hypothesis halts :
  forall p, 0 <= p <= size text -> exists o, RegexM.executeAt fuel re text p = Ok o.

Lemma searchLoop_total (rounds : nat) :
  forall pos,
    0 <= pos ->
    (Z.to_nat (size text + 1 - pos) <= rounds)%nat ->
    exists o, VM.searchLoop rounds fuel (instructions_ re) (RegexM.captureCount re)
                text pos 0 = Ok o.
Proof.
  induction rounds as [|rounds IH]; intros pos Hpos Hr.
  - exists None. cbn [VM.searchLoop].
    replace (pos <=? size text) with false by (symmetry; apply Z.leb_gt; lia).
    reflexivity.
  - rewrite SearchFacts.searchLoop_round.
    destruct (Z.leb_spec pos (size text)) as [Hle|Hgt]; [|eauto].
    destruct (halts pos ltac:(lia)) as (o & Ho). unfold RegexM.executeAt in Ho.
    rewrite Ho. cbn [bind].
    destruct (SearchFacts.goes_on text o pos); [|eauto].
    apply IH; lia.
Qed.

(** what [search] hands to [replace]: nothing, or a match that lies in the
    text at or after [pos] and is non-empty unless it sits at the very end *)
Lemma search_for_replace (pos : Z) :
  0 <= pos ->
  RegexM.search fuel re text pos = Ok None
  \/ exists m n,
      RegexM.search fuel re text pos = Ok (Some m)
      /\ pos <= position m <= size text
      /\ 0 <= n <= size text - position m
      /\ matched_text m = firstn (Z.to_nat n) (skipn (Z.to_nat (position m)) text)
      /\ (0 < n \/ position m = size text).
Proof.
  intros Hpos. unfold RegexM.search. rewrite compiled. cbn [negb].
  destruct (searchLoop_total (Z.to_nat (size text + 1 - pos)) pos Hpos ltac:(lia))
    as ([m|] & Ho); [right | left; exact Ho].
  pose proof (proj1 (proj1 (SearchFacts.search_spec fuel (instructions_ re)
                              (RegexM.captureCount re) text pos) m) Ho)
    as (p & Hp & He & Hg & _).
  destruct (VMFacts.executeAt_position _ _ _ _ _ _ captureCount_pos He)
    as (_ & Hpm & n & Hn & Ht).
  exists m, n. split; [exact Ho|]. repeat split; try lia; [exact Ht|].
  assert (Hsz : mr_length m = n).
  { unfold mr_length. rewrite Ht. unfold size in *. rewrite length_firstn, length_skipn. lia. }
  cbn [SearchFacts.goes_on] in Hg. rewrite Hsz in Hg.
  apply andb_false_iff in Hg.
  destruct Hg as [Hg|Hg]; [apply Z.eqb_neq in Hg | apply Z.ltb_ge in Hg]; lia.
Qed.

Lemma replaceLoop_dollar_0 (rounds : nat) :
  forall pos,
    0 <= pos ->
    (Z.to_nat (size text - pos) <= rounds)%nat ->
    RegexM.replaceLoop rounds fuel re (str "$0") text pos = Ok text.
Proof.
  induction rounds as [|rounds IH]; intros pos Hpos Hr.
  - cbn [RegexM.replaceLoop].
    replace (pos <? size text) with false by (symmetry; apply Z.ltb_ge; lia).
    reflexivity.
  - cbn [RegexM.replaceLoop].
    destruct (Z.ltb_spec pos (size text)) as [Hlt|Hge]; [|reflexivity].
    destruct (search_for_replace pos Hpos) as [E | (m & n & E & Hp & Hn & Ht & Hprog)];
      rewrite E; cbn [bind]; [reflexivity|].
    rewrite expand_dollar_0.
    destruct (string_replace_same text (position m) n ltac:(lia) Hn) as [Hsz Hrep].
    cbv zeta in Hsz, Hrep. rewrite <- Ht in Hsz, Hrep.
    unfold mr_length. rewrite Hrep. cbn [bind].
    apply IH; lia.
Qed.
End Replace.
End ReplaceFacts.

(** C6, as the code has it.  Whenever [executeAt] returns at every offset
    of the text, replacing every match by "$0", that is by its own matched
    text, gives the text back unchanged. *)
Theorem replace_dollar_0_is_identity :
  forall (pattern : cstring) (re : Regex) (fuel : nat) (text : cstring),
    compile pattern = Ok re ->
    (forall p, 0 <= p <= size text -> exists o, RegexM.executeAt fuel re text p = Ok o) ->
    RegexM.replace fuel re text (str "$0") true = Ok text.
Proof.
  intros pattern re fuel text Hre Hhalts.
  unfold RegexM.replace. rewrite (compile_compiled _ _ Hre). cbn [negb].
  apply ReplaceFacts.replaceLoop_dollar_0.
  - exact (compile_compiled _ _ Hre).
  - exact (compile_captureCount _ _ Hre).
  - exact Hhalts.
  - lia.
  - unfold size. lia.
Qed.

Lemma replace_dollar_0_is_identity_witness :
  exists re,
    compile (str "\d+") = Ok re
    /\ RegexM.replace 50 re (str "a1b22") (str "$0") true = Ok (str "a1b22").
Proof.
  eexists. split; [reflexivity|].
  refine (replace_dollar_0_is_identity (str "\d+") _ 50 (str "a1b22") eq_refl _).
  intros p Hp. change (size (str "a1b22")) with 5 in Hp.
  assert (Hc : p = 0 \/ p = 1 \/ p = 2 \/ p = 3 \/ p = 4 \/ p = 5) by lia.
  destruct Hc as [-> | [-> | [-> | [-> | [-> | ->]]]]]; eexists; reflexivity.
Defined.

(** On the pattern that stars a group holding [a*], and the text "b",
    [replace] with "$0" never returns, whatever the fuel. *)
Lemma replace_dollar_0_does_not_return :
  exists re,
    compile (str "(a*)*") = Ok re
    /\ forall fuel, RegexM.replace fuel re (str "b") (str "$0") true = OutOfFuel.
Proof.
  eexists. split; [apply Divergence.compile_nested_star|].
  intros fuel. unfold RegexM.replace. cbn [compiled_ negb].
  change (List.length (str "b")) with 1%nat.
  cbn [RegexM.replaceLoop]. change (0 <? size (str "b")) with true. cbv iota.
  unfold RegexM.search, VM.search. cbn [compiled_ negb instructions_].
  change (Z.to_nat (size (str "b") + 1 - 0)) with 2%nat.
  cbn [VM.searchLoop]. change (0 <=? size (str "b")) with true. cbv iota.
  rewrite Divergence.executeAt_nested_star. reflexivity.
Qed.

(** [replace] can also end in an exception: after two negated classes have
    stepped past the end of the text "a", the group of the third starts
    beyond it, and [buildResult] takes a [substr] there. *)
Example replace_can_throw :
  exists re,
    compile (str "\D\D(\D)") = Ok re
    /\ RegexM.replace 50 re (str "a") (str "$0") true = Throw out_of_range.
Proof. eexists. split; reflexivity. Qed.

(* ======================================================================== *)
(** * Further properties *)

(** ** What the lexer accepts, and what its tokens record *)

Module LexerMore.
Import Lexer LexerFacts.

Lemma dangling_app (bs : cstring) (pre : cstring) :
  (ends_in_backslash pre = false -> dangling (pre ++ bs) = dangling bs)
  /\ forall c, ends_in_backslash (c :: pre) = false ->
               dangling ((c :: pre) ++ bs) = dangling bs.
Proof.
  induction pre as [|d pre [IH1 IH2]].
  - split; [auto|]. intros c Hc. cbn in Hc. cbn [app dangling].
    rewrite Hc. reflexivity.
  - split; [apply IH2|]. intros c Hc.
    rewrite ends_in_backslash_cons in Hc.
    cbn [app dangling]. destruct (Ascii.eqb c "\").
    + apply IH1. destruct pre as [|e pre]; [reflexivity|].
      now rewrite ends_in_backslash_cons in Hc.
    + apply (IH2 d Hc).
Qed.

Lemma dangling_repeat (n : nat) : dangling (List.repeat "\" n) = Nat.odd n.
Proof.
  induction n as [n IH] using (well_founded_induction Wf_nat.lt_wf).
  destruct n as [|[|n]]; [reflexivity | reflexivity |].
  change (dangling (List.repeat "\" (S (S n)))) with (dangling (List.repeat "\" n)).
  rewrite IH by lia. reflexivity.
Qed.

(** One call of [nextToken] on a suffix that is not dangling returns a token
    and leaves a suffix that is not dangling. *)
Lemma nextToken_not_dangling (rest : cstring) :
  forall pos,
    dangling rest = false ->
    exists tok rest' pos',
      nextToken rest pos = Ok (tok, (rest', pos')) /\ dangling rest' = false.
Proof.
  induction rest as [|c rest IH]; intros pos Hd.
  - cbn. eauto.
  - destruct (first_byte_cases c) as [-> | Hc Hb | ty Hc Hs].
    + destruct rest as [|e rest]; [discriminate|].
      rewrite nextToken_escape. cbn in Hd. eauto.
    + rewrite dangling_other in Hd by assumption. rewrite Hb. apply IH, Hd.
    + rewrite dangling_other in Hd by assumption. rewrite Hs. eauto.
Qed.

Lemma tokenizeLoop_not_dangling (fuel : nat) :
  forall rest pos,
    dangling rest = false ->
    (List.length rest <= fuel)%nat ->
    exists toks, tokenizeLoop fuel rest pos = Ok toks.
Proof.
  induction fuel as [|fuel IH]; intros rest pos Hd Hlen.
  - destruct rest; [cbn; eauto | simpl in Hlen; lia].
  - destruct rest as [|c rest]; [cbn; eauto|].
    cbn [tokenizeLoop].
    destruct (nextToken_not_dangling (c :: rest) pos Hd) as (tok & rest' & pos' & E & Hd').
    rewrite E. cbn [bind].
    pose proof (nextToken_consumes (c :: rest) pos tok rest' pos') as Hc.
    destruct Hc as [Hl _]; [discriminate | exact E |].
    destruct (IH rest' pos' Hd') as [toks Ht]; [simpl in *; lia|].
    rewrite Ht. cbn. eauto.
Qed.

Lemma tokenize_dangling (pattern : cstring) :
  if dangling pattern
  then tokenize pattern
       = Throw (RegexError "Incomplete escape sequence" (size pattern - 1))
  else exists toks, tokenize pattern = Ok toks.
Proof.
  unfold tokenize. destruct (dangling pattern) eqn:Hd.
  - rewrite tokenizeLoop_dangling by auto. do 2 f_equal.
  - apply tokenizeLoop_not_dangling; auto.
Qed.

Lemma tokenize_Ok_not_dangling (pattern : cstring) (toks : list Token) :
  tokenize pattern = Ok toks -> dangling pattern = false.
Proof.
  intros H. pose proof (tokenize_dangling pattern) as D.
  destruct (dangling pattern); [congruence | reflexivity].
Qed.
End LexerMore.

(** X1.  The lexer accepts a pattern exactly when it does not end in an odd
    run of backslashes, and it raises no error but "Incomplete escape
    sequence", always at the last byte of the pattern. *)
Theorem lexer_rejects_only_an_odd_backslash_run :
  (forall (pre : cstring) (n : nat),
      ends_in_backslash pre = false ->
      (exists toks, Lexer.tokenize (pre ++ List.repeat "\" n) = Ok toks)
      <-> Nat.even n = true)
  /\ (forall (pattern : cstring) (e : exception),
         Lexer.tokenize pattern = Throw e ->
         e = RegexError "Incomplete escape sequence" (size pattern - 1)).
Proof.
  split.
  - intros pre n Hpre.
    pose proof (LexerMore.tokenize_dangling (pre ++ List.repeat "\" n)) as D.
    rewrite (proj1 (LexerMore.dangling_app _ pre) Hpre) in D.
    rewrite LexerMore.dangling_repeat in D.
    rewrite <- Nat.negb_odd. destruct (Nat.odd n); cbn.
    + split; [intros [toks H]; congruence | discriminate].
    + split; auto.
  - intros pattern e H.
    pose proof (LexerMore.tokenize_dangling pattern) as D.
    destruct (LexerFacts.dangling pattern).
    + congruence.
    + destruct D as [toks D]. congruence.
Qed.

Module TokenFacts.
Import Lexer LexerFacts.

Inductive kind (c : ascii) : Prop :=
| k_escape : c = "\" -> kind c
| k_blank :
    c <> "\" ->
    (forall rest pos, nextToken (c :: rest) pos = nextToken rest (pos + 1)) ->
    kind c
| k_single (ty : TokenType) :
    c <> "\" ->
    ty <> T_UNKNOWN -> ty <> T_ESCAPE -> ty <> T_BACKREF ->
    (forall rest pos,
        nextToken (c :: rest) pos = Ok (mkToken ty c pos, (rest, pos + 1))) ->
    kind c.

Lemma kind_cases (c : ascii) : kind c.
Proof.
  destruct c as [[] [] [] [] [] [] [] []];
    first
      [ apply k_escape; reflexivity
      | apply k_blank; [ discriminate | intros; reflexivity ]
      | eapply k_single;
        [ discriminate | | | | intros; reflexivity ]; discriminate ].
Qed.

Lemma byte_at_app (pre : cstring) (c : ascii) (r : cstring) :
  byte_at (pre ++ c :: r) (size pre) = Some c.
Proof.
  unfold byte_at, size.
  destruct (Z.ltb_spec (Z.of_nat (List.length pre)) 0); [lia|].
  rewrite Nat2Z.id, nth_error_app2 by lia.
  now rewrite Nat.sub_diag.
Qed.

Lemma app_cons_assoc {A} (pre : list A) (c : A) (r : list A) :
  pre ++ c :: r = (pre ++ [c]) ++ r.
Proof. now rewrite <- app_assoc. Qed.

Lemma nextToken_source (rest : cstring) :
  forall pre pos tok rest' pos',
    size pre = pos ->
    nextToken rest pos = Ok (tok, (rest', pos')) ->
    exists pre',
      pre ++ rest = pre' ++ rest'
      /\ size pre' = pos'
      /\ pos <= tok_position tok
      /\ (tok_position tok < pos' \/ rest' = [])
      /\ token_source (pre ++ rest) tok.
Proof.
  induction rest as [|c rest IH]; intros pre pos tok rest' pos' Hpre H.
  - cbn in H. inversion H; subst. exists pre. cbn.
    repeat split; auto; try lia.
    unfold token_source; cbn. now rewrite app_nil_r.
  - destruct (kind_cases c) as [-> | Hc Hb | ty Hc H1 H2 H3 Hs].
    + destruct rest as [|e rest]; [discriminate|].
      rewrite nextToken_escape in H. inversion H; subst.
      exists ((pre ++ ["\"]) ++ [e]). rewrite <- !app_assoc. cbn [app].
      rewrite !size_app. cbn. repeat split; auto; try lia.
      * apply byte_at_app.
      * rewrite (app_cons_assoc pre "\"). 
        replace (size pre + 1) with (size (pre ++ ["\"])) by (rewrite size_app; reflexivity).
        apply byte_at_app.
    + rewrite Hb in H.
      destruct (IH (pre ++ [c]) (pos + 1) tok rest' pos') as (pre' & E & Hs' & Hle & Hlt & Hsrc);
        auto.
      { rewrite size_app. cbn. lia. }
      rewrite <- app_assoc in E, Hsrc. cbn [app] in E, Hsrc.
      exists pre'. repeat split; auto; lia.
    + rewrite Hs in H. inversion H; subst.
      exists (pre ++ [c]). rewrite <- app_assoc. cbn [app].
      rewrite size_app. cbn. repeat split; auto; try lia.
      unfold token_source. cbn [type value tok_position].
      pose proof (byte_at_app pre c rest') as B.
      destruct ty; auto; congruence.
Qed.

(** positions at or after [from], each one after the one before *)
Fixpoint ascending (from : Z) (toks : list Token) : Prop :=
  match toks with
  | [] => True
  | t :: ts => from <= tok_position t /\ ascending (tok_position t + 1) ts
  end.

Lemma ascending_weaken (toks : list Token) (from from' : Z) :
  from' <= from -> ascending from toks -> ascending from' toks.
Proof. destruct toks; cbn; [auto|]. intros H [H1 H2]. split; [lia | auto]. Qed.

Lemma ascending_lower (toks : list Token) :
  forall from t, ascending from toks -> In t toks -> from <= tok_position t.
Proof.
  induction toks as [|a toks IH]; intros from t H Hin; [contradiction|].
  destruct H as [H1 H2]. destruct Hin as [-> | Hin]; [auto|].
  specialize (IH _ _ H2 Hin). lia.
Qed.

Lemma ascending_pairs (toks : list Token) :
  forall from i j ti tj,
    ascending from toks ->
    (i < j)%nat ->
    nth_error toks i = Some ti ->
    nth_error toks j = Some tj ->
    tok_position ti < tok_position tj.
Proof.
  induction toks as [|a toks IH]; intros from i j ti tj H Hij Hi Hj.
  - destruct i; discriminate.
  - destruct H as [H1 H2]. destruct j as [|j]; [lia|]. cbn in Hj.
    destruct i as [|i].
    + cbn in Hi. inversion Hi; subst.
      apply nth_error_In in Hj.
      pose proof (ascending_lower _ _ _ H2 Hj). lia.
    + cbn in Hi. apply (IH _ i j ti tj H2); [lia | assumption | assumption].
Qed.

Lemma tokenizeLoop_source (fuel : nat) :
  forall rest pre pos toks,
    size pre = pos ->
    tokenizeLoop fuel rest pos = Ok toks ->
    (List.length toks <= List.length rest)%nat
    /\ ascending pos toks
    /\ Forall (token_source (pre ++ rest)) toks.
Proof.
  induction fuel as [|fuel IH]; intros rest pre pos toks Hpre H.
  - destruct rest; [|discriminate]. inversion H; subst. cbn. auto.
  - destruct rest as [|c rest]; [inversion H; subst; cbn; auto with arith|].
    cbn [tokenizeLoop] in H.
    apply bind_Ok in H. destruct H as ([tok [rest' pos']] & E & H).
    apply bind_Ok in H. destruct H as (ts & Ht & H). inversion H; subst toks.
    pose proof (nextToken_consumes (c :: rest) pos tok rest' pos') as Hc.
    destruct Hc as [Hl _]; [discriminate | exact E |].
    destruct (nextToken_source _ pre pos tok rest' pos' Hpre E)
      as (pre' & Eq & Hs' & Hle & Hlt & Hsrc).
    destruct (IH rest' pre' pos' ts Hs' Ht) as (L & A & F).
    rewrite <- Eq in F.
    repeat split.
    + simpl in *. lia.
    + assumption.
    + destruct Hlt as [Hlt | ->].
      * apply ascending_weaken with (from := pos'); [lia | assumption].
      * destruct fuel; cbn in Ht; inversion Ht; exact I.
    + constructor; assumption.
Qed.
End TokenFacts.

(** X2.  Every token records where it was read: its position is the offset
    of its first byte in the pattern and its value is that byte (for an
    escape, the byte after the backslash); positions go up along the token
    list; there are no more tokens than bytes; the lexer makes no [BACKREF]
    token, and an [UNKNOWN] token stands only at the end of the pattern. *)
Theorem tokens_record_their_source :
  forall (pattern : cstring) (toks : list Token),
    Lexer.tokenize pattern = Ok toks ->
    (List.length toks <= List.length pattern)%nat
    /\ (forall i j ti tj,
           (i < j)%nat ->
           nth_error toks i = Some ti ->
           nth_error toks j = Some tj ->
           tok_position ti < tok_position tj)
    /\ Forall (fun t => 0 <= tok_position t /\ token_source pattern t) toks.
Proof.
  intros pattern toks H.
  destruct (TokenFacts.tokenizeLoop_source _ pattern [] 0 toks eq_refl H) as (L & A & F).
  split; [assumption|]. split.
  - intros i j ti tj. apply (TokenFacts.ascending_pairs toks 0); assumption.
  - apply Forall_forall. intros t Hin. split.
    + apply (TokenFacts.ascending_lower toks 0); assumption.
    + rewrite Forall_forall in F. apply (F t Hin).
Qed.

Lemma tokens_record_their_source_witness :
  (List.length [mkToken T_LITERAL "a" 0; mkToken T_ESCAPE "d" 2; mkToken T_STAR "*" 4]
   <= List.length (str "a \d*"))%nat
  /\ Forall (fun t => 0 <= tok_position t /\ token_source (str "a \d*") t)
       [mkToken T_LITERAL "a" 0; mkToken T_ESCAPE "d" 2; mkToken T_STAR "*" 4].
Proof.
  pose proof (tokens_record_their_source (str "a \d*")
                [mkToken T_LITERAL "a" 0; mkToken T_ESCAPE "d" 2; mkToken T_STAR "*" 4]
                eq_refl) as H.
  split; [exact (proj1 H) | exact (proj2 (proj2 H))].
Defined.

(** ** How the parse functions move over the token list

    Every function below the descent only drops tokens from the front of
    the list, so it keeps any property of token lists that tails keep. *)

Module TokenSuffix.
Import Parser.

Lemma TokenType_eqb_eq (a b : TokenType) : TokenType_eqb a b = true <-> a = b.
Proof. destruct a, b; cbn; split; intros; congruence. Qed.

Lemma consume_fst (st : state) : fst (consume st) = peek st.
Proof. unfold consume, peek. now destruct (rest st). Qed.

Lemma consume_rest (st : state) : rest (snd (consume st)) = tl (rest st).
Proof. unfold consume. now destruct (rest st) eqn:E; cbn; rewrite ?E. Qed.

Lemma peek_hd (st : state) : peek st = hd Token_unknown (rest st).
Proof. unfold peek. now destruct (rest st). Qed.

Lemma peek_is_type (ty : TokenType) (c : ascii) (st : state) :
  peek_is ty c st = true -> type (peek st) = ty.
Proof.
  unfold peek_is. intros H. apply andb_prop in H. now apply TokenType_eqb_eq.
Qed.

Lemma closeGroup_node (msg : string) (t : Token) (r : ASTNode * state)
  (node : ASTNode) (st' : state) :
  closeGroup msg t r = Ok (node, st') -> node = fst r.
Proof.
  unfold closeGroup. destruct r as [n st].
  destruct (match_ T_RPAREN st) as [ok st1]. destruct ok; cbn [negb]; [|discriminate].
  intros H; inversion H; reflexivity.
Qed.

Section Keeps.
Variable Q : list Token -> Prop.
Hypothesis Q_tl : forall l, Q l -> Q (tl l).

Lemma consume_keeps (st : state) : Q (rest st) -> Q (rest (snd (consume st))).
Proof. rewrite consume_rest. apply Q_tl. Qed.

Lemma match_keeps (ty : TokenType) (st : state) :
  Q (rest st) -> Q (rest (snd (match_ ty st))).
Proof.
  unfold match_. destruct (TokenType_eqb (type (peek st)) ty); cbn; auto.
Qed.

Lemma parseNumberLoop_keeps (toks : list Token) :
  forall n, Q toks -> Q (snd (parseNumberLoop toks n)).
Proof.
  induction toks as [|t toks IH]; intros n HQ; [exact HQ|].
  cbn [parseNumberLoop].
  destruct (TokenType_eqb (type t) T_LITERAL && isdigit (value t)); [|exact HQ].
  apply IH. apply (Q_tl (t :: toks) HQ).
Qed.

Lemma parseNumber_keeps (st : state) : Q (rest st) -> Q (rest (snd (parseNumber st))).
Proof.
  unfold parseNumber. intros HQ.
  pose proof (parseNumberLoop_keeps (rest st) 0 HQ) as H.
  destruct (parseNumberLoop (rest st) 0) as [n r]. exact H.
Qed.

Lemma hexDigits_keeps (n : nat) :
  forall st v, Q (rest st) -> Q (rest (snd (hexDigits n st v))).
Proof.
  induction n as [|n IH]; intros st v HQ; [exact HQ|].
  cbn [hexDigits]. destruct (TokenType_eqb (type (peek st)) T_LITERAL); [|exact HQ].
  pose proof (consume_keeps st HQ) as Hc. destruct (consume st) as [t st1].
  apply IH. exact Hc.
Qed.

Lemma classEscape_keeps (esc : ascii) (st : state) :
  Q (rest st) -> Q (rest (snd (classEscape esc st))).
Proof.
  intros HQ. pose proof (hexDigits_keeps 2 st 0 HQ) as Hh.
  unfold classEscape.
  destruct esc as [[] [] [] [] [] [] [] []]; try exact HQ;
    destruct (hexDigits 2 st 0) as [v st1]; exact Hh.
Qed.

Lemma classItem_keeps (negated : bool) (st : state) (masks : Z * Z) :
  Q (rest st) -> Q (rest (fst (classItem negated st masks))).
Proof.
  intros HQ. unfold classItem. destruct masks as [low high].
  pose proof (consume_keeps st HQ) as Hc. destruct (consume st) as [t st1].
  cbn [snd] in Hc.
  destruct (TokenType_eqb (type (peek st)) T_ESCAPE).
  - pose proof (classEscape_keeps (value t) st1 Hc) as He.
    destruct (classEscape (value t) st1) as [[bits bits_high] st2].
    destruct negated; exact He.
  - destruct (TokenType_eqb (type (peek st1)) T_RANGE); [|exact Hc].
    pose proof (consume_keeps st1 Hc) as Hc1. destruct (consume st1) as [t1 st2].
    pose proof (consume_keeps st2 Hc1) as Hc2. destruct (consume st2) as [t2 st3].
    exact Hc2.
Qed.

Lemma classLoop_keeps (fuel : nat) (negated : bool) :
  forall st masks st' masks',
    classLoop fuel negated st masks = Ok (st', masks') ->
    Q (rest st) -> Q (rest st').
Proof.
  induction fuel as [|fuel IH]; intros st masks st' masks' H HQ; cbn [classLoop] in H;
    destruct (TokenType_eqb _ _ || TokenType_eqb _ _);
    try discriminate; try (inversion H; subst; exact HQ).
  pose proof (classItem_keeps negated st masks HQ) as Hi.
  destruct (classItem negated st masks) as [st1 masks1].
  apply (IH _ _ _ _ H Hi).
Qed.

Lemma parseCharacterClass_keeps (st : state) (node : ASTNode) (st' : state) :
  parseCharacterClass st = Ok (node, st') -> Q (rest st) -> Q (rest st').
Proof.
  unfold parseCharacterClass. intros H HQ.
  pose proof (consume_keeps st HQ) as Hc.
  destruct (TokenType_eqb (type (peek st)) T_CARET);
    apply bind_Ok in H; destruct H as ([st1 [low high]] & Hl & H);
    inversion H; subst; eapply classLoop_keeps; eauto.
Qed.

Lemma closeGroup_keeps (msg : string) (t : Token) (r : ASTNode * state)
  (node : ASTNode) (st' : state) :
  closeGroup msg t r = Ok (node, st') -> Q (rest (snd r)) -> Q (rest st').
Proof.
  unfold closeGroup. destruct r as [n st]. cbn [snd].
  pose proof (match_keeps T_RPAREN st) as Hm.
  destruct (match_ T_RPAREN st) as [ok st1]. destruct ok; cbn [negb]; [|discriminate].
  intros H HQ; inversion H; subst. auto.
Qed.
End Keeps.

(** the node a bracket expression parses to *)
Lemma parseCharacterClass_node (st : state) (node : ASTNode) (st' : state) :
  parseCharacterClass st = Ok (node, st') ->
  exists low high, node = Class low high (-1) \/ node = NotClass low high (-1).
Proof.
  unfold parseCharacterClass. intros H.
  destruct (TokenType_eqb (type (peek st)) T_CARET);
    apply bind_Ok in H; destruct H as ([st1 [low high]] & Hl & H);
    inversion H; subst; eauto.
Qed.
End TokenSuffix.

(** ** A pattern that ends in a blank *)


Module TrailingBlank.
Import Lexer LexerFacts Parser TokenSuffix.

(** the token list is empty or ends in an [UNKNOWN] token *)
Definition open_end (l : list Token) : Prop :=
  type (last l Token_unknown) = T_UNKNOWN.

(** the token list ends in an [UNKNOWN] token *)
Definition ends_unknown (l : list Token) : Prop := l <> [] /\ open_end l.

Lemma open_end_tl (l : list Token) : open_end l -> open_end (tl l).
Proof.
  unfold open_end. destruct l as [|t [|u l]]; cbn; auto.
Qed.

Lemma ends_unknown_tl (l : list Token) :
  ends_unknown l -> type (hd Token_unknown l) <> T_UNKNOWN -> ends_unknown (tl l).
Proof.
  intros [Hne H] Ht. destruct l as [|t [|u l]]; [congruence | |].
  - unfold open_end in H. cbn in *. congruence.
  - split; [discriminate | exact H].
Qed.

Lemma ends_unknown_open (l : list Token) : ends_unknown l -> open_end l.
Proof. now intros [_ H]. Qed.

Lemma consume_ends (st : state) :
  ends_unknown (rest st) -> type (peek st) <> T_UNKNOWN ->
  ends_unknown (rest (snd (consume st))).
Proof. rewrite consume_rest, peek_hd. apply ends_unknown_tl. Qed.

Lemma match_ends (ty : TokenType) (st st1 : state) (ok : bool) :
  ty <> T_UNKNOWN ->
  match_ ty st = (ok, st1) ->
  ends_unknown (rest st) -> ends_unknown (rest st1).
Proof.
  unfold match_. intros Hty. destruct (TokenType_eqb (type (peek st)) ty) eqn:E.
  - intros H HP. inversion H; subst. cbn [rest].
    apply TokenType_eqb_eq in E.
    apply ends_unknown_tl; [assumption|]. rewrite <- peek_hd. congruence.
  - intros H HP. inversion H; subst. assumption.
Qed.

Lemma parseNumberLoop_ends (toks : list Token) :
  forall n, ends_unknown toks -> ends_unknown (snd (parseNumberLoop toks n)).
Proof.
  induction toks as [|t toks IH]; intros n HP; [exact HP|].
  cbn [parseNumberLoop].
  destruct (TokenType_eqb (type t) T_LITERAL) eqn:E; cbn [andb]; [|exact HP].
  destruct (isdigit (value t)); [|exact HP].
  apply IH. apply TokenType_eqb_eq in E.
  apply (ends_unknown_tl (t :: toks)); [assumption|]. cbn. congruence.
Qed.

Lemma parseNumber_ends (st : state) :
  ends_unknown (rest st) -> ends_unknown (rest (snd (parseNumber st))).
Proof.
  unfold parseNumber. intros HP.
  pose proof (parseNumberLoop_ends (rest st) 0 HP) as H.
  destruct (parseNumberLoop (rest st) 0) as [n r]. exact H.
Qed.

Lemma parseCharacterClass_open (st : state) (node : ASTNode) (st' : state) :
  parseCharacterClass st = Ok (node, st') ->
  open_end (rest st) -> open_end (rest st').
Proof. apply TokenSuffix.parseCharacterClass_keeps, open_end_tl. Qed.

Lemma closeGroup_ends (msg : string) (t : Token) (r : ASTNode * state)
  (node : ASTNode) (st' : state) :
  closeGroup msg t r = Ok (node, st') ->
  ends_unknown (rest (snd r)) -> ends_unknown (rest st').
Proof.
  unfold closeGroup. destruct r as [n st]. cbn [snd].
  destruct (match_ T_RPAREN st) as [ok st1] eqn:E.
  destruct ok; cbn [negb]; [|discriminate].
  intros H HP; inversion H; subst.
  eapply match_ends; [| exact E | exact HP]. discriminate.
Qed.

(** No function of the descent consumes the final [UNKNOWN] token and
    returns. *)
Definition keeps_end (f : state -> result (ASTNode * state)) : Prop :=
  forall st node st',
    f st = Ok (node, st') -> ends_unknown (rest st) -> ends_unknown (rest st').

Lemma descent_keeps_end (fuel : nat) :
  keeps_end (parseAlternation fuel)
  /\ (forall lhs, keeps_end (parseAlternationLoop fuel lhs))
  /\ keeps_end (parseConcatenation fuel)
  /\ (forall lhs, keeps_end (parseConcatenationLoop fuel lhs))
  /\ keeps_end (parseQuantifier fuel)
  /\ keeps_end (parseAtom fuel).
Proof.
  induction fuel as [|fuel (IHa & IHal & IHc & IHcl & IHq & IHt)].
  { repeat split; repeat intro; discriminate. }
  assert (Hgroup : forall msg t st node st',
             (r <- parseAlternation fuel st ;; closeGroup msg t r) = Ok (node, st') ->
             ends_unknown (rest st) -> ends_unknown (rest st')).
  { intros msg t st node st' H HP. apply bind_Ok in H. destruct H as ([n st1] & Ha & Hc).
    apply (closeGroup_ends _ _ _ _ _ Hc). apply (IHa _ _ _ Ha HP). }
  assert (Hlit : forall c st, peek_is T_LITERAL c st = true ->
                              ends_unknown (rest st) ->
                              ends_unknown (rest (snd (consume st)))).
  { intros c st Hp HP. apply consume_ends; auto.
    rewrite (peek_is_type _ _ _ Hp). discriminate. }
  split; [|split; [|split; [|split; [|split]]]].
  - intros st node st' H HP. cbn [parseAlternation] in H.
    apply bind_Ok in H. destruct H as ([lhs st1] & H1 & H2).
    apply IHc in H1; auto. apply IHal in H2; auto.
  - intros lhs st node st' H HP. cbn [parseAlternationLoop] in H.
    destruct (match_ T_PIPE st) as [more st1] eqn:E.
    assert (HP1 : ends_unknown (rest st1))
      by (eapply match_ends; [| exact E | exact HP]; discriminate).
    destruct more.
    + apply bind_Ok in H. destruct H as ([rhs st2] & H1 & H2).
      apply IHc in H1; auto. apply IHal in H2; auto.
    + inversion H; subst. assumption.
  - intros st node st' H HP. cbn [parseConcatenation] in H.
    apply bind_Ok in H. destruct H as ([lhs st1] & H1 & H2).
    apply IHq in H1; auto. apply IHcl in H2; auto.
  - intros lhs st node st' H HP. cbn [parseConcatenationLoop] in H.
    destruct (isQuantifierStart st).
    + apply bind_Ok in H. destruct H as ([rhs st2] & H1 & H2).
      apply IHq in H1; auto. apply IHcl in H2; auto.
    + inversion H; subst. assumption.
  - intros st node st' H HP. cbn [parseQuantifier] in H.
    apply bind_Ok in H. destruct H as ([atom st1] & H1 & H2).
    pose proof (IHt _ _ _ H1 HP) as HP1. clear H1; rename HP1 into H1. cbv zeta in H2.
    assert (Hc : type (peek st1) <> T_UNKNOWN -> ends_unknown (rest (snd (consume st1))))
      by (intros Hu; apply consume_ends; assumption).
    destruct (type (peek st1)) eqn:Et;
      try (inversion H2; subst; first [assumption | apply Hc; discriminate]).
    specialize (Hc ltac:(discriminate)).
    pose proof (parseNumber_ends (snd (consume st1)) Hc) as Hn.
    destruct (parseNumber (snd (consume st1))) as [min st2]. cbn [snd] in Hn.
    destruct (match_ T_COMMA st2) as [comma st3] eqn:Em.
    assert (HP3 : ends_unknown (rest st3))
      by (eapply match_ends; [| exact Em | exact Hn]; discriminate).
    assert (Hmax : ends_unknown (rest (snd (if comma then parseNumber st3 else (min, st3)))))
      by (destruct comma; [apply parseNumber_ends; assumption | assumption]).
    destruct (if comma then parseNumber st3 else (min, st3)) as [max st4]. cbn [snd] in Hmax.
    destruct (match_ T_RBRACE st4) as [closed st5] eqn:Er.
    assert (HP5 : ends_unknown (rest st5))
      by (eapply match_ends; [| exact Er | exact Hmax]; discriminate).
    destruct closed; cbn [negb] in H2; [|discriminate].
    inversion H2; subst. assumption.
  - intros st node st' H HP. cbn [parseAtom] in H.
    pose proof (consume_ends st HP) as Hc. pose proof (consume_fst st) as Hf.
    destruct (consume st) as [t st1]. cbn [fst snd] in Hc, Hf. subst t.
    destruct (type (peek st)) eqn:Et; try discriminate;
      specialize (Hc ltac:(discriminate));
      try (inversion H; subst; assumption).
    + (* LPAREN *)
      destruct (peek_is T_LITERAL "?" st1) eqn:E1.
      { pose proof (Hlit _ _ E1 Hc) as Hc1.
        destruct (peek_is T_LITERAL ":" (snd (consume st1))) eqn:E2; [|discriminate].
        apply (Hgroup _ _ _ _ _ H). eapply Hlit; eauto. }
      destruct (peek_is T_LITERAL "=" st1) eqn:E3;
        [apply (Hgroup _ _ _ _ _ H); eapply Hlit; eauto|].
      destruct (peek_is T_LITERAL "!" st1) eqn:E4;
        [apply (Hgroup _ _ _ _ _ H); eapply Hlit; eauto|].
      apply bind_Ok in H. destruct H as ([n st2] & Ha & H).
      apply bind_Ok in H. destruct H as ([n3 st3] & Hg & H).
      pose proof (IHa _ _ _ Ha Hc) as Ha'.
      pose proof (closeGroup_ends _ _ _ _ _ Hg Ha') as Hg'.
      inversion H; subst. assumption.
    + (* LBRACKET *)
      apply bind_Ok in H. destruct H as ([cn st2] & Hp & H).
      pose proof (parseCharacterClass_open _ _ _ Hp (ends_unknown_open _ Hc)) as Hp'.
      clear Hp; rename Hp' into Hp.
      unfold match_ in H.
      destruct (TokenType_eqb (type (peek st2)) T_RBRACKET) eqn:Eb;
        cbn [negb] in H; [|discriminate].
      inversion H; subst. cbn [rest].
      apply TokenType_eqb_eq in Eb.
      apply ends_unknown_tl.
      * split; [|exact Hp]. intros Hnil. rewrite (ParserTotal.peek_empty _ Hnil) in Eb.
        discriminate.
      * rewrite <- peek_hd. congruence.
    + (* BACKREF *)
      pose proof (parseNumber_ends st1 Hc) as Hn.
      destruct (parseNumber st1) as [g st2]. cbn [snd] in Hn.
      inversion H; subst. assumption.
Qed.

Lemma parse_ends_unknown (tokens_ : list Token) :
  ends_unknown tokens_ -> exists e, parse tokens_ = Throw e.
Proof.
  intros HP. pose proof (ParserTotal.parse_total tokens_) as Ht.
  unfold parse in *.
  destruct (parseAlternation (parseFuel tokens_) (mkState tokens_ 0))
    as [[node st]| |] eqn:E; cbn [bind] in *; [| eauto | congruence].
  pose proof (proj1 (descent_keeps_end _) _ _ _ E HP) as [Hne _]. cbn [rest] in *.
  destruct (rest st); [congruence | eauto].
Qed.

(** The lexer on a pattern that ends in an unescaped blank. *)
Definition blank (c : ascii) : Prop := c = " " \/ c = "009".

Lemma nextToken_blank (c : ascii) (rest : cstring) (pos : Z) :
  blank c -> nextToken (c :: rest) pos = nextToken rest (pos + 1).
Proof. intros [-> | ->]; reflexivity. Qed.

Lemma nextToken_trailing_blank (p : cstring) :
  forall b pos,
    blank b ->
    dangling p = false ->
    exists tok rest' pos',
      nextToken (p ++ [b]) pos = Ok (tok, (rest', pos'))
      /\ ((type tok = T_UNKNOWN /\ rest' = [])
          \/ exists p', rest' = p' ++ [b] /\ dangling p' = false
                        /\ (List.length p' < List.length p)%nat).
Proof.
  induction p as [p IH] using (well_founded_induction
                                 (Wf_nat.well_founded_ltof _ (@List.length ascii))).
  intros b pos Hb Hd. destruct p as [|c p].
  - cbn [app]. rewrite nextToken_blank by assumption. cbn. eauto 10.
  - cbn [app]. destruct (first_byte_cases c) as [-> | Hc Hbl | ty Hc Hs].
    + destruct p as [|e p]; [discriminate|]. cbn [app].
      rewrite nextToken_escape. cbn in Hd.
      do 3 eexists. split; [reflexivity|]. right. exists p. cbn. auto with arith.
    + rewrite dangling_other in Hd by assumption. rewrite Hbl.
      destruct (IH p ltac:(unfold ltof; cbn; lia) b (pos + 1) Hb Hd)
        as (tok & rest' & pos' & E & Hcase).
      exists tok, rest', pos'. split; [exact E|].
      destruct Hcase as [Hu | (p' & -> & Hd' & Hl)]; [left; exact Hu|].
      right. exists p'. cbn. auto with arith.
    + rewrite dangling_other in Hd by assumption. rewrite Hs.
      do 3 eexists. split; [reflexivity|]. right. exists p. cbn. auto with arith.
Qed.

Lemma tokenizeLoop_trailing_blank (fuel : nat) :
  forall p b pos,
    blank b ->
    dangling p = false ->
    (List.length p < fuel)%nat ->
    exists toks, tokenizeLoop fuel (p ++ [b]) pos = Ok toks /\ ends_unknown toks.
Proof.
  induction fuel as [|fuel IH]; intros p b pos Hb Hd Hlen; [lia|].
  destruct (nextToken_trailing_blank p b pos Hb Hd) as (tok & rest' & pos' & E & Hcase).
  destruct (p ++ [b]) as [|c s] eqn:Es; [destruct p; discriminate|].
  cbn [tokenizeLoop]. rewrite E. cbn [bind].
  destruct Hcase as [[Hu ->] | (p' & -> & Hd' & Hl)].
  - exists [tok]. split; [destruct fuel; reflexivity|].
    split; [discriminate | exact Hu].
  - destruct (IH p' b pos' Hb Hd' ltac:(lia)) as (toks & Ht & HP).
    rewrite Ht. cbn [bind]. exists (tok :: toks). split; [reflexivity|].
    destruct HP as [Hne HQ]. split; [discriminate|].
    unfold open_end in *. destruct toks; [congruence | exact HQ].
Qed.
End TrailingBlank.

(** X3.  Blanks are skipped by the lexer, but a blank at the end of the
    pattern leaves an [UNKNOWN] token that no parse function accepts: a
    pattern that lexes, followed by a space or a tab, never compiles, and
    the free functions [matches], [search] and [replace] throw on it
    whatever the text. *)
Theorem trailing_blank_is_rejected :
  forall (pattern : cstring) (toks : list Token) (b : ascii),
    Lexer.tokenize pattern = Ok toks ->
    b = " " \/ b = "009" ->
    exists e,
      compile (pattern ++ [b]) = Throw e
      /\ forall (fuel : nat) (text : cstring),
          amaranth.matches fuel text (pattern ++ [b]) = Throw e
          /\ amaranth.search fuel text (pattern ++ [b]) = Throw e
          /\ forall replacement all,
              amaranth.replace fuel text (pattern ++ [b]) replacement all = Throw e.
Proof.
  intros pattern toks b Hlex Hb.
  apply LexerMore.tokenize_Ok_not_dangling in Hlex.
  destruct (TrailingBlank.tokenizeLoop_trailing_blank
              (List.length (pattern ++ [b])) pattern b 0 Hb Hlex) as (ts & Ht & HP).
  { rewrite length_app. cbn. lia. }
  destruct (TrailingBlank.parse_ends_unknown ts HP) as [e He].
  assert (Hc : compile (pattern ++ [b]) = Throw e).
  { unfold compile, Lexer.tokenize. rewrite Ht. cbn [bind]. rewrite He. reflexivity. }
  exists e. split; [exact Hc|].
  intros fuel text. unfold amaranth.matches, amaranth.search, amaranth.replace.
  rewrite Hc. cbn [bind]. auto.
Qed.

Lemma trailing_blank_is_rejected_witness :
  exists e,
    compile (str "a*" ++ [" "]) = Throw e
    /\ forall (fuel : nat) (text : cstring),
        amaranth.matches fuel text (str "a*" ++ [" "]) = Throw e
        /\ amaranth.search fuel text (str "a*" ++ [" "]) = Throw e
        /\ forall replacement all,
            amaranth.replace fuel text (str "a*" ++ [" "]) replacement all = Throw e.
Proof.
  apply (trailing_blank_is_rejected (str "a*")
           [mkToken T_LITERAL "a" 0; mkToken T_STAR "*" 1] " ").
  - reflexivity.
  - left. reflexivity.
Defined.

(** ** Group numbers and back-references in the tree *)

Module Numbering.
Import Parser TokenSuffix.

Lemma well_numbered_le (node : ASTNode) :
  forall n m, n <= m -> well_numbered n node -> well_numbered m node.
Proof.
  induction node; intros n m Hle H; cbn in *; auto;
    try (destruct H; split; eauto).
  - eauto.
  - lia.
Qed.

(** no [BACKREF] token in the list *)
Definition no_backref (l : list Token) : Prop :=
  Forall (fun t => type t <> T_BACKREF) l.

Lemma no_backref_tl (l : list Token) : no_backref l -> no_backref (tl l).
Proof. destruct l; [auto|]. intros H; inversion H; assumption. Qed.

Lemma no_backref_peek (st : state) : no_backref (rest st) -> type (peek st) <> T_BACKREF.
Proof.
  unfold peek. destruct (rest st); [discriminate|]. intros H; inversion H; assumption.
Qed.

Lemma parseEscape_numbered (n : Z) (t : Token) : well_numbered n (parseEscape t).
Proof.
  unfold parseEscape. destruct (value t) as [[] [] [] [] [] [] [] []]; exact I.
Qed.

(** What a function of the descent returns, from a state without [BACKREF]
    tokens and a counter that is not negative. *)
Definition numbered (f : state -> result (ASTNode * state)) : Prop :=
  forall st node st',
    f st = Ok (node, st') ->
    no_backref (rest st) -> 0 <= currentCapture_ st ->
    well_numbered (currentCapture_ st') node
    /\ no_backref (rest st')
    /\ currentCapture_ st <= currentCapture_ st'.

Definition numbered_loop (f : ASTNode -> state -> result (ASTNode * state)) : Prop :=
  forall lhs st node st',
    f lhs st = Ok (node, st') ->
    no_backref (rest st) -> 0 <= currentCapture_ st ->
    well_numbered (currentCapture_ st) lhs ->
    well_numbered (currentCapture_ st') node
    /\ no_backref (rest st')
    /\ currentCapture_ st <= currentCapture_ st'.

Lemma descent_numbered (fuel : nat) :
  numbered (parseAlternation fuel)
  /\ numbered_loop (parseAlternationLoop fuel)
  /\ numbered (parseConcatenation fuel)
  /\ numbered_loop (parseConcatenationLoop fuel)
  /\ numbered (parseQuantifier fuel)
  /\ numbered (parseAtom fuel).
Proof.
  induction fuel as [|fuel (IHa & IHal & IHc & IHcl & IHq & IHt)].
  { repeat split; repeat intro; discriminate. }
  assert (Hgroup : forall msg t st node st',
             (r <- parseAlternation fuel st ;; closeGroup msg t r) = Ok (node, st') ->
             no_backref (rest st) -> 0 <= currentCapture_ st ->
             well_numbered (currentCapture_ st') node
             /\ no_backref (rest st')
             /\ currentCapture_ st <= currentCapture_ st').
  { intros msg t st node st' H HB H0. apply bind_Ok in H.
    destruct H as ([n st1] & Ha & Hc).
    destruct (IHa _ _ _ Ha HB H0) as (W & B & L).
    pose proof (closeGroup_node _ _ _ _ _ Hc) as ->.
    pose proof (ParserFacts.closeGroup_capture _ _ _ _ _ Hc) as Hcap.
    pose proof (closeGroup_keeps _ no_backref_tl _ _ _ _ _ Hc B) as B'.
    cbn [fst snd] in *. rewrite Hcap. auto. }
  split; [|split; [|split; [|split; [|split]]]].
  - intros st node st' H HB H0. cbn [parseAlternation] in H.
    apply bind_Ok in H. destruct H as ([lhs st1] & H1 & H2).
    destruct (IHc _ _ _ H1 HB H0) as (W & B & L).
    destruct (IHal _ _ _ _ H2 B ltac:(lia) W) as (W' & B' & L').
    repeat split; auto; lia.
  - intros lhs st node st' H HB H0 HW. cbn [parseAlternationLoop] in H.
    pose proof (ParserFacts.match_capture T_PIPE st) as Hm.
    pose proof (match_keeps _ no_backref_tl T_PIPE st HB) as Hb.
    destruct (match_ T_PIPE st) as [more st1]. cbn [snd] in Hm, Hb. destruct more.
    + apply bind_Ok in H. destruct H as ([rhs st2] & H1 & H2).
      destruct (IHc _ _ _ H1 Hb ltac:(lia)) as (W & B & L).
      assert (HW2 : well_numbered (currentCapture_ st2) (Alternate lhs rhs)).
      { split; [|exact W]. apply well_numbered_le with (n := currentCapture_ st); [lia|auto]. }
      destruct (IHal _ _ _ _ H2 B ltac:(lia) HW2) as (W' & B' & L').
      repeat split; auto; lia.
    + inversion H; subst. rewrite Hm. repeat split; auto; lia.
  - intros st node st' H HB H0. cbn [parseConcatenation] in H.
    apply bind_Ok in H. destruct H as ([lhs st1] & H1 & H2).
    destruct (IHq _ _ _ H1 HB H0) as (W & B & L).
    destruct (IHcl _ _ _ _ H2 B ltac:(lia) W) as (W' & B' & L').
    repeat split; auto; lia.
  - intros lhs st node st' H HB H0 HW. cbn [parseConcatenationLoop] in H.
    destruct (isQuantifierStart st).
    + apply bind_Ok in H. destruct H as ([rhs st2] & H1 & H2).
      destruct (IHq _ _ _ H1 HB H0) as (W & B & L).
      assert (HW2 : well_numbered (currentCapture_ st2) (Concat lhs rhs)).
      { split; [|exact W]. apply well_numbered_le with (n := currentCapture_ st); [lia|auto]. }
      destruct (IHcl _ _ _ _ H2 B ltac:(lia) HW2) as (W' & B' & L').
      repeat split; auto; lia.
    + inversion H; subst. repeat split; auto; lia.
  - intros st node st' H HB H0. cbn [parseQuantifier] in H.
    apply bind_Ok in H. destruct H as ([atom st1] & H1 & H2).
    destruct (IHt _ _ _ H1 HB H0) as (W & B & L). cbv zeta in H2.
    pose proof (ParserFacts.consume_capture st1) as Hc.
    pose proof (consume_keeps _ no_backref_tl st1 B) as Bc.
    destruct (type (peek st1));
      try (inversion H2; subst; rewrite ?Hc; repeat split; auto; lia).
    pose proof (ParserFacts.parseNumber_capture (snd (consume st1))) as Hn.
    pose proof (parseNumber_keeps _ no_backref_tl _ Bc) as Bn.
    destruct (parseNumber (snd (consume st1))) as [min st2]. cbn [snd] in Hn, Bn.
    pose proof (ParserFacts.match_capture T_COMMA st2) as Hm.
    pose proof (match_keeps _ no_backref_tl T_COMMA st2 Bn) as Bm.
    destruct (match_ T_COMMA st2) as [comma st3]. cbn [snd] in Hm, Bm.
    assert (Hmax : currentCapture_ (snd (if comma then parseNumber st3 else (min, st3)))
                   = currentCapture_ st3
                   /\ no_backref (rest (snd (if comma then parseNumber st3 else (min, st3))))).
    { destruct comma; [|auto]. split; [apply ParserFacts.parseNumber_capture|].
      apply parseNumber_keeps; [apply no_backref_tl | assumption]. }
    destruct (if comma then parseNumber st3 else (min, st3)) as [max st4].
    cbn [snd] in Hmax. destruct Hmax as [Hmax Bmax].
    pose proof (ParserFacts.match_capture T_RBRACE st4) as Hr.
    pose proof (match_keeps _ no_backref_tl T_RBRACE st4 Bmax) as Br.
    destruct (match_ T_RBRACE st4) as [closed st5]. cbn [snd] in Hr, Br.
    destruct closed; cbn [negb] in H2; [|discriminate].
    inversion H2; subst.
    replace (currentCapture_ st') with (currentCapture_ st1) by congruence.
    repeat split; auto; lia.
  - intros st node st' H HB H0. cbn [parseAtom] in H.
    pose proof (ParserFacts.consume_capture st) as Hc.
    pose proof (consume_keeps _ no_backref_tl st HB) as Bc.
    pose proof (consume_fst st) as Hf. pose proof (no_backref_peek st HB) as Hnb.
    destruct (consume st) as [t st1]. cbn [fst snd] in Hc, Bc, Hf. subst t.
    destruct (type (peek st)) eqn:Et; try discriminate; try congruence;
      try (inversion H; subst; rewrite ?Hc; repeat split; cbn; auto; lia).
    + (* LPAREN *)
      assert (Bc1 : no_backref (rest (snd (consume st1))))
        by (apply consume_keeps; [apply no_backref_tl | assumption]).
      pose proof (ParserFacts.consume_capture st1) as Hc1.
      destruct (peek_is T_LITERAL "?" st1).
      { destruct (peek_is T_LITERAL ":" (snd (consume st1))); [|discriminate].
        pose proof (ParserFacts.consume_capture (snd (consume st1))) as Hc2.
        destruct (Hgroup _ _ _ _ _ H) as (W & B & L); auto.
        - apply consume_keeps; [apply no_backref_tl | assumption].
        - lia.
        - repeat split; auto; lia. }
      destruct (peek_is T_LITERAL "=" st1).
      { destruct (Hgroup _ _ _ _ _ H) as (W & B & L); auto; [lia|].
        repeat split; auto; lia. }
      destruct (peek_is T_LITERAL "!" st1).
      { destruct (Hgroup _ _ _ _ _ H) as (W & B & L); auto; [lia|].
        repeat split; auto; lia. }
      apply bind_Ok in H. destruct H as ([n st2] & Ha & H).
      apply bind_Ok in H. destruct H as ([n3 st3] & Hg & H).
      destruct (IHa _ _ _ Ha) as (W & B & L); [exact Bc | cbn; lia |].
      pose proof (closeGroup_node _ _ _ _ _ Hg) as E. cbn [fst] in E. subst n3.
      pose proof (ParserFacts.closeGroup_capture _ _ _ _ _ Hg) as Hcap.
      pose proof (closeGroup_keeps _ no_backref_tl _ _ _ _ _ Hg B) as B'.
      cbn [snd currentCapture_] in *. inversion H; subst.
      rewrite Hcap. repeat split; auto; lia.
    + (* LBRACKET *)
      apply bind_Ok in H. destruct H as ([cn st2] & Hp & H).
      pose proof (ParserFacts.parseCharacterClass_capture _ _ _ Hp) as Hcap.
      pose proof (parseCharacterClass_keeps _ no_backref_tl _ _ _ Hp Bc) as B.
      destruct (parseCharacterClass_node _ _ _ Hp) as (low & high & Hnode).
      pose proof (ParserFacts.match_capture T_RBRACKET st2) as Hm.
      pose proof (match_keeps _ no_backref_tl T_RBRACKET st2 B) as Bm.
      destruct (match_ T_RBRACKET st2) as [closed st3]. cbn [snd] in Hm, Bm.
      destruct closed; cbn [negb] in H; [|discriminate].
      inversion H; subst.
      repeat split; auto; [destruct Hnode as [-> | ->]; exact I | lia].
    + (* ESCAPE *)
      inversion H; subst. rewrite Hc.
      repeat split; auto; [apply parseEscape_numbered | lia].
Qed.

Lemma parse_numbered (tokens_ : list Token) (ast : ASTNode) (n : Z) :
  no_backref tokens_ ->
  parse tokens_ = Ok (ast, n) -> well_numbered n ast /\ 0 <= n.
Proof.
  unfold parse. intros HB H. apply bind_Ok in H. destruct H as ([node st] & Ha & H).
  destruct (proj1 (descent_numbered _) _ _ _ Ha HB ltac:(cbn; lia)) as (W & B & L).
  cbn [currentCapture_] in L.
  destruct (rest st); [|discriminate]. inversion H; subst. auto.
Qed.

Lemma tokenize_no_backref (pattern : cstring) (toks : list Token) :
  Lexer.tokenize pattern = Ok toks -> no_backref toks.
Proof.
  intros H.
  destruct (TokenFacts.tokenizeLoop_source _ pattern [] 0 toks eq_refl H) as (_ & _ & F).
  unfold no_backref. rewrite Forall_forall in *. intros t Hin Ht.
  specialize (F t Hin). unfold token_source in F. rewrite Ht in F. exact F.
Qed.

Lemma compile_numbered (pattern : cstring) (re : Regex) :
  compile pattern = Ok re ->
  exists ast,
    well_numbered (numCaptures_ re) ast
    /\ 0 <= numCaptures_ re
    /\ instructions_ re = Compiler.compile ast (numCaptures_ re).
Proof.
  unfold compile. intros H.
  apply bind_Ok in H. destruct H as (toks & Ht & H).
  apply bind_Ok in H. destruct H as ([ast n] & Hp & H).
  inversion H; subst. cbn [numCaptures_ instructions_].
  destruct (parse_numbered toks ast n (tokenize_no_backref _ _ Ht) Hp).
  eauto.
Qed.
End Numbering.

(** ** The shape of a compiled program *)

Module CompilerFacts.
Import Compiler.

Lemma length_emit (inst : Instruction) (l : list Instruction) :
  List.length (emit inst l) = S (List.length l).
Proof. unfold emit. rewrite length_app. cbn. lia. Qed.

Lemma length_patchOperand (pos t : Z) (l : list Instruction) :
  List.length (patchOperand pos t l) = List.length l.
Proof. apply VMFacts.length_update. Qed.

Lemma length_patchCharset (pos t : Z) (l : list Instruction) :
  List.length (patchCharset pos t l) = List.length l.
Proof. apply VMFacts.length_update. Qed.

Lemma iter_grows (f : list Instruction -> list Instruction) (k : nat) :
  (forall l, (List.length l <= List.length (f l))%nat) ->
  forall l, (List.length l <= List.length (Nat.iter k f l))%nat.
Proof.
  intros Hf. induction k as [|k IH]; intros l; [cbn; lia|].
  change (Nat.iter (S k) f l) with (f (Nat.iter k f l)).
  specialize (IH l). specialize (Hf (Nat.iter k f l)). lia.
Qed.

(** [compileNode] never shortens the program. *)
Lemma compileNode_grows (node : ASTNode) :
  forall instrs, (List.length instrs <= List.length (compileNode node instrs))%nat.
Proof.
  induction node as [c | l IHl r IHr | l IHl r IHr | child IH min max g | | b bh ct
                     | b bh ct | | | child IH idx | idx];
    intros instrs; cbn [compileNode]; cbv zeta;
    try (rewrite length_emit; lia).
  - specialize (IHl instrs). specialize (IHr (compileNode l instrs)). lia.
  - rewrite length_patchOperand.
    match goal with |- (_ <= List.length (compileNode r ?Y))%nat =>
      specialize (IHr Y); rewrite length_patchCharset, length_patchOperand, length_emit in IHr
    end.
    specialize (IHl (emit (Inst.Split 0 0) instrs)). rewrite length_emit in IHl. lia.
  - destruct (max =? UINT32_MAX); [destruct (min =? 0)|
      destruct ((max =? 1) && (min =? 0)); [|destruct (max =? 1)]].
    + rewrite length_patchOperand, length_patchCharset, length_patchOperand, length_emit.
      specialize (IH (emit (Inst.Split 0 0) instrs)). rewrite length_emit in IH. lia.
    + rewrite length_patchOperand, length_patchCharset, length_patchOperand, length_emit.
      match goal with |- (_ <= S (List.length (compileNode child ?Y)))%nat =>
        pose proof (IH Y) as H2; rewrite length_emit in H2
      end.
      specialize (IH instrs). lia.
    + rewrite length_patchCharset, length_patchOperand.
      specialize (IH (emit (Inst.Split 0 0) instrs)). rewrite length_emit in IH. lia.
    + apply IH.
    + apply iter_grows, IH.
  - destruct (0 <=? ct); [|destruct (negb (bh =? 0))]; rewrite length_emit; lia.
  - destruct (0 <=? ct); [|destruct (negb (bh =? 0))]; rewrite length_emit; lia.
  - rewrite length_emit.
    specialize (IH (emit (Inst.Save (u32 (u32 idx * 2))) instrs)).
    rewrite length_emit in IH. lia.
Qed.

Lemma update_app_mid {A} (f : A -> A) (pre : list A) (x : A) (post : list A) :
  update (List.length pre) f (pre ++ x :: post) = pre ++ f x :: post.
Proof. induction pre as [|a pre IH]; cbn; [reflexivity | now rewrite IH]. Qed.

Lemma patchOperand_at (pre : list Instruction) (x : Instruction) (post : list Instruction)
  (k t : Z) :
  k = Z.of_nat (List.length pre) ->
  patchOperand k t (pre ++ x :: post) = pre ++ set_operand x t :: post.
Proof.
  intros ->. unfold patchOperand. rewrite Nat2Z.id.
  apply (update_app_mid (fun i => set_operand i t)).
Qed.

Lemma patchCharset_at (pre : list Instruction) (x : Instruction) (post : list Instruction)
  (k t : Z) :
  k = Z.of_nat (List.length pre) ->
  patchCharset k t (pre ++ x :: post) = pre ++ set_charset x t :: post.
Proof.
  intros ->. unfold patchCharset. rewrite Nat2Z.id.
  apply (update_app_mid (fun i => set_charset i t)).
Qed.

Lemma u32_small (x : Z) : 0 <= x < 2 ^ 32 -> u32 x = x.
Proof. intros H. unfold u32. now apply Z.mod_small. Qed.

Lemma here_small (l : list Instruction) :
  Z.of_nat (List.length l) < 2 ^ 32 -> here l = Z.of_nat (List.length l).
Proof. intros H. unfold here. apply u32_small. lia. Qed.

Lemma targets_in_weaken (lo hi lo' hi' n : Z) (inst : Instruction) :
  lo' <= lo -> hi <= hi' -> targets_in lo hi n inst -> targets_in lo' hi' n inst.
Proof. unfold targets_in. destruct (opcode inst); intros; lia. Qed.

Lemma Forall_targets_weaken (lo hi lo' hi' n : Z) (code : list Instruction) :
  lo' <= lo -> hi <= hi' ->
  Forall (targets_in lo hi n) code -> Forall (targets_in lo' hi' n) code.
Proof.
  intros H1 H2. apply Forall_impl. intros inst. now apply targets_in_weaken.
Qed.

(** The code a node compiles to, as an extension of the program so far. *)
Definition appends (n : Z) (node : ASTNode) : Prop :=
  forall instrs,
    Z.of_nat (List.length (compileNode node instrs)) < 2 ^ 32 ->
    exists code,
      compileNode node instrs = instrs ++ code
      /\ Forall (targets_in (Z.of_nat (List.length instrs))
                   (Z.of_nat (List.length instrs + List.length code)) n) code.

(** an instruction that tests the text and carries no target *)
Definition test (inst : Instruction) : Prop :=
  match opcode inst with
  | CHAR | ANY | CLASS | NOT_CLASS | CLASS_PRED | ANCHOR_START | ANCHOR_END => True
  | _ => False
  end.

Lemma appends_one (n : Z) (inst : Instruction) (instrs : list Instruction) :
  test inst ->
  exists code,
    emit inst instrs = instrs ++ code
    /\ Forall (targets_in (Z.of_nat (List.length instrs))
                 (Z.of_nat (List.length instrs + List.length code)) n) code.
Proof.
  intros H. exists [inst]. split; [reflexivity|]. constructor; [|constructor].
  revert H. unfold targets_in, test. destruct (opcode inst); intros; auto; contradiction.
Qed.

Lemma appends_iter (n : Z) (child : ASTNode) (k : nat) :
  appends n child ->
  forall instrs,
    Z.of_nat (List.length (Nat.iter k (compileNode child) instrs)) < 2 ^ 32 ->
    exists code,
      Nat.iter k (compileNode child) instrs = instrs ++ code
      /\ Forall (targets_in (Z.of_nat (List.length instrs))
                   (Z.of_nat (List.length instrs + List.length code)) n) code.
Proof.
  intros Hc. induction k as [|k IH]; intros instrs Hlen.
  - exists []. cbn. rewrite app_nil_r. auto.
  - change (Nat.iter (S k) (compileNode child) instrs)
      with (compileNode child (Nat.iter k (compileNode child) instrs)) in *.
    destruct (Hc _ Hlen) as (code2 & E2 & F2).
    pose proof (compileNode_grows child (Nat.iter k (compileNode child) instrs)) as G.
    destruct (IH instrs ltac:(lia)) as (code1 & E1 & F1).
    rewrite E2, E1, <- app_assoc. exists (code1 ++ code2). split; [reflexivity|].
    rewrite E1 in F2. rewrite !length_app in *.
    apply Forall_app. split.
    + eapply Forall_targets_weaken; [| | exact F1]; lia.
    + eapply Forall_targets_weaken; [| | exact F2]; lia.
Qed.

Ltac norm_len := repeat first [rewrite length_app | progress cbn [List.length]].
Ltac norm_app := repeat first [rewrite <- !app_assoc | progress cbn [app]].

Lemma compileNode_appends (n : Z) (node : ASTNode) :
  n < 2 ^ 31 -> well_numbered n node -> appends n node.
Proof.
  intros Hn.
  induction node as [c | l IHl r IHr | l IHl r IHr | child IH min max g | | b bh ct
                     | b bh ct | | | child IH idx | idx];
    intros W instrs Hlen; cbn [compileNode well_numbered] in *;
    try (apply appends_one; exact I).
  - (* Concat *)
    destruct W as [Wl Wr].
    destruct (IHr Wr _ Hlen) as (c2 & E2 & F2).
    pose proof (compileNode_grows r (compileNode l instrs)) as G.
    destruct (IHl Wl instrs ltac:(lia)) as (c1 & E1 & F1).
    rewrite E2, E1, <- app_assoc. exists (c1 ++ c2). split; [reflexivity|].
    rewrite E1 in F2. rewrite !length_app in *.
    apply Forall_app. split.
    + eapply Forall_targets_weaken; [| | exact F1]; lia.
    + eapply Forall_targets_weaken; [| | exact F2]; lia.
  - (* Alternate *)
    destruct W as [Wl Wr]. cbv zeta in *.
    rewrite length_patchOperand in Hlen.
    remember (compileNode l (emit (Inst.Split 0 0) instrs)) as L eqn:EL.
    remember (patchCharset (here instrs) (u32 (here L + 1))
                (patchOperand (here instrs) (u32 (here instrs + 1))
                   (emit (Inst.Jump 0) L))) as Y eqn:EY.
    remember (compileNode r Y) as X eqn:EX.
    assert (LY : List.length Y = S (List.length L))
      by (rewrite EY, length_patchCharset, length_patchOperand, length_emit; reflexivity).
    pose proof (compileNode_grows r Y) as GX. rewrite <- EX in GX.
    pose proof (compileNode_grows l (emit (Inst.Split 0 0) instrs)) as GL.
    rewrite <- EL, length_emit in GL.
    destruct (IHl Wl (emit (Inst.Split 0 0) instrs)) as (c1 & E1 & F1);
      [rewrite <- EL; lia|].
    rewrite <- EL in E1. unfold emit in E1. rewrite length_emit in F1.
    assert (LL : List.length L = (List.length instrs + 1 + List.length c1)%nat)
      by (rewrite E1, !length_app; cbn; lia).
    rewrite (here_small instrs), (here_small L) in * by lia.
    rewrite !u32_small in EY by lia.
    assert (EY' : Y = instrs
                      ++ set_charset (set_operand (Inst.Split 0 0)
                                        (Z.of_nat (List.length instrs) + 1))
                           (Z.of_nat (List.length L) + 1)
                      :: c1 ++ [Inst.Jump 0]).
    { rewrite EY, E1. unfold emit. norm_app.
      rewrite patchOperand_at by reflexivity. rewrite patchCharset_at by reflexivity.
      reflexivity. }
    destruct (IHr Wr Y) as (c2 & E2 & F2); [rewrite <- EX; lia|].
    rewrite <- EX in E2.
    assert (LX : List.length X = (List.length Y + List.length c2)%nat)
      by (rewrite E2, length_app; reflexivity).
    rewrite (here_small X) by lia.
    set (S' := set_charset _ _) in EY'.
    assert (EX' : X = (instrs ++ S' :: c1) ++ Inst.Jump 0 :: c2)
      by (rewrite E2, EY'; norm_app; reflexivity).
    set (tgt := Z.of_nat (List.length X)).
    exists (S' :: c1 ++ set_operand (Inst.Jump 0) tgt :: c2). split.
    + rewrite EX', patchOperand_at; [norm_app; reflexivity|].
      rewrite length_app. cbn [List.length]. lia.
    + subst tgt S'.
      repeat first [apply Forall_cons | apply Forall_app; split | apply Forall_nil].
      * unfold targets_in; cbn. norm_len. lia.
      * eapply Forall_targets_weaken; [| | exact F1]; norm_len; lia.
      * unfold targets_in; cbn. norm_len. lia.
      * eapply Forall_targets_weaken; [| | exact F2]; norm_len; lia.
  - (* Repeat *)
    cbv zeta in *.
    destruct (max =? UINT32_MAX); [destruct (min =? 0)|
      destruct ((max =? 1) && (min =? 0)); [|destruct (max =? 1)]].
    + (* star *)
      rewrite length_patchOperand, length_patchCharset, length_patchOperand, length_emit
        in Hlen.
      remember (compileNode child (emit (Inst.Split 0 0) instrs)) as L eqn:EL.
      pose proof (compileNode_grows child (emit (Inst.Split 0 0) instrs)) as GL.
      rewrite <- EL, length_emit in GL.
      destruct (IH W (emit (Inst.Split 0 0) instrs)) as (c1 & E1 & F1);
        [rewrite <- EL; lia|].
      rewrite <- EL in E1. unfold emit in E1. rewrite length_emit in F1.
      assert (LL : List.length L = (List.length instrs + 1 + List.length c1)%nat)
        by (rewrite E1; norm_len; lia).
      rewrite (here_small instrs), (here_small L) by lia.
      rewrite !u32_small by lia.
      set (S' := set_charset (set_operand (Inst.Split 0 0)
                                (Z.of_nat (List.length instrs) + 1))
                   (Z.of_nat (List.length L) + 1)).
      set (J' := set_operand (Inst.Jump 0) (Z.of_nat (List.length instrs))).
      exists (S' :: c1 ++ [J']). split.
      * set (a := Z.of_nat (List.length instrs)). set (b := Z.of_nat (List.length L)).
        rewrite E1. unfold emit. norm_app.
        rewrite patchOperand_at by reflexivity. rewrite patchCharset_at by reflexivity.
        fold S'. rewrite app_comm_cons, app_assoc.
        rewrite patchOperand_at; [norm_app; reflexivity|].
        subst b. norm_len. lia.
      * subst S' J'.
        repeat first [apply Forall_cons | apply Forall_app; split | apply Forall_nil].
        -- unfold targets_in; cbn. norm_len. lia.
        -- eapply Forall_targets_weaken; [| | exact F1]; norm_len; lia.
        -- unfold targets_in; cbn. norm_len. lia.
    + (* plus *)
      rewrite length_patchOperand, length_patchCharset, length_patchOperand, length_emit
        in Hlen.
      remember (compileNode child instrs) as C0 eqn:EC.
      remember (compileNode child (emit (Inst.Split 0 0) C0)) as L eqn:EL.
      pose proof (compileNode_grows child (emit (Inst.Split 0 0) C0)) as GL.
      rewrite <- EL, length_emit in GL.
      destruct (IH W (emit (Inst.Split 0 0) C0)) as (c1 & E1 & F1);
        [rewrite <- EL; lia|].
      rewrite <- EL in E1. unfold emit in E1. rewrite length_emit in F1.
      destruct (IH W instrs) as (c0 & E0 & F0); [rewrite <- EC; lia|].
      rewrite <- EC in E0.
      assert (LC : List.length C0 = (List.length instrs + List.length c0)%nat)
        by (rewrite E0; norm_len; lia).
      assert (LL : List.length L = (List.length C0 + 1 + List.length c1)%nat)
        by (rewrite E1; norm_len; lia).
      rewrite (here_small C0), (here_small L) by lia.
      rewrite !u32_small by lia.
      set (S' := set_charset (set_operand (Inst.Split 0 0)
                                (Z.of_nat (List.length C0) + 1))
                   (Z.of_nat (List.length L) + 1)).
      set (J' := set_operand (Inst.Jump 0) (Z.of_nat (List.length C0))).
      exists (c0 ++ S' :: c1 ++ [J']). split.
      * set (a := Z.of_nat (List.length C0)). set (b := Z.of_nat (List.length L)).
        rewrite E1. unfold emit. norm_app.
        rewrite patchOperand_at by reflexivity. rewrite patchCharset_at by reflexivity.
        fold S'. rewrite app_comm_cons, app_assoc.
        rewrite patchOperand_at; [rewrite E0; norm_app; reflexivity|].
        subst b. norm_len. lia.
      * subst S' J'.
        repeat first [apply Forall_cons | apply Forall_app; split | apply Forall_nil].
        -- eapply Forall_targets_weaken; [| | exact F0]; norm_len; lia.
        -- unfold targets_in; cbn. norm_len. lia.
        -- eapply Forall_targets_weaken; [| | exact F1]; norm_len; lia.
        -- unfold targets_in; cbn. norm_len. lia.
    + (* question mark *)
      rewrite length_patchCharset, length_patchOperand in Hlen.
      remember (compileNode child (emit (Inst.Split 0 0) instrs)) as L eqn:EL.
      pose proof (compileNode_grows child (emit (Inst.Split 0 0) instrs)) as GL.
      rewrite <- EL, length_emit in GL.
      destruct (IH W (emit (Inst.Split 0 0) instrs)) as (c1 & E1 & F1);
        [rewrite <- EL; lia|].
      rewrite <- EL in E1. unfold emit in E1. rewrite length_emit in F1.
      assert (LL : List.length L = (List.length instrs + 1 + List.length c1)%nat)
        by (rewrite E1; norm_len; lia).
      rewrite (here_small instrs) by lia.
      rewrite here_small by (rewrite length_patchOperand; lia).
      rewrite length_patchOperand.
      rewrite !u32_small by lia.
      set (S' := set_charset (set_operand (Inst.Split 0 0)
                                (Z.of_nat (List.length instrs) + 1))
                   (Z.of_nat (List.length L))).
      exists (S' :: c1). split.
      * set (a := Z.of_nat (List.length instrs)). set (b := Z.of_nat (List.length L)).
        rewrite E1. norm_app.
        rewrite patchOperand_at by reflexivity. rewrite patchCharset_at by reflexivity.
        reflexivity.
      * subst S'.
        repeat first [apply Forall_cons | apply Forall_app; split | apply Forall_nil].
        -- unfold targets_in; cbn. norm_len. lia.
        -- eapply Forall_targets_weaken; [| | exact F1]; norm_len; lia.
    + apply (IH W instrs Hlen).
    + apply appends_iter; auto.
  - destruct (0 <=? ct); [|destruct (negb (bh =? 0))]; apply appends_one; exact I.
  - destruct (0 <=? ct); [|destruct (negb (bh =? 0))]; apply appends_one; exact I.
  - (* Group *)
    destruct W as [Hidx W].
    rewrite length_emit in Hlen.
    rewrite (u32_small idx) in * by lia.
    rewrite !u32_small in * by lia.
    remember (compileNode child (emit (Inst.Save (idx * 2)) instrs)) as L eqn:EL.
    destruct (IH W (emit (Inst.Save (idx * 2)) instrs)) as (c1 & E1 & F1);
      [rewrite <- EL; lia|].
    rewrite <- EL in E1. unfold emit in E1. rewrite length_emit in F1.
    exists (Inst.Save (idx * 2) :: c1 ++ [Inst.Save (idx * 2 + 1)]). split.
    + rewrite E1. unfold emit. norm_app. reflexivity.
    + repeat first [apply Forall_cons | apply Forall_app; split | apply Forall_nil].
      * change (2 <= idx * 2 <= 2 * n + 1). lia.
      * eapply Forall_targets_weaken; [| | exact F1]; norm_len; lia.
      * change (2 <= idx * 2 + 1 <= 2 * n + 1). lia.
  - contradiction.
Qed.

(** an instruction other than [MATCH], [BACKREF] and [RANGE] *)
Definition plain (inst : Instruction) : Prop :=
  opcode inst <> MATCH /\ opcode inst <> BACKREF /\ opcode inst <> RANGE.

Lemma Forall_update_keep {A} (P : A -> Prop) (f : A -> A) (l : list A) :
  (forall x, P x -> P (f x)) ->
  forall i, Forall P l -> Forall P (update i f l).
Proof.
  intros Hf. induction l as [|a l IH]; intros i H; destruct i; cbn; auto;
    inversion H; subst; constructor; auto.
Qed.

Lemma plain_emit (inst : Instruction) (l : list Instruction) :
  plain inst -> Forall plain l -> Forall plain (emit inst l).
Proof. intros Hi Hl. unfold emit. apply Forall_app. auto. Qed.

Lemma plain_patchOperand (pos t : Z) (l : list Instruction) :
  Forall plain l -> Forall plain (patchOperand pos t l).
Proof. apply Forall_update_keep. intros x Hx. exact Hx. Qed.

Lemma plain_patchCharset (pos t : Z) (l : list Instruction) :
  Forall plain l -> Forall plain (patchCharset pos t l).
Proof. apply Forall_update_keep. intros x Hx. exact Hx. Qed.

Lemma plain_iter (f : list Instruction -> list Instruction) (k : nat) :
  (forall l, Forall plain l -> Forall plain (f l)) ->
  forall l, Forall plain l -> Forall plain (Nat.iter k f l).
Proof.
  intros Hf. induction k as [|k IH]; intros l Hl; [exact Hl|].
  change (Nat.iter (S k) f l) with (f (Nat.iter k f l)). auto.
Qed.

Ltac plain_one := repeat split; discriminate.

Lemma compileNode_plain (n : Z) (node : ASTNode) :
  well_numbered n node ->
  forall instrs, Forall plain instrs -> Forall plain (compileNode node instrs).
Proof.
  induction node as [c | l IHl r IHr | l IHl r IHr | child IH min max g | | b bh ct
                     | b bh ct | | | child IH idx | idx];
    intros W instrs H; cbn [compileNode well_numbered] in *; cbv zeta;
    try (apply plain_emit; [plain_one | assumption]).
  - destruct W. auto.
  - destruct W as [Wl Wr].
    apply plain_patchOperand, IHr; [assumption|].
    apply plain_patchCharset, plain_patchOperand, plain_emit; [plain_one|].
    apply IHl; [assumption|]. apply plain_emit; [plain_one | assumption].
  - destruct (max =? UINT32_MAX); [destruct (min =? 0)|
      destruct ((max =? 1) && (min =? 0)); [|destruct (max =? 1)]].
    + apply plain_patchOperand, plain_patchCharset, plain_patchOperand, plain_emit;
        [plain_one|].
      apply IH; [assumption|]. apply plain_emit; [plain_one | assumption].
    + apply plain_patchOperand, plain_patchCharset, plain_patchOperand, plain_emit;
        [plain_one|].
      apply IH; [assumption|]. apply plain_emit; [plain_one|]. auto.
    + apply plain_patchCharset, plain_patchOperand.
      apply IH; [assumption|]. apply plain_emit; [plain_one | assumption].
    + auto.
    + apply plain_iter; auto.
  - destruct (0 <=? ct); [|destruct (negb (bh =? 0))];
      (apply plain_emit; [plain_one | assumption]).
  - destruct (0 <=? ct); [|destruct (negb (bh =? 0))];
      (apply plain_emit; [plain_one | assumption]).
  - destruct W as [_ W]. apply plain_emit; [plain_one|].
    apply IH; [assumption|]. apply plain_emit; [plain_one | assumption].
  - contradiction.
Qed.
End CompilerFacts.

(** X4.  A compiled program is the code of the pattern followed by one
    [MATCH], and that code holds no [MATCH], no [BACKREF] and no [RANGE]
    instruction, whatever the pattern: back-references are not compiled, an
    escaped digit is the digit itself. *)
Theorem compiled_program_has_no_backref :
  (forall (pattern : cstring) (re : Regex),
      compile pattern = Ok re ->
      exists body,
        instructions_ re = body ++ [Inst.Match]
        /\ Forall (fun inst => opcode inst <> MATCH /\ opcode inst <> BACKREF
                                /\ opcode inst <> RANGE) body)
  /\ (forall (fuel : nat) (d : ascii) (p : Z) (rest : list Token) (cap : Z),
         Parser.isdigit d = true ->
         Parser.parseAtom (S fuel) (Parser.mkState (mkToken T_ESCAPE d p :: rest) cap)
         = Ok (Literal d, Parser.mkState rest cap)).
Proof.
  split.
  - intros pattern re H.
    destruct (Numbering.compile_numbered _ _ H) as (ast & W & _ & E).
    exists (Compiler.compileNode ast []). split; [exact E|].
    apply (CompilerFacts.compileNode_plain _ _ W). constructor.
  - intros fuel d p rest cap Hd. cbn [Parser.parseAtom Parser.consume Parser.rest type].
    unfold Parser.parseEscape. cbn [value].
    destruct d as [[] [] [] [] [] [] [] []]; try discriminate Hd; reflexivity.
Qed.



(** ** Where a match of a compiled pattern lies, and its captures *)

Module MatchFacts.
Import VM VMFacts.

Section Inside.
Variables (instructions_ : list Instruction) (captureCount_ : nat) (text : cstring).
Variable pos : Z.

(** No [SAVE] of the program writes slot 0 or slot 1. *)
Hypothesis saves :
  forall inst,
    In inst instructions_ -> opcode inst = SAVE ->
    (2 <= Z.to_nat (Z.land (operand inst) 65535))%nat.

(** Slot 0 holds the start offset; every other slot is unset or holds an
    offset between the start and the current text position. *)
Definition frame (tp : Z) (caps : list Z) : Prop :=
  List.length caps = (captureCount_ * 2)%nat
  /\ cap caps 0 = pos
  /\ pos <= tp
  /\ forall i, (1 <= i)%nat -> cap caps i = npos \/ pos <= cap caps i <= tp.

Definition inside (st : state) : Prop :=
  frame (textPos st) (captures_ st)
  /\ Forall (fun bp => frame (bp_textPos bp) (savedCaptures bp)) (backtrackStack_ st).

Lemma frame_advance (tp : Z) (caps : list Z) : frame tp caps -> frame (tp + 1) caps.
Proof.
  intros (L & H0 & Hle & Hi). repeat split; auto; try lia.
  intros i Hi1. destruct (Hi i Hi1); [auto | right; lia].
Qed.

Lemma frame_setcap (tp : Z) (caps : list Z) (i : nat) :
  (1 <= i)%nat -> frame tp caps -> frame tp (setcap caps i tp).
Proof.
  intros Hi1 (L & H0 & Hle & Hi). unfold frame.
  split; [unfold setcap; now rewrite length_update|].
  split; [rewrite cap_setcap; destruct i; [lia | exact H0]|].
  split; [assumption|].
  intros j Hj. rewrite cap_setcap.
  destruct ((i =? j)%nat && (i <? List.length caps)%nat); [right; lia | auto].
Qed.

Lemma fetch_In (pc : Z) (inst : Instruction) :
  fetch instructions_ pc = Some inst -> In inst instructions_.
Proof.
  unfold fetch. destruct (pc <? 0); [discriminate|]. apply nth_error_In.
Qed.

Lemma step_inside (inst : Instruction) (st st' : state) :
  In inst instructions_ ->
  inside st -> step text inst st = Next st' -> inside st'.
Proof.
  intros Hin [Hf Hs] H. pose proof (saves inst Hin) as Hsave.
  unfold step, advance in H.
  destruct (opcode inst);
    repeat match type of H with
           | (if ?c then _ else _) = _ => destruct c
           end; try discriminate H; inversion H; subst st'; clear H;
    split; cbn [textPos captures_ backtrackStack_];
    auto using frame_advance, frame_setcap.
  apply frame_setcap; [specialize (Hsave eq_refl); lia | assumption].
Qed.

Lemma backtrack_inside (st st' : state) :
  inside st -> backtrack st = Some st' -> inside st'.
Proof.
  intros [Hf Hs] H. unfold backtrack in H.
  destruct (backtrackStack_ st) as [|bp stack]; [discriminate|].
  inversion H; subst st'. inversion Hs; subst. split; assumption.
Qed.

Lemma cap_repeat (k i : nat) : cap (List.repeat npos k) i = npos.
Proof.
  unfold cap. revert i. induction k as [|k IH]; intros [|i]; cbn; auto.
Qed.

Lemma initial_inside : (1 <= captureCount_)%nat -> inside (initial captureCount_ pos).
Proof.
  intros Hc. split; [|constructor]. cbn [initial textPos captures_].
  unfold frame. split; [unfold setcap; now rewrite length_update, repeat_length|].
  split.
  { rewrite cap_setcap, repeat_length.
    replace (0 <? captureCount_ * 2)%nat with true by (symmetry; apply Nat.ltb_lt; lia).
    reflexivity. }
  split; [lia|].
  intros i Hi. left. rewrite cap_setcap. destruct i; [lia|]. cbn [Nat.eqb andb].
  apply cap_repeat.
Qed.

(** A run that accepts does so from a state within the invariant. *)
Lemma run_inside (fuel : nat) :
  forall st r,
    inside st ->
    RangeFacts.state_in_range fuel st ->
    run fuel instructions_ captureCount_ text st = Ok (Some r) ->
    exists tp caps,
      frame tp caps /\ 0 <= tp < npos
      /\ buildResult captureCount_ text (setcap caps 1 tp) = Ok r.
Proof.
  induction fuel as [|fuel IH]; intros st r Hin Hr H; [discriminate|].
  cbn [run] in H.
  assert (Hbt : match backtrack st with
                | Some st' => run fuel instructions_ captureCount_ text st'
                | None => Ok None
                end = Ok (Some r) ->
                exists tp caps,
                  frame tp caps /\ 0 <= tp < npos
                  /\ buildResult captureCount_ text (setcap caps 1 tp) = Ok r).
  { destruct (backtrack st) as [st'|] eqn:Hb; [|discriminate].
    apply IH.
    - eapply backtrack_inside; eauto.
    - eapply RangeFacts.backtrack_in_range; eauto. }
  destruct (fetch instructions_ (pc st)) as [inst|] eqn:Hfetch; [|auto].
  destruct (step text inst st) as [st'| |caps] eqn:Hs; [| auto |].
  - eapply IH; [| |exact H].
    + eapply step_inside; eauto using fetch_In.
    + eapply RangeFacts.step_in_range; eauto.
  - destruct (step_accept_is_match _ _ _ _ Hs) as [_ ->].
    destruct (buildResult captureCount_ text _) as [r'| |] eqn:Hb; try discriminate.
    cbn [bind] in H. inversion H; subst r'; clear H.
    exists (textPos st), (captures_ st).
    destruct Hin as [Hf _]. destruct Hr as [(H0 & Hn & _) _].
    split; [exact Hf|]. split; [lia | exact Hb].
Qed.

Lemma reportGroup_within (tp : Z) (caps : list Z) (i : nat) (m : Match) :
  frame tp caps -> 0 <= pos -> tp < npos -> (1 <= i)%nat ->
  reportGroup text caps i = Ok m ->
  capture_within text pos tp m.
Proof.
  intros (L & H0 & Hle & Hi) Hpos Htp Hi1. unfold reportGroup.
  destruct (negb (cap caps (i * 2) =? npos) && negb (cap caps (i * 2 + 1) =? npos)
            && (cap caps (i * 2) <? cap caps (i * 2 + 1))) eqn:E.
  - apply andb_prop in E. destruct E as [E E3]. apply andb_prop in E. destruct E as [E1 E2].
    apply negb_true_iff, Z.eqb_neq in E1, E2. apply Z.ltb_lt in E3.
    destruct (Hi (i * 2)%nat ltac:(lia)) as [|Hs]; [congruence|].
    destruct (Hi (i * 2 + 1)%nat ltac:(lia)) as [|He]; [congruence|].
    unfold substr. destruct (size text <? cap caps (i * 2)) eqn:Es; [discriminate|].
    cbn [bind]. intros H; inversion H; subst m; clear H.
    apply Z.ltb_ge in Es. right. cbn [m_start m_end captured].
    repeat split; try lia.
    unfold slice, u64. rewrite Z.mod_small by (unfold npos in *; lia). reflexivity.
  - intros H; inversion H. left. reflexivity.
Qed.

Lemma reportGroups_within (tp : Z) (caps : list Z) (marks : list bool) (gs : list nat) :
  frame tp caps -> 0 <= pos -> tp < npos ->
  (forall i, In i gs -> (1 <= i)%nat) ->
  forall ms,
    reportGroups text caps marks gs = Ok ms ->
    Forall (capture_within text pos tp) ms /\ (List.length ms <= List.length gs)%nat.
Proof.
  intros Hf Hpos Htp. induction gs as [|i gs IH]; intros Hgs ms H; cbn [reportGroups] in H.
  - inversion H. split; [constructor | cbn; lia].
  - assert (Hgs' : forall j, In j gs -> (1 <= j)%nat) by (intros; apply Hgs; now right).
    destruct (negb (nth i marks false)).
    + apply bind_Ok in H. destruct H as (m & Hm & H).
      apply bind_Ok in H. destruct H as (ms' & Hms & H). inversion H; subst ms.
      destruct (IH Hgs' _ Hms) as [F Hl].
      split; [|cbn; lia]. constructor; [|exact F].
      apply (reportGroup_within tp caps i m Hf Hpos Htp (Hgs i (or_introl eq_refl)) Hm).
    + destruct (IH Hgs' _ H) as [F Hl]. split; [exact F | cbn; lia].
Qed.

Lemma buildResult_within (tp : Z) (caps : list Z) (r : MatchResult) :
  frame tp caps -> 0 <= pos -> tp < npos -> (1 <= captureCount_)%nat ->
  buildResult captureCount_ text (setcap caps 1 tp) = Ok r ->
  matched r = true
  /\ position r = pos
  /\ pos <= size text
  /\ matched_text r = slice text pos tp
  /\ (List.length (captures r) <= captureCount_ - 1)%nat
  /\ Forall (capture_within text pos tp) (captures r).
Proof.
  intros Hf Hpos Htp Hc H.
  pose proof (frame_setcap tp caps 1 ltac:(lia) Hf) as Hf'.
  assert (H1 : cap (setcap caps 1 tp) 1 = tp).
  { rewrite cap_setcap. destruct Hf as (L & _). rewrite L.
    replace (1 <? captureCount_ * 2)%nat with true by (symmetry; apply Nat.ltb_lt; lia).
    reflexivity. }
  destruct Hf' as (L' & H0' & Hle' & Hi').
  pose proof (buildResult_shape _ _ _ _ H) as (Hm & Hp & Hsz & Ht).
  rewrite H0' in *. rewrite H1 in Ht.
  unfold buildResult in H. apply bind_Ok in H. destruct H as (mt & _ & H).
  apply bind_Ok in H. destruct H as (ms & Hms & H). inversion H; subst r; clear H.
  cbn [captures matched position matched_text] in *.
  assert (Hgs : forall i, In i (groups captureCount_) -> (1 <= i)%nat).
  { intros i Hi. unfold groups in Hi. apply in_seq in Hi. lia. }
  destruct (reportGroups_within tp (setcap caps 1 tp) _ (groups captureCount_)
              (conj L' (conj H0' (conj Hle' Hi'))) Hpos Htp Hgs ms Hms) as [F Hl].
  unfold groups in Hl. rewrite length_seq in Hl.
  repeat split; auto.
  rewrite Ht. unfold slice, u64. rewrite Z.mod_small by (unfold npos in *; lia).
  reflexivity.
Qed.

Lemma executeAt_within (fuel : nat) (r : MatchResult) :
  (1 <= captureCount_)%nat ->
  0 <= pos -> pos + Z.of_nat fuel <= npos ->
  executeAt fuel instructions_ captureCount_ text pos = Ok (Some r) ->
  matched r = true
  /\ position r = pos
  /\ pos <= size text
  /\ (List.length (captures r) <= captureCount_ - 1)%nat
  /\ exists e,
      pos <= e
      /\ matched_text r = slice text pos e
      /\ Forall (capture_within text pos e) (captures r).
Proof.
  intros Hc Hpos Hfuel H. unfold executeAt in H.
  assert (Hr : RangeFacts.state_in_range fuel (initial captureCount_ pos)).
  { split; [|constructor]. cbn [initial textPos captures_].
    repeat split; try lia.
    apply RangeFacts.Forall_update; [|unfold RangeFacts.size_t; lia].
    apply Forall_forall. intros v Hv. apply repeat_spec in Hv. subst v.
    unfold RangeFacts.size_t, npos. lia. }
  destruct (run_inside fuel _ r (initial_inside Hc) Hr H) as (tp & caps & Hf & Htp & Hb).
  destruct (buildResult_within tp caps r Hf Hpos ltac:(lia) Hc Hb)
    as (Hm & Hp & Hsz & Ht & Hl & F).
  repeat split; auto. exists tp. destruct Hf as (_ & _ & Hle & _). auto.
Qed.
End Inside.

Lemma land_small (x : Z) : 0 <= x < 65536 -> Z.land x 65535 = x.
Proof.
  intros H. change 65535 with (Z.ones 16). rewrite Z.land_ones by lia.
  apply Z.mod_small. lia.
Qed.

(** The [SAVE] instructions of a compiled pattern with fewer than 32768
    groups write the slots from 2 on. *)
Lemma compiled_saves (pattern : cstring) (re : Regex) :
  compile pattern = Ok re ->
  numCaptures_ re < 32768 ->
  Z.of_nat (List.length (instructions_ re)) < 2 ^ 32 ->
  forall inst,
    In inst (instructions_ re) -> opcode inst = SAVE ->
    (2 <= Z.to_nat (Z.land (operand inst) 65535))%nat.
Proof.
  intros H Hn Hlen inst Hin Hop.
  destruct (Numbering.compile_numbered _ _ H) as (ast & W & H0 & E).
  rewrite E in *. unfold Compiler.compile in *.
  rewrite CompilerFacts.length_emit in Hlen.
  destruct (CompilerFacts.compileNode_appends (numCaptures_ re) ast ltac:(lia) W [])
    as (code & Ec & F); [lia|].
  cbn [app] in Ec. rewrite Ec in Hin. unfold Compiler.emit in Hin.
  apply in_app_or in Hin. destruct Hin as [Hin | [<- | []]]; [|discriminate Hop].
  rewrite Forall_forall in F. specialize (F inst Hin).
  unfold targets_in in F. rewrite Hop in F.
  rewrite land_small by lia. lia.
Qed.
End MatchFacts.

(** X6.  A match of a compiled pattern (fewer than 32768 groups, a program
    shorter than [2^32]) found at [start] is reported at [start]: [position]
    is the start offset, [matched_text] is the text from there to the offset
    [e] the run ended at, and every capture that is set is a non-empty span
    between [start] and [e] holding the text it spans.  There are at most
    [numCaptures] captures. *)
Theorem match_is_reported_at_start :
  forall (pattern : cstring) (re : Regex) (fuel : nat) (text : cstring) (start : Z)
         (r : MatchResult),
    compile pattern = Ok re ->
    numCaptures_ re < 32768 ->
    Z.of_nat (List.length (instructions_ re)) < 2 ^ 32 ->
    0 <= start ->
    start + Z.of_nat fuel <= npos ->
    RegexM.match_ fuel re text start = Ok (Some r) ->
    matched r = true
    /\ position r = start
    /\ start <= size text
    /\ (Z.of_nat (List.length (captures r)) <= numCaptures_ re)
    /\ exists e,
        start <= e
        /\ matched_text r = slice text start e
        /\ Forall (capture_within text start e) (captures r).
Proof.
  intros pattern re fuel text start r H Hn Hlen Hs Hf Hm.
  pose proof (compile_compiled _ _ H) as Hc.
  pose proof (compile_captureCount _ _ H) as Hcc.
  unfold RegexM.match_ in Hm. rewrite Hc in Hm. cbn [negb] in Hm.
  destruct (MatchFacts.executeAt_within (instructions_ re) (RegexM.captureCount re) text
              start (MatchFacts.compiled_saves _ _ H Hn Hlen) fuel r Hcc Hs Hf Hm)
    as (M & P & Sz & L & e & He).
  repeat split; auto.
  - unfold RegexM.captureCount in L, Hcc. lia.
  - exists e. exact He.
Qed.

Lemma match_is_reported_at_start_witness :
  exists re,
    compile (str "(a)(x)?b") = Ok re
    /\ position (mkMatchResult true 1 (str "ab")
                  [mkMatch 1 2 (str "a"); mkMatch npos npos []]) = 1.
Proof.
  eexists. split; [reflexivity|].
  apply (match_is_reported_at_start (str "(a)(x)?b") _ 20 (str "cab") 1
           (mkMatchResult true 1 (str "ab") [mkMatch 1 2 (str "a"); mkMatch npos npos []])
           eq_refl).
  - vm_compute. reflexivity.
  - vm_compute. reflexivity.
  - lia.
  - vm_compute. discriminate.
  - vm_compute. reflexivity.
Defined.

(** ** The accessors of a match result *)

Module AccessorFacts.
Import VM VMFacts.

Section Slices.
Variables (text : cstring) (caps : list Z).
Hypothesis caps_range : Forall RangeFacts.size_t caps.

(** an entry of [captures]: unset, or a non-empty span with its text *)
Definition entry (c : Match) : Prop :=
  c = mkMatch npos npos []
  \/ (m_start c < m_end c /\ m_start c <= size text
      /\ captured c = slice text (m_start c) (m_end c)).

Lemma cap_range (i : nat) : 0 <= cap caps i <= npos.
Proof.
  unfold cap. destruct (nth_in_or_default i caps npos) as [Hin | ->].
  - rewrite Forall_forall in caps_range. apply (caps_range _ Hin).
  - unfold npos. lia.
Qed.

Lemma reportGroup_entry (i : nat) (m : Match) :
  reportGroup text caps i = Ok m -> entry m.
Proof.
  unfold reportGroup.
  destruct (negb (cap caps (i * 2) =? npos) && negb (cap caps (i * 2 + 1) =? npos)
            && (cap caps (i * 2) <? cap caps (i * 2 + 1))) eqn:E.
  - apply andb_prop in E. destruct E as [_ E3]. apply Z.ltb_lt in E3.
    pose proof (cap_range (i * 2)) as R1. pose proof (cap_range (i * 2 + 1)) as R2.
    unfold substr. destruct (size text <? cap caps (i * 2)) eqn:Es; [discriminate|].
    cbn [bind]. intros H; inversion H; subst m; clear H.
    apply Z.ltb_ge in Es. right. cbn [m_start m_end captured].
    repeat split; try lia.
    unfold slice, u64. rewrite Z.mod_small by (unfold npos in *; lia). reflexivity.
  - intros H; inversion H. left. reflexivity.
Qed.

Lemma reportGroups_entries (marks : list bool) (gs : list nat) :
  forall ms, reportGroups text caps marks gs = Ok ms -> Forall entry ms.
Proof.
  induction gs as [|i gs IH]; intros ms H; cbn [reportGroups] in H.
  - inversion H. constructor.
  - destruct (negb (nth i marks false)); [|auto].
    apply bind_Ok in H. destruct H as (m & Hm & H).
    apply bind_Ok in H. destruct H as (ms' & Hms & H). inversion H; subst ms.
    constructor; [eapply reportGroup_entry; eauto | auto].
Qed.

Lemma buildResult_entries (captureCount_ : nat) (r : MatchResult) :
  buildResult captureCount_ text caps = Ok r -> Forall entry (captures r).
Proof.
  unfold buildResult. intros H.
  apply bind_Ok in H. destruct H as (mt & _ & H).
  apply bind_Ok in H. destruct H as (ms & Hms & H). inversion H; subst r.
  eapply reportGroups_entries; eauto.
Qed.
End Slices.

Lemma slice_length (text : cstring) (p n : Z) :
  0 <= p -> 0 <= n <= size text - p ->
  size (firstn (Z.to_nat n) (skipn (Z.to_nat p) text)) = n
  /\ slice text p (p + n) = firstn (Z.to_nat n) (skipn (Z.to_nat p) text).
Proof.
  intros Hp Hn. unfold slice, size in *.
  rewrite length_firstn, length_skipn. split; [lia|].
  f_equal. lia.
Qed.

Lemma executeAt_entries (instructions_ : list Instruction) (captureCount_ : nat)
  (text : cstring) (fuel : nat) (pos : Z) (r : MatchResult) :
  (1 <= captureCount_)%nat ->
  0 <= pos -> pos + Z.of_nat fuel <= npos ->
  executeAt fuel instructions_ captureCount_ text pos = Ok (Some r) ->
  pos <= position r
  /\ position r + mr_length r <= size text
  /\ matched_text r = slice text (position r) (position r + mr_length r)
  /\ Forall (entry text) (captures r).
Proof.
  intros Hc Hpos Hfuel H.
  destruct (executeAt_position _ _ _ _ _ _ Hc H) as (_ & Hp & n & Hn & Ht).
  destruct (RangeFacts.executeAt_in_range _ _ _ _ _ _ Hpos Hfuel H) as (caps & Hr & Hb).
  destruct (slice_length text (position r) n ltac:(lia) Hn) as [Hl Hs].
  unfold mr_length. rewrite Ht, Hl. repeat split; try lia; auto.
  eapply buildResult_entries; eauto.
Qed.
End AccessorFacts.

(** X7.  For a match result, [group(i)] is the text between
    [group_start(i)] and [group_end(i)], for the whole match ([i = 0]) and
    for every capture; an index without a capture, and a capture that is
    not set, give [npos], [npos] and the empty string.  The whole match lies
    in the text, at or after the start offset. *)
Theorem group_is_the_text_between_its_bounds :
  forall (pattern : cstring) (re : Regex) (fuel : nat) (text : cstring) (start : Z)
         (r : MatchResult),
    compile pattern = Ok re ->
    size text <= npos ->
    0 <= start ->
    start + Z.of_nat fuel <= npos ->
    RegexM.match_ fuel re text start = Ok (Some r) ->
    (start <= mr_group_start r 0 /\ mr_group_end r 0 <= size text
     /\ mr_group_end r 0 = mr_group_start r 0 + mr_length r)
    /\ forall idx,
        (mr_group_start r idx = npos /\ mr_group_end r idx = npos /\ mr_group r idx = [])
        \/ (mr_group_start r idx <= mr_group_end r idx
            /\ mr_group_start r idx <= size text
            /\ mr_group r idx
               = slice text (mr_group_start r idx) (mr_group_end r idx)).
Proof.
  intros pattern re fuel text start r H Hsz Hs Hf Hm.
  pose proof (compile_compiled _ _ H) as Hc.
  pose proof (compile_captureCount _ _ H) as Hcc.
  unfold RegexM.match_ in Hm. rewrite Hc in Hm. cbn [negb] in Hm.
  destruct (AccessorFacts.executeAt_entries _ _ _ _ _ _ Hcc Hs Hf Hm) as (Hp & Hl & Ht & F).
  pose proof (size_nonneg (matched_text r)) as Hlen. fold (mr_length r) in Hlen.
  assert (E0 : u64 (position r + mr_length r) = position r + mr_length r).
  { unfold u64. apply Z.mod_small. unfold npos in *. lia. }
  split.
  - unfold mr_group_start, mr_group_end. cbn [Z.eqb]. rewrite E0. lia.
  - intros idx. unfold mr_group_start, mr_group_end, mr_group.
    destruct (idx =? 0) eqn:E.
    + right. rewrite E0. split; [lia|]. split; [lia | exact Ht].
    + destruct ((0 <? idx) && (idx <=? Z.of_nat (List.length (captures r)))) eqn:Ei;
        [|left; auto].
      destruct (nth_error (captures r) (Z.to_nat (idx - 1))) as [m|] eqn:En;
        [|left; auto].
      apply nth_error_In in En. rewrite Forall_forall in F.
      destruct (F m En) as [-> | (H1 & H2 & H3)]; [left; auto|].
      right. repeat split; auto; lia.
Qed.

Lemma group_is_the_text_between_its_bounds_witness :
  exists re,
    compile (str "(a)(x)?b") = Ok re
    /\ mr_group (mkMatchResult true 1 (str "ab")
                   [mkMatch 1 2 (str "a"); mkMatch npos npos []]) 1
       = slice (str "cab") 1 2.
Proof.
  eexists. split; [reflexivity|].
  pose proof (group_is_the_text_between_its_bounds (str "(a)(x)?b") _ 20 (str "cab") 1
           (mkMatchResult true 1 (str "ab") [mkMatch 1 2 (str "a"); mkMatch npos npos []])
           eq_refl ltac:(vm_compute; discriminate) ltac:(lia)
           ltac:(vm_compute; discriminate) eq_refl) as [_ H].
  destruct (H 1) as [(H1 & _) | (_ & _ & H3)]; [discriminate H1 | exact H3].
Defined.

(** ** [search], [searchAll] and [replace] together *)

Module FacadeFacts.

Lemma searchAllLoop_head (fuel : nat) (re : Regex) (text : cstring) (rounds : nat) :
  forall pos results,
    RegexM.searchAllLoop rounds fuel re text pos 0 = Ok results ->
    VM.searchLoop rounds fuel (instructions_ re) (RegexM.captureCount re) text pos 0
    = Ok (hd_error results).
Proof.
  induction rounds as [|rounds IH]; intros pos results H.
  - cbn [RegexM.searchAllLoop VM.searchLoop] in *.
    destruct (pos <=? size text); [discriminate|]. inversion H. reflexivity.
  - rewrite SearchFacts.searchLoop_round. cbn [RegexM.searchAllLoop] in H.
    destruct (pos <=? size text); [|inversion H; reflexivity].
    unfold RegexM.executeAt in H.
    destruct (VM.executeAt fuel (instructions_ re) (RegexM.captureCount re) text pos)
      as [[r|]| |]; cbn [bind SearchFacts.goes_on] in *; try discriminate.
    + replace ((mr_length r =? 0) && (mr_length r =? 0) && (pos <? size text))
        with ((mr_length r =? 0) && (pos <? size text)) in H
        by (destruct (mr_length r =? 0); reflexivity).
      destruct ((mr_length r =? 0) && (pos <? size text)); [auto|].
      apply bind_Ok in H. destruct H as (rs & _ & H). inversion H. reflexivity.
    + auto.
Qed.

Definition plain_byte (c : ascii) : Prop := c <> "\" /\ c <> "$".

Lemma expandReplacement_plain (m : MatchResult) (repl : cstring) :
  Forall plain_byte repl -> RegexM.expandReplacement repl m = repl.
Proof.
  induction repl as [|c rest IH]; intros H; [reflexivity|].
  inversion H as [|? ? [H1 H2] Hrest]; subst.
  cbn [RegexM.expandReplacement]. destruct rest as [|next rest']; [reflexivity|].
  apply Ascii.eqb_neq in H1, H2. rewrite H1, H2.
  f_equal. apply IH, Hrest.
Qed.

Lemma reportGroups_returns (text : cstring) (caps : list Z) (marks : list bool)
  (gs : list nat) :
  VM.reportGroups text caps marks gs <> OutOfFuel.
Proof.
  induction gs as [|i gs IH]; cbn [VM.reportGroups]; [discriminate|].
  destruct (negb (nth i marks false)); [|exact IH].
  apply bind_total.
  - unfold VM.reportGroup, substr.
    destruct (_ && _ && _); [|discriminate].
    destruct (size text <? _); cbn; discriminate.
  - intros m _. apply bind_total; [exact IH | discriminate].
Qed.

Lemma buildResult_returns (captureCount_ : nat) (text : cstring) (caps : list Z) :
  VM.buildResult captureCount_ text caps <> OutOfFuel.
Proof.
  unfold VM.buildResult. apply bind_total.
  - unfold substr. destruct (size text <? _); discriminate.
  - intros mt _. apply bind_total; [apply reportGroups_returns | discriminate].
Qed.

(** The program of a one-byte pattern ends within two steps. *)
Lemma char_program_halts (c : ascii) (captureCount_ : nat) (text : cstring) (p : Z) :
  VM.executeAt 2 [Inst.Char c; Inst.Match] captureCount_ text p <> OutOfFuel.
Proof.
  unfold VM.executeAt.
  set (st := VM.initial captureCount_ p).
  destruct (VM.step text (Inst.Char c) st) as [st'| |caps] eqn:Hs.
  - rewrite (VMFacts.run_next [Inst.Char c; Inst.Match] captureCount_ text 1 st st'
               (Inst.Char c) eq_refl Hs).
    assert (Hpc : VM.pc st' = 1).
    { unfold VM.step, VM.advance in Hs. cbv zeta in Hs.
      cbn [opcode Inst.Char set_operand set_ch set_opcode Instruction_default] in Hs.
      match type of Hs with
      | (if ?b then _ else _) = _ => destruct b
      end; [|discriminate Hs]. injection Hs as Hs. rewrite <- Hs. reflexivity. }
    rewrite (VMFacts.run_accept [Inst.Char c; Inst.Match] captureCount_ text 0 st'
               Inst.Match (VM.setcap (VM.captures_ st') 1 (VM.textPos st'))).
    + apply bind_total; [apply buildResult_returns | discriminate].
    + rewrite Hpc. reflexivity.
    + reflexivity.
  - rewrite VMFacts.run_fail; [discriminate|].
    unfold fails. cbn. exact Hs.
  - apply VMFacts.step_accept_is_match in Hs. destruct Hs as [Hs _]. discriminate Hs.
Qed.
End FacadeFacts.

(** X9.  [searchAll] and [search] agree on the first match: when
    [searchAll] returns, its first element is what [search] from offset 0
    finds, and it is empty exactly when [search] finds nothing. *)
Theorem searchAll_starts_with_search :
  forall (pattern : cstring) (re : Regex) (fuel : nat) (text : cstring)
         (results : list MatchResult),
    compile pattern = Ok re ->
    RegexM.searchAll fuel re text = Ok results ->
    RegexM.search fuel re text 0 = Ok (hd_error results).
Proof.
  intros pattern re fuel text results H Hs.
  pose proof (compile_compiled _ _ H) as Hc.
  unfold RegexM.searchAll, RegexM.search, VM.search in *. rewrite Hc in *. cbn [negb] in *.
  rewrite Z.sub_0_r. apply FacadeFacts.searchAllLoop_head, Hs.
Qed.

Lemma searchAll_starts_with_search_witness :
  exists re,
    compile (str "\d+") = Ok re
    /\ RegexM.search 50 re (str "a1b22") 0 = Ok (Some (mkMatchResult true 1 (str "1") [])).
Proof.
  eexists. split; [reflexivity|].
  apply (searchAll_starts_with_search (str "\d+") _ 50 (str "a1b22")
           [mkMatchResult true 1 (str "1") []; mkMatchResult true 3 (str "22") []]);
    reflexivity.
Defined.

(** X10.  A replacement text without backslash and dollar is inserted as it
    is, and [replace] with [all = false] rewrites the first match that
    [search] finds and nothing else: the text before it and after it is
    kept, and a text without a match is returned unchanged. *)
Theorem replace_first_rewrites_the_match_of_search :
  forall (pattern : cstring) (re : Regex) (fuel : nat) (text replacement : cstring),
    compile pattern = Ok re ->
    Forall (fun c => c <> "\" /\ c <> "$") replacement ->
    (forall m, RegexM.expandReplacement replacement m = replacement)
    /\ RegexM.replace fuel re text replacement false
       = (r <- RegexM.search fuel re text 0 ;;
          Ok (match r with
              | Some m =>
                  firstn (Z.to_nat (position m)) text
                  ++ replacement
                  ++ skipn (Z.to_nat (position m + mr_length m)) text
              | None => text
              end)).
Proof.
  intros pattern re fuel text replacement H Hr.
  pose proof (compile_compiled _ _ H) as Hc.
  pose proof (compile_captureCount _ _ H) as Hcc.
  split; [intros m; now apply FacadeFacts.expandReplacement_plain|].
  unfold RegexM.replace. rewrite Hc. cbn [negb].
  destruct (RegexM.search fuel re text 0) as [[m|]| |] eqn:E; cbn [bind]; try reflexivity.
  destruct (LoopBounds.search_hit fuel re Hcc text 0 m ltac:(lia) E)
    as (n & Hp & Hn & Ht & _).
  rewrite FacadeFacts.expandReplacement_plain by assumption.
  assert (Hsz : mr_length m = n).
  { unfold mr_length. rewrite Ht. unfold size in *. rewrite length_firstn, length_skipn. lia. }
  unfold string_replace.
  destruct (Z.ltb_spec (size text) (position m)); [lia|].
  rewrite Z.min_l by lia. reflexivity.
Qed.

Lemma replace_first_rewrites_the_match_of_search_witness :
  exists re,
    compile (str "\d+") = Ok re
    /\ RegexM.replace 50 re (str "a1b22") (str "#") false = Ok (str "a#b22").
Proof.
  eexists. split; [reflexivity|].
  rewrite (proj2 (replace_first_rewrites_the_match_of_search (str "\d+") _ 50
                    (str "a1b22") (str "#") eq_refl
                    ltac:(repeat constructor; discriminate))).
  reflexivity.
Defined.

(** ** Bracket expressions: which bytes a mask holds *)

Module ClassFacts.
Import CharClass.

Lemma land_bit (m k : Z) : 0 <= k -> negb (Z.land m (bit k) =? 0) = Z.testbit m k.
Proof.
  intros Hk. unfold bit. rewrite Z.shiftl_1_l.
  destruct (Z.testbit m k) eqn:E.
  - apply negb_true_iff, Z.eqb_neq. intros H0.
    assert (Hb : Z.testbit (Z.land m (2 ^ k)) k = false) by (rewrite H0; apply Z.bits_0).
    rewrite Z.land_spec, E, Z.pow2_bits_true in Hb by assumption. discriminate.
  - apply negb_false_iff, Z.eqb_eq. apply Z.bits_inj'. intros i Hi.
    rewrite Z.land_spec, Z.bits_0, Z.pow2_bits_eqb by assumption.
    destruct (Z.eqb_spec k i) as [->|]; [rewrite E; reflexivity | apply andb_false_r].
Qed.

Lemma testbit_lor_bit (m k i : Z) :
  0 <= k -> 0 <= i -> Z.testbit (Z.lor m (bit k)) i = Z.testbit m i || (k =? i).
Proof.
  intros Hk Hi. unfold bit. rewrite Z.shiftl_1_l, Z.lor_spec, Z.pow2_bits_eqb by assumption.
  reflexivity.
Qed.

Lemma code_range (c : ascii) : 0 <= code c < 256.
Proof.
  unfold code. pose proof (N_ascii_bounded c) as H. lia.
Qed.

(** the bytes of a mask pair *)
Definition member (masks : Z * Z) (c : ascii) : bool :=
  inClassExt (fst masks) (snd masks) c.

Lemma member_testbit (masks : Z * Z) (c : ascii) :
  member masks c
  = if code c <? 64 then Z.testbit (fst masks) (code c)
    else if code c <? 128 then Z.testbit (snd masks) (code c - 64)
    else false.
Proof.
  unfold member, inClassExt. pose proof (code_range c).
  destruct (Z.ltb_spec (code c) 64); [apply land_bit; lia|].
  destruct (Z.ltb_spec (code c) 128); [apply land_bit; lia | reflexivity].
Qed.

Lemma member_addByte (uc : Z) (masks : Z * Z) (c : ascii) :
  0 <= uc ->
  member (Parser.addByte uc masks) c
  = member masks c || ((uc <? 128) && (code c =? uc)).
Proof.
  intros Huc. rewrite !member_testbit. pose proof (code_range c) as Hc.
  destruct masks as [low high]. unfold Parser.addByte. cbn [fst snd].
  destruct (Z.ltb_spec uc 64); [|destruct (Z.ltb_spec uc 128)]; cbn [fst snd andb].
  - replace (uc <? 128) with true by (symmetry; apply Z.ltb_lt; lia). cbn [andb].
    destruct (Z.ltb_spec (code c) 64).
    + rewrite testbit_lor_bit by lia. now rewrite (Z.eqb_sym uc).
    + replace (code c =? uc) with false by (symmetry; apply Z.eqb_neq; lia).
      now rewrite orb_false_r.
  - destruct (Z.ltb_spec (code c) 64).
    + replace (code c =? uc) with false by (symmetry; apply Z.eqb_neq; lia).
      now rewrite orb_false_r.
    + destruct (Z.ltb_spec (code c) 128).
      * rewrite testbit_lor_bit by lia. f_equal.
        destruct (Z.eqb_spec (uc - 64) (code c - 64)), (Z.eqb_spec (code c) uc);
          try reflexivity; lia.
      * replace (code c =? uc) with false by (symmetry; apply Z.eqb_neq; lia).
        reflexivity.
  - now rewrite orb_false_r.
Qed.

Lemma member_addRange (n : nat) :
  forall (i : Z) (masks : Z * Z) (c : ascii),
    0 <= i -> i + Z.of_nat n <= 128 ->
    member (Parser.addRange n i masks) c
    = member masks c || ((i <=? code c) && (code c <? i + Z.of_nat n)).
Proof.
  induction n as [|n IH]; intros i masks c Hi Hn; cbn [Parser.addRange].
  - replace ((i <=? code c) && (code c <? i + Z.of_nat 0)) with false;
      [now rewrite orb_false_r|].
    symmetry. apply andb_false_iff.
    destruct (Z.leb_spec i (code c)); [right; apply Z.ltb_ge; lia | now left].
  - rewrite IH by lia. unfold u8. rewrite Z.mod_small by lia.
    rewrite member_addByte by lia.
    replace (i <? 128) with true by (symmetry; apply Z.ltb_lt; lia). cbn [andb].
    rewrite <- orb_assoc. f_equal.
    destruct (Z.eqb_spec (code c) i), (Z.leb_spec (i + 1) (code c)),
      (Z.ltb_spec (code c) (i + 1 + Z.of_nat n)), (Z.leb_spec i (code c)),
      (Z.ltb_spec (code c) (i + Z.of_nat (S n))); cbn; try reflexivity; lia.
Qed.

Lemma schar_ascii (c : ascii) : code c < 128 -> schar c = code c.
Proof. unfold schar. intros H. now destruct (Z.ltb_spec (code c) 128); [|lia]. Qed.
End ClassFacts.

(** X12.  The masks of a bracket expression hold exactly the bytes of its
    items.  An item that is one byte adds that byte when it is ASCII and
    nothing otherwise; a range with ASCII end points adds the bytes from the
    first to the last, and nothing when they are in the wrong order.  A byte
    above 127 is in no class. *)
Theorem bracket_masks_hold_their_items :
  (forall (negated : bool) (t : Token) (rest : list Token) (cap : Z) (masks : Z * Z)
          (c : ascii),
      type t <> T_ESCAPE ->
      type (hd Token_unknown rest) <> T_RANGE ->
      let r := Parser.classItem negated (Parser.mkState (t :: rest) cap) masks in
      Parser.rest (fst r) = rest
      /\ CharClass.inClassExt (fst (snd r)) (snd (snd r)) c
         = CharClass.inClassExt (fst masks) (snd masks) c
           || ((code (value t) <? 128) && Ascii.eqb c (value t)))
  /\ (forall (negated : bool) (t dash t' : Token) (rest : list Token) (cap : Z)
             (masks : Z * Z) (c : ascii),
         type t <> T_ESCAPE ->
         type dash = T_RANGE ->
         code (value t) < 128 -> code (value t') < 128 ->
         let r := Parser.classItem negated
                    (Parser.mkState (t :: dash :: t' :: rest) cap) masks in
         Parser.rest (fst r) = rest
         /\ CharClass.inClassExt (fst (snd r)) (snd (snd r)) c
            = CharClass.inClassExt (fst masks) (snd masks) c
              || ((code (value t) <=? code c) && (code c <=? code (value t'))))
  /\ (forall (low high : Z) (c : ascii),
         128 <= code c -> CharClass.inClassExt low high c = false).
Proof.
  split; [|split].
  - intros negated t rest cap masks c Ht Hr. cbv zeta.
    assert (Hp : TokenType_eqb (type (Parser.peek (Parser.mkState rest cap))) T_RANGE
                 = false)
      by (rewrite TokenSuffix.peek_hd; cbn [Parser.rest];
          destruct (type (hd Token_unknown rest)); try reflexivity; congruence).
    assert (He : TokenType_eqb (type t) T_ESCAPE = false)
      by (destruct (type t); try reflexivity; congruence).
    unfold Parser.classItem. destruct masks as [low high].
    change (Parser.peek (Parser.mkState (t :: rest) cap)) with t.
    change (Parser.consume (Parser.mkState (t :: rest) cap))
      with (t, Parser.mkState rest cap).
    rewrite He. cbv iota beta. rewrite Hp.
    cbn [fst snd Parser.rest]. split; [reflexivity|].
    pose proof (ClassFacts.code_range (value t)) as Hb.
    pose proof (ClassFacts.member_addByte (code (value t)) (low, high) c ltac:(lia)) as H.
    unfold ClassFacts.member in H. rewrite H. cbn [fst snd]. do 2 f_equal.
    destruct (Ascii.eqb_spec c (value t)) as [->|Hne]; [apply Z.eqb_refl|].
    apply Z.eqb_neq. intros E. apply Hne.
    unfold code in E. apply N2Z.inj in E.
    rewrite <- (ascii_N_embedding c), <- (ascii_N_embedding (value t)). now rewrite E.
  - intros negated t dash t' rest cap masks c Ht Hd Hf Hl. cbv zeta.
    assert (He : TokenType_eqb (type t) T_ESCAPE = false)
      by (destruct (type t); try reflexivity; congruence).
    unfold Parser.classItem. destruct masks as [low high].
    change (Parser.peek (Parser.mkState (t :: dash :: t' :: rest) cap)) with t.
    change (Parser.consume (Parser.mkState (t :: dash :: t' :: rest) cap))
      with (t, Parser.mkState (dash :: t' :: rest) cap).
    rewrite He. cbv iota beta.
    change (Parser.peek (Parser.mkState (dash :: t' :: rest) cap)) with dash.
    rewrite Hd. cbn [TokenType_eqb].
    change (Parser.consume (Parser.mkState (dash :: t' :: rest) cap))
      with (dash, Parser.mkState (t' :: rest) cap).
    cbv iota beta.
    change (Parser.consume (Parser.mkState (t' :: rest) cap))
      with (t', Parser.mkState rest cap).
    cbn [fst snd Parser.rest]. split; [reflexivity|].
    pose proof (ClassFacts.code_range (value t)) as Hf0.
    pose proof (ClassFacts.code_range (value t')) as Hl0.
    rewrite !ClassFacts.schar_ascii by assumption.
    pose proof (ClassFacts.member_addRange
                  (Z.to_nat (code (value t') - code (value t) + 1)) (code (value t))
                  (low, high) c ltac:(lia) ltac:(lia)) as H.
    unfold ClassFacts.member in H. rewrite H. cbn [fst snd]. f_equal.
    destruct (Z.leb_spec (code (value t)) (code c)),
      (Z.leb_spec (code c) (code (value t'))),
      (Z.ltb_spec (code c)
         (code (value t) + Z.of_nat (Z.to_nat (code (value t') - code (value t) + 1))));
      cbn; try reflexivity; lia.
  - intros low high c Hc. unfold CharClass.inClassExt.
    destruct (Z.ltb_spec (code c) 64); [lia|].
    destruct (Z.ltb_spec (code c) 128); [lia | reflexivity].
Qed.

(** ** Class escapes inside and outside brackets *)

Module EscapeFacts.
Import VM CharClass.

Lemma digit_mask (c : ascii) : inClassExt DIGIT_MASK 0 c = isDigit c.
Proof. destruct c as [[] [] [] [] [] [] [] []]; vm_compute; reflexivity. Qed.

Lemma space_mask (c : ascii) : inClassExt SPACE_MASK 0 c = isSpace c.
Proof. destruct c as [[] [] [] [] [] [] [] []]; vm_compute; reflexivity. Qed.

Lemma empty_mask (c : ascii) : inClassExt 0 0 c = false.
Proof. destruct c as [[] [] [] [] [] [] [] []]; vm_compute; reflexivity. Qed.

(** two instructions that do the same in every state *)
Definition same_step (a b : Instruction) : Prop :=
  forall text st, step text a st = step text b st.

Lemma class_digit : same_step (Inst.Class DIGIT_MASK) (Inst.ClassPred CLASS_DIGIT).
Proof.
  intros text st. unfold step. cbv zeta.
  cbn [opcode charset_low charset_high Inst.Class Inst.ClassPred set_operand
       set_charset_high set_charset set_opcode Instruction_default].
  change (u64 CLASS_DIGIT) with 0. cbn [Z.land Z.eqb negb].
  destruct (textPos st <? size text); cbn [andb]; [|reflexivity].
  now rewrite digit_mask.
Qed.

Lemma class_space : same_step (Inst.Class SPACE_MASK) (Inst.ClassPred CLASS_SPACE).
Proof.
  intros text st. unfold step. cbv zeta.
  cbn [opcode charset_low charset_high Inst.Class Inst.ClassPred set_operand
       set_charset_high set_charset set_opcode Instruction_default].
  change (u64 CLASS_SPACE) with 2. cbn.
  destruct (textPos st <? size text); cbn [andb]; [|reflexivity].
  now rewrite space_mask.
Qed.

Lemma fetch_Forall2 (R : Instruction -> Instruction -> Prop) (p1 p2 : list Instruction)
  (pc : Z) :
  Forall2 R p1 p2 ->
  match fetch p1 pc, fetch p2 pc with
  | Some a, Some b => R a b
  | None, None => True
  | _, _ => False
  end.
Proof.
  intros H. unfold fetch. destruct (pc <? 0); [exact I|].
  generalize (Z.to_nat pc). induction H as [|a b l1 l2 Hab H IH]; intros [|n]; cbn; auto.
  apply IH.
Qed.

Lemma run_same_step (p1 p2 : list Instruction) (captureCount_ : nat) (text : cstring)
  (fuel : nat) :
  Forall2 same_step p1 p2 ->
  forall st, run fuel p1 captureCount_ text st = run fuel p2 captureCount_ text st.
Proof.
  intros H. induction fuel as [|fuel IH]; intros st; [reflexivity|].
  cbn [run]. pose proof (fetch_Forall2 _ _ _ (pc st) H) as Hf.
  destruct (fetch p1 (pc st)) as [a|], (fetch p2 (pc st)) as [b|]; try contradiction.
  - rewrite (Hf text st). destruct (step text b st); auto.
    destruct (backtrack st); auto.
  - destruct (backtrack st); auto.
Qed.
End EscapeFacts.

(** X13.  Inside brackets [\d] and [\s] stand for the same bytes as outside:
    the masks [DIGIT_MASK] and [SPACE_MASK] hold exactly the bytes that
    [isDigit] and [isSpace] accept, so a program with [CLASS] over one of
    these masks and the program with [CLASS_PRED] in its place give the same
    result on every text.  [\w] inside brackets adds no byte at all: a
    [CLASS] over the empty mask fails in every state. *)
Theorem bracket_escapes_agree_with_predicates :
  (forall c,
      CharClass.inClassExt CharClass.DIGIT_MASK 0 c = CharClass.isDigit c
      /\ CharClass.inClassExt CharClass.SPACE_MASK 0 c = CharClass.isSpace c
      /\ CharClass.classMatches CharClass.DIGIT_MASK c CLASS_DIGIT = CharClass.isDigit c
      /\ CharClass.classMatches CharClass.SPACE_MASK c CLASS_SPACE = CharClass.isSpace c
      /\ CharClass.inUint64T CharClass.DIGIT_MASK c = CharClass.isDigit c)
  /\ (forall (p1 p2 : list Instruction),
         Forall2 (fun a b =>
                    a = b
                    \/ (a = Inst.Class CharClass.DIGIT_MASK /\ b = Inst.ClassPred CLASS_DIGIT)
                    \/ (a = Inst.Class CharClass.SPACE_MASK /\ b = Inst.ClassPred CLASS_SPACE))
           p1 p2 ->
         forall fuel captureCount_ text pos,
           VM.executeAt fuel p1 captureCount_ text pos
           = VM.executeAt fuel p2 captureCount_ text pos)
  /\ (forall text st, VM.step text (Inst.Class 0) st = VM.Fail).
Proof.
  split; [|split].
  - intros c. repeat split;
      destruct c as [[] [] [] [] [] [] [] []]; vm_compute; reflexivity.
  - intros p1 p2 H fuel captureCount_ text pos. unfold VM.executeAt.
    apply EscapeFacts.run_same_step.
    eapply Forall2_impl; [|exact H]. intros a b [-> | [[-> ->] | [-> ->]]].
    + intros t st. reflexivity.
    + apply EscapeFacts.class_digit.
    + apply EscapeFacts.class_space.
  - intros text st. unfold VM.step. cbv zeta.
    cbn [opcode charset_low charset_high Inst.Class set_operand
         set_charset_high set_charset set_opcode Instruction_default].
    rewrite EscapeFacts.empty_mask. now rewrite andb_false_r.
Qed.

(** ** Negated class escapes at the end of the text *)

Module EndOfText.
Import VM.

Lemma negated_pred_at_end (k : Z) (text : cstring) (st : state) :
  k = CLASS_DIGIT \/ k = CLASS_WORD \/ k = CLASS_SPACE ->
  size text <= textPos st ->
  step text (Inst.ClassPred (Z.lor k 16)) st = advance st.
Proof.
  intros Hk Hend. unfold step. cbv zeta.
  cbn [opcode charset_low Inst.ClassPred set_operand set_charset set_opcode
       Instruction_default].
  destruct (Z.ltb_spec (textPos st) (size text)); [lia|].
  destruct Hk as [-> | [-> | ->]]; reflexivity.
Qed.

Lemma not_class_at_end (low high : Z) (text : cstring) (st : state) :
  size text <= textPos st ->
  step text (Inst.NotClassExt low high) st = Fail.
Proof.
  intros Hend. unfold step. cbv zeta.
  cbn [opcode Inst.NotClassExt set_operand set_charset_high set_charset set_opcode
       Instruction_default].
  destruct (Z.ltb_spec (textPos st) (size text)); [lia | reflexivity].
Qed.

(** the program of a starred negated class escape *)
Definition star (k : Z) : list Instruction :=
  [Inst.Split 1 3; Inst.ClassPred (Z.lor k 16); Inst.Jump 0; Inst.Match].

Section Loop.
Variables (k : Z) (text : cstring) (captureCount_ : nat).
Hypothesis class_k : k = CLASS_DIGIT \/ k = CLASS_WORD \/ k = CLASS_SPACE.

Definition past_end (st : state) : Prop :=
  (pc st = 0 \/ pc st = 1 \/ pc st = 2) /\ size text <= textPos st.

Lemma past_end_step (st : state) :
  past_end st ->
  exists st',
    past_end st'
    /\ forall fuel,
        run (S fuel) (star k) captureCount_ text st
        = run fuel (star k) captureCount_ text st'.
Proof.
  destruct st as [pc0 tp caps stack]. intros [Hpc Hend]. cbn [pc textPos] in *.
  destruct Hpc as [-> | [-> | ->]].
  - eexists. split; [|intros fuel; apply VMFacts.run_next with (inst := Inst.Split 1 3);
                       reflexivity].
    split; cbn; auto.
  - eexists. split;
      [|intros fuel;
        apply VMFacts.run_next with (inst := Inst.ClassPred (Z.lor k 16));
        [reflexivity | apply negated_pred_at_end; assumption]].
    split; cbn; [auto | lia].
  - eexists. split; [|intros fuel; apply VMFacts.run_next with (inst := Inst.Jump 0);
                       reflexivity].
    split; cbn; auto.
Qed.

Lemma past_end_forever (fuel : nat) :
  forall st, past_end st -> run fuel (star k) captureCount_ text st = OutOfFuel.
Proof.
  induction fuel as [|fuel IH]; intros st H; [reflexivity|].
  destruct (past_end_step st H) as (st' & H' & E). rewrite E. apply IH, H'.
Qed.
End Loop.

Lemma negated_escape_at_end (k : Z) (text : cstring) (fuel : nat) :
  k = CLASS_DIGIT \/ k = CLASS_WORD \/ k = CLASS_SPACE ->
  executeAt (2 + fuel) [Inst.ClassPred (Z.lor k 16); Inst.Match] 1 text (size text)
  = Ok (Some (mkMatchResult true (size text) [] [])).
Proof.
  intros Hk. unfold executeAt. change (2 + fuel)%nat with (S (S fuel)).
  pose proof (size_nonneg text) as Hs.
  rewrite VMFacts.run_next
    with (inst := Inst.ClassPred (Z.lor k 16))
         (st' := mkState 1 (size text + 1) [size text; npos] []);
    [| reflexivity | rewrite negated_pred_at_end; [reflexivity | assumption | cbn; lia]].
  rewrite VMFacts.run_accept
    with (inst := Inst.Match) (caps := [size text; size text + 1]);
    [| reflexivity | reflexivity].
  unfold buildResult, substr.
  cbn [cap nth markContained groups seq Nat.sub reportGroups bind fold_left List.repeat].
  rewrite Z.ltb_irrefl. cbn [bind]. rewrite Z.sub_diag.
  replace (Z.min (u64 (size text + 1 - size text)) 0) with 0
    by (rewrite Z.add_simpl_l; reflexivity).
  reflexivity.
Qed.
End EndOfText.

(** ** How groups are numbered *)

Module GroupFacts.
Import Parser TokenSuffix.

Lemma parseEscape_count (t : Token) :
  count_groups (parseEscape t) = 0 /\ forall base, numbered_from base (parseEscape t).
Proof.
  unfold parseEscape. destruct (value t) as [[] [] [] [] [] [] [] []]; split;
    try reflexivity; intros; exact I.
Qed.

Definition counts (f : state -> result (ASTNode * state)) : Prop :=
  forall st node st',
    f st = Ok (node, st') ->
    currentCapture_ st' = currentCapture_ st + count_groups node
    /\ numbered_from (currentCapture_ st) node.

Definition counts_loop (f : ASTNode -> state -> result (ASTNode * state)) : Prop :=
  forall lhs st node st' base,
    f lhs st = Ok (node, st') ->
    currentCapture_ st = base + count_groups lhs ->
    numbered_from base lhs ->
    currentCapture_ st' = base + count_groups node
    /\ numbered_from base node.

Lemma descent_counts (fuel : nat) :
  counts (parseAlternation fuel)
  /\ counts_loop (parseAlternationLoop fuel)
  /\ counts (parseConcatenation fuel)
  /\ counts_loop (parseConcatenationLoop fuel)
  /\ counts (parseQuantifier fuel)
  /\ counts (parseAtom fuel).
Proof.
  induction fuel as [|fuel (IHa & IHal & IHc & IHcl & IHq & IHt)].
  { repeat split; repeat intro; discriminate. }
  assert (Hgroup : forall msg t st node st',
             (r <- parseAlternation fuel st ;; closeGroup msg t r) = Ok (node, st') ->
             currentCapture_ st' = currentCapture_ st + count_groups node
             /\ numbered_from (currentCapture_ st) node).
  { intros msg t st node st' H. apply bind_Ok in H.
    destruct H as ([n st1] & Ha & Hc).
    destruct (IHa _ _ _ Ha) as (C & W).
    pose proof (closeGroup_node _ _ _ _ _ Hc) as ->.
    pose proof (ParserFacts.closeGroup_capture _ _ _ _ _ Hc) as Hcap.
    cbn [fst snd] in *. rewrite Hcap. auto. }
  split; [|split; [|split; [|split; [|split]]]].
  - intros st node st' H. cbn [parseAlternation] in H.
    apply bind_Ok in H. destruct H as ([lhs st1] & H1 & H2).
    destruct (IHc _ _ _ H1) as (C & W).
    apply (IHal _ _ _ _ _ H2 C W).
  - intros lhs st node st' base H HC HW. cbn [parseAlternationLoop] in H.
    pose proof (ParserFacts.match_capture T_PIPE st) as Hm.
    destruct (match_ T_PIPE st) as [more st1]. cbn [snd] in Hm. destruct more.
    + apply bind_Ok in H. destruct H as ([rhs st2] & H1 & H2).
      destruct (IHc _ _ _ H1) as (C & W).
      apply (IHal _ _ _ _ base H2).
      * cbn [count_groups]. lia.
      * cbn [numbered_from]. split; [exact HW|].
        replace (base + count_groups lhs) with (currentCapture_ st1) by lia. exact W.
    + inversion H; subst. split; [lia | exact HW].
  - intros st node st' H. cbn [parseConcatenation] in H.
    apply bind_Ok in H. destruct H as ([lhs st1] & H1 & H2).
    destruct (IHq _ _ _ H1) as (C & W).
    apply (IHcl _ _ _ _ _ H2 C W).
  - intros lhs st node st' base H HC HW. cbn [parseConcatenationLoop] in H.
    destruct (isQuantifierStart st).
    + apply bind_Ok in H. destruct H as ([rhs st2] & H1 & H2).
      destruct (IHq _ _ _ H1) as (C & W).
      apply (IHcl _ _ _ _ base H2).
      * cbn [count_groups]. lia.
      * cbn [numbered_from]. split; [exact HW|].
        replace (base + count_groups lhs) with (currentCapture_ st) by lia. exact W.
    + inversion H; subst. split; [lia | exact HW].
  - intros st node st' H. cbn [parseQuantifier] in H.
    apply bind_Ok in H. destruct H as ([atom st1] & H1 & H2).
    destruct (IHt _ _ _ H1) as (C & W). cbv zeta in H2.
    pose proof (ParserFacts.consume_capture st1) as Hc.
    destruct (type (peek st1));
      try (inversion H2; subst; rewrite ?Hc; split; [exact C | exact W]).
    pose proof (ParserFacts.parseNumber_capture (snd (consume st1))) as Hn.
    destruct (parseNumber (snd (consume st1))) as [min st2]. cbn [snd] in Hn.
    pose proof (ParserFacts.match_capture T_COMMA st2) as Hm.
    destruct (match_ T_COMMA st2) as [comma st3]. cbn [snd] in Hm.
    assert (Hmax : currentCapture_ (snd (if comma then parseNumber st3 else (min, st3)))
                   = currentCapture_ st3)
      by (destruct comma; [apply ParserFacts.parseNumber_capture | reflexivity]).
    destruct (if comma then parseNumber st3 else (min, st3)) as [max st4]. cbn [snd] in Hmax.
    pose proof (ParserFacts.match_capture T_RBRACE st4) as Hr.
    destruct (match_ T_RBRACE st4) as [closed st5]. cbn [snd] in Hr.
    destruct closed; cbn [negb] in H2; [|discriminate].
    inversion H2; subst. split; [cbn [count_groups]; congruence | exact W].
  - intros st node st' H. cbn [parseAtom] in H.
    pose proof (ParserFacts.consume_capture st) as Hc.
    destruct (consume st) as [t st1]. cbn [snd] in Hc.
    destruct (type t); try discriminate;
      try (inversion H; subst; rewrite ?Hc; split; [cbn; lia | exact I]).
    + (* LPAREN *)
      pose proof (ParserFacts.consume_capture st1) as Hc1.
      destruct (peek_is T_LITERAL "?" st1).
      { destruct (peek_is T_LITERAL ":" (snd (consume st1))); [|discriminate].
        pose proof (ParserFacts.consume_capture (snd (consume st1))) as Hc2.
        destruct (Hgroup _ _ _ _ _ H) as (C & W).
        rewrite Hc2, Hc1, Hc in C, W. auto. }
      destruct (peek_is T_LITERAL "=" st1).
      { destruct (Hgroup _ _ _ _ _ H) as (C & W). rewrite Hc1, Hc in C, W. auto. }
      destruct (peek_is T_LITERAL "!" st1).
      { destruct (Hgroup _ _ _ _ _ H) as (C & W). rewrite Hc1, Hc in C, W. auto. }
      apply bind_Ok in H. destruct H as ([n st2] & Ha & H).
      apply bind_Ok in H. destruct H as ([n3 st3] & Hg & H).
      destruct (IHa _ _ _ Ha) as (C & W).
      pose proof (closeGroup_node _ _ _ _ _ Hg) as E. cbn [fst] in E. subst n3.
      pose proof (ParserFacts.closeGroup_capture _ _ _ _ _ Hg) as Hcap.
      cbn [snd currentCapture_] in *. inversion H; subst.
      rewrite Hc in *. cbn [count_groups numbered_from].
      split; [lia|]. split; [exact W | lia].
    + (* LBRACKET *)
      apply bind_Ok in H. destruct H as ([cn st2] & Hp & H).
      pose proof (ParserFacts.parseCharacterClass_capture _ _ _ Hp) as Hcap.
      destruct (parseCharacterClass_node _ _ _ Hp) as (low & high & Hnode).
      pose proof (ParserFacts.match_capture T_RBRACKET st2) as Hm.
      destruct (match_ T_RBRACKET st2) as [closed st3]. cbn [snd] in Hm.
      destruct closed; cbn [negb] in H; [|discriminate].
      inversion H; subst.
      destruct Hnode as [-> | ->]; (split; [cbn; lia | exact I]).
    + (* ESCAPE *)
      inversion H; subst. rewrite Hc.
      destruct (parseEscape_count t) as [E W]. rewrite E. split; [lia | apply W].
    + (* BACKREF *)
      pose proof (ParserFacts.parseNumber_capture st1) as Hn.
      destruct (parseNumber st1) as [g st2]. cbn [snd] in Hn.
      inversion H; subst. split; [cbn; lia | exact I].
Qed.

Lemma parse_counts (tokens_ : list Token) (ast : ASTNode) (n : Z) :
  parse tokens_ = Ok (ast, n) -> n = count_groups ast /\ numbered_from 0 ast.
Proof.
  unfold parse. intros H. apply bind_Ok in H. destruct H as ([node st] & Ha & H).
  destruct (proj1 (descent_counts _) _ _ _ Ha) as (C & W).
  cbn [currentCapture_] in *.
  destruct (rest st); [|discriminate]. inversion H; subst. split; [lia | exact W].
Qed.
End GroupFacts.

(** X15.  The parser counts one capture per pair of parentheses, and gives
    a group the value of the counter at its closing parenthesis: the number
    of groups opened so far, not the number of the group's own opening
    parenthesis.  A group that directly encloses another one therefore gets
    the index of the inner group, and the index its own parenthesis would
    have is never written: for the pattern ((a)) on the text a, group 1 is
    unset and group 2 is a. *)
Theorem groups_are_numbered_at_their_close :
  (forall (tokens_ : list Token) (ast : ASTNode) (n : Z),
      Parser.parse tokens_ = Ok (ast, n) ->
      n = count_groups ast /\ numbered_from 0 ast)
  /\ (forall (base : Z) (child : ASTNode) (inner outer : Z),
         numbered_from base (Group (Group child inner) outer) -> outer = inner)
  /\ (exists re,
         compile (str "((a))") = Ok re
         /\ numCaptures_ re = 2
         /\ RegexM.match_ 10 re (str "a") 0
            = Ok (Some (mkMatchResult true 0 (str "a")
                          [mkMatch npos npos []; mkMatch 0 1 (str "a")]))).
Proof.
  split; [|split].
  - apply GroupFacts.parse_counts.
  - intros base child inner outer H. cbn [numbered_from count_groups] in H. lia.
  - eexists. split; [reflexivity|]. split; reflexivity.
Qed.

(** ** Patterns that begin with a token no atom starts with *)

Module StartFacts.

Lemma tokenize_cons_single (c : ascii) (ty : TokenType) (rest : cstring)
  (toks : list Token) :
  (forall r pos, Lexer.nextToken (c :: r) pos = Ok (mkToken ty c pos, (r, pos + 1))) ->
  Lexer.tokenize (c :: rest) = Ok toks ->
  exists toks', toks = mkToken ty c 0 :: toks'.
Proof.
  intros Hs H. unfold Lexer.tokenize in H. cbn [List.length Lexer.tokenizeLoop] in H.
  rewrite Hs in H. cbn [bind] in H.
  apply bind_Ok in H. destruct H as (ts & _ & H). inversion H. eauto.
Qed.

Lemma parse_unexpected (t : Token) (toks : list Token) :
  match type t with
  | T_STAR | T_PLUS | T_QUESTION | T_RPAREN | T_RBRACKET | T_RBRACE | T_LBRACE
  | T_PIPE | T_UNKNOWN => True
  | _ => False
  end ->
  Parser.parse (t :: toks) = Throw (RegexError "Unexpected token" (tok_position t)).
Proof.
  intros Ht. unfold Parser.parse, Parser.parseFuel. cbn [List.length].
  replace (4 * S (List.length toks) + 4)%nat
    with (S (S (S (S (4 * List.length toks + 4)))))%nat by lia.
  cbn [Parser.parseAlternation Parser.parseConcatenation Parser.parseQuantifier
       Parser.parseAtom Parser.consume Parser.rest].
  destruct (type t); try contradiction; reflexivity.
Qed.
End StartFacts.

(** X16.  No atom starts with a quantifier, a closing bracket, an opening
    brace or a bar: a pattern that begins with one of the bytes [*+?)]}{|]
    and lexes is rejected with "Unexpected token" at offset 0.  The empty
    pattern is rejected in the same way. *)
Theorem pattern_cannot_start_with_a_quantifier :
  (forall (c : ascii) (rest : cstring) (toks : list Token),
      In c (str "*+?)]}{|") ->
      Lexer.tokenize (c :: rest) = Ok toks ->
      compile (c :: rest) = Throw (RegexError "Unexpected token" 0))
  /\ compile [] = Throw (RegexError "Unexpected token" 0).
Proof.
  split; [|reflexivity].
  intros c rest toks Hc H. unfold compile. rewrite H. cbn [bind].
  assert (Hty : exists ty toks',
             toks = mkToken ty c 0 :: toks'
             /\ match ty with
                | T_STAR | T_PLUS | T_QUESTION | T_RPAREN | T_RBRACKET | T_RBRACE
                | T_LBRACE | T_PIPE | T_UNKNOWN => True
                | _ => False
                end).
  { assert (Hone : forall ty,
               (forall r pos,
                   Lexer.nextToken (c :: r) pos = Ok (mkToken ty c pos, (r, pos + 1))) ->
               match ty with
               | T_STAR | T_PLUS | T_QUESTION | T_RPAREN | T_RBRACKET | T_RBRACE
               | T_LBRACE | T_PIPE | T_UNKNOWN => True
               | _ => False
               end ->
               exists ty toks',
                 toks = mkToken ty c 0 :: toks'
                 /\ match ty with
                    | T_STAR | T_PLUS | T_QUESTION | T_RPAREN | T_RBRACKET | T_RBRACE
                    | T_LBRACE | T_PIPE | T_UNKNOWN => True
                    | _ => False
                    end).
    { intros ty Hs Hty.
      destruct (StartFacts.tokenize_cons_single c ty rest toks Hs H) as [toks' ->].
      eauto. }
    cbn in Hc.
    destruct Hc as [<- | [<- | [<- | [<- | [<- | [<- | [<- | [<- | []]]]]]]]].
    - apply (Hone T_STAR); [reflexivity | exact I].
    - apply (Hone T_PLUS); [reflexivity | exact I].
    - apply (Hone T_QUESTION); [reflexivity | exact I].
    - apply (Hone T_RPAREN); [reflexivity | exact I].
    - apply (Hone T_RBRACKET); [reflexivity | exact I].
    - apply (Hone T_RBRACE); [reflexivity | exact I].
    - apply (Hone T_LBRACE); [reflexivity | exact I].
    - apply (Hone T_PIPE); [reflexivity | exact I]. }
  destruct Hty as (ty & toks' & -> & Hty).
  rewrite (StartFacts.parse_unexpected (mkToken ty c 0) toks' Hty). reflexivity.
Qed.

(** ** Open-ended repetition *)

Module RepeatFacts.
Import Parser.

Lemma parseNumberLoop_digits (ds : list Token) :
  forall (stop : Token) (rest : list Token) (acc : Z),
    Forall digit_token ds ->
    type stop <> T_LITERAL ->
    parseNumberLoop (ds ++ stop :: rest) acc
    = (fold_left (fun result t => u32 (result * 10 + (schar (value t) - 48))) ds acc,
       stop :: rest).
Proof.
  induction ds as [|d ds IH]; intros stop rest acc Hds Hstop; cbn [app parseNumberLoop].
  - replace (TokenType_eqb (type stop) T_LITERAL) with false
      by (destruct (type stop); try reflexivity; congruence).
    reflexivity.
  - inversion Hds as [|? ? [Ht Hd] Hrest]; subst.
    rewrite Ht, Hd. cbn [TokenType_eqb andb fold_left]. apply IH; assumption.
Qed.

Lemma parseNumber_digits (ds : list Token) (stop : Token) (rest : list Token) (cap : Z) :
  Forall digit_token ds ->
  type stop <> T_LITERAL ->
  parseNumber (mkState (ds ++ stop :: rest) cap)
  = (number ds, mkState (stop :: rest) cap).
Proof.
  intros Hds Hstop. unfold parseNumber. cbn [Parser.rest currentCapture_].
  rewrite parseNumberLoop_digits by assumption. reflexivity.
Qed.
End RepeatFacts.

(** X17.  A repetition with an open upper bound, [{n,}], is parsed with
    [max = 0] and compiled as exactly [n] copies of its atom: the same
    program as [{n}] (for [n] below [UINT32_MAX]), with no way to match
    more than [n] times. *)
Theorem open_ended_repeat_is_exactly_n :
  forall (fuel : nat) (st st1 : Parser.state) (atom : ASTNode)
         (lbrace comma rbrace : Token) (ds rest : list Token),
    Parser.parseAtom fuel st = Ok (atom, st1) ->
    type lbrace = T_LBRACE -> type comma = T_COMMA -> type rbrace = T_RBRACE ->
    Forall digit_token ds ->
    let after := Parser.mkState rest (Parser.currentCapture_ st1) in
    (Parser.rest st1 = lbrace :: ds ++ comma :: rbrace :: rest ->
     Parser.parseQuantifier (S fuel) st = Ok (Repeat atom (number ds) 0 true, after))
    /\ (Parser.rest st1 = lbrace :: ds ++ rbrace :: rest ->
        Parser.parseQuantifier (S fuel) st
        = Ok (Repeat atom (number ds) (number ds) true, after))
    /\ (forall instrs,
           Compiler.compileNode (Repeat atom (number ds) 0 true) instrs
           = Nat.iter (Z.to_nat (number ds)) (Compiler.compileNode atom) instrs)
    /\ (number ds <> UINT32_MAX ->
        forall instrs,
          Compiler.compileNode (Repeat atom (number ds) (number ds) true) instrs
          = Compiler.compileNode (Repeat atom (number ds) 0 true) instrs).
Proof.
  intros fuel st st1 atom lbrace comma rbrace ds rest Ha Hl Hc Hr Hds after.
  destruct st1 as [toks cap]. cbn [Parser.rest Parser.currentCapture_] in *.
  split; [|split; [|split]].
  - intros ->. cbn [Parser.parseQuantifier]. rewrite Ha. cbn [bind]. cbv zeta.
    cbn [Parser.peek Parser.rest]. rewrite Hl.
    cbn [Parser.consume Parser.rest snd Parser.currentCapture_].
    rewrite RepeatFacts.parseNumber_digits by (auto; congruence).
    unfold Parser.match_ at 1. cbn [Parser.peek Parser.rest]. rewrite Hc.
    cbn [TokenType_eqb tl Parser.rest Parser.currentCapture_].
    change (Parser.parseNumber (Parser.mkState (rbrace :: rest) cap))
      with (Parser.parseNumber (Parser.mkState ([] ++ rbrace :: rest) cap)).
    rewrite RepeatFacts.parseNumber_digits by (auto; congruence).
    unfold Parser.match_. cbn [Parser.peek Parser.rest]. rewrite Hr.
    reflexivity.
  - intros ->. cbn [Parser.parseQuantifier]. rewrite Ha. cbn [bind]. cbv zeta.
    cbn [Parser.peek Parser.rest]. rewrite Hl.
    cbn [Parser.consume Parser.rest snd Parser.currentCapture_].
    rewrite RepeatFacts.parseNumber_digits by (auto; congruence).
    unfold Parser.match_ at 1. cbn [Parser.peek Parser.rest]. rewrite Hr.
    cbn [TokenType_eqb].
    unfold Parser.match_. cbn [Parser.peek Parser.rest]. rewrite Hr.
    reflexivity.
  - intros instrs. reflexivity.
  - intros Hmax instrs. cbn [Compiler.compileNode].
    destruct (Z.eqb_spec (number ds) UINT32_MAX) as [E|_]; [contradiction|].
    change (0 =? UINT32_MAX) with false. change (0 =? 1) with false. cbn [andb].
    destruct (Z.eqb_spec (number ds) 1) as [E1|E1].
    + rewrite E1. reflexivity.
    + destruct (Z.eqb_spec (number ds) 0); reflexivity.
Qed.

Lemma open_ended_repeat_is_exactly_n_witness :
  Parser.parseQuantifier 2
    (Parser.mkState [mkToken T_LITERAL "a" 0; mkToken T_LBRACE "{" 1;
                     mkToken T_LITERAL "2" 2; mkToken T_COMMA "," 3;
                     mkToken T_RBRACE "}" 4] 0)
  = Ok (Repeat (Literal "a") 2 0 true, Parser.mkState [] 0).
Proof.
  apply (open_ended_repeat_is_exactly_n 1
           (Parser.mkState [mkToken T_LITERAL "a" 0; mkToken T_LBRACE "{" 1;
                            mkToken T_LITERAL "2" 2; mkToken T_COMMA "," 3;
                            mkToken T_RBRACE "}" 4] 0)
           (Parser.mkState [mkToken T_LBRACE "{" 1;
                            mkToken T_LITERAL "2" 2; mkToken T_COMMA "," 3;
                            mkToken T_RBRACE "}" 4] 0)
           (Literal "a") (mkToken T_LBRACE "{" 1) (mkToken T_COMMA "," 3)
           (mkToken T_RBRACE "}" 4) [mkToken T_LITERAL "2" 2] []
           eq_refl eq_refl eq_refl eq_refl).
  - repeat constructor.
  - reflexivity.
Defined.

(** ** Anchored programs *)

(** X18.  A program whose first instruction is [ANCHOR_START] matches at
    offset 0 only: an attempt at any other offset fails at once, and what
    [search] finds it has found with the attempt at offset 0, so a search
    from a later start offset finds nothing. *)
Theorem anchored_program_matches_at_offset_0_only :
  forall (pattern : cstring) (re : Regex) (text : cstring),
    compile pattern = Ok re ->
    nth_error (instructions_ re) 0 = Some Inst.AnchorStart ->
    (forall (fuel : nat) (start : Z),
        start <> 0 -> RegexM.match_ (S fuel) re text start = Ok None)
    /\ (forall (fuel : nat) (start : Z) (r : MatchResult),
           RegexM.search fuel re text start = Ok (Some r) ->
           start <= 0 /\ RegexM.executeAt fuel re text 0 = Ok (Some r)).
Proof.
  intros pattern re text H Hfirst.
  pose proof (compile_compiled _ _ H) as Hc.
  assert (Hfail : forall fuel start,
             start <> 0 -> RegexM.executeAt (S fuel) re text start = Ok None).
  { intros fuel start Hs. unfold RegexM.executeAt, VM.executeAt.
    rewrite VMFacts.run_fail; [reflexivity|].
    unfold fails. cbn [VM.initial VM.pc VM.fetch Z.ltb Z.compare Z.to_nat].
    rewrite Hfirst. unfold VM.step. cbv zeta.
    cbn [opcode Inst.AnchorStart set_operand set_opcode Instruction_default
         VM.textPos VM.initial].
    destruct (Z.eqb_spec start 0); [contradiction | reflexivity]. }
  split.
  - intros fuel start Hs. unfold RegexM.match_. rewrite Hc. cbn [negb]. now apply Hfail.
  - intros fuel start r Hs. unfold RegexM.search in Hs. rewrite Hc in Hs. cbn [negb] in Hs.
    apply (proj1 (SearchFacts.search_spec fuel _ _ text start) r) in Hs.
    destruct Hs as (p & Hp & He & _).
    destruct (Z.eq_dec p 0) as [->|Hne].
    + split; [lia | exact He].
    + destruct fuel as [|fuel]; [discriminate He|].
      fold (RegexM.executeAt (S fuel) re text p) in He.
      rewrite (Hfail fuel p Hne) in He. discriminate He.
Qed.

Lemma anchored_program_matches_at_offset_0_only_witness :
  exists re,
    compile (str "^ab") = Ok re
    /\ forall fuel start, start <> 0 -> RegexM.match_ (S fuel) re (str "xab") start = Ok None.
Proof.
  eexists. split; [reflexivity|].
  apply (anchored_program_matches_at_offset_0_only (str "^ab") _ (str "xab") eq_refl eq_refl).
Defined.

(** ** Patterns made of plain bytes *)

Module LiteralFacts.
Import Parser.

Lemma nextToken_literal (c : ascii) (r : cstring) (pos : Z) :
  literal_byte c = true ->
  Lexer.nextToken (c :: r) pos = Ok (mkToken T_LITERAL c pos, (r, pos + 1)).
Proof.
  destruct c as [[] [] [] [] [] [] [] []]; intros H; try discriminate H; reflexivity.
Qed.

(** the tokens of a run of plain bytes that starts at offset [pos] *)
Fixpoint lit_tokens (p : cstring) (pos : Z) : list Token :=
  match p with
  | [] => []
  | c :: p' => mkToken T_LITERAL c pos :: lit_tokens p' (pos + 1)
  end.

Lemma length_lit_tokens (p : cstring) :
  forall pos, List.length (lit_tokens p pos) = List.length p.
Proof. induction p as [|c p IH]; intros pos; cbn; [reflexivity | now rewrite IH]. Qed.

Lemma tokenizeLoop_literal (p : cstring) :
  forall fuel pos,
    forallb literal_byte p = true ->
    (List.length p <= fuel)%nat ->
    Lexer.tokenizeLoop fuel p pos = Ok (lit_tokens p pos).
Proof.
  induction p as [|c p IH]; intros fuel pos Hp Hf.
  - destruct fuel; reflexivity.
  - cbn [forallb] in Hp. apply andb_prop in Hp. destruct Hp as [Hc Hp].
    destruct fuel as [|fuel]; [cbn in Hf; lia|].
    cbn [Lexer.tokenizeLoop]. rewrite nextToken_literal by assumption. cbn [bind].
    rewrite IH by (cbn in Hf; auto; lia). reflexivity.
Qed.

(** the left-leaning chain of [Concat] nodes the parser builds *)
Definition chain (lhs : ASTNode) (p : cstring) : ASTNode :=
  fold_left (fun acc c => Concat acc (Literal c)) p lhs.

Lemma peek_lit_tokens (p : cstring) (pos cap : Z) :
  type (peek (mkState (lit_tokens p pos) cap)) = T_LITERAL
  \/ type (peek (mkState (lit_tokens p pos) cap)) = T_UNKNOWN.
Proof. destruct p; cbn; auto. Qed.

Lemma parseQuantifier_literal (fuel : nat) (c : ascii) (p : cstring) (pos cap : Z) :
  parseQuantifier (S (S fuel)) (mkState (lit_tokens (c :: p) pos) cap)
  = Ok (Literal c, mkState (lit_tokens p (pos + 1)) cap).
Proof.
  cbn [parseQuantifier parseAtom lit_tokens consume rest type value bind currentCapture_].
  cbv zeta. destruct (peek_lit_tokens p (pos + 1) cap) as [-> | ->]; reflexivity.
Qed.

Lemma parseConcatenationLoop_S (fuel : nat) (lhs : ASTNode) (st : state) :
  parseConcatenationLoop (S fuel) lhs st
  = if isQuantifierStart st then
      '(rhs, st) <- parseQuantifier fuel st ;;
      parseConcatenationLoop fuel (Concat lhs rhs) st
    else Ok (lhs, st).
Proof. reflexivity. Qed.

Lemma parseConcatenationLoop_literal (p : cstring) :
  forall fuel lhs pos cap,
    (List.length p + 2 <= fuel)%nat ->
    parseConcatenationLoop fuel lhs (mkState (lit_tokens p pos) cap)
    = Ok (chain lhs p, mkState [] cap).
Proof.
  induction p as [|c p IH]; intros fuel lhs pos cap Hf.
  - destruct fuel as [|fuel]; [lia|]. reflexivity.
  - destruct fuel as [|[|[|fuel]]]; cbn [List.length] in Hf; try lia.
    rewrite parseConcatenationLoop_S.
    change (isQuantifierStart (mkState (lit_tokens (c :: p) pos) cap)) with true.
    cbv iota. rewrite parseQuantifier_literal. cbn [bind].
    rewrite IH by lia. reflexivity.
Qed.

Lemma parse_literal (c : ascii) (p : cstring) :
  parse (lit_tokens (c :: p) 0) = Ok (chain (Literal c) p, 0).
Proof.
  unfold parse, parseFuel. rewrite length_lit_tokens. cbn [List.length].
  replace (4 * S (List.length p) + 4)%nat
    with (S (S (S (S (4 * List.length p + 4)))))%nat by lia.
  change (parseAlternation (S (S (S (S (4 * List.length p + 4)))))
            (mkState (lit_tokens (c :: p) 0) 0))
    with ('(lhs, st) <- ('(lhs, st) <- parseQuantifier (S (S (4 * List.length p + 4)))
                                         (mkState (lit_tokens (c :: p) 0) 0) ;;
                         parseConcatenationLoop (S (S (4 * List.length p + 4))) lhs st) ;;
          parseAlternationLoop (S (S (S (4 * List.length p + 4)))) lhs st).
  rewrite parseQuantifier_literal. cbn [bind].
  rewrite parseConcatenationLoop_literal by lia. cbn [bind].
  reflexivity.
Qed.

Lemma compileNode_chain (p : cstring) :
  forall lhs instrs,
    Compiler.compileNode (chain lhs p) instrs
    = Compiler.compileNode lhs instrs ++ map Inst.Char p.
Proof.
  unfold chain. induction p as [|c p IH]; intros lhs instrs; cbn [fold_left map].
  - now rewrite app_nil_r.
  - rewrite IH. cbn [Compiler.compileNode]. unfold Compiler.emit.
    now rewrite <- app_assoc.
Qed.

Lemma compile_literal (c : ascii) (p : cstring) :
  forallb literal_byte (c :: p) = true ->
  compile (c :: p)
  = Ok (mkRegex (c :: p) (map Inst.Char (c :: p) ++ [Inst.Match]) true 0).
Proof.
  intros Hp. unfold compile, Lexer.tokenize.
  rewrite tokenizeLoop_literal by auto. cbn [bind].
  rewrite parse_literal. cbn [bind]. unfold Compiler.compile, Compiler.emit.
  rewrite compileNode_chain. reflexivity.
Qed.

(** The VM on a row of [CHAR] instructions: it walks the text and the
    program in step. *)
Section Walk.
Variables (pattern text : cstring) (start : Z).
Hypothesis start_nonneg : 0 <= start.

Let program := map Inst.Char pattern ++ [Inst.Match].

Lemma fetch_char (done_ : cstring) (c : ascii) (q : cstring) :
  pattern = done_ ++ c :: q ->
  VM.fetch program (Z.of_nat (List.length done_)) = Some (Inst.Char c).
Proof.
  intros ->. unfold VM.fetch, program.
  destruct (Z.ltb_spec (Z.of_nat (List.length done_)) 0); [lia|].
  rewrite Nat2Z.id, map_app, <- app_assoc. cbn [map app].
  rewrite nth_error_app2 by (rewrite length_map; lia).
  rewrite length_map, Nat.sub_diag. reflexivity.
Qed.

Lemma fetch_match :
  VM.fetch program (Z.of_nat (List.length pattern)) = Some Inst.Match.
Proof.
  unfold VM.fetch, program.
  destruct (Z.ltb_spec (Z.of_nat (List.length pattern)) 0); [lia|].
  rewrite Nat2Z.id, nth_error_app2 by (rewrite length_map; lia).
  rewrite length_map, Nat.sub_diag. reflexivity.
Qed.

Lemma skipn_cons_nth (n : nat) (l : cstring) (d : ascii) (l' : cstring) :
  skipn n l = d :: l' ->
  (n < List.length l)%nat /\ nth n l zero = d /\ skipn (S n) l = l'.
Proof.
  revert l. induction n as [|n IH]; intros l H.
  - destruct l; [discriminate|]. inversion H; subst. cbn. repeat split; lia.
  - destruct l as [|a l]; [discriminate|]. cbn [skipn] in H.
    destruct (IH _ H) as (H1 & H2 & H3). cbn [List.length nth]. repeat split; auto; lia.
Qed.

Lemma skipn_nil_length (n : nat) (l : cstring) :
  skipn n l = [] -> (List.length l <= n)%nat.
Proof.
  revert l. induction n as [|n IH]; intros l H.
  - cbn in H. subst. cbn. lia.
  - destruct l as [|a l]; [cbn; lia|]. cbn [skipn] in H. apply IH in H. cbn. lia.
Qed.

Lemma run_walk (q : cstring) :
  forall (done_ : cstring) (fuel : nat) (caps : list Z),
    pattern = done_ ++ q ->
    (List.length q < fuel)%nat ->
    VM.run fuel program 1 text
      (VM.mkState (Z.of_nat (List.length done_)) (start + Z.of_nat (List.length done_))
         caps [])
    = if starts_with q (skipn (Z.to_nat (start + Z.of_nat (List.length done_))) text)
      then result <- VM.buildResult 1 text
                       (VM.setcap caps 1 (start + Z.of_nat (List.length pattern))) ;;
           Ok (Some result)
      else Ok None.
Proof.
  induction q as [|c q IH]; intros done_ fuel caps Hp Hf.
  - rewrite app_nil_r in Hp. subst done_. cbn [starts_with].
    destruct fuel as [|fuel]; [lia|].
    apply VMFacts.run_accept with (inst := Inst.Match); [apply fetch_match | reflexivity].
  - destruct fuel as [|fuel]; [lia|]. cbn [List.length] in Hf.
    set (n := List.length done_) in *.
    set (st := VM.mkState (Z.of_nat n) (start + Z.of_nat n) caps []).
    pose proof (fetch_char done_ c q Hp) as Hfetch. fold n in Hfetch.
    destruct (skipn (Z.to_nat (start + Z.of_nat n)) text) as [|d l'] eqn:Es;
      cbn [starts_with].
    + apply skipn_nil_length in Es.
      rewrite VMFacts.run_fail; [reflexivity|].
      unfold fails. cbn [VM.pc st]. rewrite Hfetch.
      unfold VM.step. cbv zeta.
      cbn [opcode Inst.Char set_operand set_ch set_opcode Instruction_default VM.textPos st].
      destruct (Z.ltb_spec (start + Z.of_nat n) (size text)); [unfold size in *; lia|].
      reflexivity.
    + destruct (skipn_cons_nth _ _ _ _ Es) as (Hlt & Hnth & Hskip).
      destruct (Ascii.eqb_spec d c) as [->|Hne]; cbn [andb].
      * rewrite VMFacts.run_next
          with (inst := Inst.Char c)
               (st' := VM.mkState (Z.of_nat n + 1) (start + Z.of_nat n + 1) caps []);
          [|exact Hfetch|].
        -- specialize (IH (done_ ++ [c]) fuel caps).
           rewrite length_app in IH. cbn [List.length] in IH. fold n in IH.
           replace (Z.of_nat (n + 1)) with (Z.of_nat n + 1) in IH by lia.
           replace (start + (Z.of_nat n + 1)) with (start + Z.of_nat n + 1) in IH by lia.
           rewrite IH; [| rewrite <- app_assoc; exact Hp | lia].
           replace (Z.to_nat (start + Z.of_nat n + 1))
             with (S (Z.to_nat (start + Z.of_nat n))) by lia.
           rewrite Hskip. reflexivity.
        -- unfold VM.step, VM.advance. cbv zeta.
           cbn [opcode ch Inst.Char set_operand set_ch set_opcode Instruction_default
                VM.textPos VM.pc VM.captures_ VM.backtrackStack_ st].
           destruct (Z.ltb_spec (start + Z.of_nat n) (size text));
             [|unfold size in *; lia].
           unfold VM.at_. rewrite Hnth, Ascii.eqb_refl. reflexivity.
      * rewrite VMFacts.run_fail; [reflexivity|].
        unfold fails. cbn [VM.pc st]. rewrite Hfetch.
        unfold VM.step. cbv zeta.
        cbn [opcode ch Inst.Char set_operand set_ch set_opcode Instruction_default
             VM.textPos st].
        unfold VM.at_. rewrite Hnth.
        apply Ascii.eqb_neq in Hne. rewrite Hne. now rewrite andb_false_r.
Qed.

Lemma starts_with_firstn (p l : cstring) :
  starts_with p l = true -> firstn (List.length p) l = p.
Proof.
  revert l. induction p as [|c p IH]; intros l H; [reflexivity|].
  destruct l as [|d l]; [discriminate|]. cbn [starts_with] in H.
  apply andb_prop in H. destruct H as [Hd Hp]. apply Ascii.eqb_eq in Hd. subst d.
  cbn [List.length firstn]. now rewrite IH.
Qed.

Lemma starts_with_length (p l : cstring) :
  starts_with p l = true -> (List.length p <= List.length l)%nat.
Proof.
  revert l. induction p as [|c p IH]; intros l H; [cbn; lia|].
  destruct l as [|d l]; [discriminate|]. cbn [starts_with] in H.
  apply andb_prop in H. destruct H as [_ Hp]. apply IH in Hp. cbn. lia.
Qed.

Lemma executeAt_literal (fuel : nat) :
  pattern <> [] ->
  size text <= npos ->
  (List.length pattern < fuel)%nat ->
  VM.executeAt fuel program 1 text start
  = if starts_with pattern (skipn (Z.to_nat start) text)
    then Ok (Some (mkMatchResult true start pattern []))
    else Ok None.
Proof.
  intros Hne Hsz Hf. unfold VM.executeAt, VM.initial.
  pose proof (run_walk pattern [] fuel (VM.setcap (List.repeat npos (1 * 2)) 0 start)
                eq_refl Hf) as H.
  cbn [List.length Z.of_nat] in H. rewrite Z.add_0_r in H. rewrite H. clear H.
  destruct (starts_with pattern (skipn (Z.to_nat start) text)) eqn:E; [|reflexivity].
  pose proof (starts_with_firstn _ _ E) as Hfirst.
  pose proof (starts_with_length _ _ E) as Hlen. rewrite length_skipn in Hlen.
  assert (Hpos : (0 < List.length pattern)%nat)
    by (destruct pattern; [congruence | cbn; lia]).
  cbn [Nat.mul Nat.add List.repeat VM.setcap update].
  unfold VM.buildResult, substr.
  cbn [VM.cap nth VM.markContained VM.groups seq Nat.sub VM.reportGroups bind fold_left
       List.repeat].
  destruct (Z.ltb_spec (size text) start); [unfold size in *; lia|]. cbn [bind].
  replace (start + Z.of_nat (List.length pattern) - start)
    with (Z.of_nat (List.length pattern)) by lia.
  unfold u64. rewrite Z.mod_small by (unfold size, npos in *; lia).
  rewrite Z.min_l by (unfold size in *; lia).
  rewrite Nat2Z.id, Hfirst. reflexivity.
Qed.
End Walk.
End LiteralFacts.

(** X19.  A pattern made of plain bytes (no metacharacter, blank or
    backslash) compiles to one [CHAR] per byte followed by [MATCH], and
    [match(text, result, start)] succeeds exactly when the text has the
    bytes of the pattern at [start]; the result is then the pattern itself,
    at [start], without captures. *)
Theorem literal_pattern_matches_its_own_bytes :
  forall (pattern : cstring),
    pattern <> [] ->
    forallb literal_byte pattern = true ->
    exists re,
      compile pattern = Ok re
      /\ instructions_ re = map Inst.Char pattern ++ [Inst.Match]
      /\ forall (fuel : nat) (text : cstring) (start : Z),
          0 <= start ->
          size text <= npos ->
          (List.length pattern < fuel)%nat ->
          RegexM.match_ fuel re text start
          = if starts_with pattern (skipn (Z.to_nat start) text)
            then Ok (Some (mkMatchResult true start pattern []))
            else Ok None.
Proof.
  intros pattern Hne Hp. destruct pattern as [|c p]; [congruence|].
  eexists. split; [apply (LiteralFacts.compile_literal c p Hp)|].
  split; [reflexivity|].
  intros fuel text start Hs Hsz Hf.
  unfold RegexM.match_, RegexM.executeAt, RegexM.captureCount.
  cbn [compiled_ negb instructions_ numCaptures_ Z.add Z.to_nat Pos.to_nat Pos.iter_op].
  apply LiteralFacts.executeAt_literal; [assumption | discriminate | assumption | assumption].
Qed.

Lemma literal_pattern_matches_its_own_bytes_witness :
  exists re,
    compile (str "ab=1") = Ok re
    /\ instructions_ re = map Inst.Char (str "ab=1") ++ [Inst.Match]
    /\ forall (fuel : nat) (text : cstring) (start : Z),
        0 <= start ->
        size text <= npos ->
        (List.length (str "ab=1") < fuel)%nat ->
        RegexM.match_ fuel re text start
        = if starts_with (str "ab=1") (skipn (Z.to_nat start) text)
          then Ok (Some (mkMatchResult true start (str "ab=1") []))
          else Ok None.
Proof.
  apply (literal_pattern_matches_its_own_bytes (str "ab=1")); [discriminate | reflexivity].
Defined.

(** X20.  [search] with a pattern of plain bytes finds the leftmost
    occurrence of these bytes at or after the start offset, and fails
    exactly when there is none. *)
Theorem search_finds_the_leftmost_occurrence :
  forall (pattern : cstring) (re : Regex) (fuel : nat) (text : cstring) (start : Z),
    pattern <> [] ->
    forallb literal_byte pattern = true ->
    compile pattern = Ok re ->
    size text <= npos ->
    0 <= start ->
    (List.length pattern < fuel)%nat ->
    (forall r,
        RegexM.search fuel re text start = Ok (Some r)
        <-> exists p,
            start <= p <= size text
            /\ starts_with pattern (skipn (Z.to_nat p) text) = true
            /\ (forall q, start <= q < p ->
                          starts_with pattern (skipn (Z.to_nat q) text) = false)
            /\ r = mkMatchResult true p pattern [])
    /\ (RegexM.search fuel re text start = Ok None
        <-> forall q, start <= q <= size text ->
                      starts_with pattern (skipn (Z.to_nat q) text) = false).
Proof.
  intros pattern re fuel text start Hne Hp H Hsz Hs Hf.
  destruct pattern as [|c p0]; [congruence|].
  rewrite (LiteralFacts.compile_literal c p0 Hp) in H. inversion H; subst re; clear H.
  set (pattern := c :: p0) in *.
  change (RegexM.search fuel
            (mkRegex pattern (map Inst.Char pattern ++ [Inst.Match]) true 0) text start)
    with (VM.search fuel (map Inst.Char pattern ++ [Inst.Match]) 1 text start).
  pose proof (SearchFacts.search_spec fuel (map Inst.Char pattern ++ [Inst.Match]) 1
                text start) as [Hsome Hnone].
  assert (Hexec : forall q, 0 <= q ->
             VM.executeAt fuel (map Inst.Char pattern ++ [Inst.Match]) 1 text q
             = if starts_with pattern (skipn (Z.to_nat q) text)
               then Ok (Some (mkMatchResult true q pattern []))
               else Ok None).
  { intros q Hq. apply LiteralFacts.executeAt_literal; auto; discriminate. }
  assert (Hskip : forall q, 0 <= q ->
             SearchFacts.skipped fuel (map Inst.Char pattern ++ [Inst.Match]) 1 text q
             <-> starts_with pattern (skipn (Z.to_nat q) text) = false).
  { intros q Hq. unfold SearchFacts.skipped. rewrite (Hexec q Hq).
    destruct (starts_with pattern (skipn (Z.to_nat q) text)).
    - split; [|discriminate]. intros (o & Ho & Hg). inversion Ho; subst o.
      cbn in Hg. discriminate Hg.
    - split; [reflexivity|]. intros _. exists None. split; reflexivity. }
  split.
  - intros r. split.
    + intros Hr. apply Hsome in Hr. destruct Hr as (p & Hpr & He & Hg & Hq).
      exists p. rewrite (Hexec p ltac:(lia)) in He.
      destruct (starts_with pattern (skipn (Z.to_nat p) text)) eqn:E; [|discriminate He].
      inversion He; subst r. repeat split; try lia.
      intros q Hq'. apply Hskip; [lia | apply Hq; lia].
    + intros (p & Hpr & E & Hq & ->). apply Hsome. exists p.
      rewrite (Hexec p ltac:(lia)), E.
      repeat split; try lia.
      intros q Hq'. apply Hskip; [lia | apply Hq; lia].
  - split.
    + intros Hr q Hq. apply Hskip; [lia|]. apply (proj1 Hnone Hr). lia.
    + intros Hall. apply Hnone. intros q Hq. apply Hskip; [lia | apply Hall; lia].
Qed.

Lemma search_finds_the_leftmost_occurrence_witness :
  exists re,
    compile (str "ab") = Ok re
    /\ RegexM.search 5 re (str "xabab") 0 = Ok (Some (mkMatchResult true 1 (str "ab") [])).
Proof.
  eexists. split; [reflexivity|].
  apply (proj1 (search_finds_the_leftmost_occurrence (str "ab") _ 5 (str "xabab") 0
                  ltac:(discriminate) eq_refl eq_refl ltac:(vm_compute; discriminate)
                  ltac:(lia) ltac:(cbn; lia))).
  exists 1. split; [cbn; lia|]. split; [reflexivity|]. split; [|reflexivity].
  intros q Hq. assert (q = 0) as -> by lia. reflexivity.
Defined.

(** ** A starred byte *)

Module StarFacts.

(** the program of [c*] *)
Definition byte_star (c : ascii) : list Instruction :=
  [Inst.Split 1 3; Inst.Char c; Inst.Jump 0; Inst.Match].

Lemma compile_star (c : ascii) :
  literal_byte c = true ->
  compile [c; "*"] = Ok (mkRegex [c; "*"] (byte_star c) true 0).
Proof.
  intros Hc. unfold compile, Lexer.tokenize. cbn [List.length Lexer.tokenizeLoop].
  rewrite LiteralFacts.nextToken_literal by assumption. reflexivity.
Qed.

Lemma firstn_leading (c : ascii) (l : cstring) :
  firstn (leading c l) l = List.repeat c (leading c l)
  /\ (leading c l <= List.length l)%nat.
Proof.
  induction l as [|d l [IH1 IH2]]; [split; [reflexivity | cbn; lia]|].
  cbn [leading]. destruct (Ascii.eqb_spec d c) as [->|]; [|split; [reflexivity | cbn; lia]].
  cbn [firstn List.repeat List.length]. split; [now rewrite IH1 | lia].
Qed.

Section Walk.
Variables (c : ascii) (text : cstring) (captureCount_ : nat).

Lemma char_step (tp : Z) (caps : list Z) (stack : list VM.BacktrackPoint) (l : cstring) :
  0 <= tp ->
  skipn (Z.to_nat tp) text = l ->
  VM.step text (Inst.Char c) (VM.mkState 1 tp caps stack)
  = match l with
    | d :: _ => if Ascii.eqb d c then VM.Next (VM.mkState 2 (tp + 1) caps stack)
                else VM.Fail
    | [] => VM.Fail
    end.
Proof.
  intros Htp Hl. unfold VM.step, VM.advance. cbv zeta.
  cbn [opcode ch Inst.Char set_operand set_ch set_opcode Instruction_default
       VM.textPos VM.pc VM.captures_ VM.backtrackStack_].
  destruct l as [|d l'].
  - apply LiteralFacts.skipn_nil_length in Hl.
    destruct (Z.ltb_spec tp (size text)); [unfold size in *; lia | reflexivity].
  - destruct (LiteralFacts.skipn_cons_nth _ _ _ _ Hl) as (Hlt & Hnth & _).
    destruct (Z.ltb_spec tp (size text)); [|unfold size in *; lia].
    unfold VM.at_. rewrite Hnth. cbn [andb]. reflexivity.
Qed.

Lemma char_fails (tp : Z) (caps : list Z) (stack : list VM.BacktrackPoint) :
  VM.step text (Inst.Char c) (VM.mkState 1 tp caps stack) = VM.Fail ->
  fails (byte_star c) text (VM.mkState 1 tp caps stack).
Proof.
  intros H. unfold fails.
  change (VM.fetch (byte_star c) (VM.pc (VM.mkState 1 tp caps stack)))
    with (Some (Inst.Char c)).
  exact H.
Qed.

Lemma run_star (l : cstring) :
  forall (tp : Z) (caps : list Z) (stack : list VM.BacktrackPoint) (fuel : nat),
    0 <= tp ->
    skipn (Z.to_nat tp) text = l ->
    (3 * leading c l + 3 <= fuel)%nat ->
    VM.run fuel (byte_star c) captureCount_ text (VM.mkState 0 tp caps stack)
    = (result <- VM.buildResult captureCount_ text
                   (VM.setcap caps 1 (tp + Z.of_nat (leading c l))) ;;
       Ok (Some result)).
Proof.
  induction l as [|d l IH]; intros tp caps stack fuel Htp Hl Hf.
  - cbn [leading] in *. destruct fuel as [|[|[|fuel]]]; try lia.
    rewrite VMFacts.run_next
      with (inst := Inst.Split 1 3)
           (st' := VM.mkState 1 tp caps (VM.mkBacktrackPoint 3 tp caps :: stack));
      [| reflexivity | reflexivity].
    rewrite VMFacts.run_fail
      by (apply char_fails; rewrite (char_step tp caps _ [] Htp Hl); reflexivity).
    cbn [VM.backtrack VM.backtrackStack_ VM.bp_pc VM.bp_textPos VM.savedCaptures].
    rewrite Z.add_0_r.
    apply VMFacts.run_accept with (inst := Inst.Match); reflexivity.
  - cbn [leading] in *. destruct (Ascii.eqb d c) eqn:E.
    + destruct fuel as [|[|[|fuel]]]; try lia.
      rewrite VMFacts.run_next
        with (inst := Inst.Split 1 3)
             (st' := VM.mkState 1 tp caps (VM.mkBacktrackPoint 3 tp caps :: stack));
        [| reflexivity | reflexivity].
      rewrite VMFacts.run_next
        with (inst := Inst.Char c)
             (st' := VM.mkState 2 (tp + 1) caps
                       (VM.mkBacktrackPoint 3 tp caps :: stack));
        [| reflexivity | rewrite (char_step tp caps _ (d :: l) Htp Hl), E; reflexivity].
      rewrite VMFacts.run_next
        with (inst := Inst.Jump 0)
             (st' := VM.mkState 0 (tp + 1) caps
                       (VM.mkBacktrackPoint 3 tp caps :: stack));
        [| reflexivity | reflexivity].
      rewrite IH; [| lia | | lia].
      * do 3 f_equal. lia.
      * destruct (LiteralFacts.skipn_cons_nth _ _ _ _ Hl) as (_ & _ & Hs).
        replace (Z.to_nat (tp + 1)) with (S (Z.to_nat tp)) by lia. exact Hs.
    + destruct fuel as [|[|[|fuel]]]; try lia.
      rewrite VMFacts.run_next
        with (inst := Inst.Split 1 3)
             (st' := VM.mkState 1 tp caps (VM.mkBacktrackPoint 3 tp caps :: stack));
        [| reflexivity | reflexivity].
      rewrite VMFacts.run_fail
        by (apply char_fails; rewrite (char_step tp caps _ (d :: l) Htp Hl), E;
            reflexivity).
      cbn [VM.backtrack VM.backtrackStack_ VM.bp_pc VM.bp_textPos VM.savedCaptures].
      rewrite Z.add_0_r.
      apply VMFacts.run_accept with (inst := Inst.Match); reflexivity.
Qed.
End Walk.
End StarFacts.

(** X21.  A starred plain byte is greedy and always stops: at a start
    offset inside the text, [c*] matches the whole run of bytes [c] that the
    text has there (the empty string when there is none), within three
    steps per byte. *)
Theorem starred_byte_matches_the_whole_run :
  forall (c : ascii) (re : Regex) (fuel : nat) (text : cstring) (start : Z),
    literal_byte c = true ->
    compile [c; "*"] = Ok re ->
    size text <= npos ->
    0 <= start <= size text ->
    let run := leading c (skipn (Z.to_nat start) text) in
    (3 * run + 3 <= fuel)%nat ->
    RegexM.match_ fuel re text start
    = Ok (Some (mkMatchResult true start (List.repeat c run) [])).
Proof.
  intros c re fuel text start Hc H Hsz Hs run Hf.
  rewrite (StarFacts.compile_star c Hc) in H. inversion H; subst re; clear H.
  change (RegexM.match_ fuel (mkRegex [c; "*"] (StarFacts.byte_star c) true 0) text start)
    with (VM.run fuel (StarFacts.byte_star c) 1 text
            (VM.mkState 0 start [start; npos] [])).
  rewrite (StarFacts.run_star c text 1 (skipn (Z.to_nat start) text) start
             [start; npos] [] fuel ltac:(lia) eq_refl Hf).
  fold run.
  destruct (StarFacts.firstn_leading c (skipn (Z.to_nat start) text)) as [Hfirst Hlen].
  fold run in Hfirst, Hlen. rewrite length_skipn in Hlen.
  cbn [VM.setcap update].
  unfold VM.buildResult, substr.
  cbn [VM.cap nth VM.markContained VM.groups seq Nat.sub VM.reportGroups bind fold_left
       List.repeat].
  destruct (Z.ltb_spec (size text) start); [lia|]. cbn [bind].
  replace (start + Z.of_nat run - start) with (Z.of_nat run) by lia.
  unfold u64. rewrite Z.mod_small by (unfold size, npos in *; lia).
  rewrite Z.min_l by (unfold size in *; lia).
  rewrite Nat2Z.id, Hfirst. reflexivity.
Qed.

Lemma starred_byte_matches_the_whole_run_witness :
  exists re,
    compile (str "a*") = Ok re
    /\ RegexM.match_ 9 re (str "baab") 1 = Ok (Some (mkMatchResult true 1 (str "aa") [])).
Proof.
  eexists. split; [reflexivity|].
  apply (starred_byte_matches_the_whole_run "a" _ 9 (str "baab") 1 eq_refl eq_refl).
  - vm_compute. discriminate.
  - split; [lia | vm_compute; discriminate].
  - vm_compute. lia.
Defined.

(** ** Negated class escapes in bracket expressions *)

Module BracketFacts.
Import Parser.

Lemma type_lower (t : Token) : type (lower_escape t) = type t.
Proof.
  unfold lower_escape. destruct (negated_class_escape t) eqn:E; [|reflexivity].
  unfold negated_class_escape in E. apply andb_prop in E. destruct E as [E _].
  apply TokenSuffix.TokenType_eqb_eq in E. now rewrite E.
Qed.

Lemma lower_plain (t : Token) : negated_class_escape t = false -> lower_escape t = t.
Proof. unfold lower_escape. now intros ->. Qed.

Lemma lower_not_escape (t : Token) : type t <> T_ESCAPE -> lower_escape t = t.
Proof.
  intros H. apply lower_plain. unfold negated_class_escape.
  destruct (TokenType_eqb (type t) T_ESCAPE) eqn:E; [|reflexivity].
  apply TokenSuffix.TokenType_eqb_eq in E. contradiction.
Qed.

(** the bits of an escape other than [\x] do not depend on the tokens that
    follow it *)
Lemma classEscape_fixed (esc : ascii) (st : state) :
  esc <> "x" ->
  classEscape esc st = (fst (classEscape esc (mkState [] 0)), st).
Proof.
  intros H. destruct esc as [[] [] [] [] [] [] [] []]; try reflexivity.
  exfalso; apply H; reflexivity.
Qed.

(** [\D], [\W] and [\S] give the bits of [\d], [\w] and [\s] *)
Lemma classEscape_lower (t : Token) (st : state) :
  negated_class_escape t = true ->
  classEscape (value (lower_escape t)) st = (fst (classEscape (value t) (mkState [] 0)), st)
  /\ classEscape (value t) st = (fst (classEscape (value t) (mkState [] 0)), st).
Proof.
  intros H. unfold lower_escape. rewrite H. cbn [value].
  unfold negated_class_escape in H. apply andb_prop in H. destruct H as [_ H].
  destruct (Ascii.eqb_spec (value t) "D") as [->|_]; [split; reflexivity|].
  destruct (Ascii.eqb_spec (value t) "W") as [->|_]; [split; reflexivity|].
  destruct (Ascii.eqb_spec (value t) "S") as [->|_]; [split; reflexivity|].
  discriminate H.
Qed.

Lemma no_escape_range_end_tl (t : Token) (r : list Token) :
  no_escape_range_end (t :: r) = true -> no_escape_range_end r = true.
Proof. cbn [no_escape_range_end]. intros H. apply andb_prop in H. apply H. Qed.

(** The same item is read from a list and from the list with its first
    tokens, [body], rewritten: the two states after it differ in the same
    way. *)
Definition alike (negated : bool) (masks : Z * Z) (cap : Z) (body after : list Token)
  : Prop :=
  exists body' after' masks',
    Forall inner_token body'
    /\ no_escape_range_end body' = true
    /\ classItem negated (mkState (map lower_escape body ++ after) cap) masks
       = (mkState (map lower_escape body' ++ after') cap, masks')
    /\ classItem negated (mkState (body ++ after) cap) masks
       = (mkState (body' ++ after') cap, masks').

Lemma alike_same (negated : bool) (masks : Z * Z) (cap : Z) (body after : list Token) :
  map lower_escape body = body -> alike negated masks cap body after.
Proof.
  intros E. unfold alike. rewrite E.
  pose proof (ParserFacts.classItem_capture negated (mkState (body ++ after) cap) masks) as Hc.
  destruct (classItem negated (mkState (body ++ after) cap) masks) as [[r c] m'].
  cbn [fst currentCapture_] in Hc. subst c.
  exists [], r, m'. repeat split; auto.
Qed.

Lemma hexDigits_lower (n : nat) :
  forall (body after : list Token) (cap v : Z),
    Forall inner_token body ->
    no_escape_range_end body = true ->
    exists body' after' v',
      Forall inner_token body'
      /\ no_escape_range_end body' = true
      /\ hexDigits n (mkState (map lower_escape body ++ after) cap) v
         = (v', mkState (map lower_escape body' ++ after') cap)
      /\ hexDigits n (mkState (body ++ after) cap) v
         = (v', mkState (body' ++ after') cap).
Proof.
  induction n as [|n IH]; intros body after cap v Hin Hre.
  - exists body, after, v. repeat split; auto.
  - destruct body as [|h body].
    + cbn [map app].
      pose proof (ParserFacts.hexDigits_capture (S n) (mkState after cap) v) as Hc.
      destruct (hexDigits (S n) (mkState after cap) v) as [v' [r c]].
      cbn [snd currentCapture_] in Hc. subst c.
      exists [], r, v'. repeat split; auto.
    + cbn [map app hexDigits peek rest]. rewrite type_lower.
      destruct (TokenType_eqb (type h) T_LITERAL) eqn:E.
      * apply TokenSuffix.TokenType_eqb_eq in E.
        rewrite (lower_not_escape h) by (rewrite E; discriminate).
        cbn [consume rest currentCapture_].
        inversion Hin; subst. apply IH; [assumption|].
        eapply no_escape_range_end_tl; eauto.
      * exists (h :: body), after, v. repeat split; auto.
Qed.

Lemma classItem_alike (negated : bool) (masks : Z * Z) (cap : Z) (t : Token)
  (body after : list Token) :
  Forall inner_token (t :: body) ->
  no_escape_range_end (t :: body) = true ->
  alike negated masks cap (t :: body) after.
Proof.
  intros Hin Hre. inversion Hin as [|? ? Ht Hbody]; subst.
  pose proof (no_escape_range_end_tl _ _ Hre) as Hre'.
  destruct masks as [low high].
  destruct (TokenType_eqb (type t) T_ESCAPE) eqn:Et.
  - (* an escape item *)
    destruct (negated_class_escape t) eqn:En.
    + exists body, after.
      destruct (classEscape_lower t (mkState (map lower_escape body ++ after) cap) En)
        as [E1 _].
      destruct (classEscape_lower t (mkState (body ++ after) cap) En) as [_ E2].
      unfold classItem. cbn [map app peek rest consume currentCapture_].
      rewrite type_lower, Et, E1, E2.
      destruct (fst (classEscape (value t) (mkState [] 0))) as [bits bits_high].
      eexists. repeat split; auto; destruct negated; reflexivity.
    + unfold alike. cbn [map app]. rewrite (lower_plain t En).
      unfold classItem. cbn [peek rest consume currentCapture_]. rewrite Et.
      destruct (Ascii.eqb_spec (value t) "x") as [Ex|Ex].
      * rewrite Ex. cbn [classEscape].
        destruct (hexDigits_lower 2 body after cap 0 Hbody Hre')
          as (body' & after' & v' & Hin' & Hre'' & E1 & E2).
        rewrite E1, E2. exists body', after'.
        destruct (addByte v' (0, 0)) as [bits bits_high].
        eexists. repeat split; auto; destruct negated; reflexivity.
      * rewrite (classEscape_fixed (value t) (mkState (map lower_escape body ++ after) cap))
          by assumption.
        rewrite (classEscape_fixed (value t) (mkState (body ++ after) cap)) by assumption.
        destruct (fst (classEscape (value t) (mkState [] 0))) as [bits bits_high].
        exists body, after. eexists. repeat split; auto; destruct negated; reflexivity.
  - (* a byte, or a range *)
    assert (Ht' : type t <> T_ESCAPE).
    { intros E. rewrite E in Et. discriminate Et. }
    destruct body as [|d body].
    { apply alike_same. cbn [map]. now rewrite lower_not_escape. }
    destruct (TokenType_eqb (type d) T_RANGE) eqn:Ed.
    + assert (Hd : type d <> T_ESCAPE).
      { apply TokenSuffix.TokenType_eqb_eq in Ed. rewrite Ed. discriminate. }
      destruct body as [|e body].
      { apply alike_same. cbn [map]. now rewrite !lower_not_escape. }
      assert (Ee : negated_class_escape e = false).
      { cbn [no_escape_range_end] in Hre. rewrite Et, Ed in Hre. cbn [negb andb] in Hre.
        destruct (negated_class_escape e); [discriminate Hre | reflexivity]. }
      exists body, after. unfold classItem.
      cbn [map app peek rest consume currentCapture_].
      rewrite !type_lower, Et, Ed.
      rewrite (lower_not_escape t Ht'), (lower_plain e Ee).
      eexists. split; [|split; [|split; reflexivity]].
      * inversion Hbody as [|? ? _ Hb]; subst. inversion Hb; subst. assumption.
      * apply no_escape_range_end_tl in Hre'. apply no_escape_range_end_tl in Hre'.
        assumption.
    + exists (d :: body), after. unfold classItem.
      cbn [map app peek rest consume currentCapture_].
      rewrite !type_lower, Et, Ed. rewrite (lower_not_escape t Ht').
      eexists. repeat split; auto.
Qed.

Lemma inner_goes_on (t : Token) :
  inner_token t ->
  TokenType_eqb (type t) T_RBRACKET || TokenType_eqb (type t) T_UNKNOWN = false.
Proof.
  intros [H1 H2]. apply orb_false_iff. split.
  - destruct (TokenType_eqb (type t) T_RBRACKET) eqn:E; [|reflexivity].
    apply TokenSuffix.TokenType_eqb_eq in E. contradiction.
  - destruct (TokenType_eqb (type t) T_UNKNOWN) eqn:E; [|reflexivity].
    apply TokenSuffix.TokenType_eqb_eq in E. contradiction.
Qed.

Lemma classLoop_lower (fuel : nat) (negated : bool) :
  forall (body after : list Token) (cap : Z) (masks : Z * Z),
    Forall inner_token body ->
    no_escape_range_end body = true ->
    classLoop fuel negated (mkState (map lower_escape body ++ after) cap) masks
    = classLoop fuel negated (mkState (body ++ after) cap) masks.
Proof.
  induction fuel as [|fuel IH]; intros body after cap masks Hin Hre.
  - destruct body as [|t body]; [reflexivity|].
    inversion Hin; subst.
    cbn [classLoop map app peek rest]. rewrite type_lower, inner_goes_on by assumption.
    reflexivity.
  - destruct body as [|t body]; [reflexivity|].
    destruct (classItem_alike negated masks cap t body after Hin Hre)
      as (body' & after' & masks' & Hin' & Hre' & E1 & E2).
    inversion Hin; subst.
    cbn [classLoop]. rewrite E1, E2.
    cbn [map app peek rest]. rewrite type_lower, inner_goes_on by assumption.
    apply IH; assumption.
Qed.

Lemma length_lower (body after : list Token) :
  List.length (map lower_escape body ++ after) = List.length (body ++ after).
Proof. now rewrite !length_app, length_map. Qed.

Lemma parseCharacterClass_lower (body after : list Token) (cap : Z) :
  Forall inner_token body ->
  no_escape_range_end body = true ->
  parseCharacterClass (mkState (map lower_escape body ++ after) cap)
  = parseCharacterClass (mkState (body ++ after) cap).
Proof.
  intros Hin Hre. unfold parseCharacterClass.
  destruct body as [|t body]; [reflexivity|].
  cbn [map app peek rest]. rewrite type_lower.
  destruct (TokenType_eqb (type t) T_CARET) eqn:E.
  - cbn [consume rest snd currentCapture_].
    inversion Hin; subst. rewrite classLoop_lower; auto.
    + now rewrite length_lower.
    + eapply no_escape_range_end_tl; eauto.
  - change (lower_escape t :: map lower_escape body ++ after)
      with (map lower_escape (t :: body) ++ after).
    change (t :: body ++ after) with ((t :: body) ++ after).
    rewrite classLoop_lower by assumption.
    cbn [rest]. now rewrite length_lower.
Qed.
End BracketFacts.




(** ** Runs that throw nothing *)

Module NoThrow.
Import VM VMFacts.

Section Inside.
Variables (instructions_ : list Instruction) (captureCount_ : nat) (text : cstring).

Hypothesis tame : existsb negated_pred instructions_ = false.

(** an offset into the text, or the mark of an unset capture *)
Definition offset (v : Z) : Prop := v = npos \/ 0 <= v <= size text.

(** The text position lies in the text, slot 0 holds an offset into the
    text, and every slot holds one or is unset. *)
Definition offsets (tp : Z) (caps : list Z) : Prop :=
  0 <= tp <= size text /\ 0 <= cap caps 0 <= size text /\ Forall offset caps.

Definition in_text (st : state) : Prop :=
  offsets (textPos st) (captures_ st)
  /\ Forall (fun bp => offsets (bp_textPos bp) (savedCaptures bp)) (backtrackStack_ st).

Lemma fetch_tame (pc : Z) (inst : Instruction) :
  fetch instructions_ pc = Some inst -> negated_pred inst = false.
Proof.
  unfold fetch. destruct (pc <? 0); [discriminate|]. intros H.
  apply nth_error_In in H.
  destruct (negated_pred inst) eqn:E; [|reflexivity].
  assert (X : existsb negated_pred instructions_ = true)
    by (apply existsb_exists; eauto).
  congruence.
Qed.

Lemma offsets_setcap (tp : Z) (caps : list Z) (i : nat) :
  offsets tp caps -> offsets tp (setcap caps i tp).
Proof.
  intros (H1 & H2 & H3). repeat split; try lia.
  - rewrite cap_setcap. destruct ((i =? 0)%nat && (i <? List.length caps)%nat); lia.
  - rewrite cap_setcap. destruct ((i =? 0)%nat && (i <? List.length caps)%nat); lia.
  - apply RangeFacts.Forall_update; [assumption|]. right. lia.
Qed.

Lemma offsets_advance (tp : Z) (caps : list Z) :
  tp < size text -> offsets tp caps -> offsets (tp + 1) caps.
Proof. intros Hlt (H1 & H2 & H3). repeat split; auto; lia. Qed.

(** Without a negated class predicate an instruction moves the text
    position only over a byte of the text. *)
Lemma step_in_text (inst : Instruction) (st st' : state) :
  negated_pred inst = false ->
  in_text st -> step text inst st = Next st' -> in_text st'.
Proof.
  intros Ht [Hf Hs] H. unfold step, advance in H. cbv zeta in H.
  unfold negated_pred in Ht.
  destruct (opcode inst).
  - (* CHAR *)
    destruct (Z.ltb_spec (textPos st) (size text)); cbn [andb] in H; [|discriminate H].
    destruct (Ascii.eqb _ _); [|discriminate H]. inversion H; subst st'.
    split; cbn [textPos captures_ backtrackStack_]; auto using offsets_advance.
  - (* ANY *)
    destruct (Z.ltb_spec (textPos st) (size text)); [|discriminate H].
    inversion H; subst st'.
    split; cbn [textPos captures_ backtrackStack_]; auto using offsets_advance.
  - (* RANGE *)
    destruct (Z.ltb_spec (textPos st) (size text)); cbn [andb] in H; [|discriminate H].
    destruct (_ && _); [|discriminate H]. inversion H; subst st'.
    split; cbn [textPos captures_ backtrackStack_]; auto using offsets_advance.
  - (* CLASS *)
    destruct (Z.ltb_spec (textPos st) (size text)); cbn [andb] in H; [|discriminate H].
    destruct (CharClass.inClassExt _ _ _); [|discriminate H]. inversion H; subst st'.
    split; cbn [textPos captures_ backtrackStack_]; auto using offsets_advance.
  - (* NOT_CLASS *)
    destruct (Z.ltb_spec (textPos st) (size text)); cbn [andb] in H; [|discriminate H].
    destruct (negb _); [|discriminate H]. inversion H; subst st'.
    split; cbn [textPos captures_ backtrackStack_]; auto using offsets_advance.
  - (* CLASS_PRED *)
    apply negb_false_iff in Ht. rewrite Ht in H. cbn [negb] in H.
    destruct (Z.ltb_spec (textPos st) (size text)); cbn [andb] in H.
    + match type of H with
      | (if ?c then _ else _) = _ => destruct c
      end; [|discriminate H]. inversion H; subst st'.
      split; cbn [textPos captures_ backtrackStack_]; auto using offsets_advance.
    + destruct (Z.land (charset_low inst) 15 =? CLASS_DIGIT);
        [|destruct (Z.land (charset_low inst) 15 =? CLASS_WORD);
          [|destruct (Z.land (charset_low inst) 15 =? CLASS_SPACE)]];
        discriminate H.
  - (* JUMP *)
    inversion H; subst st'. split; assumption.
  - (* SPLIT *)
    inversion H; subst st'. split; cbn [textPos captures_ backtrackStack_]; auto.
  - (* SAVE *)
    inversion H; subst st'.
    split; cbn [textPos captures_ backtrackStack_]; auto using offsets_setcap.
  - discriminate H.
  - destruct (textPos st =? 0); [|discriminate H]. inversion H; subst st'.
    split; assumption.
  - destruct (textPos st =? size text); [|discriminate H]. inversion H; subst st'.
    split; assumption.
  - discriminate H.
Qed.

Lemma backtrack_in_text (st st' : state) :
  in_text st -> backtrack st = Some st' -> in_text st'.
Proof.
  intros [Hf Hs] H. unfold backtrack in H.
  destruct (backtrackStack_ st) as [|bp stack]; [discriminate|].
  inversion H; subst st'. inversion Hs; subst. split; assumption.
Qed.

Lemma cap_offset (caps : list Z) (i : nat) : Forall offset caps -> offset (cap caps i).
Proof.
  intros H. unfold cap. destruct (nth_in_or_default i caps npos) as [Hin | ->].
  - rewrite Forall_forall in H. auto.
  - left. reflexivity.
Qed.

Lemma reportGroup_no_throw (caps : list Z) (i : nat) (e : exception) :
  Forall offset caps -> reportGroup text caps i <> Throw e.
Proof.
  intros H. unfold reportGroup, substr.
  destruct (Z.eqb_spec (cap caps (i * 2)) npos) as [E|E]; cbn [negb andb];
    [discriminate|].
  destruct (negb (cap caps (i * 2 + 1) =? npos) && (cap caps (i * 2) <? cap caps (i * 2 + 1)));
    [|discriminate].
  destruct (cap_offset caps (i * 2) H) as [E'|E']; [contradiction|].
  destruct (Z.ltb_spec (size text) (cap caps (i * 2))); [lia|]. cbn [bind]. discriminate.
Qed.

Lemma reportGroups_no_throw (caps : list Z) (marks : list bool) (gs : list nat)
  (e : exception) :
  Forall offset caps -> reportGroups text caps marks gs <> Throw e.
Proof.
  intros H. induction gs as [|i gs IH]; cbn [reportGroups]; [discriminate|].
  destruct (negb (nth i marks false)); [|exact IH].
  pose proof (reportGroup_no_throw caps i e H) as Hg.
  destruct (reportGroup text caps i) as [m| |]; cbn [bind]; try congruence; try discriminate.
  destruct (reportGroups text caps marks gs) as [ms| |]; cbn [bind]; try congruence;
    discriminate.
Qed.

Lemma buildResult_no_throw (caps : list Z) (e : exception) :
  0 <= cap caps 0 <= size text -> Forall offset caps ->
  buildResult captureCount_ text caps <> Throw e.
Proof.
  intros H0 H. unfold buildResult, substr at 1.
  destruct (Z.ltb_spec (size text) (cap caps 0)); [lia|]. cbn [bind].
  pose proof (reportGroups_no_throw caps (markContained caps captureCount_)
                (groups captureCount_) e H) as Hg.
  destruct (reportGroups _ _ _ _) as [ms| |]; cbn [bind]; try congruence; discriminate.
Qed.

Lemma run_no_throw (fuel : nat) (e : exception) :
  forall st, in_text st -> run fuel instructions_ captureCount_ text st <> Throw e.
Proof.
  induction fuel as [|fuel IH]; intros st Hin; [discriminate|].
  cbn [run].
  assert (Hbt : match backtrack st with
                | Some st' => run fuel instructions_ captureCount_ text st'
                | None => Ok None
                end <> Throw e).
  { destruct (backtrack st) as [st'|] eqn:Hb; [|discriminate].
    apply IH. eapply backtrack_in_text; eauto. }
  destruct (fetch instructions_ (pc st)) as [inst|] eqn:Hf; [|exact Hbt].
  destruct (step text inst st) as [st'| |caps] eqn:Hs; [|exact Hbt|].
  - apply IH. eapply step_in_text; eauto using fetch_tame.
  - destruct (step_accept_is_match _ _ _ _ Hs) as [_ ->].
    destruct Hin as [Hfr _]. apply (offsets_setcap _ _ 1) in Hfr.
    destruct Hfr as (_ & H0 & Hall).
    pose proof (buildResult_no_throw _ e H0 Hall) as Hb.
    destruct (buildResult captureCount_ text _); cbn [bind]; try congruence; discriminate.
Qed.

Lemma initial_in_text (pos : Z) :
  (1 <= captureCount_)%nat -> 0 <= pos <= size text -> in_text (initial captureCount_ pos).
Proof.
  intros Hc Hpos. split; [|constructor]. cbn [initial textPos captures_].
  repeat split; try lia.
  - rewrite cap_setcap, repeat_length.
    replace (0 <? captureCount_ * 2)%nat with true by (symmetry; apply Nat.ltb_lt; lia).
    cbn. lia.
  - rewrite cap_setcap, repeat_length.
    replace (0 <? captureCount_ * 2)%nat with true by (symmetry; apply Nat.ltb_lt; lia).
    cbn. lia.
  - apply RangeFacts.Forall_update; [|right; lia].
    apply Forall_forall. intros v Hv. apply repeat_spec in Hv. left. exact Hv.
Qed.

Lemma executeAt_no_throw (fuel : nat) (pos : Z) (e : exception) :
  (1 <= captureCount_)%nat -> 0 <= pos <= size text ->
  executeAt fuel instructions_ captureCount_ text pos <> Throw e.
Proof. intros Hc Hpos. apply run_no_throw, initial_in_text; assumption. Qed.
End Inside.
End NoThrow.

Module PlainClasses.
Import Parser TokenSuffix.

(** no [\D], [\W] or [\S] among the tokens *)
Definition lower_only (l : list Token) : Prop :=
  Forall (fun t => negated_class_escape t = false) l.

Lemma lower_only_tl (l : list Token) : lower_only l -> lower_only (tl l).
Proof. destruct l; [auto|]. intros H; inversion H; assumption. Qed.

Lemma lower_only_peek (st : state) :
  lower_only (rest st) -> negated_class_escape (peek st) = false.
Proof.
  unfold peek. destruct (rest st); [reflexivity|]. intros H; inversion H; assumption.
Qed.

Lemma lower_only_existsb (l : list Token) :
  existsb negated_class_escape l = false -> lower_only l.
Proof.
  intros H. apply Forall_forall. intros t Hin.
  destruct (negated_class_escape t) eqn:E; [|reflexivity].
  assert (X : existsb negated_class_escape l = true) by (apply existsb_exists; eauto).
  congruence.
Qed.

Lemma parseEscape_plain (t : Token) :
  type t = T_ESCAPE -> negated_class_escape t = false -> plain_classes (parseEscape t).
Proof.
  unfold negated_class_escape, parseEscape. intros -> H. cbn [TokenType_eqb andb] in H.
  destruct (value t) as [[] [] [] [] [] [] [] []]; try discriminate H; cbn; try exact I;
    unfold CLASS_DIGIT, CLASS_WORD, CLASS_SPACE; lia.
Qed.

Definition keeps_plain (f : state -> result (ASTNode * state)) : Prop :=
  forall st node st',
    f st = Ok (node, st') -> lower_only (rest st) ->
    plain_classes node /\ lower_only (rest st').

Definition keeps_plain_loop (f : ASTNode -> state -> result (ASTNode * state)) : Prop :=
  forall lhs st node st',
    f lhs st = Ok (node, st') -> lower_only (rest st) -> plain_classes lhs ->
    plain_classes node /\ lower_only (rest st').

Lemma descent_plain (fuel : nat) :
  keeps_plain (parseAlternation fuel)
  /\ keeps_plain_loop (parseAlternationLoop fuel)
  /\ keeps_plain (parseConcatenation fuel)
  /\ keeps_plain_loop (parseConcatenationLoop fuel)
  /\ keeps_plain (parseQuantifier fuel)
  /\ keeps_plain (parseAtom fuel).
Proof.
  induction fuel as [|fuel (IHa & IHal & IHc & IHcl & IHq & IHt)].
  { repeat split; repeat intro; discriminate. }
  assert (Hgroup : forall msg t st node st',
             (r <- parseAlternation fuel st ;; closeGroup msg t r) = Ok (node, st') ->
             lower_only (rest st) ->
             plain_classes node /\ lower_only (rest st')).
  { intros msg t st node st' H HB. apply bind_Ok in H.
    destruct H as ([n st1] & Ha & Hc).
    destruct (IHa _ _ _ Ha HB) as (W & B).
    pose proof (closeGroup_node _ _ _ _ _ Hc) as ->.
    pose proof (closeGroup_keeps _ lower_only_tl _ _ _ _ _ Hc B) as B'.
    cbn [fst snd] in *. auto. }
  split; [|split; [|split; [|split; [|split]]]].
  - intros st node st' H HB. cbn [parseAlternation] in H.
    apply bind_Ok in H. destruct H as ([lhs st1] & H1 & H2).
    destruct (IHc _ _ _ H1 HB) as (W & B).
    apply (IHal _ _ _ _ H2 B W).
  - intros lhs st node st' H HB HW. cbn [parseAlternationLoop] in H.
    pose proof (match_keeps _ lower_only_tl T_PIPE st HB) as Hb.
    destruct (match_ T_PIPE st) as [more st1]. cbn [snd] in Hb. destruct more.
    + apply bind_Ok in H. destruct H as ([rhs st2] & H1 & H2).
      destruct (IHc _ _ _ H1 Hb) as (W & B).
      apply (IHal _ _ _ _ H2 B). split; assumption.
    + inversion H; subst. auto.
  - intros st node st' H HB. cbn [parseConcatenation] in H.
    apply bind_Ok in H. destruct H as ([lhs st1] & H1 & H2).
    destruct (IHq _ _ _ H1 HB) as (W & B).
    apply (IHcl _ _ _ _ H2 B W).
  - intros lhs st node st' H HB HW. cbn [parseConcatenationLoop] in H.
    destruct (isQuantifierStart st).
    + apply bind_Ok in H. destruct H as ([rhs st2] & H1 & H2).
      destruct (IHq _ _ _ H1 HB) as (W & B).
      apply (IHcl _ _ _ _ H2 B). split; assumption.
    + inversion H; subst. auto.
  - intros st node st' H HB. cbn [parseQuantifier] in H.
    apply bind_Ok in H. destruct H as ([atom st1] & H1 & H2).
    destruct (IHt _ _ _ H1 HB) as (W & B). cbv zeta in H2.
    pose proof (consume_keeps _ lower_only_tl st1 B) as Bc.
    destruct (type (peek st1));
      try (inversion H2; subst; split; assumption).
    pose proof (parseNumber_keeps _ lower_only_tl _ Bc) as Bn.
    destruct (parseNumber (snd (consume st1))) as [min st2]. cbn [snd] in Bn.
    pose proof (match_keeps _ lower_only_tl T_COMMA st2 Bn) as Bm.
    destruct (match_ T_COMMA st2) as [comma st3]. cbn [snd] in Bm.
    assert (Bmax : lower_only (rest (snd (if comma then parseNumber st3 else (min, st3))))).
    { destruct comma; [|auto]. apply parseNumber_keeps; [apply lower_only_tl | assumption]. }
    destruct (if comma then parseNumber st3 else (min, st3)) as [max st4].
    cbn [snd] in Bmax.
    pose proof (match_keeps _ lower_only_tl T_RBRACE st4 Bmax) as Br.
    destruct (match_ T_RBRACE st4) as [closed st5]. cbn [snd] in Br.
    destruct closed; cbn [negb] in H2; [|discriminate].
    inversion H2; subst. split; assumption.
  - intros st node st' H HB. cbn [parseAtom] in H.
    pose proof (consume_keeps _ lower_only_tl st HB) as Bc.
    pose proof (consume_fst st) as Hf. pose proof (lower_only_peek st HB) as Hnb.
    destruct (consume st) as [t st1]. cbn [fst snd] in Bc, Hf. subst t.
    destruct (type (peek st)) eqn:Et; try discriminate;
      try (inversion H; subst; split; [exact I | assumption]).
    + (* LPAREN *)
      assert (Bc1 : lower_only (rest (snd (consume st1))))
        by (apply consume_keeps; [apply lower_only_tl | assumption]).
      destruct (peek_is T_LITERAL "?" st1).
      { destruct (peek_is T_LITERAL ":" (snd (consume st1))); [|discriminate].
        apply (Hgroup _ _ _ _ _ H).
        apply consume_keeps; [apply lower_only_tl | assumption]. }
      destruct (peek_is T_LITERAL "=" st1); [apply (Hgroup _ _ _ _ _ H); assumption|].
      destruct (peek_is T_LITERAL "!" st1); [apply (Hgroup _ _ _ _ _ H); assumption|].
      apply bind_Ok in H. destruct H as ([n st2] & Ha & H).
      apply bind_Ok in H. destruct H as ([n3 st3] & Hg & H).
      destruct (IHa _ _ _ Ha) as (W & B); [exact Bc|].
      pose proof (closeGroup_node _ _ _ _ _ Hg) as E. cbn [fst] in E. subst n3.
      pose proof (closeGroup_keeps _ lower_only_tl _ _ _ _ _ Hg B) as B'.
      cbn [snd] in *. inversion H; subst. split; assumption.
    + (* LBRACKET *)
      apply bind_Ok in H. destruct H as ([cn st2] & Hp & H).
      pose proof (parseCharacterClass_keeps _ lower_only_tl _ _ _ Hp Bc) as B.
      destruct (parseCharacterClass_node _ _ _ Hp) as (low & high & Hnode).
      pose proof (match_keeps _ lower_only_tl T_RBRACKET st2 B) as Bm.
      destruct (match_ T_RBRACKET st2) as [closed st3]. cbn [snd] in Bm.
      destruct closed; cbn [negb] in H; [|discriminate].
      inversion H; subst.
      split; [destruct Hnode as [-> | ->]; cbn; lia | assumption].
    + (* ESCAPE *)
      inversion H; subst. split; [|assumption].
      now apply parseEscape_plain.
    + (* BACKREF *)
      pose proof (parseNumber_keeps _ lower_only_tl _ Bc) as Bn.
      destruct (parseNumber st1) as [g st2]. inversion H; subst. split; [exact I | exact Bn].
Qed.

Lemma parse_plain (tokens_ : list Token) (ast : ASTNode) (n : Z) :
  lower_only tokens_ -> parse tokens_ = Ok (ast, n) -> plain_classes ast.
Proof.
  unfold parse. intros HB H. apply bind_Ok in H. destruct H as ([node st] & Ha & H).
  destruct (proj1 (descent_plain _) _ _ _ Ha HB) as (W & B).
  destruct (rest st); [|discriminate]. inversion H; subst. exact W.
Qed.
End PlainClasses.

Module TameCode.
Import Compiler CompilerFacts.

Definition tame (inst : Instruction) : Prop := negated_pred inst = false.

(** The code a node compiles to, as an extension of the program so far,
    holds no negated class predicate. *)
Definition tame_code (node : ASTNode) : Prop :=
  forall instrs,
    Z.of_nat (List.length (compileNode node instrs)) < 2 ^ 32 ->
    exists code, compileNode node instrs = instrs ++ code /\ Forall tame code.

Lemma tame_one (inst : Instruction) (instrs : list Instruction) :
  tame inst -> exists code, emit inst instrs = instrs ++ code /\ Forall tame code.
Proof. intros H. exists [inst]. split; [reflexivity|]. constructor; [exact H | constructor]. Qed.

Lemma tame_iter (child : ASTNode) (k : nat) :
  tame_code child ->
  forall instrs,
    Z.of_nat (List.length (Nat.iter k (compileNode child) instrs)) < 2 ^ 32 ->
    exists code,
      Nat.iter k (compileNode child) instrs = instrs ++ code /\ Forall tame code.
Proof.
  intros Hc. induction k as [|k IH]; intros instrs Hlen.
  - exists []. cbn. rewrite app_nil_r. auto.
  - change (Nat.iter (S k) (compileNode child) instrs)
      with (compileNode child (Nat.iter k (compileNode child) instrs)) in *.
    destruct (Hc _ Hlen) as (code2 & E2 & F2).
    pose proof (compileNode_grows child (Nat.iter k (compileNode child) instrs)) as G.
    destruct (IH instrs ltac:(lia)) as (code1 & E1 & F1).
    rewrite E2, E1, <- app_assoc. exists (code1 ++ code2). split; [reflexivity|].
    apply Forall_app. auto.
Qed.

Lemma compileNode_tame (node : ASTNode) : plain_classes node -> tame_code node.
Proof.
  induction node as [c | l IHl r IHr | l IHl r IHr | child IH min max g | | b bh ct
                     | b bh ct | | | child IH idx | idx];
    intros W instrs Hlen; cbn [compileNode plain_classes] in *;
    try (apply tame_one; reflexivity).
  - (* Concat *)
    destruct W as [Wl Wr].
    destruct (IHr Wr _ Hlen) as (c2 & E2 & F2).
    pose proof (compileNode_grows r (compileNode l instrs)) as G.
    destruct (IHl Wl instrs ltac:(lia)) as (c1 & E1 & F1).
    rewrite E2, E1, <- app_assoc. exists (c1 ++ c2). split; [reflexivity|].
    apply Forall_app. auto.
  - (* Alternate *)
    destruct W as [Wl Wr]. cbv zeta in *.
    rewrite length_patchOperand in Hlen.
    remember (compileNode l (emit (Inst.Split 0 0) instrs)) as L eqn:EL.
    remember (patchCharset (here instrs) (u32 (here L + 1))
                (patchOperand (here instrs) (u32 (here instrs + 1))
                   (emit (Inst.Jump 0) L))) as Y eqn:EY.
    remember (compileNode r Y) as X eqn:EX.
    assert (LY : List.length Y = S (List.length L))
      by (rewrite EY, length_patchCharset, length_patchOperand, length_emit; reflexivity).
    pose proof (compileNode_grows r Y) as GX. rewrite <- EX in GX.
    pose proof (compileNode_grows l (emit (Inst.Split 0 0) instrs)) as GL.
    rewrite <- EL, length_emit in GL.
    destruct (IHl Wl (emit (Inst.Split 0 0) instrs)) as (c1 & E1 & F1);
      [rewrite <- EL; lia|].
    rewrite <- EL in E1. unfold emit in E1.
    assert (LL : List.length L = (List.length instrs + 1 + List.length c1)%nat)
      by (rewrite E1, !length_app; cbn; lia).
    rewrite (here_small instrs), (here_small L) in * by lia.
    rewrite !u32_small in EY by lia.
    assert (EY' : Y = instrs
                      ++ set_charset (set_operand (Inst.Split 0 0)
                                        (Z.of_nat (List.length instrs) + 1))
                           (Z.of_nat (List.length L) + 1)
                      :: c1 ++ [Inst.Jump 0]).
    { rewrite EY, E1. unfold emit. norm_app.
      rewrite patchOperand_at by reflexivity. rewrite patchCharset_at by reflexivity.
      reflexivity. }
    destruct (IHr Wr Y) as (c2 & E2 & F2); [rewrite <- EX; lia|].
    rewrite <- EX in E2.
    assert (LX : List.length X = (List.length Y + List.length c2)%nat)
      by (rewrite E2, length_app; reflexivity).
    rewrite (here_small X) by lia.
    set (S' := set_charset _ _) in EY'.
    assert (EX' : X = (instrs ++ S' :: c1) ++ Inst.Jump 0 :: c2)
      by (rewrite E2, EY'; norm_app; reflexivity).
    set (tgt := Z.of_nat (List.length X)).
    exists (S' :: c1 ++ set_operand (Inst.Jump 0) tgt :: c2). split.
    + rewrite EX', patchOperand_at; [norm_app; reflexivity|].
      rewrite length_app. cbn [List.length]. lia.
    + subst tgt S'.
      repeat first [apply Forall_cons | apply Forall_app; split | apply Forall_nil];
        solve [reflexivity | assumption].
  - (* Repeat *)
    cbv zeta in *.
    destruct (max =? UINT32_MAX); [destruct (min =? 0)|
      destruct ((max =? 1) && (min =? 0)); [|destruct (max =? 1)]].
    + (* star *)
      rewrite length_patchOperand, length_patchCharset, length_patchOperand, length_emit
        in Hlen.
      remember (compileNode child (emit (Inst.Split 0 0) instrs)) as L eqn:EL.
      pose proof (compileNode_grows child (emit (Inst.Split 0 0) instrs)) as GL.
      rewrite <- EL, length_emit in GL.
      destruct (IH W (emit (Inst.Split 0 0) instrs)) as (c1 & E1 & F1);
        [rewrite <- EL; lia|].
      rewrite <- EL in E1. unfold emit in E1.
      assert (LL : List.length L = (List.length instrs + 1 + List.length c1)%nat)
        by (rewrite E1; norm_len; lia).
      rewrite (here_small instrs), (here_small L) by lia.
      rewrite !u32_small by lia.
      set (S' := set_charset (set_operand (Inst.Split 0 0)
                                (Z.of_nat (List.length instrs) + 1))
                   (Z.of_nat (List.length L) + 1)).
      set (J' := set_operand (Inst.Jump 0) (Z.of_nat (List.length instrs))).
      exists (S' :: c1 ++ [J']). split.
      * set (a := Z.of_nat (List.length instrs)). set (b := Z.of_nat (List.length L)).
        rewrite E1. unfold emit. norm_app.
        rewrite patchOperand_at by reflexivity. rewrite patchCharset_at by reflexivity.
        fold S'. rewrite app_comm_cons, app_assoc.
        rewrite patchOperand_at; [norm_app; reflexivity|].
        subst b. norm_len. lia.
      * subst S' J'.
        repeat first [apply Forall_cons | apply Forall_app; split | apply Forall_nil];
          solve [reflexivity | assumption].
    + (* plus *)
      rewrite length_patchOperand, length_patchCharset, length_patchOperand, length_emit
        in Hlen.
      remember (compileNode child instrs) as C0 eqn:EC.
      remember (compileNode child (emit (Inst.Split 0 0) C0)) as L eqn:EL.
      pose proof (compileNode_grows child (emit (Inst.Split 0 0) C0)) as GL.
      rewrite <- EL, length_emit in GL.
      destruct (IH W (emit (Inst.Split 0 0) C0)) as (c1 & E1 & F1);
        [rewrite <- EL; lia|].
      rewrite <- EL in E1. unfold emit in E1.
      destruct (IH W instrs) as (c0 & E0 & F0); [rewrite <- EC; lia|].
      rewrite <- EC in E0.
      assert (LC : List.length C0 = (List.length instrs + List.length c0)%nat)
        by (rewrite E0; norm_len; lia).
      assert (LL : List.length L = (List.length C0 + 1 + List.length c1)%nat)
        by (rewrite E1; norm_len; lia).
      rewrite (here_small C0), (here_small L) by lia.
      rewrite !u32_small by lia.
      set (S' := set_charset (set_operand (Inst.Split 0 0)
                                (Z.of_nat (List.length C0) + 1))
                   (Z.of_nat (List.length L) + 1)).
      set (J' := set_operand (Inst.Jump 0) (Z.of_nat (List.length C0))).
      exists (c0 ++ S' :: c1 ++ [J']). split.
      * set (a := Z.of_nat (List.length C0)). set (b := Z.of_nat (List.length L)).
        rewrite E1. unfold emit. norm_app.
        rewrite patchOperand_at by reflexivity. rewrite patchCharset_at by reflexivity.
        fold S'. rewrite app_comm_cons, app_assoc.
        rewrite patchOperand_at; [rewrite E0; norm_app; reflexivity|].
        subst b. norm_len. lia.
      * subst S' J'.
        repeat first [apply Forall_cons | apply Forall_app; split | apply Forall_nil];
          solve [reflexivity | assumption].
    + (* question mark *)
      rewrite length_patchCharset, length_patchOperand in Hlen.
      remember (compileNode child (emit (Inst.Split 0 0) instrs)) as L eqn:EL.
      pose proof (compileNode_grows child (emit (Inst.Split 0 0) instrs)) as GL.
      rewrite <- EL, length_emit in GL.
      destruct (IH W (emit (Inst.Split 0 0) instrs)) as (c1 & E1 & F1);
        [rewrite <- EL; lia|].
      rewrite <- EL in E1. unfold emit in E1.
      assert (LL : List.length L = (List.length instrs + 1 + List.length c1)%nat)
        by (rewrite E1; norm_len; lia).
      rewrite (here_small instrs) by lia.
      rewrite here_small by (rewrite length_patchOperand; lia).
      rewrite length_patchOperand.
      rewrite !u32_small by lia.
      set (S' := set_charset (set_operand (Inst.Split 0 0)
                                (Z.of_nat (List.length instrs) + 1))
                   (Z.of_nat (List.length L))).
      exists (S' :: c1). split.
      * set (a := Z.of_nat (List.length instrs)). set (b := Z.of_nat (List.length L)).
        rewrite E1. norm_app.
        rewrite patchOperand_at by reflexivity. rewrite patchCharset_at by reflexivity.
        reflexivity.
      * subst S'.
        repeat first [apply Forall_cons | apply Forall_app; split | apply Forall_nil];
          solve [reflexivity | assumption].
    + apply (IH W instrs Hlen).
    + apply tame_iter; auto.
  - (* Class *)
    destruct (Z.leb_spec 0 ct); [|destruct (negb (bh =? 0))]; apply tame_one;
      try reflexivity.
    assert (Hct : ct = 0 \/ ct = 1 \/ ct = 2) by lia.
    destruct Hct as [-> | [-> | ->]]; reflexivity.
  - (* NotClass *)
    subst ct. cbn. destruct (negb (bh =? 0)); apply tame_one; reflexivity.
  - (* Group *)
    rewrite length_emit in Hlen.
    remember (compileNode child (emit (Inst.Save (u32 (u32 idx * 2))) instrs)) as L eqn:EL.
    destruct (IH W (emit (Inst.Save (u32 (u32 idx * 2))) instrs)) as (c1 & E1 & F1);
      [rewrite <- EL; lia|].
    rewrite <- EL in E1. unfold emit in E1.
    exists (Inst.Save (u32 (u32 idx * 2)) :: c1 ++ [Inst.Save (u32 (u32 idx * 2 + 1))]).
    split.
    + rewrite E1. unfold emit. norm_app. reflexivity.
    + repeat first [apply Forall_cons | apply Forall_app; split | apply Forall_nil];
        solve [reflexivity | assumption].
Qed.

Lemma compile_tame (ast : ASTNode) (n : Z) :
  plain_classes ast ->
  Z.of_nat (List.length (compile ast n)) < 2 ^ 32 ->
  existsb negated_pred (compile ast n) = false.
Proof.
  intros W Hlen. unfold compile in *. rewrite length_emit in Hlen.
  destruct (compileNode_tame ast W [] ltac:(lia)) as (code & E & F).
  rewrite E. cbn [app]. unfold emit.
  rewrite existsb_app. cbn [existsb orb]. rewrite orb_false_r.
  destruct (existsb negated_pred code) eqn:X; [|reflexivity].
  apply existsb_exists in X. destruct X as (inst & Hin & Hn).
  rewrite Forall_forall in F. specialize (F inst Hin). unfold tame in F. congruence.
Qed.
End TameCode.




(** ** The text position modulo [2^64] *)

Module WrapFacts.
Import VM.

Lemma advance64_advance (st : state) :
  0 <= textPos st < npos -> advance64 st = advance st.
Proof.
  intros H. unfold advance64, advance, u64.
  rewrite Z.mod_small by (unfold npos in H; lia). reflexivity.
Qed.

(** Below [2^64 - 1] the increment does not wrap. *)
Lemma step64_step (text : cstring) (inst : Instruction) (st : state) :
  0 <= textPos st < npos -> step64 text inst st = step text inst st.
Proof.
  intros H. unfold step64, step. rewrite (advance64_advance st H). reflexivity.
Qed.

(** every text position of the state leaves room for [k] increments *)
Definition room (k : nat) (st : state) : Prop :=
  (0 <= textPos st /\ textPos st + Z.of_nat k <= npos)
  /\ Forall (fun bp => 0 <= bp_textPos bp /\ bp_textPos bp + Z.of_nat k <= npos)
       (backtrackStack_ st).

Lemma room_stack (k : nat) (stack : list BacktrackPoint) :
  Forall (fun bp => 0 <= bp_textPos bp /\ bp_textPos bp + Z.of_nat (S k) <= npos) stack ->
  Forall (fun bp => 0 <= bp_textPos bp /\ bp_textPos bp + Z.of_nat k <= npos) stack.
Proof. apply Forall_impl. intros bp. lia. Qed.

Lemma step_room (text : cstring) (inst : Instruction) (k : nat) (st st' : state) :
  room (S k) st -> step text inst st = Next st' -> room k st'.
Proof.
  intros [Hp Hs] H. apply room_stack in Hs.
  assert (Hadv : advance st = Next st' -> room k st').
  { unfold advance. intros E. inversion E; subst st'.
    split; cbn [textPos backtrackStack_]; [lia | assumption]. }
  assert (Hstay : forall pc', room k (mkState pc' (textPos st) (captures_ st)
                                        (backtrackStack_ st))).
  { intros pc'. split; cbn [textPos backtrackStack_]; [lia | assumption]. }
  unfold step in H. cbv zeta in H.
  destruct (opcode inst).
  - destruct (_ && _); [auto | discriminate H].
  - destruct (_ <? _); [auto | discriminate H].
  - destruct (_ && _); [auto | discriminate H].
  - destruct (_ && _); [auto | discriminate H].
  - destruct (_ && _); [auto | discriminate H].
  - match type of H with
    | (if ?c then _ else _) = _ => destruct c
    end; [auto | discriminate H].
  - inversion H; subst st'. apply Hstay.
  - inversion H; subst st'. split; cbn [textPos backtrackStack_]; [lia|].
    constructor; [cbn [bp_textPos]; lia | assumption].
  - inversion H; subst st'. split; cbn [textPos backtrackStack_]; [lia | assumption].
  - discriminate H.
  - destruct (_ =? _); [|discriminate H]. inversion H; subst st'. apply Hstay.
  - destruct (_ =? _); [|discriminate H]. inversion H; subst st'. apply Hstay.
  - discriminate H.
Qed.

Lemma backtrack_room (k : nat) (st st' : state) :
  room (S k) st -> backtrack st = Some st' -> room k st'.
Proof.
  intros [_ Hs] H. unfold backtrack in H.
  destruct (backtrackStack_ st) as [|bp stack]; [discriminate|].
  inversion H; subst st'. inversion Hs; subst.
  split; cbn [textPos backtrackStack_]; [lia | now apply room_stack].
Qed.

Section Run.
Variables (instructions_ : list Instruction) (captureCount_ : nat) (text : cstring).

(** A run of [fuel] steps moves a text position up by [fuel] at most: with
    that much room below [2^64] it never wraps. *)
Lemma run64_run (fuel : nat) :
  forall st,
    room fuel st ->
    run64 fuel instructions_ captureCount_ text st
    = run fuel instructions_ captureCount_ text st.
Proof.
  induction fuel as [|fuel IH]; intros st Hr; [reflexivity|].
  cbn [run64 run].
  assert (Hb : match backtrack st with
               | Some st' => run64 fuel instructions_ captureCount_ text st'
               | None => Ok None
               end
               = match backtrack st with
                 | Some st' => run fuel instructions_ captureCount_ text st'
                 | None => Ok None
                 end).
  { destruct (backtrack st) as [st'|] eqn:E; [|reflexivity].
    apply IH. eapply backtrack_room; eauto. }
  destruct (fetch instructions_ (pc st)) as [inst|]; [|exact Hb].
  rewrite step64_step by (destruct Hr as [Hp _]; lia).
  destruct (step text inst st) as [st'| |caps] eqn:E; [|exact Hb|reflexivity].
  apply IH. eapply step_room; eauto.
Qed.

Lemma executeAt64_executeAt (fuel : nat) (pos : Z) :
  0 <= pos -> pos + Z.of_nat fuel <= npos ->
  executeAt64 fuel instructions_ captureCount_ text pos
  = executeAt fuel instructions_ captureCount_ text pos.
Proof.
  intros H0 H. unfold executeAt64, executeAt. apply run64_run.
  split; cbn [initial textPos backtrackStack_]; [lia | constructor].
Qed.

Lemma run64_next (fuel : nat) (st st' : state) (inst : Instruction) :
  fetch instructions_ (pc st) = Some inst ->
  step64 text inst st = Next st' ->
  run64 (S fuel) instructions_ captureCount_ text st
  = run64 fuel instructions_ captureCount_ text st'.
Proof. intros Hf Hs. cbn [run64]. now rewrite Hf, Hs. Qed.

Lemma run64_accept (fuel : nat) (st : state) (inst : Instruction) (caps : list Z) :
  fetch instructions_ (pc st) = Some inst ->
  step64 text inst st = Accept caps ->
  run64 (S fuel) instructions_ captureCount_ text st
  = (result <- buildResult captureCount_ text caps ;; Ok (Some result)).
Proof. intros Hf Hs. cbn [run64]. now rewrite Hf, Hs. Qed.

Lemma run64_fail (fuel : nat) (st : state) (inst : Instruction) :
  fetch instructions_ (pc st) = Some inst ->
  step64 text inst st = Fail ->
  run64 (S fuel) instructions_ captureCount_ text st
  = match backtrack st with
    | None => Ok None
    | Some st' => run64 fuel instructions_ captureCount_ text st'
    end.
Proof. intros Hf Hs. cbn [run64]. now rewrite Hf, Hs. Qed.
End Run.

(** A [CHAR] fails when there is no byte at the text position. *)
Lemma char64_beyond (c : ascii) (text : cstring) (st : state) :
  size text <= textPos st -> step64 text (Inst.Char c) st = Fail.
Proof.
  intros H. unfold step64. cbv zeta.
  cbn [opcode Inst.Char set_operand set_ch set_charset set_opcode Instruction_default].
  destruct (Z.ltb_spec (textPos st) (size text)); [lia | reflexivity].
Qed.

(** [c*] reaches its [MATCH] without reading a byte, and [buildResult]
    throws on the start offset. *)
Lemma star_beyond (c : ascii) (fuel : nat) (text : cstring) (start : Z) :
  size text < start ->
  executeAt64 (3 + fuel) (StarFacts.byte_star c) 1 text start = Throw out_of_range.
Proof.
  intros H. unfold executeAt64, initial, StarFacts.byte_star.
  change (3 + fuel)%nat with (S (S (S fuel))).
  rewrite run64_next with (inst := Inst.Split 1 3)
    (st' := mkState 1 start (setcap (List.repeat npos (1 * 2)) 0 start)
              [mkBacktrackPoint 3 start (setcap (List.repeat npos (1 * 2)) 0 start)]);
    [|reflexivity|reflexivity].
  rewrite run64_fail with (inst := Inst.Char c);
    [|reflexivity|apply char64_beyond; cbn [textPos]; lia].
  cbn [backtrack backtrackStack_ bp_pc bp_textPos savedCaptures].
  rewrite run64_accept with (inst := Inst.Match)
    (caps := setcap (setcap (List.repeat npos (1 * 2)) 0 start) 1 start);
    [|reflexivity|reflexivity].
  unfold buildResult, substr at 1.
  cbn [List.repeat Nat.mul Nat.add setcap update cap nth].
  destruct (Z.ltb_spec (size text) start); [reflexivity | lia].
Qed.

(** A pattern of plain bytes fails on its first instruction. *)
Lemma literal_beyond (c : ascii) (p : cstring) (fuel : nat) (text : cstring) (start : Z) :
  size text < start ->
  executeAt64 (1 + fuel) (map Inst.Char (c :: p) ++ [Inst.Match]) 1 text start = Ok None.
Proof.
  intros H. unfold executeAt64, initial. change (1 + fuel)%nat with (S fuel).
  rewrite run64_fail with (inst := Inst.Char c);
    [reflexivity|reflexivity|apply char64_beyond; cbn [textPos]; lia].
Qed.
End WrapFacts.

(** X8.  A match attempt that starts beyond the end of the text never
    succeeds.  As long as the text position cannot wrap around, that is for
    the first [2^64 - 1 - start] steps, a compiled pattern returns false or
    throws [std::out_of_range], which it does when the program reaches
    [MATCH].  Both happen at every such offset, up to [2^64 - 1]: a starred
    plain byte throws, and a pattern of plain bytes returns false. *)
Theorem match_beyond_the_end_never_succeeds :
  (forall (pattern : cstring) (re : Regex) (fuel : nat) (text : cstring) (start : Z),
      compile pattern = Ok re ->
      size text < start ->
      start + Z.of_nat fuel <= npos ->
      RegexM.match64 fuel re text start = Ok None
      \/ RegexM.match64 fuel re text start = Throw out_of_range
      \/ RegexM.match64 fuel re text start = OutOfFuel)
  /\ (forall (c : ascii) (fuel : nat) (text : cstring) (start : Z),
         literal_byte c = true ->
         size text < start ->
         exists re,
           compile [c; "*"] = Ok re
           /\ RegexM.match64 (3 + fuel) re text start = Throw out_of_range)
  /\ (forall (pattern : cstring) (fuel : nat) (text : cstring) (start : Z),
         pattern <> [] ->
         forallb literal_byte pattern = true ->
         size text < start ->
         exists re,
           compile pattern = Ok re
           /\ RegexM.match64 (1 + fuel) re text start = Ok None).
Proof.
  split; [|split].
  - intros pattern re fuel text start H Hs Hroom.
    pose proof (compile_compiled _ _ H) as Hc.
    pose proof (compile_captureCount _ _ H) as Hcc.
    pose proof (size_nonneg text) as Hnn.
    unfold RegexM.match64. rewrite Hc. cbn [negb].
    rewrite WrapFacts.executeAt64_executeAt by lia.
    destruct (VM.executeAt fuel (instructions_ re) (RegexM.captureCount re) text start)
      as [[r|]|e|] eqn:E; auto.
    + destruct (VMFacts.executeAt_position _ _ _ _ _ _ Hcc E) as (_ & Hp & _). lia.
    + right; left. f_equal.
      unfold VM.executeAt in E.
      destruct (VMFacts.run_outcomes (instructions_ re) (RegexM.captureCount re) text fuel
                  (VM.initial (RegexM.captureCount re) start))
        as [E' | [E' | (st & inst & _ & _ & E')]]; rewrite E' in E; try discriminate E.
      destruct e as [msg p|]; [|reflexivity]. exfalso.
      unfold VM.buildResult, substr at 1 in E.
      destruct (size text <? _); [discriminate E|]. cbn [bind] in E.
      set (caps := VM.setcap _ _ _) in E.
      assert (Hg : forall gs marks,
                 VM.reportGroups text caps marks gs <> Throw (RegexError msg p)).
      { induction gs as [|i gs IH]; intros marks; cbn [VM.reportGroups]; [discriminate|].
        destruct (negb (nth i marks false)); [|apply IH].
        unfold VM.reportGroup, substr.
        destruct (_ && _ && _); cbn [bind].
        - destruct (size text <? _); cbn [bind]; [discriminate|].
          specialize (IH marks). destruct (VM.reportGroups text caps marks gs);
            cbn [bind]; try discriminate; congruence.
        - specialize (IH marks). destruct (VM.reportGroups text caps marks gs);
            cbn [bind]; try discriminate; congruence. }
      specialize (Hg (VM.groups (RegexM.captureCount re))
                    (VM.markContained caps (RegexM.captureCount re))).
      destruct (VM.reportGroups _ _ _ _); cbn [bind] in E; try discriminate E; congruence.
  - intros c fuel text start Hc Hs.
    exists (mkRegex [c; "*"] (StarFacts.byte_star c) true 0).
    split; [now apply StarFacts.compile_star|].
    apply WrapFacts.star_beyond, Hs.
  - intros pattern fuel text start Hne Hlit Hs.
    destruct pattern as [|c p]; [contradiction Hne; reflexivity|].
    eexists. split; [now apply LiteralFacts.compile_literal|].
    apply WrapFacts.literal_beyond, Hs.
Qed.

Lemma match_beyond_the_end_never_succeeds_witness :
  exists re,
    compile (str "(a|b)+c") = Ok re
    /\ (RegexM.match64 40 re (str "ab") 3 = Ok None
        \/ RegexM.match64 40 re (str "ab") 3 = Throw out_of_range
        \/ RegexM.match64 40 re (str "ab") 3 = OutOfFuel).
Proof.
  eexists. split; [reflexivity|].
  apply (proj1 match_beyond_the_end_never_succeeds (str "(a|b)+c") _ 40%nat (str "ab") 3
           eq_refl).
  - vm_compute. reflexivity.
  - vm_compute. discriminate.
Defined.

(** ** Negated class escapes past the end of the text *)

(** X14.  Outside brackets a negated class escape ([\D], [\W], [\S]) is
    taken to match when there is no byte left: at or past the end of the
    text it succeeds and moves the text position on, from [2^64 - 1] to
    0, where a negated bracket expression fails.  So [\D] matches the empty
    rest of every text, and a starred negated escape that is tried at the
    end of the text goes on for as long as the text position does not wrap
    around. *)
Theorem negated_escape_matches_past_the_end :
  (forall (k : Z) (text : cstring) (st : VM.state),
      k = CLASS_DIGIT \/ k = CLASS_WORD \/ k = CLASS_SPACE ->
      size text <= VM.textPos st <= npos ->
      VM.step64 text (Inst.ClassPred (Z.lor k 16)) st
      = VM.Next (VM.mkState (VM.pc st + 1)
                   (if VM.textPos st =? npos then 0 else VM.textPos st + 1)
                   (VM.captures_ st) (VM.backtrackStack_ st))
      /\ forall low high, VM.step64 text (Inst.NotClassExt low high) st = VM.Fail)
  /\ (exists re,
         compile (str "\D") = Ok re
         /\ forall (fuel : nat) (text : cstring),
             RegexM.match_ (2 + fuel) re text (size text)
             = Ok (Some (mkMatchResult true (size text) [] [])))
  /\ (exists re,
         compile (str "[^\d]") = Ok re
         /\ forall (fuel : nat) (text : cstring),
             RegexM.match_ (1 + fuel) re text (size text) = Ok None)
  /\ (exists re,
         compile (str "\S*") = Ok re
         /\ forall (fuel : nat) (text : cstring),
             size text + Z.of_nat fuel <= npos ->
             RegexM.match64 fuel re text (size text) = OutOfFuel).
Proof.
  split; [|split; [|split]].
  - intros k text st Hk Hend. pose proof (size_nonneg text) as Hnn.
    split.
    + assert (E : u64 (VM.textPos st + 1)
                  = if VM.textPos st =? npos then 0 else VM.textPos st + 1).
      { destruct (Z.eqb_spec (VM.textPos st) npos) as [-> | Hne]; [reflexivity|].
        unfold u64. apply Z.mod_small. unfold npos in *. lia. }
      rewrite <- E. unfold VM.step64. cbv zeta.
      cbn [opcode charset_low Inst.ClassPred set_operand set_charset set_opcode
           Instruction_default].
      destruct (Z.ltb_spec (VM.textPos st) (size text)); [lia|].
      destruct Hk as [-> | [-> | ->]]; reflexivity.
    + intros low high. unfold VM.step64. cbv zeta.
      cbn [opcode Inst.NotClassExt set_operand set_charset_high set_charset set_opcode
           Instruction_default].
      destruct (Z.ltb_spec (VM.textPos st) (size text)); [lia | reflexivity].
  - exists (mkRegex (str "\D") [Inst.ClassPred (Z.lor CLASS_DIGIT 16); Inst.Match] true 0).
    split; [reflexivity|]. intros fuel text.
    apply (EndOfText.negated_escape_at_end CLASS_DIGIT). auto.
  - exists (mkRegex (str "[^\d]") [Inst.NotClass CharClass.DIGIT_MASK; Inst.Match] true 0).
    split; [reflexivity|]. intros fuel text.
    unfold RegexM.match_, RegexM.executeAt, VM.executeAt. cbn [compiled_ negb instructions_].
    change (1 + fuel)%nat with (S fuel).
    rewrite VMFacts.run_fail; [reflexivity|].
    unfold fails. cbn [VM.fetch VM.initial VM.pc Z.ltb Z.compare Z.to_nat nth_error].
    apply (EndOfText.not_class_at_end CharClass.DIGIT_MASK 0). cbn. lia.
  - exists (mkRegex (str "\S*") (EndOfText.star CLASS_SPACE) true 0).
    split; [reflexivity|]. intros fuel text Hroom.
    pose proof (size_nonneg text) as Hnn.
    unfold RegexM.match64. cbn [compiled_ negb instructions_].
    rewrite WrapFacts.executeAt64_executeAt by lia.
    apply EndOfText.past_end_forever; [auto|].
    split; cbn; [auto | lia].
Qed.

Lemma negated_escape_matches_past_the_end_witness :
  exists re,
    compile (str "\S*") = Ok re
    /\ RegexM.match64 1000 re (str "ab") 2 = OutOfFuel.
Proof.
  destruct (proj2 (proj2 (proj2 negated_escape_matches_past_the_end)))
    as (re & Hre & H).
  exists re. split; [exact Hre|].
  apply (H 1000%nat (str "ab")).
  vm_compute. discriminate.
Defined.

(** ** The loops of the facade come to an end *)

Module Halting.

Lemma bind_more {A B} (m m' : result A) (k k' : A -> result B) :
  bind m k <> OutOfFuel ->
  m' = m ->
  (forall a, m = Ok a -> k a <> OutOfFuel -> k' a = k a) ->
  bind m' k' = bind m k.
Proof.
  intros H -> Hk. destruct m as [a| |]; cbn [bind] in *; auto.
Qed.

(** More steps do not change the answer of a run that has ended. *)
Lemma run_more (instructions_ : list Instruction) (captureCount_ : nat) (text : cstring)
  (fuel : nat) :
  forall (st : VM.state) (fuel' : nat),
    VM.run fuel instructions_ captureCount_ text st <> OutOfFuel ->
    (fuel <= fuel')%nat ->
    VM.run fuel' instructions_ captureCount_ text st
    = VM.run fuel instructions_ captureCount_ text st.
Proof.
  induction fuel as [|fuel IH]; intros st fuel' H Hle; [contradiction H; reflexivity|].
  destruct fuel' as [|fuel']; [lia|]. cbn [VM.run] in *.
  destruct (VM.fetch instructions_ (VM.pc st)) as [inst|].
  - destruct (VM.step text inst st) as [st'| |caps].
    + apply IH; [assumption | lia].
    + destruct (VM.backtrack st); [apply IH; [assumption | lia] | reflexivity].
    + reflexivity.
  - destruct (VM.backtrack st); [apply IH; [assumption | lia] | reflexivity].
Qed.

Section Loops.
Variable re : Regex.

Lemma executeAt_more (text : cstring) (p : Z) (fuel fuel' : nat) :
  RegexM.executeAt fuel re text p <> OutOfFuel ->
  (fuel <= fuel')%nat ->
  RegexM.executeAt fuel' re text p = RegexM.executeAt fuel re text p.
Proof. apply run_more. Qed.

Lemma searchLoop_more (text : cstring) (rounds : nat) (fuel fuel' : nat) :
  (fuel <= fuel')%nat ->
  forall pos prev,
    VM.searchLoop rounds fuel (instructions_ re) (RegexM.captureCount re) text pos prev
    <> OutOfFuel ->
    VM.searchLoop rounds fuel' (instructions_ re) (RegexM.captureCount re) text pos prev
    = VM.searchLoop rounds fuel (instructions_ re) (RegexM.captureCount re) text pos prev.
Proof.
  intros Hle. induction rounds as [|rounds IH]; intros pos prev H;
    cbn [VM.searchLoop] in *; destruct (pos <=? size text); try reflexivity.
  apply bind_more; [exact H | |].
  - apply run_more; [|exact Hle]. intros E. apply H.
    unfold VM.executeAt. rewrite E. reflexivity.
  - intros [r|] _ Hk.
    + destruct (_ && _ && _); [apply IH; exact Hk | reflexivity].
    + apply IH; exact Hk.
Qed.

Lemma search_more (text : cstring) (start : Z) (fuel fuel' : nat) :
  RegexM.search fuel re text start <> OutOfFuel ->
  (fuel <= fuel')%nat ->
  RegexM.search fuel' re text start = RegexM.search fuel re text start.
Proof.
  unfold RegexM.search, VM.search. destruct (negb (compiled_ re)); [reflexivity|].
  intros H Hle. now apply searchLoop_more.
Qed.

Lemma searchAllLoop_more (text : cstring) (rounds : nat) (fuel fuel' : nat) :
  (fuel <= fuel')%nat ->
  forall pos prev,
    RegexM.searchAllLoop rounds fuel re text pos prev <> OutOfFuel ->
    RegexM.searchAllLoop rounds fuel' re text pos prev
    = RegexM.searchAllLoop rounds fuel re text pos prev.
Proof.
  intros Hle. induction rounds as [|rounds IH]; intros pos prev H;
    cbn [RegexM.searchAllLoop] in *; destruct (pos <=? size text); try reflexivity.
  apply bind_more; [exact H | |].
  - apply executeAt_more; [|exact Hle]. intros E. apply H. rewrite E. reflexivity.
  - intros [r|] _ Hk.
    + destruct (_ && _ && _); [apply IH; exact Hk|].
      apply bind_more; [exact Hk | | reflexivity].
      apply IH. intros E. apply Hk. rewrite E. reflexivity.
    + apply IH; exact Hk.
Qed.

Lemma replaceLoop_more (replacement : cstring) (rounds : nat) (fuel fuel' : nat) :
  (fuel <= fuel')%nat ->
  forall result_ pos,
    RegexM.replaceLoop rounds fuel re replacement result_ pos <> OutOfFuel ->
    RegexM.replaceLoop rounds fuel' re replacement result_ pos
    = RegexM.replaceLoop rounds fuel re replacement result_ pos.
Proof.
  intros Hle. induction rounds as [|rounds IH]; intros result_ pos H;
    cbn [RegexM.replaceLoop] in *; destruct (pos <? size result_); try reflexivity.
  apply bind_more; [exact H | |].
  - apply search_more; [|exact Hle]. intros E. apply H. rewrite E. reflexivity.
  - intros [m|] _ Hk; [|reflexivity].
    apply bind_more; [exact Hk | reflexivity|].
    intros r _ Hk'. apply IH; exact Hk'.
Qed.

Hypothesis captureCount_pos : (1 <= RegexM.captureCount re)%nat.
Hypothesis ends : attempts_end re.

Lemma executeAt_settles (text : cstring) (p : Z) :
  0 <= p <= size text ->
  exists fuel0, settles (fun fuel => RegexM.executeAt fuel re text p) fuel0.
Proof.
  intros Hp. destruct (ends text p Hp) as [fuel0 H]. exists fuel0.
  split; [exact H|]. intros fuel Hle. now apply executeAt_more.
Qed.

Lemma searchLoop_settles (text : cstring) (rounds : nat) :
  forall pos prev,
    0 <= pos ->
    (Z.to_nat (size text + 1 - pos) <= rounds)%nat ->
    exists fuel0,
      VM.searchLoop rounds fuel0 (instructions_ re) (RegexM.captureCount re) text pos prev
      <> OutOfFuel.
Proof.
  induction rounds as [|rounds IH]; intros pos prev Hpos Hr.
  - exists 0%nat. cbn [VM.searchLoop].
    destruct (Z.leb_spec pos (size text)); [lia | discriminate].
  - destruct (Z.leb_spec pos (size text)) as [Hle|Hgt].
    2:{ exists 0%nat. cbn [VM.searchLoop].
        destruct (Z.leb_spec pos (size text)); [lia | discriminate]. }
    destruct (executeAt_settles text pos ltac:(lia)) as (f0 & Hne & Hst).
    assert (Hnext : forall prev', exists f1,
               VM.searchLoop rounds f1 (instructions_ re) (RegexM.captureCount re) text
                 (pos + 1) prev' <> OutOfFuel)
      by (intros prev'; apply IH; lia).
    cbv beta in Hne, Hst.
    assert (Hcont : forall prev',
               exists fuel0,
                 RegexM.executeAt fuel0 re text pos = RegexM.executeAt f0 re text pos
                 /\ VM.searchLoop rounds fuel0 (instructions_ re) (RegexM.captureCount re)
                      text (pos + 1) prev' <> OutOfFuel).
    { intros prev'. destruct (Hnext prev') as (f1 & H1).
      exists (Nat.max f0 f1). split; [apply Hst; lia|].
      rewrite (searchLoop_more text rounds f1 (Nat.max f0 f1)); [exact H1 | lia | exact H1]. }
    unfold RegexM.executeAt in *.
    destruct (VM.executeAt f0 (instructions_ re) (RegexM.captureCount re) text pos)
      as [[r|]|e|] eqn:E; [| | |contradiction Hne; reflexivity].
    + destruct ((mr_length r =? 0) && (mr_length r =? prev) && (pos <? size text)) eqn:Eg.
      * destruct (Hcont (if (pos + 1 <? size text) && matched r then mr_length r else 0))
          as (fuel0 & E0 & H0).
        exists fuel0. cbn [VM.searchLoop].
        replace (pos <=? size text) with true by (symmetry; apply Z.leb_le; lia).
        rewrite E0. cbn [bind]. rewrite Eg. exact H0.
      * exists f0. cbn [VM.searchLoop].
        replace (pos <=? size text) with true by (symmetry; apply Z.leb_le; lia).
        rewrite E. cbn [bind]. rewrite Eg. discriminate.
    + destruct (Hcont (if (pos + 1 <? size text) && matched MatchResult_default
                       then mr_length MatchResult_default else 0))
        as (fuel0 & E0 & H0).
      exists fuel0. cbn [VM.searchLoop].
      replace (pos <=? size text) with true by (symmetry; apply Z.leb_le; lia).
      rewrite E0. cbn [bind]. exact H0.
    + exists f0. cbn [VM.searchLoop].
      replace (pos <=? size text) with true by (symmetry; apply Z.leb_le; lia).
      rewrite E. cbn [bind]. discriminate.
Qed.

Lemma search_ends (text : cstring) (start : Z) :
  0 <= start ->
  exists fuel0, RegexM.search fuel0 re text start <> OutOfFuel.
Proof.
  intros Hs. unfold RegexM.search, VM.search.
  destruct (negb (compiled_ re)); [exists 0%nat; discriminate|].
  apply searchLoop_settles; [assumption | lia].
Qed.

Lemma searchAllLoop_ends (text : cstring) (rounds : nat) :
  forall pos prev,
    0 <= pos ->
    (Z.to_nat (size text + 1 - pos) <= rounds)%nat ->
    exists fuel0, RegexM.searchAllLoop rounds fuel0 re text pos prev <> OutOfFuel.
Proof.
  induction rounds as [|rounds IH]; intros pos prev Hpos Hr.
  - exists 0%nat. cbn [RegexM.searchAllLoop].
    destruct (Z.leb_spec pos (size text)); [lia | discriminate].
  - destruct (Z.leb_spec pos (size text)) as [Hle|Hgt].
    2:{ exists 0%nat. cbn [RegexM.searchAllLoop].
        destruct (Z.leb_spec pos (size text)); [lia | discriminate]. }
    destruct (executeAt_settles text pos ltac:(lia)) as (f0 & Hne & Hst).
    cbv beta in Hne, Hst.
    assert (Hcont : forall pos' prev',
               pos < pos' ->
               exists fuel0,
                 RegexM.executeAt fuel0 re text pos = RegexM.executeAt f0 re text pos
                 /\ RegexM.searchAllLoop rounds fuel0 re text pos' prev' <> OutOfFuel).
    { intros pos' prev' Hlt. destruct (IH pos' prev' ltac:(lia) ltac:(lia)) as (f1 & H1).
      exists (Nat.max f0 f1). split; [apply Hst; lia|].
      rewrite (searchAllLoop_more text rounds f1 (Nat.max f0 f1)); [exact H1 | lia | exact H1]. }
    destruct (RegexM.executeAt f0 re text pos) as [[r|]|e|] eqn:E;
      [| | |contradiction Hne; reflexivity].
    + destruct ((mr_length r =? 0) && (mr_length r =? prev) && (pos <? size text)) eqn:Eg.
      * destruct (Hcont (pos + 1) prev ltac:(lia)) as (fuel0 & E0 & H0).
        exists fuel0. cbn [RegexM.searchAllLoop].
        replace (pos <=? size text) with true by (symmetry; apply Z.leb_le; lia).
        rewrite E0. cbn [bind]. rewrite Eg. exact H0.
      * destruct (VMFacts.executeAt_position _ _ _ _ _ _ captureCount_pos E)
          as (_ & Hp & _).
        pose proof (size_nonneg (matched_text r)) as Hsz. unfold mr_length in *.
        destruct (Hcont (position r
                         + (if 0 <? size (matched_text r) then size (matched_text r) else 1))
                    (size (matched_text r)))
          as (fuel0 & E0 & H0);
          [destruct (Z.ltb_spec 0 (size (matched_text r))); lia|].
        exists fuel0. cbn [RegexM.searchAllLoop].
        replace (pos <=? size text) with true by (symmetry; apply Z.leb_le; lia).
        rewrite E0. cbn [bind]. unfold mr_length. rewrite Eg.
        destruct (RegexM.searchAllLoop rounds fuel0 re text _ _); cbn [bind];
          [discriminate | discriminate | contradiction H0; reflexivity].
    + destruct (Hcont (pos + 1) 0 ltac:(lia)) as (fuel0 & E0 & H0).
      exists fuel0. cbn [RegexM.searchAllLoop].
      replace (pos <=? size text) with true by (symmetry; apply Z.leb_le; lia).
      rewrite E0. cbn [bind]. exact H0.
    + exists f0. cbn [RegexM.searchAllLoop].
      replace (pos <=? size text) with true by (symmetry; apply Z.leb_le; lia).
      rewrite E. cbn [bind]. discriminate.
Qed.

Lemma searchAll_ends (text : cstring) :
  exists fuel0, RegexM.searchAll fuel0 re text <> OutOfFuel.
Proof.
  unfold RegexM.searchAll. destruct (negb (compiled_ re)); [exists 0%nat; discriminate|].
  apply searchAllLoop_ends; lia.
Qed.

Lemma replaceLoop_ends (replacement : cstring) (rounds : nat) :
  forall result_ pos,
    0 <= pos ->
    (Z.to_nat (size result_ - pos) <= rounds)%nat ->
    exists fuel0, RegexM.replaceLoop rounds fuel0 re replacement result_ pos <> OutOfFuel.
Proof.
  induction rounds as [|rounds IH]; intros result_ pos Hpos Hr.
  - exists 0%nat. cbn [RegexM.replaceLoop].
    destruct (Z.ltb_spec pos (size result_)); [lia | discriminate].
  - destruct (Z.ltb_spec pos (size result_)) as [Hlt|Hge].
    2:{ exists 0%nat. cbn [RegexM.replaceLoop].
        destruct (Z.ltb_spec pos (size result_)); [lia | discriminate]. }
    destruct (search_ends result_ pos Hpos) as (f0 & Hne).
    destruct (RegexM.search f0 re result_ pos) as [[m|]|e|] eqn:E;
      [| | |contradiction Hne; reflexivity].
    + destruct (LoopBounds.search_hit f0 re captureCount_pos _ _ _ Hpos E)
        as (n & Hp & Hn & Ht & Hprog).
      assert (Hsz : mr_length m = n).
      { unfold mr_length. rewrite Ht. unfold size in *.
        rewrite length_firstn, length_skipn. lia. }
      set (repl := RegexM.expandReplacement replacement m).
      destruct (string_replace result_ (position m) (mr_length m) repl) as [r'|e|] eqn:Er.
      * assert (Hr' : r' = firstn (Z.to_nat (position m)) result_ ++ repl
                           ++ skipn (Z.to_nat (position m + n)) result_).
        { unfold string_replace in Er.
          destruct (Z.ltb_spec (size result_) (position m)); [lia|].
          rewrite Hsz in Er. rewrite Z.min_l in Er by lia. inversion Er. reflexivity. }
        destruct (IH r' (position m + size repl)) as (f1 & H1).
        { pose proof (size_nonneg repl). lia. }
        { rewrite Hr', !size_app.
          assert (size (firstn (Z.to_nat (position m)) result_) = position m)
            by (unfold size in *; rewrite length_firstn; lia).
          assert (size (skipn (Z.to_nat (position m + n)) result_)
                  = size result_ - position m - n)
            by (unfold size in *; rewrite length_skipn; lia).
          lia. }
        exists (Nat.max f0 f1). cbn [RegexM.replaceLoop].
        replace (pos <? size result_) with true by (symmetry; apply Z.ltb_lt; lia).
        rewrite (search_more result_ pos f0 (Nat.max f0 f1)) by (rewrite ?E; try discriminate; lia).
        rewrite E. cbn [bind]. fold repl. rewrite Er. cbn [bind].
        rewrite (replaceLoop_more replacement rounds f1 (Nat.max f0 f1));
          [exact H1 | lia | exact H1].
      * exists f0. cbn [RegexM.replaceLoop].
        replace (pos <? size result_) with true by (symmetry; apply Z.ltb_lt; lia).
        rewrite E. cbn [bind]. fold repl. rewrite Er. discriminate.
      * unfold string_replace in Er. destruct (size result_ <? position m); discriminate Er.
    + exists f0. cbn [RegexM.replaceLoop].
      replace (pos <? size result_) with true by (symmetry; apply Z.ltb_lt; lia).
      rewrite E. cbn [bind]. discriminate.
    + exists f0. cbn [RegexM.replaceLoop].
      replace (pos <? size result_) with true by (symmetry; apply Z.ltb_lt; lia).
      rewrite E. cbn [bind]. discriminate.
Qed.

Lemma replace_ends (text replacement : cstring) (all : bool) :
  exists fuel0, RegexM.replace fuel0 re text replacement all <> OutOfFuel.
Proof.
  unfold RegexM.replace. destruct (negb (compiled_ re)); [exists 0%nat; discriminate|].
  destruct all.
  - apply replaceLoop_ends; unfold size; lia.
  - destruct (search_ends text 0 ltac:(lia)) as (f0 & Hne). exists f0.
    destruct (RegexM.search f0 re text 0) as [[m|]|e|]; cbn [bind];
      [|discriminate|discriminate|contradiction Hne; reflexivity].
    unfold string_replace. destruct (size text <? position m); discriminate.
Qed.
End Loops.
End Halting.

(** X11.  The loops of [search], [searchAll] and [replace] always advance:
    for a pattern whose match attempts all come to an end, the three
    functions return or throw on every text, from every start offset and
    for every replacement.  Each text has its own number of steps that is
    enough, and more steps do not change the result. *)
Theorem facade_loops_always_advance :
  forall (pattern : cstring) (re : Regex),
    compile pattern = Ok re ->
    attempts_end re ->
    forall (text : cstring),
      (forall start, 0 <= start ->
         exists fuel0, settles (fun fuel => RegexM.search fuel re text start) fuel0)
      /\ (exists fuel0, settles (fun fuel => RegexM.searchAll fuel re text) fuel0)
      /\ (forall replacement all,
             exists fuel0,
               settles (fun fuel => RegexM.replace fuel re text replacement all) fuel0).
Proof.
  intros pattern re H Hends text.
  pose proof (compile_captureCount _ _ H) as Hcc.
  split; [|split].
  - intros start Hs. destruct (Halting.search_ends re Hcc Hends text start Hs) as (f0 & Hne).
    exists f0. split; [exact Hne|]. intros fuel Hle. now apply Halting.search_more.
  - destruct (Halting.searchAll_ends re Hcc Hends text) as (f0 & Hne).
    exists f0. split; [exact Hne|]. intros fuel Hle.
    unfold RegexM.searchAll in *. destruct (negb (compiled_ re)); [reflexivity|].
    now apply Halting.searchAllLoop_more.
  - intros replacement all.
    destruct (Halting.replace_ends re Hcc Hends text replacement all) as (f0 & Hne).
    exists f0. split; [exact Hne|]. intros fuel Hle.
    unfold RegexM.replace in *. destruct (negb (compiled_ re)); [reflexivity|].
    destruct all.
    + now apply Halting.replaceLoop_more.
    + apply Halting.bind_more; [exact Hne | | reflexivity].
      apply Halting.search_more; [|exact Hle].
      intros E. apply Hne. rewrite E. reflexivity.
Qed.

Lemma facade_loops_always_advance_witness :
  exists re,
    compile (str "a*") = Ok re
    /\ attempts_end re
    /\ exists fuel0,
        settles (fun fuel => RegexM.replace fuel re (str "baab") (str "-") true) fuel0.
Proof.
  exists (mkRegex (str "a*") (StarFacts.byte_star "a") true 0).
  assert (Hends : attempts_end (mkRegex (str "a*") (StarFacts.byte_star "a") true 0)).
  { intros text p Hp.
    exists (3 * leading "a" (skipn (Z.to_nat p) text) + 3)%nat.
    unfold RegexM.executeAt, VM.executeAt, VM.initial. cbn [instructions_].
    change (RegexM.captureCount _) with 1%nat.
    rewrite (StarFacts.run_star "a" text 1 (skipn (Z.to_nat p) text) p _ []
               _ ltac:(lia) eq_refl (le_n _)).
    intros E.
    pose proof (FacadeFacts.buildResult_returns 1 text
                  (VM.setcap (VM.setcap (List.repeat npos (1 * 2)) 0 p) 1
                     (p + Z.of_nat (leading "a" (skipn (Z.to_nat p) text))))) as Hb.
    destruct (VM.buildResult _ _ _); cbn [bind] in E; try discriminate E.
    now apply Hb. }
  split; [reflexivity | split; [exact Hends|]].
  apply (proj2 (proj2 (facade_loops_always_advance (str "a*") _ eq_refl Hends
                         (str "baab")))).
Defined.
